(** * CpuNonbondedForce: a shallow embedding of the CPU nonbonded kernel

    The development follows platforms/cpu/src/CpuNonbondedForce.cpp.
    Integers of the source ([int] loop counters, atom indices, k-vector
    components) are modelled in [Z]; single and double precision values are
    read as real numbers, so every arithmetic operation of the source is the
    exact operation on [R] (rounding of intermediate results is not part of
    this model).  Raw arrays ([float*], [std::vector]) are lists indexed by
    position, [std::set<int>] is a [gset Z]. *)

From Stdlib Require Import ZArith List Reals Lra Lia.
From stdpp Require Import base list gmap sets.

#[local] Open Scope Z_scope.

(** ** Loops *)

(** [for (int i = lo; i < hi; i++) body], for a body that assigns neither
    [i] nor the bound: the iterations are [lo], [lo+1], ..., [hi-1] (none
    when [hi <= lo]) and the state is threaded through them in order. *)
Definition for_loop {S : Type} (lo hi : Z) (body : Z -> S -> S) (s : S) : S :=
  foldl (fun s i => body i s) s (seqZ lo (hi - lo)).

(** The indices visited by [for (int i = start; i < n; i += step)]
    (with [step >= 1]); [fuel] bounds the number of iterations. *)
Fixpoint strided_from (fuel : nat) (i n step : Z) : list Z :=
  match fuel with
  | O => []
  | S fuel' => if Z_lt_dec i n then i :: strided_from fuel' (i + step) n step else []
  end.

Definition strided (start n step : Z) : list Z :=
  strided_from (Z.to_nat (n - start)) start n step.

(** ** Reciprocal space: the loop nest of calculateReciprocalIxn *)

Module Recip.

(** The two running lower bounds of the nest together with whatever the
    loop bodies accumulate. *)
Record nest (A : Type) : Type := Nest { lowry : Z; lowrz : Z; payload : A }.
Arguments Nest {A} _ _ _.
Arguments lowry {A} _.
Arguments lowrz {A} _.
Arguments payload {A} _.

(** The body of the loop over [ry] (lines 245-287).  [atXY rx ry] stands for
    the statements executed once per [(rx, ry)] before the innermost loop
    (the [tab_xy] products) and [atK rx ry rz] for the body of the innermost
    loop.  [lowrz] is reset inside the innermost body and [lowry] at the end
    of the middle body, exactly where the source has the two assignments. *)
Definition middle_body {A : Type} (numRy numRz : Z)
    (atXY : Z -> Z -> A -> A) (atK : Z -> Z -> Z -> A -> A) (rx ry : Z)
    (st : nest A) : nest A :=
  let st1 := Nest (lowry st) (lowrz st) (atXY rx ry (payload st)) in
  let st2 :=
    for_loop (lowrz st1) numRz (fun rz s =>
      Nest (lowry s) (1 - numRz) (atK rx ry rz (payload s))) st1 in
  Nest (1 - numRy) (lowrz st2) (payload st2).

(** Lines 239-289: the loop nest, started with [lowry = 0] and
    [lowrz = 1]. *)
Definition loops {A : Type} (numRx numRy numRz : Z)
    (atXY : Z -> Z -> A -> A) (atK : Z -> Z -> Z -> A -> A) (a : A) : nest A :=
  for_loop 0 numRx (fun rx st =>
    for_loop (lowry st) numRy (middle_body numRy numRz atXY atK rx) st)
    (Nest 0 1 a).

(** The k-vectors for which the innermost body runs, in execution order. *)
Definition visited (numRx numRy numRz : Z) : list (Z * Z * Z) :=
  payload (loops numRx numRy numRz (fun _ _ tr => tr)
             (fun rx ry rz tr => tr ++ [(rx, ry, rz)]) []).

(** What the nest executes: the statements before the innermost loop for a
    pair [(rx, ry)], or the innermost body for a k-vector. *)
Inductive event : Type :=
  | AtXY (rx ry : Z)
  | AtK (rx ry rz : Z).

Definition events (numRx numRy numRz : Z) : list event :=
  payload (loops numRx numRy numRz (fun rx ry tr => tr ++ [AtXY rx ry])
             (fun rx ry rz tr => tr ++ [AtK rx ry rz]) []).

Definition run_event {A : Type} (atXY : Z -> Z -> A -> A)
    (atK : Z -> Z -> Z -> A -> A) (a : A) (e : event) : A :=
  match e with
  | AtXY rx ry => atXY rx ry a
  | AtK rx ry rz => atK rx ry rz a
  end.

(** The k-vector of an event of the innermost body. *)
Definition event_vector (e : event) : list (Z * Z * Z) :=
  match e with
  | AtXY _ _ => []
  | AtK rx ry rz => [(rx, ry, rz)]
  end.

(** The non-redundant half space: in range and lexicographically above
    the origin. *)
Definition in_range (numRx numRy numRz : Z) (k : Z * Z * Z) : Prop :=
  let '(rx, ry, rz) := k in
  0 <= rx < numRx /\ - numRy < ry < numRy /\ - numRz < rz < numRz.

Definition above_origin (k : Z * Z * Z) : Prop :=
  let '(rx, ry, rz) := k in
  0 < rx \/ (rx = 0 /\ 0 < ry) \/ (rx = 0 /\ ry = 0 /\ 0 < rz).

Definition half_space (numRx numRy numRz : Z) (k : Z * Z * Z) : Prop :=
  in_range numRx numRy numRz k /\ above_origin k.

(** The k-vectors of one column, one plane and one slab of the lattice, in
    increasing order of the free components. *)
Definition column (rx ry lo hi : Z) : list (Z * Z * Z) :=
  seqZ lo (hi - lo) ≫= fun rz => [(rx, ry, rz)].

Definition plane (numRz rx lo hi : Z) : list (Z * Z * Z) :=
  seqZ lo (hi - lo) ≫= fun ry => column rx ry (1 - numRz) numRz.

Definition slab (numRy numRz lo hi : Z) : list (Z * Z * Z) :=
  seqZ lo (hi - lo) ≫= fun rx => plane numRz rx (1 - numRy) numRy.

End Recip.

(** ** Real-valued data *)

#[local] Open Scope R_scope.

#[global] Instance R_inhabited : Inhabited R := populate 0.

(** What the translation unit takes from headers that are not part of it:
    the Coulomb constant [ONE_4PI_EPS0] (SimTKOpenMMRealType.h), the
    lane-wise [round] of vectorize.h, [erfc] of the C library and the
    natural-spline solver of SplineFitter.h, which maps the sample
    abscissas and ordinates to the second derivatives at the samples, and
    the mesh solver of ReferencePME.h ([pme_init], [pme_exec] and
    [pme_destroy] in one: from alpha, the number of atoms, the mesh, the
    coordinates, the forces so far, the charges and the box to the new
    forces and the reciprocal energy). *)
Class Externals : Type := {
  ONE_4PI_EPS0 : R;
  round : R -> R;
  erfc : R -> R;
  createNaturalSpline : list R -> list R -> list R;
  pme_exec : R -> Z -> Z * Z * Z -> list (R * R * R) -> list (R * R * R) ->
             list R -> R * R * R -> list (R * R * R) * R
}.

(** What the kernels expect of [round]: the result is within one half of
    the argument. *)
Definition round_to_nearest `{Externals} : Prop :=
  forall x, Rabs (x - round x) <= 1 / 2.

(** The sum of a list of reals. *)
Definition sumR (l : list R) : R := foldr Rplus 0 l.

Definition Rltb (a b : R) : bool := if Rlt_dec a b then true else false.
Definition Rleb (a b : R) : bool := if Rle_dec a b then true else false.

(** [fvec4]: four lanes of [float]. *)
Record fvec4 : Type := Fvec4 { v0 : R; v1 : R; v2 : R; v3 : R }.

Module V.
Definition splat (a : R) : fvec4 := Fvec4 a a a a.
Definition map (f : R -> R) (a : fvec4) : fvec4 :=
  Fvec4 (f (v0 a)) (f (v1 a)) (f (v2 a)) (f (v3 a)).
Definition map2 (f : R -> R -> R) (a b : fvec4) : fvec4 :=
  Fvec4 (f (v0 a) (v0 b)) (f (v1 a) (v1 b)) (f (v2 a) (v2 b)) (f (v3 a) (v3 b)).
Definition add := map2 Rplus.
Definition sub := map2 Rminus.
Definition mul := map2 Rmult.
Definition div := map2 Rdiv.
Definition scale (a : fvec4) (k : R) : fvec4 := map (fun x => x * k) a.
(** [v[j]] *)
Definition get (a : fvec4) (j : Z) : R :=
  if (j =? 0)%Z then v0 a else if (j =? 1)%Z then v1 a
  else if (j =? 2)%Z then v2 a else v3 a.
(** Lane-wise construction from an index function. *)
Definition tab (f : Z -> R) : fvec4 := Fvec4 (f 0%Z) (f 1%Z) (f 2%Z) (f 3%Z).
Definition dot3 (a b : fvec4) : R := v0 a * v0 b + v1 a * v1 b + v2 a * v2 b.
Definition dot4 (a b : fvec4) : R :=
  v0 a * v0 b + v1 a * v1 b + v2 a * v2 b + v3 a * v3 b.
(** [transpose(a, b, c, d)]: the four vectors as rows of a 4x4 matrix,
    replaced by its columns. *)
Definition transpose (a b c d : fvec4) : fvec4 * fvec4 * fvec4 * fvec4 :=
  (Fvec4 (v0 a) (v0 b) (v0 c) (v0 d), Fvec4 (v1 a) (v1 b) (v1 c) (v1 d),
   Fvec4 (v2 a) (v2 b) (v2 c) (v2 d), Fvec4 (v3 a) (v3 b) (v3 c) (v3 d)).
End V.

(** [a[i]] for a raw array or vector; a read outside the array, undefined in
    the source, yields the default element here. *)
Definition rd {A : Type} `{Inhabited A} (a : list A) (i : Z) : A :=
  if (i <? 0)%Z then inhabitant else a !!! Z.to_nat i.

(** [a[i] = x]; a write outside the array, undefined in the source, leaves
    the list as it is. *)
Definition wr {A : Type} (a : list A) (i : Z) (x : A) : list A :=
  if (i <? 0)%Z then a else <[Z.to_nat i := x]> a.

(** [fvec4(p + i)] and [v.store(p + i)]. *)
Definition load4 (a : list R) (i : Z) : fvec4 :=
  Fvec4 (rd a i) (rd a (i + 1)) (rd a (i + 2)) (rd a (i + 3)).

Definition store4 (a : list R) (i : Z) (v : fvec4) : list R :=
  wr (wr (wr (wr a i (v0 v)) (i + 1) (v1 v)) (i + 2) (v2 v)) (i + 3) (v3 v).

(** CpuNeighborList, as far as this file reads it. *)
Record CpuNeighborList : Type := {
  getNumBlocks : Z;
  getSortedAtoms : list Z;
  getBlockNeighbors : list (list Z);
  getBlockExclusions : list (list Z)
}.

#[global] Instance CpuNeighborList_inhabited : Inhabited CpuNeighborList :=
  populate {| getNumBlocks := 0; getSortedAtoms := [];
              getBlockNeighbors := []; getBlockExclusions := [] |}.

Definition NUM_TABLE_POINTS : Z := 1025.
Definition TWO_OVER_SQRT_PI : R := 2 / sqrt PI.

(** The data members of the class. *)
Record CpuNonbondedForce : Type := {
  cutoff : bool;
  useSwitch : bool;
  periodic : bool;
  ewald : bool;
  pme : bool;
  neighborList : CpuNeighborList;
  periodicBoxSize : R * R * R;
  cutoffDistance : R;
  switchingDistance : R;
  krf : R;
  crf : R;
  alphaEwald : R;
  numRx : Z;
  numRy : Z;
  numRz : Z;
  meshDim : Z * Z * Z;
  ewaldDX : R;
  ewaldDXInv : R;
  ewaldScaleTable : list R
}.

(** What calculateDirectIxn records for the threads. *)
Record DirectArgs : Type := {
  numberOfAtoms : Z;
  posq : list R;
  atomCoordinates : list (R * R * R);
  atomParameters : list (R * R);
  exclusions : list (gset Z)
}.

(** The constructor: every mode off. *)
Definition CpuNonbondedForce_new : CpuNonbondedForce :=
  {| cutoff := false; useSwitch := false; periodic := false; ewald := false;
     pme := false; neighborList := inhabitant; periodicBoxSize := (0, 0, 0);
     cutoffDistance := 0; switchingDistance := 0; krf := 0; crf := 0;
     alphaEwald := 0; numRx := 0; numRy := 0; numRz := 0;
     meshDim := (0, 0, 0)%Z; ewaldDX := 0; ewaldDXInv := 0;
     ewaldScaleTable := [] |}.

(** Lines 75-82; [pow(cutoffDistance, -3.0f)] is [/ cutoffDistance ^ 3]. *)
Definition setUseCutoff (f : CpuNonbondedForce) (distance : R)
    (neighbors : CpuNeighborList) (solventDielectric : R) : CpuNonbondedForce :=
  {| cutoff := true; useSwitch := useSwitch f; periodic := periodic f;
     ewald := ewald f; pme := pme f; neighborList := neighbors;
     periodicBoxSize := periodicBoxSize f;
     cutoffDistance := distance; switchingDistance := switchingDistance f;
     krf := / distance ^ 3 * (solventDielectric - 1) / (2 * solventDielectric + 1);
     crf := (1 / distance) * (3 * solventDielectric) / (2 * solventDielectric + 1);
     alphaEwald := alphaEwald f; numRx := numRx f; numRy := numRy f;
     numRz := numRz f; meshDim := meshDim f; ewaldDX := ewaldDX f;
     ewaldDXInv := ewaldDXInv f; ewaldScaleTable := ewaldScaleTable f |}.

(** Lines 92-95. *)
Definition setUseSwitchingFunction (f : CpuNonbondedForce) (distance : R)
    : CpuNonbondedForce :=
  {| cutoff := cutoff f; useSwitch := true; periodic := periodic f;
     ewald := ewald f; pme := pme f; neighborList := neighborList f;
     periodicBoxSize := periodicBoxSize f;
     cutoffDistance := cutoffDistance f; switchingDistance := distance;
     krf := krf f; crf := crf f;
     alphaEwald := alphaEwald f; numRx := numRx f; numRy := numRy f;
     numRz := numRz f; meshDim := meshDim f; ewaldDX := ewaldDX f;
     ewaldDXInv := ewaldDXInv f; ewaldScaleTable := ewaldScaleTable f |}.

(** Lines 107-117; the three assertions make the call fail, [None], when
    no cutoff is set or a side is shorter than twice the cutoff. *)
Definition setPeriodic (f : CpuNonbondedForce) (boxSize : R * R * R)
    : option CpuNonbondedForce :=
  let '(bx, by_, bz) := boxSize in
  if cutoff f && Rleb (2 * cutoffDistance f) bx
     && Rleb (2 * cutoffDistance f) by_ && Rleb (2 * cutoffDistance f) bz
  then Some
  {| cutoff := cutoff f; useSwitch := useSwitch f; periodic := true;
     ewald := ewald f; pme := pme f; neighborList := neighborList f;
     periodicBoxSize := (bx, by_, bz);
     cutoffDistance := cutoffDistance f; switchingDistance := switchingDistance f;
     krf := krf f; crf := crf f;
     alphaEwald := alphaEwald f; numRx := numRx f; numRy := numRy f;
     numRz := numRz f; meshDim := meshDim f; ewaldDX := ewaldDX f;
     ewaldDXInv := ewaldDXInv f; ewaldScaleTable := ewaldScaleTable f |}
  else None.

(** ** Geometry *)

Section Kernel.
Context {ext : Externals}.

(** Lines 660-667.  The result parameters [deltaR] and [r2] are returned as
    a pair. *)
Definition getDeltaR (posI posJ : fvec4) (periodic : bool)
    (boxSize invBoxSize : fvec4) : fvec4 * R :=
  let deltaR := V.sub posJ posI in
  let deltaR :=
    if periodic then
      let base := V.mul (V.map round (V.mul deltaR invBoxSize)) boxSize in
      V.sub deltaR base
    else deltaR in
  (deltaR, V.dot3 deltaR deltaR).

(** Lines 669-679: one atom [posI] against the four block atoms whose
    coordinates are the lanes of [x], [y], [z].  Returns [dx], [dy], [dz]
    and [r2]. *)
Definition getDeltaR4 (posI x y z : fvec4) (periodic : bool)
    (boxSize invBoxSize : fvec4) : fvec4 * fvec4 * fvec4 * fvec4 :=
  let dx := V.sub x (V.splat (v0 posI)) in
  let dy := V.sub y (V.splat (v1 posI)) in
  let dz := V.sub z (V.splat (v2 posI)) in
  let wrap (d : fvec4) (inv box : R) : fvec4 :=
    V.sub d (V.scale (V.map round (V.scale d inv)) box) in
  let '(dx, dy, dz) :=
    if periodic
    then (wrap dx (v0 invBoxSize) (v0 boxSize),
          wrap dy (v1 invBoxSize) (v1 boxSize),
          wrap dz (v2 invBoxSize) (v2 boxSize))
    else (dx, dy, dz) in
  (dx, dy, dz, V.add (V.add (V.mul dx dx) (V.mul dy dy)) (V.mul dz dz)).

(** ** The Ewald scale factor *)

(** Lines 681-691, one lane. *)
Definition erfcApprox1 (x : R) : R :=
  let t := 1 + (0.0705230784 + (0.0422820123 + (0.0092705272 + (0.0001520143
             + (0.0002765672 + 0.0000430638 * x) * x) * x) * x) * x) * x in
  let t := t * t in
  let t := t * t in
  let t := t * t in
  1 / (t * t).

Definition erfcApprox (x : fvec4) : fvec4 := V.map erfcApprox1 x.

(** The smallest [int], and the conversion of a whole-valued float lane to
    an [int] lane (line 698 converts [floor(x1)] to [ivec4]; vectorize.h does
    it with the truncating conversion of SSE): a value outside the range of
    [int] comes out as [INT_MIN]. *)
Definition INT_MIN : Z := (- 2 ^ 31)%Z.

Definition int_lane (z : Z) : Z :=
  if ((INT_MIN <=? z) && (z <? 2 ^ 31))%Z then z else INT_MIN.

(** Lines 693-710.  [y] is the local array the result is built in; the
    source does not initialise it, so what it holds on entry is the
    argument [y].  [index] is the [int] lane, and [coeff[1]] is formed with
    the converted lane.  For a negative [index] the source reads in front of
    the table; [load4] yields [rd]'s default there. *)
Definition ewaldScaleFunction (f : CpuNonbondedForce) (y : fvec4) (x : fvec4)
    : fvec4 :=
  let x1 := V.scale x (ewaldDXInv f) in
  let index (i : Z) : Z := int_lane (Zfloor (V.get x1 i)) in
  let c1 := V.tab (fun i => V.get x1 i - IZR (index i)) in
  let c0 := V.map (fun c => 1 - c) c1 in
  let c2 := V.sub (V.mul (V.mul c0 c0) c0) c0 in
  let c3 := V.sub (V.mul (V.mul c1 c1) c1) c1 in
  let '(k0, k1, k2, k3) := V.transpose c0 c1 c2 c3 in
  let coeff (i : Z) : fvec4 :=
    if (i =? 0)%Z then k0 else if (i =? 1)%Z then k1
    else if (i =? 2)%Z then k2 else k3 in
  V.tab (fun i =>
    if (index i <? NUM_TABLE_POINTS)%Z
    then V.dot4 (coeff i) (load4 (ewaldScaleTable f) (4 * index i))
    else V.get y i).

(** The samples of lines 161-169: [x] and [y] after the first loop. *)
Definition tabulate_xy (cutoffDistance alphaEwald : R) : list R * list R :=
  for_loop 0 (NUM_TABLE_POINTS + 1) (fun i '(x, y) =>
    let r := IZR i * cutoffDistance / IZR (NUM_TABLE_POINTS - 2) in
    let alphaR := alphaEwald * r in
    (wr x i r,
     wr y i (erfc alphaR + TWO_OVER_SQRT_PI * alphaR * exp (- alphaR * alphaR))))
    (replicate (Z.to_nat (NUM_TABLE_POINTS + 1)) 0,
     replicate (Z.to_nat (NUM_TABLE_POINTS + 1)) 0).

(** Lines 158-178. *)
Definition tabulateEwaldScaleFactor (f : CpuNonbondedForce) : CpuNonbondedForce :=
  let dX := cutoffDistance f / IZR (NUM_TABLE_POINTS - 2) in
  let '(x, y) := tabulate_xy (cutoffDistance f) (alphaEwald f) in
  let deriv := createNaturalSpline x y in
  let table :=
    for_loop 0 NUM_TABLE_POINTS (fun i t =>
      let t := wr t (4 * i) (rd y i) in
      let t := wr t (4 * i + 1) (rd y (i + 1)) in
      let t := wr t (4 * i + 2) (rd deriv i * dX * dX / 6) in
      wr t (4 * i + 3) (rd deriv (i + 1) * dX * dX / 6))
    (resize (Z.to_nat (4 * NUM_TABLE_POINTS)) 0 (ewaldScaleTable f)) in
  {| cutoff := cutoff f; useSwitch := useSwitch f; periodic := periodic f;
     ewald := ewald f; pme := pme f; neighborList := neighborList f;
     periodicBoxSize := periodicBoxSize f;
     cutoffDistance := cutoffDistance f; switchingDistance := switchingDistance f;
     krf := krf f; crf := crf f;
     alphaEwald := alphaEwald f; numRx := numRx f; numRy := numRy f;
     numRz := numRz f; meshDim := meshDim f; ewaldDX := dX;
     ewaldDXInv := 1 / dX; ewaldScaleTable := table |}.

(** Lines 130-137. *)
Definition setUseEwald (f : CpuNonbondedForce) (alpha : R) (kmaxx kmaxy kmaxz : Z)
    : CpuNonbondedForce :=
  tabulateEwaldScaleFactor
  {| cutoff := cutoff f; useSwitch := useSwitch f; periodic := periodic f;
     ewald := true; pme := pme f; neighborList := neighborList f;
     periodicBoxSize := periodicBoxSize f;
     cutoffDistance := cutoffDistance f; switchingDistance := switchingDistance f;
     krf := krf f; crf := crf f;
     alphaEwald := alpha; numRx := kmaxx; numRy := kmaxy;
     numRz := kmaxz; meshDim := meshDim f; ewaldDX := ewaldDX f;
     ewaldDXInv := ewaldDXInv f; ewaldScaleTable := ewaldScaleTable f |}.

(** Lines 148-155. *)
Definition setUsePME (f : CpuNonbondedForce) (alpha : R) (meshSize : Z * Z * Z)
    : CpuNonbondedForce :=
  tabulateEwaldScaleFactor
  {| cutoff := cutoff f; useSwitch := useSwitch f; periodic := periodic f;
     ewald := ewald f; pme := true; neighborList := neighborList f;
     periodicBoxSize := periodicBoxSize f;
     cutoffDistance := cutoffDistance f; switchingDistance := switchingDistance f;
     krf := krf f; crf := crf f;
     alphaEwald := alpha; numRx := numRx f; numRy := numRy f;
     numRz := numRz f; meshDim := meshSize; ewaldDX := ewaldDX f;
     ewaldDXInv := ewaldDXInv f; ewaldScaleTable := ewaldScaleTable f |}.

(** ** The pair kernels *)

(** The quintic taper, as both kernels write it (lines 409-410, 505-506). *)
Definition switchValueAt (t : R) : R := 1 + t * t * t * (-10 + t * (15 - t * 6)).

Definition switchDerivAt (f : CpuNonbondedForce) (t : R) : R :=
  t * t * (-30 + t * (60 - t * 30)) / (cutoffDistance f - switchingDistance f).

(** The argument of the taper at distance [r]. *)
Definition switchArg (f : CpuNonbondedForce) (r : R) : R :=
  (r - switchingDistance f) / (cutoffDistance f - switchingDistance f).

(** Lines 406-411: [switchValue] and [switchDeriv] of calculateOneIxn. *)
Definition switchFunction (f : CpuNonbondedForce) (r : R) : R * R :=
  if useSwitch f && Rltb (switchingDistance f) r then
    let t := switchArg f r in
    (switchValueAt t, switchDerivAt f t)
  else (1, 0).

(** The reaction-field energy of a pair (lines 435 and 530). *)
Definition reactionFieldEnergy (f : CpuNonbondedForce)
    (chargeProd inverseR r2 : R) : R :=
  chargeProd * (inverseR + krf f * r2 - crf f).

(** [a[j] = x] for one of the four-element local arrays, which are modelled
    as functions of the index. *)
Definition upd {A : Type} (a : Z -> A) (j : Z) (x : A) : Z -> A :=
  fun k => if (k =? j)%Z then x else a k.

(** Lines 394-446.  [totalEnergy] is the [double*] argument: [None] is the
    null pointer, [Some e] a pointer to a cell holding [e]. *)
Definition calculateOneIxn (f : CpuNonbondedForce) (a : DirectArgs) (ii jj : Z)
    (forces : list R) (totalEnergy : option R) (boxSize invBoxSize : fvec4)
    : list R * option R :=
  let posI := load4 (posq a) (4 * ii) in
  let posJ := load4 (posq a) (4 * jj) in
  let '(deltaR, r2) := getDeltaR posJ posI (periodic f) boxSize invBoxSize in
  if cutoff f && Rleb (cutoffDistance f * cutoffDistance f) r2
  then (forces, totalEnergy)
  else
    let r := sqrt r2 in
    let inverseR := 1 / r in
    let '(switchValue, switchDeriv) := switchFunction f r in
    let sig := (rd (atomParameters a) ii).1 + (rd (atomParameters a) jj).1 in
    let sig2 := inverseR * sig in
    let sig2 := sig2 * sig2 in
    let sig6 := sig2 * sig2 * sig2 in
    let eps := (rd (atomParameters a) ii).2 * (rd (atomParameters a) jj).2 in
    let dEdR := switchValue * eps * (12 * sig6 - 6) * sig6 in
    let chargeProd :=
      ONE_4PI_EPS0 * rd (posq a) (4 * ii + 3) * rd (posq a) (4 * jj + 3) in
    let dEdR :=
      if cutoff f then dEdR + chargeProd * (inverseR - 2 * krf f * r2)
      else dEdR + chargeProd * inverseR in
    let dEdR := dEdR * (inverseR * inverseR) in
    let energy := eps * (sig6 - 1) * sig6 in
    let '(dEdR, energy) :=
      if useSwitch f
      then (dEdR - energy * switchDeriv * inverseR, energy * switchValue)
      else (dEdR, energy) in
    let totalEnergy :=
      match totalEnergy with
      | Some e =>
          let energy :=
            if cutoff f then energy + reactionFieldEnergy f chargeProd inverseR r2
            else energy + chargeProd * inverseR in
          Some (e + energy)
      | None => None
      end in
    let result := V.scale deltaR dEdR in
    let forces := store4 forces (4 * ii) (V.add (load4 forces (4 * ii)) result) in
    let forces := store4 forces (4 * jj) (V.sub (load4 forces (4 * jj)) result) in
    (forces, totalEnergy).

(** What lines 451-473 (and 561-581) load for a block. *)
Record BlockData : Type := {
  blockAtom : Z -> Z;
  blockAtomPosq : Z -> fvec4;
  blockAtomX : fvec4;
  blockAtomY : fvec4;
  blockAtomZ : fvec4;
  blockAtomCharge : fvec4;
  blockAtomSigma : fvec4;
  blockAtomEpsilon : fvec4
}.

Definition loadBlock (f : CpuNonbondedForce) (a : DirectArgs) (blockIndex : Z)
    : BlockData :=
  let atom (i : Z) := rd (getSortedAtoms (neighborList f)) (4 * blockIndex + i) in
  let pq (i : Z) := load4 (posq a) (4 * atom i) in
  {| blockAtom := atom;
     blockAtomPosq := pq;
     blockAtomX := V.tab (fun i => v0 (pq i));
     blockAtomY := V.tab (fun i => v1 (pq i));
     blockAtomZ := V.tab (fun i => v2 (pq i));
     blockAtomCharge :=
       V.mul (V.splat ONE_4PI_EPS0) (V.tab (fun i => v3 (pq i)));
     blockAtomSigma := V.tab (fun i => (rd (atomParameters a) (atom i)).1);
     blockAtomEpsilon := V.tab (fun i => (rd (atomParameters a) (atom i)).2) |}.

(** The two nested loops that look for a block atom within the cutoff of a
    box face (lines 467-472 and 576-581). *)
Definition nearBoxFace (f : CpuNonbondedForce) (b : BlockData) (boxSize : fvec4)
    : bool :=
  existsb (fun i =>
    existsb (fun j =>
      Rltb (V.get (blockAtomPosq b i) j - cutoffDistance f) 0
      || Rltb (V.get boxSize j) (V.get (blockAtomPosq b i) j + cutoffDistance f))
      [0; 1; 2]%Z)
    [0; 1; 2; 3]%Z.

(** [(exclusions[i] >> j) & 1] *)
Definition exclusionBit (e j : Z) : Z := Z.land (Z.shiftr e j) 1.

(** The quintic taper of the blocked kernels (lines 504-506, 612-614):
    [t] is zeroed in the lanes where [r > switchingDistance] fails. *)
Definition blockSwitch (f : CpuNonbondedForce) (r : fvec4) : fvec4 * fvec4 :=
  if useSwitch f then
    let t := V.map (fun x =>
               if Rltb (switchingDistance f) x then switchArg f x else 0) r in
    (V.map switchValueAt t, V.map (switchDerivAt f) t)
  else (V.splat 1, V.splat 0).

(** Lines 533-535 and 635-637. *)
Definition addIncludedEnergy (include : Z -> bool) (energy : fvec4)
    (totalEnergy : R) : R :=
  for_loop 0 4 (fun j e => if include j then e + V.get energy j else e)
    totalEnergy.

(** Lines 540-549 and 642-651: the force of one neighbour on the block atoms
    and its reaction on the neighbour. *)
Definition accumulateForces (include : Z -> bool) (dx dy dz dEdR : fvec4)
    (atom : Z) (blockAtomForce : Z -> fvec4) (forces : list R)
    : (Z -> fvec4) * list R :=
  let '(r0, r1, r2, r3) :=
    V.transpose (V.mul dx dEdR) (V.mul dy dEdR) (V.mul dz dEdR) (V.splat 0) in
  let result (j : Z) : fvec4 :=
    if (j =? 0)%Z then r0 else if (j =? 1)%Z then r1
    else if (j =? 2)%Z then r2 else r3 in
  let '(blockAtomForce, atomForce) :=
    for_loop 0 4 (fun j '(bf, af) =>
      if include j
      then (upd bf j (V.add (bf j) (result j)), V.sub af (result j))
      else (bf, af))
      (blockAtomForce, load4 forces (4 * atom)) in
  (blockAtomForce, store4 forces (4 * atom) atomForce).

(** Line 492: whether lane [j] takes part, for the exclusion mask [e] of
    the neighbour and the squared distances [r2]. *)
Definition blockInclude (f : CpuNonbondedForce) (e : Z) (r2 : fvec4) (j : Z)
    : bool :=
  (exclusionBit e j =? 0)%Z
  && (negb (cutoff f)
      || Rltb (V.get r2 j) (cutoffDistance f * cutoffDistance f)).

(** Line 600: the same for the Ewald kernel, where the cutoff always applies. *)
Definition ewaldInclude (f : CpuNonbondedForce) (e : Z) (r2 : fvec4) (j : Z)
    : bool :=
  (exclusionBit e j =? 0)%Z
  && Rltb (V.get r2 j) (cutoffDistance f * cutoffDistance f).

(** The body of the neighbour loop of calculateBlockIxn (lines 481-549) for
    the [i]-th neighbour of the block. *)
Definition calculateBlockIxn_neighbor (f : CpuNonbondedForce) (a : DirectArgs)
    (b : BlockData) (needPeriodic : bool) (neighbors exclusions : list Z)
    (boxSize invBoxSize : fvec4) (i : Z)
    (st : (Z -> fvec4) * list R * option R) : (Z -> fvec4) * list R * option R :=
  let '(blockAtomForce, forces, totalEnergy) := st in
  let atom := rd neighbors i in
  let atomPosq := load4 (posq a) (4 * atom) in
  let '(dx, dy, dz, r2) :=
    getDeltaR4 atomPosq (blockAtomX b) (blockAtomY b) (blockAtomZ b)
      needPeriodic boxSize invBoxSize in
  let include := blockInclude f (rd exclusions i) r2 in
  if negb (existsb include [0; 1; 2; 3]%Z) then st
  else
    let r := V.map sqrt r2 in
    let inverseR := V.div (V.splat 1) r in
    let '(switchValue, switchDeriv) := blockSwitch f r in
    let sig := V.add (blockAtomSigma b) (V.splat (rd (atomParameters a) atom).1) in
    let sig2 := V.mul inverseR sig in
    let sig2 := V.mul sig2 sig2 in
    let sig6 := V.mul (V.mul sig2 sig2) sig2 in
    let eps := V.scale (blockAtomEpsilon b) (rd (atomParameters a) atom).2 in
    let dEdR :=
      V.mul (V.mul (V.mul switchValue eps)
                   (V.map (fun s => 12 * s - 6) sig6)) sig6 in
    let chargeProd := V.scale (blockAtomCharge b) (rd (posq a) (4 * atom + 3)) in
    let dEdR :=
      if cutoff f
      then V.add dEdR (V.mul chargeProd
                         (V.sub inverseR (V.map (fun x => 2 * krf f * x) r2)))
      else V.add dEdR (V.mul chargeProd inverseR) in
    let dEdR := V.mul dEdR (V.mul inverseR inverseR) in
    let energy := V.mul (V.mul eps (V.map (fun s => s - 1) sig6)) sig6 in
    let '(dEdR, energy) :=
      if useSwitch f
      then (V.sub dEdR (V.mul (V.mul energy switchDeriv) inverseR),
            V.mul energy switchValue)
      else (dEdR, energy) in
    let totalEnergy :=
      match totalEnergy with
      | Some e =>
          let energy :=
            if cutoff f
            then V.add energy
                   (V.tab (fun j =>
                      reactionFieldEnergy f (V.get chargeProd j)
                        (V.get inverseR j) (V.get r2 j)))
            else V.add energy (V.mul chargeProd inverseR) in
          Some (addIncludedEnergy include energy e)
      | None => None
      end in
    let '(blockAtomForce, forces) :=
      accumulateForces include dx dy dz dEdR atom blockAtomForce forces in
    (blockAtomForce, forces, totalEnergy).

(** Lines 554-555 and 656-657. *)
Definition recordBlockForces (b : BlockData) (blockAtomForce : Z -> fvec4)
    (forces : list R) : list R :=
  for_loop 0 4 (fun j forces =>
    store4 forces (4 * blockAtom b j)
      (V.add (load4 forces (4 * blockAtom b j)) (blockAtomForce j))) forces.

(** Lines 448-556. *)
Definition calculateBlockIxn (f : CpuNonbondedForce) (a : DirectArgs)
    (blockIndex : Z) (forces : list R) (totalEnergy : option R)
    (boxSize invBoxSize : fvec4) : list R * option R :=
  let b := loadBlock f a blockIndex in
  let needPeriodic := periodic f && nearBoxFace f b boxSize in
  let neighbors := rd (getBlockNeighbors (neighborList f)) blockIndex in
  let exclusions := rd (getBlockExclusions (neighborList f)) blockIndex in
  let '(blockAtomForce, forces, totalEnergy) :=
    for_loop 0 (Z.of_nat (length neighbors))
      (calculateBlockIxn_neighbor f a b needPeriodic neighbors exclusions
         boxSize invBoxSize)
      (fun _ => V.splat 0, forces, totalEnergy) in
  (recordBlockForces b blockAtomForce forces, totalEnergy).

(** The body of the neighbour loop of calculateBlockEwaldIxn (lines
    589-651).  [y] is what the local array of ewaldScaleFunction holds on
    entry to the call made for this neighbour. *)
Definition calculateBlockEwaldIxn_neighbor (f : CpuNonbondedForce)
    (a : DirectArgs) (b : BlockData) (needPeriodic : bool)
    (neighbors exclusions : list Z) (boxSize invBoxSize : fvec4)
    (y : Z -> fvec4) (i : Z)
    (st : (Z -> fvec4) * list R * option R) : (Z -> fvec4) * list R * option R :=
  let '(blockAtomForce, forces, totalEnergy) := st in
  let atom := rd neighbors i in
  let atomPosq := load4 (posq a) (4 * atom) in
  let '(dx, dy, dz, r2) :=
    getDeltaR4 atomPosq (blockAtomX b) (blockAtomY b) (blockAtomZ b)
      needPeriodic boxSize invBoxSize in
  let include := ewaldInclude f (rd exclusions i) r2 in
  if negb (existsb include [0; 1; 2; 3]%Z) then st
  else
    let r := V.map sqrt r2 in
    let inverseR := V.div (V.splat 1) r in
    let '(switchValue, switchDeriv) := blockSwitch f r in
    let chargeProd := V.scale (blockAtomCharge b) (rd (posq a) (4 * atom + 3)) in
    let dEdR := V.mul (V.mul chargeProd inverseR) (ewaldScaleFunction f (y i) r) in
    let sig := V.add (blockAtomSigma b) (V.splat (rd (atomParameters a) atom).1) in
    let sig2 := V.mul inverseR sig in
    let sig2 := V.mul sig2 sig2 in
    let sig6 := V.mul (V.mul sig2 sig2) sig2 in
    let eps := V.scale (blockAtomEpsilon b) (rd (atomParameters a) atom).2 in
    let dEdR :=
      V.add dEdR
        (V.mul (V.mul (V.mul switchValue eps)
                      (V.map (fun s => 12 * s - 6) sig6)) sig6) in
    let dEdR := V.mul dEdR (V.mul inverseR inverseR) in
    let energy := V.mul (V.mul eps (V.map (fun s => s - 1) sig6)) sig6 in
    let '(dEdR, energy) :=
      if useSwitch f
      then (V.sub dEdR (V.mul (V.mul energy switchDeriv) inverseR),
            V.mul energy switchValue)
      else (dEdR, energy) in
    let totalEnergy :=
      match totalEnergy with
      | Some e =>
          let energy :=
            V.add energy
              (V.mul (V.mul chargeProd inverseR)
                 (erfcApprox (V.map (fun x => alphaEwald f * x) r))) in
          Some (addIncludedEnergy include energy e)
      | None => None
      end in
    let '(blockAtomForce, forces) :=
      accumulateForces include dx dy dz dEdR atom blockAtomForce forces in
    (blockAtomForce, forces, totalEnergy).

(** Lines 558-658; [needPeriodic] is computed whatever the [periodic] flag. *)
Definition calculateBlockEwaldIxn (f : CpuNonbondedForce) (a : DirectArgs)
    (y : Z -> fvec4) (blockIndex : Z) (forces : list R) (totalEnergy : option R)
    (boxSize invBoxSize : fvec4) : list R * option R :=
  let b := loadBlock f a blockIndex in
  let needPeriodic := nearBoxFace f b boxSize in
  let neighbors := rd (getBlockNeighbors (neighborList f)) blockIndex in
  let exclusions := rd (getBlockExclusions (neighborList f)) blockIndex in
  let '(blockAtomForce, forces, totalEnergy) :=
    for_loop 0 (Z.of_nat (length neighbors))
      (calculateBlockEwaldIxn_neighbor f a b needPeriodic neighbors exclusions
         boxSize invBoxSize y)
      (fun _ => V.splat 0, forces, totalEnergy) in
  (recordBlockForces b blockAtomForce forces, totalEnergy).

(** ** One thread's share of the direct-space work *)

(** A kernel called with [energyPtr], which points to the thread's energy
    cell when energies are wanted and is null otherwise. *)
Definition with_energyPtr (includeEnergy : bool)
    (kernel : option R -> list R * option R) (threadEnergy : R) : list R * R :=
  let '(forces, p) := kernel (if includeEnergy then Some threadEnergy else None) in
  (forces, default threadEnergy p).

(** [fvec4((float) c[0], (float) c[1], (float) c[2], 0.0f)] *)
Definition coordinates4 (c : R * R * R) : fvec4 := Fvec4 c.1.1 c.1.2 c.2 0.

(** Lines 356-372: the correction for the excluded pair [(i, j)]. *)
Definition exclusionCorrection (f : CpuNonbondedForce) (a : DirectArgs)
    (includeEnergy : bool) (boxSize invBoxSize : fvec4) (i j : Z)
    (st : list R * R) : list R * R :=
  let '(forces, threadEnergy) := st in
  let posI := coordinates4 (rd (atomCoordinates a) i) in
  let posJ := coordinates4 (rd (atomCoordinates a) j) in
  let '(deltaR, r2) := getDeltaR posJ posI false boxSize invBoxSize in
  let r := sqrt r2 in
  let inverseR := 1 / r in
  let chargeProd :=
    ONE_4PI_EPS0 * rd (posq a) (4 * i + 3) * rd (posq a) (4 * j + 3) in
  let alphaR := alphaEwald f * r in
  let erfcAlphaR := v0 (erfcApprox (V.splat alphaR)) in
  let dEdR := chargeProd * inverseR * inverseR * inverseR in
  let dEdR :=
    dEdR * (1 - erfcAlphaR - TWO_OVER_SQRT_PI * alphaR * exp (- alphaR * alphaR)) in
  let result := V.scale deltaR dEdR in
  let forces := store4 forces (4 * i) (V.sub (load4 forces (4 * i)) result) in
  let forces := store4 forces (4 * j) (V.add (load4 forces (4 * j)) result) in
  (forces,
   if includeEnergy
   then threadEnergy - chargeProd * inverseR * (1 - erfcAlphaR)
   else threadEnergy).

(** Lines 352-375: atoms [threadIndex], [threadIndex + numThreads], ...; for
    each of them the members of its exclusion set, of which only those with
    a larger index are corrected.  The set is traversed through [elements];
    the source traverses it in increasing order. *)
Definition subtractExclusions (f : CpuNonbondedForce) (a : DirectArgs)
    (includeEnergy : bool) (numThreads threadIndex : Z)
    (boxSize invBoxSize : fvec4) (st : list R * R) : list R * R :=
  foldl (fun st i =>
    foldl (fun st j =>
      if (i <? j)%Z
      then exclusionCorrection f a includeEnergy boxSize invBoxSize i j st
      else st) st (elements (rd (exclusions a) i)))
    st (strided threadIndex (numberOfAtoms a) numThreads).

(** Lines 386-390: all pairs [i < j] with [i] in the thread's stride, except
    those for which [exclusions[j]] contains [i]. *)
Definition allPairs (f : CpuNonbondedForce) (a : DirectArgs)
    (includeEnergy : bool) (numThreads threadIndex : Z)
    (boxSize invBoxSize : fvec4) (st : list R * R) : list R * R :=
  foldl (fun st i =>
    for_loop (i + 1) (numberOfAtoms a) (fun j st =>
      if bool_decide (i ∉ rd (exclusions a) j)
      then with_energyPtr includeEnergy
             (fun p => calculateOneIxn f a i j st.1 p boxSize invBoxSize) st.2
      else st) st)
    st (strided threadIndex (numberOfAtoms a) numThreads).

(** Lines 330-392.  Returns [threadForce[threadIndex]] and
    [threadEnergy[threadIndex]].  [y blockIndex i] is the content found in
    the uninitialised local array of ewaldScaleFunction at the call for
    neighbour [i] of block [blockIndex]. *)
Definition threadComputeDirect (f : CpuNonbondedForce) (a : DirectArgs)
    (includeEnergy : bool) (y : Z -> Z -> fvec4) (numThreads threadIndex : Z)
    : list R * R :=
  let threadEnergy := 0 in
  let forces := replicate (Z.to_nat (4 * numberOfAtoms a)) 0 in
  let '(bx, by_, bz) := periodicBoxSize f in
  let boxSize := Fvec4 bx by_ bz 0 in
  let invBoxSize := Fvec4 (1 / bx) (1 / by_) (1 / bz) 0 in
  let blocks := strided threadIndex (getNumBlocks (neighborList f)) numThreads in
  if ewald f || pme f then
    let st :=
      foldl (fun st i =>
        with_energyPtr includeEnergy
          (fun p => calculateBlockEwaldIxn f a (y i) i st.1 p boxSize invBoxSize)
          st.2) (forces, threadEnergy) blocks in
    subtractExclusions f a includeEnergy numThreads threadIndex
      boxSize invBoxSize st
  else if cutoff f then
    foldl (fun st i =>
      with_energyPtr includeEnergy
        (fun p => calculateBlockIxn f a i st.1 p boxSize invBoxSize) st.2)
      (forces, threadEnergy) blocks
  else
    allPairs f a includeEnergy numThreads threadIndex boxSize invBoxSize
      (forces, threadEnergy).

(** ** Combining the threads *)

(** Lines 315-327. *)
Definition combineThreads (numberOfAtoms numThreads : Z)
    (threadEnergy : list R) (threadForce : list (list R))
    (forces : list R) (totalEnergy : option R) : list R * option R :=
  let directEnergy :=
    for_loop 0 numThreads (fun i e => e + rd threadEnergy i) 0 in
  let forces :=
    for_loop 0 numberOfAtoms (fun i forces =>
      let fv :=
        for_loop 0 numThreads (fun j fv =>
          V.add fv (load4 (rd threadForce j) (4 * i)))
          (load4 forces (4 * i)) in
      store4 forces (4 * i) fv) forces in
  (forces,
   match totalEnergy with
   | Some e => Some (e + directEnergy)
   | None => None
   end).

(** Lines 294-328.  The pool runs threadComputeDirect once for every thread
    index; a thread writes only its own slot of [threadEnergy] and
    [threadForce], so the slots after [waitForThreads] are the results of
    the calls. *)
Definition calculateDirectIxn (f : CpuNonbondedForce) (a : DirectArgs)
    (y : Z -> Z -> Z -> fvec4) (forces : list R) (totalEnergy : option R)
    (numThreads : Z) : list R * option R :=
  let includeEnergy := bool_decide (is_Some totalEnergy) in
  let results :=
    (fun t => threadComputeDirect f a includeEnergy (y t) numThreads t)
      <$> seqZ 0 numThreads in
  combineThreads (numberOfAtoms a) numThreads (results.*2) (results.*1)
    forces totalEnergy.

(** ** Reciprocal space *)

(** [std::complex<float>] as real and imaginary part. *)
Definition d_complex : Type := R * R.
Definition cmul (a b : d_complex) : d_complex :=
  (a.1 * b.1 - a.2 * b.2, a.1 * b.2 + a.2 * b.1).
Definition conj (a : d_complex) : d_complex := (a.1, - a.2).

(** What the loop bodies of the Ewald sum read and write. *)
Record EwaldSum : Type := {
  tab_xy : list d_complex;
  tab_qxyz : list d_complex;
  recipForces : list (R * R * R);
  recipEnergy : option R
}.

(** The macro [EIR(x, y, z)] on the table [eir]. *)
Definition EIR (numberOfAtoms : Z) (eir : list d_complex) (x y z : Z) : d_complex :=
  rd eir (x * numberOfAtoms * 3 + y * 3 + z).

(** Lines 219-235: the phase factors of every atom.  [eir] has
    [kmax * numberOfAtoms * 3] entries, and every atom has [EIR(0, i, m)]
    and [EIR(1, i, m)] written: with an atom and [kmax < 2] the source
    writes past the end of the vector, which [wr] does not model (it leaves
    the list as it is), so this is the program only for [2 <= kmax] or
    without atoms. *)
Definition phaseFactors (numberOfAtoms kmax : Z) (posq : list R)
    (recipBoxSize : Z -> R) : list d_complex :=
  let at_ (x y z : Z) : Z := (x * numberOfAtoms * 3 + y * 3 + z)%Z in
  for_loop 0 numberOfAtoms (fun i eir =>
    let pos (m : Z) := rd posq (4 * i + m) in
    let eir := for_loop 0 3 (fun m eir => wr eir (at_ 0%Z i m) (1, 0)) eir in
    let eir :=
      for_loop 0 3 (fun m eir =>
        wr eir (at_ 1%Z i m)
          (cos (pos m * recipBoxSize m), sin (pos m * recipBoxSize m))) eir in
    for_loop 2 kmax (fun j eir =>
      for_loop 0 3 (fun m eir =>
        wr eir (at_ j i m)
          (cmul (EIR numberOfAtoms eir (j - 1) i m) (EIR numberOfAtoms eir 1%Z i m)))
        eir) eir)
    (replicate (Z.to_nat (kmax * numberOfAtoms * 3)) (0, 0)).

(** Lines 180-291.  [forces] is the [vector<RealVec>] the reciprocal forces
    are added to. *)
Definition calculateReciprocalIxn (f : CpuNonbondedForce) (numberOfAtoms : Z)
    (posq : list R) (atomCoordinates : list (R * R * R))
    (forces : list (R * R * R)) (totalEnergy : option R)
    : list (R * R * R) * option R :=
  let kmax := if ewald f then Z.max (numRx f) (Z.max (numRy f) (numRz f)) else 0%Z in
  let factorEwald := -1 / (4 * alphaEwald f * alphaEwald f) in
  let TWO_PI := 2 * PI in
  let '(bx, by_, bz) := periodicBoxSize f in
  let recipCoeff := ONE_4PI_EPS0 * 4 * PI / (bx * by_ * bz) / 1 in
  if pme f then
    let charges :=
      (fun i => rd posq (4 * i + 3)) <$> seqZ 0 numberOfAtoms in
    let '(forces, recipEnergy) :=
      pme_exec (alphaEwald f) numberOfAtoms (meshDim f) atomCoordinates forces
        charges (bx, by_, bz) in
    (forces,
     match totalEnergy with
     | Some e => Some (e + recipEnergy)
     | None => None
     end)
  else if ewald f then
    let recipBoxSize (m : Z) : R :=
      if (m =? 0)%Z then TWO_PI / bx
      else if (m =? 1)%Z then TWO_PI / by_ else TWO_PI / bz in
    let eir := phaseFactors numberOfAtoms kmax posq recipBoxSize in
    let E := EIR numberOfAtoms eir in
    let atXY (rx ry : Z) (s : EwaldSum) : EwaldSum :=
      {| tab_xy :=
           for_loop 0 numberOfAtoms (fun n t =>
             wr t n (if (0 <=? ry)%Z
                     then cmul (E rx n 0%Z) (E ry n 1%Z)
                     else cmul (E rx n 0%Z) (conj (E (- ry)%Z n 1%Z))))
             (tab_xy s);
         tab_qxyz := tab_qxyz s;
         recipForces := recipForces s;
         recipEnergy := recipEnergy s |} in
    let atK (rx ry rz : Z) (s : EwaldSum) : EwaldSum :=
      let kx := IZR rx * recipBoxSize 0%Z in
      let ky := IZR ry * recipBoxSize 1%Z in
      let qxyz :=
        for_loop 0 numberOfAtoms (fun n t =>
          let e := if (0 <=? rz)%Z then E rz n 2%Z else conj (E (- rz)%Z n 2%Z) in
          let p := cmul (rd (tab_xy s) n) e in
          wr t n (rd posq (4 * n + 3) * p.1, rd posq (4 * n + 3) * p.2))
          (tab_qxyz s) in
      let '(cs, ss) :=
        for_loop 0 numberOfAtoms (fun n '(cs, ss) =>
          (cs + (rd qxyz n).1, ss + (rd qxyz n).2)) (0, 0) in
      let kz := IZR rz * recipBoxSize 2%Z in
      let k2 := kx * kx + ky * ky + kz * kz in
      let ak := exp (k2 * factorEwald) / k2 in
      {| tab_xy := tab_xy s;
         tab_qxyz := qxyz;
         recipForces :=
           for_loop 0 numberOfAtoms (fun n forces =>
             let force := ak * (cs * (rd qxyz n).2 - ss * (rd qxyz n).1) in
             let '(fx, fy, fz) := rd forces n in
             wr forces n (fx + 2 * recipCoeff * force * kx,
                          fy + 2 * recipCoeff * force * ky,
                          fz + 2 * recipCoeff * force * kz))
             (recipForces s);
         recipEnergy :=
           match recipEnergy s with
           | Some e => Some (e + recipCoeff * ak * (cs * cs + ss * ss))
           | None => None
           end |} in
    let s :=
      Recip.payload
        (Recip.loops (numRx f) (numRy f) (numRz f) atXY atK
           {| tab_xy := replicate (Z.to_nat numberOfAtoms) (0, 0);
              tab_qxyz := replicate (Z.to_nat numberOfAtoms) (0, 0);
              recipForces := forces;
              recipEnergy := totalEnergy |}) in
    (recipForces s, recipEnergy s)
  else (forces, totalEnergy).

End Kernel.

(** What tabulateEwaldScaleFactor leaves behind: a table step that belongs
    to the cutoff. *)
Definition table_matches_cutoff (f : CpuNonbondedForce) : Prop :=
  ewaldDXInv f = 1 / (cutoffDistance f / IZR (NUM_TABLE_POINTS - 2)).

(** ** The pair interaction in the words of the specification *)

Module LJ.
(** The combining rules. *)
Definition combinedSigma (sigma_i sigma_j : R) : R := sigma_i + sigma_j.
Definition combinedEpsilon (eps_i eps_j : R) : R := eps_i * eps_j.
(** [sig2 = (sig inverseR)^2] and [sig6 = sig2^3]. *)
Definition sig2 (sig inverseR : R) : R := (sig * inverseR) ^ 2.
Definition sig6 (sig inverseR : R) : R := sig2 sig inverseR ^ 3.
(** The Lennard-Jones term of [dEdR] and the Lennard-Jones energy. *)
Definition dEdR (switchValue eps sig6 : R) : R :=
  switchValue * eps * (12 * sig6 - 6) * sig6.
Definition energy (eps sig6 : R) : R := eps * (sig6 - 1) * sig6.
End LJ.

(** The Coulomb term of [dEdR] and the Coulomb energy of a pair: plain
    Coulomb without cutoff, reaction field with it. *)
Definition coulomb_dEdR (f : CpuNonbondedForce) (chargeProd inverseR r2 : R) : R :=
  if cutoff f then chargeProd * (inverseR - 2 * krf f * r2)
  else chargeProd * inverseR.

Definition coulombEnergy (f : CpuNonbondedForce) (chargeProd inverseR r2 : R) : R :=
  if cutoff f then reactionFieldEnergy f chargeProd inverseR r2
  else chargeProd * inverseR.

(** The scalar a pair's displacement is multiplied with, and the energy of
    the pair, for atoms with parameters [(sigma_i, eps_i)] and
    [(sigma_j, eps_j)] at squared distance [r2]: the Lennard-Jones and
    Coulomb terms of [dEdR] are added and scaled by [inverseR^2], then the
    term of the taper's derivative is subtracted. *)
Definition pair_dEdR (f : CpuNonbondedForce)
    (sigma_i eps_i sigma_j eps_j chargeProd r2 : R) : R :=
  let r := sqrt r2 in
  let inverseR := 1 / r in
  let sw := switchFunction f r in
  let sig6 := LJ.sig6 (LJ.combinedSigma sigma_i sigma_j) inverseR in
  let eps := LJ.combinedEpsilon eps_i eps_j in
  (LJ.dEdR sw.1 eps sig6 + coulomb_dEdR f chargeProd inverseR r2) * inverseR ^ 2
  - LJ.energy eps sig6 * sw.2 * inverseR.

Definition pair_energy (f : CpuNonbondedForce)
    (sigma_i eps_i sigma_j eps_j chargeProd r2 : R) : R :=
  let r := sqrt r2 in
  let inverseR := 1 / r in
  let sw := switchFunction f r in
  let sig6 := LJ.sig6 (LJ.combinedSigma sigma_i sigma_j) inverseR in
  let eps := LJ.combinedEpsilon eps_i eps_j in
  LJ.energy eps sig6 * sw.1 + coulombEnergy f chargeProd inverseR r2.

(** The scenario of the specification: two atoms with sigma 0.3 and epsilon
    0.5 each and no charge, 0.33 apart on the x axis. *)
Definition twoAtoms : DirectArgs :=
  {| numberOfAtoms := 2;
     posq := [0; 0; 0; 0; 0.33; 0; 0; 0];
     atomCoordinates := [(0, 0, 0); (0.33, 0, 0)];
     atomParameters := [(0.3, 0.5); (0.3, 0.5)];
     exclusions := [∅; ∅] |}.

(** ** The pairs the direct-space loops work on *)

(** The pairs [(i, j)] for which the loop of lines 386-390, run by thread
    [threadIndex], calls calculateOneIxn, in the order of the calls. *)
Definition allPairs_calls (a : DirectArgs) (numThreads threadIndex : Z)
    : list (Z * Z) :=
  strided threadIndex (numberOfAtoms a) numThreads ≫= fun i =>
  seqZ (i + 1) (numberOfAtoms a - (i + 1)) ≫= fun j =>
  if bool_decide (i ∉ rd (exclusions a) j) then [(i, j)] else [].

(** The pairs [(i, j)] which the loop of lines 352-375, run by thread
    [threadIndex], corrects. *)
Definition excludedPairs (a : DirectArgs) (numThreads threadIndex : Z)
    : list (Z * Z) :=
  strided threadIndex (numberOfAtoms a) numThreads ≫= fun i =>
  elements (rd (exclusions a) i) ≫= fun j =>
  if (i <? j)%Z then [(i, j)] else [].

(** ** A sample instance of the external functions

    Used to evaluate the kernels on concrete inputs.  [round] rounds to the
    nearest integer (halves upwards) and the Coulomb constant is 1; the
    remaining members are placeholders on which no evaluated example
    depends. *)

Definition roundHalfUp (x : R) : R := IZR (Zfloor (x + 1 / 2)).

Definition sampleExternals : Externals :=
  {| ONE_4PI_EPS0 := 1;
     round := roundHalfUp;
     erfc := fun _ => 0;
     createNaturalSpline := fun x _ => (fun _ => 0) <$> x;
     pme_exec := fun _ _ _ _ forces _ _ => (forces, 0) |}.

(** ** Auxiliary notions for the further properties *)

(** The polynomial of line 686, whose sixteenth power erfcApprox inverts. *)
Definition erfcApprox_t (x : R) : R :=
  1 + (0.0705230784 + (0.0422820123 + (0.0092705272 + (0.0001520143
       + (0.0002765672 + 0.0000430638 * x) * x) * x) * x) * x) * x.

(** The arguments [a] with coordinate [m] of atom [k] set to [p]. *)
Definition moveAtom (a : DirectArgs) (k m : Z) (p : R) : DirectArgs :=
  {| numberOfAtoms := numberOfAtoms a;
     posq := wr (posq a) (4 * k + m) p;
     atomCoordinates := atomCoordinates a;
     atomParameters := atomParameters a;
     exclusions := exclusions a |}.

(** What calculateOneIxn leaves in an energy cell that held 0. *)
Definition oneIxnEnergy {ext : Externals} (f : CpuNonbondedForce) (a : DirectArgs)
    (ii jj : Z) (forces : list R) (boxSize invBoxSize : fvec4) : R :=
  default 0 (calculateOneIxn f a ii jj forces (Some 0) boxSize invBoxSize).2.

(** The force buffer of a thread as threadComputeDirect clears it. *)
Definition zeroForces (a : DirectArgs) : list R :=
  replicate (Z.to_nat (4 * numberOfAtoms a)) 0.

(** What calculateOneIxn adds to slot [k] of a force buffer, and to the
    energy, for the pair [p]. *)
Definition pairForce {ext : Externals} (f : CpuNonbondedForce) (a : DirectArgs)
    (boxSize invBoxSize : fvec4) (p : Z * Z) (k : Z) : R :=
  rd (calculateOneIxn f a p.1 p.2 (zeroForces a) None boxSize invBoxSize).1 k.

Definition pairEnergy {ext : Externals} (f : CpuNonbondedForce) (a : DirectArgs)
    (boxSize invBoxSize : fvec4) (p : Z * Z) : R :=
  oneIxnEnergy f a p.1 p.2 (zeroForces a) boxSize invBoxSize.

(** The pair is in range and consists of two atoms. *)
Definition valid_pair (a : DirectArgs) (p : Z * Z) : Prop :=
  (0 <= p.1 < numberOfAtoms a)%Z /\ (0 <= p.2 < numberOfAtoms a)%Z /\ p.1 <> p.2.

(** [recipBoxSize] (line 212). *)
Definition recipBoxSize (f : CpuNonbondedForce) (m : Z) : R :=
  let '(bx, by_, bz) := periodicBoxSize f in
  if (m =? 0)%Z then 2 * PI / bx
  else if (m =? 1)%Z then 2 * PI / by_ else 2 * PI / bz.

(** [recipCoeff] (line 190). *)
Definition recipCoeff {ext : Externals} (f : CpuNonbondedForce) : R :=
  let '(bx, by_, bz) := periodicBoxSize f in
  ONE_4PI_EPS0 * 4 * PI / (bx * by_ * bz) / 1.

(** Lines 246-253: the statements of the loop over [ry] that precede the
    innermost loop. *)
Definition ewaldXY (numberOfAtoms : Z) (E : Z -> Z -> Z -> d_complex)
    (rx ry : Z) (s : EwaldSum) : EwaldSum :=
  {| tab_xy :=
       for_loop 0 numberOfAtoms (fun n t =>
         wr t n (if (0 <=? ry)%Z
                 then cmul (E rx n 0%Z) (E ry n 1%Z)
                 else cmul (E rx n 0%Z) (conj (E (- ry)%Z n 1%Z))))
         (tab_xy s);
     tab_qxyz := tab_qxyz s;
     recipForces := recipForces s;
     recipEnergy := recipEnergy s |}.

(** Lines 255-285: the body of the innermost loop. *)
Definition ewaldK {ext : Externals} (f : CpuNonbondedForce) (numberOfAtoms : Z)
    (posq : list R) (E : Z -> Z -> Z -> d_complex) (rx ry rz : Z) (s : EwaldSum)
    : EwaldSum :=
  let factorEwald := -1 / (4 * alphaEwald f * alphaEwald f) in
  let kx := IZR rx * recipBoxSize f 0%Z in
  let ky := IZR ry * recipBoxSize f 1%Z in
  let qxyz :=
    for_loop 0 numberOfAtoms (fun n t =>
      let e := if (0 <=? rz)%Z then E rz n 2%Z else conj (E (- rz)%Z n 2%Z) in
      let p := cmul (rd (tab_xy s) n) e in
      wr t n (rd posq (4 * n + 3) * p.1, rd posq (4 * n + 3) * p.2))
      (tab_qxyz s) in
  let '(cs, ss) :=
    for_loop 0 numberOfAtoms (fun n '(cs, ss) =>
      (cs + (rd qxyz n).1, ss + (rd qxyz n).2)) (0, 0) in
  let kz := IZR rz * recipBoxSize f 2%Z in
  let k2 := kx * kx + ky * ky + kz * kz in
  let ak := exp (k2 * factorEwald) / k2 in
  {| tab_xy := tab_xy s;
     tab_qxyz := qxyz;
     recipForces :=
       for_loop 0 numberOfAtoms (fun n forces =>
         let force := ak * (cs * (rd qxyz n).2 - ss * (rd qxyz n).1) in
         let '(fx, fy, fz) := rd forces n in
         wr forces n (fx + 2 * recipCoeff f * force * kx,
                      fy + 2 * recipCoeff f * force * ky,
                      fz + 2 * recipCoeff f * force * kz))
         (recipForces s);
     recipEnergy :=
       match recipEnergy s with
       | Some e => Some (e + recipCoeff f * ak * (cs * cs + ss * ss))
       | None => None
       end |}.

(** The state in which the Ewald sum starts (lines 217-218 and the
    arguments). *)
Definition ewaldStart (numberOfAtoms : Z) (forces : list (R * R * R))
    (totalEnergy : option R) : EwaldSum :=
  {| tab_xy := replicate (Z.to_nat numberOfAtoms) (0, 0);
     tab_qxyz := replicate (Z.to_nat numberOfAtoms) (0, 0);
     recipForces := forces;
     recipEnergy := totalEnergy |}.

(** The table of phase factors the Ewald sum reads. *)
Definition ewaldPhases (f : CpuNonbondedForce) (numberOfAtoms : Z) (posq : list R)
    : Z -> Z -> Z -> d_complex :=
  EIR numberOfAtoms
    (phaseFactors numberOfAtoms
       (Z.max (numRx f) (Z.max (numRy f) (numRz f))) posq (recipBoxSize f)).

(** The sum of the forces on all atoms. *)
Definition totalForce (forces : list (R * R * R)) : R * R * R :=
  (sumR ((fun v => v.1.1) <$> forces), sumR ((fun v => v.1.2) <$> forces),
   sumR ((fun v => v.2) <$> forces)).

(** A force object set up for an Ewald sum in a cubic box of side 2. *)
Definition sampleEwald : CpuNonbondedForce :=
  {| cutoff := true; useSwitch := false; periodic := true; ewald := true;
     pme := false; neighborList := inhabitant; periodicBoxSize := (2, 2, 2);
     cutoffDistance := 1; switchingDistance := 0; krf := 0; crf := 0;
     alphaEwald := 3; numRx := 2; numRy := 2; numRz := 2;
     meshDim := (0, 0, 0)%Z; ewaldDX := 0; ewaldDXInv := 0;
     ewaldScaleTable := [] |}.

(** [round] yields whole numbers. *)
Definition round_integral {ext : Externals} : Prop :=
  forall x, exists k : Z, round x = IZR k.

(** A force object with cutoff 1 in a periodic box of side 4, whose
    neighbour list has the single block of atoms 0 to 3, and five atoms of
    which the first four lie at least 1 away from every face. *)
Definition sampleBlockForce : CpuNonbondedForce :=
  {| cutoff := true; useSwitch := false; periodic := true; ewald := false;
     pme := false;
     neighborList := {| getNumBlocks := 1; getSortedAtoms := [0; 1; 2; 3]%Z;
                        getBlockNeighbors := [[4%Z]];
                        getBlockExclusions := [[0%Z]] |};
     periodicBoxSize := (4, 4, 4);
     cutoffDistance := 1; switchingDistance := 0; krf := 0; crf := 0;
     alphaEwald := 0; numRx := 0; numRy := 0; numRz := 0;
     meshDim := (0, 0, 0)%Z; ewaldDX := 0; ewaldDXInv := 0;
     ewaldScaleTable := [] |}.

Definition sampleBlockAtoms : DirectArgs :=
  {| numberOfAtoms := 5;
     posq := [1; 1; 1; 1;  2; 2; 2; -1;  3; 3; 3; 1;  2; 1; 3; -1;  0; 4; 2; 1];
     atomCoordinates := [(1, 1, 1); (2, 2, 2); (3, 3, 3); (2, 1, 3); (0, 4, 2)];
     atomParameters := [(0.3, 0.5); (0.3, 0.5); (0.3, 0.5); (0.3, 0.5); (0.3, 0.5)];
     exclusions := [∅; ∅; ∅; ∅; ∅] |}.

(** Component [m] of the sum of the forces on all atoms, for a force array
    with four slots per atom. *)
Definition totalLane (numberOfAtoms : Z) (forces : list R) (m : Z) : R :=
  sumR ((fun n => rd forces (4 * n + m)) <$> seqZ 0 numberOfAtoms).

(** Component [m] of the sum of the forces collected for the four atoms of
    a block. *)
Definition blockLane (blockAtomForce : Z -> fvec4) (m : Z) : R :=
  V.get (blockAtomForce 0%Z) m + V.get (blockAtomForce 1%Z) m
  + V.get (blockAtomForce 2%Z) m + V.get (blockAtomForce 3%Z) m.

(** The atoms of block [blockIndex] of the neighbour list and the
    neighbours of the block are atoms of the system. *)
Definition valid_block (f : CpuNonbondedForce) (N blockIndex : Z) : Prop :=
  (forall j, (0 <= j < 4)%Z ->
     (0 <= rd (getSortedAtoms (neighborList f)) (4 * blockIndex + j) < N)%Z) /\
  (forall i,
     (0 <= i < Z.of_nat (length (rd (getBlockNeighbors (neighborList f)) blockIndex)))%Z ->
     (0 <= rd (rd (getBlockNeighbors (neighborList f)) blockIndex) i < N)%Z).

Definition valid_neighborList (f : CpuNonbondedForce) (N : Z) : Prop :=
  forall blockIndex, (0 <= blockIndex < getNumBlocks (neighborList f))%Z ->
    valid_block f N blockIndex.

(** The members of the exclusion sets are atoms of the system. *)
Definition valid_exclusions (a : DirectArgs) : Prop :=
  forall i j, (0 <= i < numberOfAtoms a)%Z -> j ∈ rd (exclusions a) i ->
    (0 <= j < numberOfAtoms a)%Z.

(** What a kernel or a loop of kernels keeps: the length of the force array
    and the sum of the forces, component [m]. *)
Definition keeps (N m : Z) (forces : list R) (st : list R * R) : Prop :=
  length st.1 = length forces /\ totalLane N st.1 m = totalLane N forces m.

(** [exp(i j theta)] for the angle [theta] of coordinate [m] of atom [n]. *)
Definition phase (posq : list R) (recipBoxSize : Z -> R) (j n m : Z) : d_complex :=
  (cos (IZR j * (rd posq (4 * n + m) * recipBoxSize m)),
   sin (IZR j * (rd posq (4 * n + m) * recipBoxSize m))).

(** The angle [k . r_n] of atom [n] for the k-vector with indices [k]. *)
Definition kDotR (f : CpuNonbondedForce) (posq : list R) (k : Z * Z * Z) (n : Z) : R :=
  IZR k.1.1 * (rd posq (4 * n) * recipBoxSize f 0)
  + IZR k.1.2 * (rd posq (4 * n + 1) * recipBoxSize f 1)
  + IZR k.2 * (rd posq (4 * n + 2) * recipBoxSize f 2).

(** The energy of the k-vector [k]:
    [recipCoeff exp(-k^2 / (4 alpha^2)) / k^2 |S(k)|^2] with the structure
    factor [S(k) = sum_n q_n exp(i k . r_n)]. *)
Definition ewaldTerm {ext : Externals} (f : CpuNonbondedForce) (numberOfAtoms : Z)
    (posq : list R) (k : Z * Z * Z) : R :=
  let kx := IZR k.1.1 * recipBoxSize f 0 in
  let ky := IZR k.1.2 * recipBoxSize f 1 in
  let kz := IZR k.2 * recipBoxSize f 2 in
  let k2 := kx * kx + ky * ky + kz * kz in
  let ak := exp (k2 * (-1 / (4 * alphaEwald f * alphaEwald f))) / k2 in
  let cs := sumR ((fun n => rd posq (4 * n + 3) * cos (kDotR f posq k n))
                    <$> seqZ 0 numberOfAtoms) in
  let ss := sumR ((fun n => rd posq (4 * n + 3) * sin (kDotR f posq k n))
                    <$> seqZ 0 numberOfAtoms) in
  recipCoeff f * ak * (cs * cs + ss * ss).

(** A table of phase factors that is right for the indices below [kmax]. *)
Definition phases_upto (f : CpuNonbondedForce) (N kmax : Z) (posq : list R)
    (E : Z -> Z -> Z -> d_complex) : Prop :=
  forall j n m, (0 <= j < kmax)%Z -> (0 <= n < N)%Z -> (0 <= m < 3)%Z ->
    E j n m = phase posq (recipBoxSize f) j n m.

(** The state of the Ewald sum against the list [l] of the k-vectors
    visited so far: the energy cell holds [e0] plus their terms, and the
    two tables have an entry per atom. *)
Definition ewald_good {ext : Externals} (f : CpuNonbondedForce) (N : Z)
    (posq : list R) (e0 : R) (s : EwaldSum) (l : list (Z * Z * Z)) : Prop :=
  recipEnergy s = Some (e0 + sumR (ewaldTerm f N posq <$> l)) /\
  Z.of_nat (length (tab_xy s)) = N /\ Z.of_nat (length (tab_qxyz s)) = N.

(** The loop nest of the sum against the loop nest that records the
    k-vectors: same running bounds, within the bounds of the nest. *)
Definition ewald_related {ext : Externals} (f : CpuNonbondedForce) (N : Z)
    (posq : list R) (e0 : R) (st : Recip.nest EwaldSum)
    (tr : Recip.nest (list (Z * Z * Z))) : Prop :=
  Recip.lowry st = Recip.lowry tr /\ Recip.lowrz st = Recip.lowrz tr /\
  (1 - numRy f <= Recip.lowry st)%Z /\ (1 - numRz f <= Recip.lowrz st)%Z /\
  ewald_good f N posq e0 (Recip.payload st) (Recip.payload tr).

(** [tab_xy] holds the phases of [(rx, ry)]. *)
Definition xy_ready (f : CpuNonbondedForce) (N : Z) (posq : list R) (rx ry : Z)
    (s : EwaldSum) : Prop :=
  forall n, (0 <= n < N)%Z ->
    rd (tab_xy s) n
    = (cos (IZR rx * (rd posq (4 * n) * recipBoxSize f 0)
            + IZR ry * (rd posq (4 * n + 1) * recipBoxSize f 1)),
       sin (IZR rx * (rd posq (4 * n) * recipBoxSize f 0)
            + IZR ry * (rd posq (4 * n + 1) * recipBoxSize f 1))).

(** The force array [F1] of a run is, in the slots of the atoms, the base
    [G] plus the force array [F0] of a run started from cleared forces. *)
Definition offset (N : Z) (G : Z -> R) (F1 F0 : list R) : Prop :=
  (4 * N <= Z.of_nat (length F1))%Z /\ (4 * N <= Z.of_nat (length F0))%Z /\
  forall k, (0 <= k < 4 * N)%Z -> rd F1 k = G k + rd F0 k.

(** The same for the energy cell: [e1] is the cell of the run, which started
    at [e], and [e0] that of the run started at 0. *)
Definition energy_offset (e : option R) (e1 e0 : option R) : Prop :=
  exists x, e0 = Some x /\
    e1 = match e with Some e => Some (e + x) | None => None end.

(** The state of the neighbour loop of a run against that of the run from
    cleared forces. *)
Definition block_offset (N : Z) (G : Z -> R) (e : option R)
    (st1 st0 : (Z -> fvec4) * list R * option R) : Prop :=
  (forall j, (0 <= j < 4)%Z -> st1.1.1 j = st0.1.1 j) /\
  offset N G st1.1.2 st0.1.2 /\ energy_offset e st1.2 st0.2.

(** What calculateBlockIxn adds for block [blockIndex]: the force array and
    the energy it leaves when started from cleared forces and energy 0. *)
Definition blockTerm {ext : Externals} (f : CpuNonbondedForce) (a : DirectArgs)
    (boxSize invBoxSize : fvec4) (blockIndex : Z) : list R * R :=
  let out := calculateBlockIxn f a blockIndex (zeroForces a) (Some 0)
               boxSize invBoxSize in
  (out.1, default 0 out.2).

(** What calculateBlockEwaldIxn adds for block [blockIndex], with the local
    array of ewaldScaleFunction found cleared. *)
Definition ewaldBlockTerm {ext : Externals} (f : CpuNonbondedForce) (a : DirectArgs)
    (boxSize invBoxSize : fvec4) (blockIndex : Z) : list R * R :=
  let out := calculateBlockEwaldIxn f a (fun _ => V.splat 0) blockIndex
               (zeroForces a) (Some 0) boxSize invBoxSize in
  (out.1, default 0 out.2).

(** What the correction of lines 356-372 adds for the excluded pair [p]. *)
Definition correctionTerm {ext : Externals} (f : CpuNonbondedForce) (a : DirectArgs)
    (boxSize invBoxSize : fvec4) (p : Z * Z) : list R * R :=
  exclusionCorrection f a true boxSize invBoxSize p.1 p.2 (zeroForces a, 0).

(** The force object of [sampleBlockForce] in Ewald mode, with the table
    step of its cutoff, and the atoms of [sampleBlockAtoms] with the pair
    of atoms 0 and 1 excluded. *)
Definition sampleEwaldBlockForce : CpuNonbondedForce :=
  {| cutoff := true; useSwitch := false; periodic := true; ewald := true;
     pme := false;
     neighborList := {| getNumBlocks := 1; getSortedAtoms := [0; 1; 2; 3]%Z;
                        getBlockNeighbors := [[4%Z]];
                        getBlockExclusions := [[0%Z]] |};
     periodicBoxSize := (4, 4, 4);
     cutoffDistance := 1; switchingDistance := 0; krf := 0; crf := 0;
     alphaEwald := 3; numRx := 0; numRy := 0; numRz := 0;
     meshDim := (0, 0, 0)%Z; ewaldDX := 1 / 1023; ewaldDXInv := 1023;
     ewaldScaleTable := [] |}.

Definition sampleExcludedAtoms : DirectArgs :=
  {| numberOfAtoms := 5;
     posq := [1; 1; 1; 1;  2; 2; 2; -1;  3; 3; 3; 1;  2; 1; 3; -1;  0; 4; 2; 1];
     atomCoordinates := [(1, 1, 1); (2, 2, 2); (3, 3, 3); (2, 1, 3); (0, 4, 2)];
     atomParameters := [(0.3, 0.5); (0.3, 0.5); (0.3, 0.5); (0.3, 0.5); (0.3, 0.5)];
     exclusions := [{[1%Z]}; {[0%Z]}; ∅; ∅; ∅] |}.

(** A force object whose table no longer belongs to its cutoff: the table
    is built by setUseEwald for the cutoff 1, then setUseCutoff sets the
    cutoff 2.  With it one atom at distance 3/2 from the first atom of a
    block whose other atoms are far away. *)
Definition staleTableForce : CpuNonbondedForce :=
  setUseCutoff
    (@setUseEwald sampleExternals
       (setUseCutoff CpuNonbondedForce_new 1 inhabitant 78) 3 2 2 2)
    2 inhabitant 78.

Definition staleTableAtom : DirectArgs :=
  {| numberOfAtoms := 1; posq := [3 / 2; 0; 0; 1];
     atomCoordinates := [(3 / 2, 0, 0)]; atomParameters := [(0, 0)];
     exclusions := [∅] |}.

Definition staleTableBlock : BlockData :=
  {| blockAtom := fun j => j; blockAtomPosq := fun _ => V.splat 0;
     blockAtomX := Fvec4 0 10 20 30; blockAtomY := V.splat 0;
     blockAtomZ := V.splat 0; blockAtomCharge := V.splat 1;
     blockAtomSigma := V.splat 0; blockAtomEpsilon := V.splat 0 |}.

(** * Properties *)

(** ** Reaction field *)

Section ReactionField.

#[local] Ltac nonzero := repeat split; first [assumption | lra].

Lemma reactionField_at_cutoff (f : CpuNonbondedForce) (nl : CpuNeighborList)
    (distance solventDielectric chargeProd : R) :
  0 < distance -> 2 * solventDielectric + 1 <> 0 ->
  reactionFieldEnergy (setUseCutoff f distance nl solventDielectric)
    chargeProd (1 / distance) (distance * distance) = 0.
Proof.
  intros Hd He. unfold reactionFieldEnergy, setUseCutoff; simpl.
  field. nonzero.
Qed.

Lemma reactionField_continuous (g : CpuNonbondedForce) (chargeProd d : R) :
  0 < d ->
  continuity_pt (fun r => reactionFieldEnergy g chargeProd (1 / r) (r * r)) d.
Proof.
  intros Hd. unfold reactionFieldEnergy.
  apply continuity_pt_mult; [apply continuity_pt_const; intros x y; reflexivity|].
  apply continuity_pt_minus; [|apply continuity_pt_const; intros x y; reflexivity].
  apply continuity_pt_plus.
  - apply continuity_pt_div; [| |lra].
    + apply continuity_pt_const; intros x y; reflexivity.
    + apply derivable_continuous_pt, derivable_pt_id.
  - apply continuity_pt_mult; [apply continuity_pt_const; intros x y; reflexivity|].
    apply continuity_pt_mult; apply derivable_continuous_pt, derivable_pt_id.
Qed.

(** C5, as amended: with [krf] and [crf] as setUseCutoff sets them, the
    reaction-field energy term [chargeProd * (inverseR + krf * r2 - crf)]
    vanishes at [r = cutoff] for every positive cutoff and every solvent
    dielectric with [2 * solventDielectric + 1 <> 0], and it tends to [0]
    as [r] approaches the cutoff. *)
Theorem reactionField_vanishes_at_cutoff (f : CpuNonbondedForce)
    (nl : CpuNeighborList) (distance solventDielectric chargeProd : R) :
  0 < distance -> 2 * solventDielectric + 1 <> 0 ->
  let g := setUseCutoff f distance nl solventDielectric in
  cutoffDistance g = distance /\
  krf g = (solventDielectric - 1) / ((2 * solventDielectric + 1) * distance ^ 3) /\
  crf g = 3 * solventDielectric / ((2 * solventDielectric + 1) * distance) /\
  reactionFieldEnergy g chargeProd (1 / distance) (distance * distance) = 0 /\
  forall eta, 0 < eta ->
    exists delta, 0 < delta /\
      forall r, 0 < r -> Rabs (r - distance) < delta ->
        Rabs (reactionFieldEnergy g chargeProd (1 / r) (r * r)) < eta.
Proof.
  intros Hd He g.
  assert (H0 : reactionFieldEnergy g chargeProd (1 / distance) (distance * distance) = 0)
    by (apply reactionField_at_cutoff; assumption).
  split; [reflexivity|].
  split; [subst g; simpl; field; nonzero|].
  split; [subst g; simpl; field; nonzero|].
  split; [exact H0|].
  intros eta Heta.
  destruct (reactionField_continuous g chargeProd distance Hd eta Heta)
    as [delta [Hdelta Hlim]].
  exists delta. split; [exact Hdelta|].
  intros r Hr Hclose.
  destruct (Req_dec distance r) as [->|Hne].
  - rewrite H0, Rabs_R0. exact Heta.
  - specialize (Hlim r).
    simpl in Hlim. unfold Rdist in Hlim. rewrite H0, Rminus_0_r in Hlim.
    apply Hlim. split; [split; [exact I | exact Hne] | exact Hclose].
Qed.

Lemma reactionField_vanishes_at_cutoff_witness :
  0 < 1 /\ 2 * 78 + 1 <> 0 /\
  reactionFieldEnergy (setUseCutoff CpuNonbondedForce_new 1 inhabitant 78)
    5 (1 / 1) (1 * 1) = 0.
Proof.
  split; [lra|]. split; [lra|].
  apply (reactionField_vanishes_at_cutoff CpuNonbondedForce_new inhabitant 1 78 5);
    lra.
Defined.

(** C5 as stated fails for the solvent dielectric [-1/2], where the
    denominator [2 * solventDielectric + 1] of [krf] and [crf] is zero. *)
Lemma reactionField_dielectric_counterexample :
  reactionFieldEnergy (setUseCutoff CpuNonbondedForce_new 1 inhabitant (-1 / 2))
    1 (1 / 1) (1 * 1) <> 0.
Proof.
  unfold reactionFieldEnergy, setUseCutoff; simpl.
  replace (2 * (-1 / 2) + 1) with 0 by lra.
  unfold Rdiv. rewrite Rinv_0. lra.
Qed.

End ReactionField.

(** ** Switching function *)

Section Switching.

#[local] Ltac nonzero := repeat split; first [assumption | lra].

Lemma Rltb_true (a b : R) : a < b -> Rltb a b = true.
Proof. intros H. unfold Rltb. destruct (Rlt_dec a b); [reflexivity | contradiction]. Qed.

Lemma Rltb_false (a b : R) : b <= a -> Rltb a b = false.
Proof. intros H. unfold Rltb. destruct (Rlt_dec a b); [lra | reflexivity]. Qed.

Lemma Rleb_true (a b : R) : a <= b -> Rleb a b = true.
Proof. intros H. unfold Rleb. destruct (Rle_dec a b); [reflexivity | contradiction]. Qed.

Lemma Rleb_false (a b : R) : b < a -> Rleb a b = false.
Proof. intros H. unfold Rleb. destruct (Rle_dec a b); [lra | reflexivity]. Qed.

(** The taper of the blocked kernels is, lane by lane, the taper of the
    scalar kernel. *)
Lemma blockSwitch_lane (f : CpuNonbondedForce) (r : fvec4) (j : Z) :
  (V.get (blockSwitch f r).1 j, V.get (blockSwitch f r).2 j)
  = switchFunction f (V.get r j).
Proof.
  unfold blockSwitch, switchFunction.
  destruct (useSwitch f); simpl.
  - assert (E : forall x,
      (switchValueAt (if Rltb (switchingDistance f) x then switchArg f x else 0),
       switchDerivAt f (if Rltb (switchingDistance f) x then switchArg f x else 0))
      = if Rltb (switchingDistance f) x
        then (switchValueAt (switchArg f x), switchDerivAt f (switchArg f x))
        else (1, 0)).
    { intros x. destruct (Rltb _ x); [reflexivity|].
      unfold switchValueAt, switchDerivAt. f_equal; unfold Rdiv; ring. }
    unfold V.get, V.map; simpl.
    destruct (j =? 0)%Z; [apply E|].
    destruct (j =? 1)%Z; [apply E|].
    destruct (j =? 2)%Z; apply E.
  - unfold V.get, V.splat; simpl.
    destruct (j =? 0)%Z; [reflexivity|].
    destruct (j =? 1)%Z; [reflexivity|].
    destruct (j =? 2)%Z; reflexivity.
Qed.

(** C6: the switching polynomials of calculateOneIxn and calculateBlockIxn
    take the value 1 with derivative 0 at [t = 0] and the value 0 with
    derivative 0 at [t = 1]; [t] is 0 at the switching distance and, the two
    distances being different, 1 at the cutoff; and with the switching
    distance below the cutoff the values the two kernels compute at
    [r = switchingDistance] are [(1, 0)] and at [r = cutoffDistance] are
    [(0, 0)]. *)
Theorem switching_endpoints (f : CpuNonbondedForce) :
  (switchValueAt 0 = 1 /\ switchDerivAt f 0 = 0 /\
   switchValueAt 1 = 0 /\ switchDerivAt f 1 = 0) /\
  switchArg f (switchingDistance f) = 0 /\
  (switchingDistance f <> cutoffDistance f ->
   switchArg f (cutoffDistance f) = 1) /\
  (useSwitch f = true -> switchingDistance f < cutoffDistance f ->
   switchFunction f (switchingDistance f) = (1, 0) /\
   switchFunction f (cutoffDistance f) = (0, 0) /\
   (forall r j, V.get r j = switchingDistance f ->
      V.get (blockSwitch f r).1 j = 1 /\ V.get (blockSwitch f r).2 j = 0) /\
   (forall r j, V.get r j = cutoffDistance f ->
      V.get (blockSwitch f r).1 j = 0 /\ V.get (blockSwitch f r).2 j = 0)).
Proof.
  assert (P0 : switchValueAt 0 = 1) by (unfold switchValueAt; ring).
  assert (D0 : switchDerivAt f 0 = 0) by (unfold switchDerivAt, Rdiv; ring).
  assert (P1 : switchValueAt 1 = 0) by (unfold switchValueAt; ring).
  assert (D1 : switchDerivAt f 1 = 0) by (unfold switchDerivAt, Rdiv; ring).
  assert (T0 : switchArg f (switchingDistance f) = 0)
    by (unfold switchArg, Rdiv; ring).
  assert (T1 : switchingDistance f <> cutoffDistance f ->
               switchArg f (cutoffDistance f) = 1).
  { intros Hne. unfold switchArg. field. intros H. apply Hne. lra. }
  split; [repeat split; assumption|].
  split; [exact T0|]. split; [exact T1|].
  intros Hsw Hlt.
  assert (S0 : switchFunction f (switchingDistance f) = (1, 0)).
  { unfold switchFunction. rewrite Rltb_false by lra.
    rewrite andb_false_r. reflexivity. }
  assert (S1 : switchFunction f (cutoffDistance f) = (0, 0)).
  { unfold switchFunction. rewrite Hsw, Rltb_true by exact Hlt. simpl.
    rewrite T1 by lra. rewrite P1, D1. reflexivity. }
  split; [exact S0|]. split; [exact S1|].
  split; intros r j Hr; pose proof (blockSwitch_lane f r j) as E;
    rewrite Hr in E; [rewrite S0 in E | rewrite S1 in E];
    inversion E; split; reflexivity.
Qed.

Lemma switching_endpoints_witness :
  let f := setUseSwitchingFunction
             (setUseCutoff CpuNonbondedForce_new 2 inhabitant 78) 1 in
  useSwitch f = true /\ switchingDistance f < cutoffDistance f /\
  switchFunction f (switchingDistance f) = (1, 0) /\
  switchFunction f (cutoffDistance f) = (0, 0).
Proof.
  intros f.
  assert (Hsw : useSwitch f = true) by reflexivity.
  assert (Hlt : switchingDistance f < cutoffDistance f) by (simpl; lra).
  split; [exact Hsw|]. split; [exact Hlt|].
  destruct (switching_endpoints f) as [_ [_ [_ H]]].
  destruct (H Hsw Hlt) as [S0 [S1 _]].
  split; [exact S0 | exact S1].
Defined.

End Switching.

(** ** Minimum image *)

Section MinimumImage.
Context {ext : Externals}.

Lemma wrap_bound (d box inv : R) :
  round_to_nearest -> 0 < box -> inv = 1 / box ->
  Rabs (d - round (d * inv) * box) <= box / 2.
Proof.
  intros Hround Hbox ->.
  replace (d - round (d * (1 / box)) * box)
    with (box * (d * (1 / box) - round (d * (1 / box)))) by (field; lra).
  rewrite Rabs_mult, (Rabs_pos_eq box) by lra.
  pose proof (Hround (d * (1 / box))) as H.
  nra.
Qed.

(** C3: with a positive box and its inverse, every component of the
    displacement that getDeltaR returns under periodic wrapping has
    magnitude at most half the box dimension of its axis; the same holds
    for every lane of the four-atom overload. *)
Theorem getDeltaR_minimum_image (posI posJ x y z boxSize invBoxSize : fvec4) :
  round_to_nearest ->
  0 < v0 boxSize -> 0 < v1 boxSize -> 0 < v2 boxSize ->
  v0 invBoxSize = 1 / v0 boxSize ->
  v1 invBoxSize = 1 / v1 boxSize ->
  v2 invBoxSize = 1 / v2 boxSize ->
  (let deltaR := (getDeltaR posI posJ true boxSize invBoxSize).1 in
   Rabs (v0 deltaR) <= v0 boxSize / 2 /\
   Rabs (v1 deltaR) <= v1 boxSize / 2 /\
   Rabs (v2 deltaR) <= v2 boxSize / 2) /\
  (let '(dx, dy, dz, _) := getDeltaR4 posI x y z true boxSize invBoxSize in
   forall j,
     Rabs (V.get dx j) <= v0 boxSize / 2 /\
     Rabs (V.get dy j) <= v1 boxSize / 2 /\
     Rabs (V.get dz j) <= v2 boxSize / 2).
Proof.
  intros Hround Hx Hy Hz Ix Iy Iz. split.
  - unfold getDeltaR; simpl.
    repeat split; apply wrap_bound; assumption.
  - unfold getDeltaR4; simpl. intros j.
    unfold V.get, V.sub, V.scale, V.map, V.map2, V.splat; simpl.
    destruct (j =? 0)%Z; [repeat split; apply wrap_bound; assumption|].
    destruct (j =? 1)%Z; [repeat split; apply wrap_bound; assumption|].
    destruct (j =? 2)%Z; repeat split; apply wrap_bound; assumption.
Qed.

End MinimumImage.

Lemma roundHalfUp_nearest : @round_to_nearest sampleExternals.
Proof.
  intros x. simpl. unfold roundHalfUp.
  pose proof (Zfloor_bound (x + 1 / 2)) as [H1 H2].
  apply Rabs_le. lra.
Qed.

Lemma getDeltaR_minimum_image_witness :
  let box := Fvec4 4 6 8 0 in
  let inv := Fvec4 (1 / 4) (1 / 6) (1 / 8) 0 in
  let deltaR :=
    (@getDeltaR sampleExternals (Fvec4 1 1 1 0) (Fvec4 4 (-4) 2 0) true box inv).1 in
  @round_to_nearest sampleExternals /\
  (0 < v0 box /\ 0 < v1 box /\ 0 < v2 box) /\
  Rabs (v0 deltaR) <= 4 / 2 /\ Rabs (v1 deltaR) <= 6 / 2 /\ Rabs (v2 deltaR) <= 8 / 2.
Proof.
  intros box inv deltaR.
  split; [exact roundHalfUp_nearest|].
  split; [simpl; lra|].
  apply (@getDeltaR_minimum_image sampleExternals (Fvec4 1 1 1 0) (Fvec4 4 (-4) 2 0)
           (Fvec4 0 0 0 0) (Fvec4 0 0 0 0) (Fvec4 0 0 0 0) box inv);
    try exact roundHalfUp_nearest; simpl; try lra; reflexivity.
Defined.

(** ** Loops and arrays *)

Section Loops.
#[local] Open Scope Z_scope.

Lemma for_loop_nil {St : Type} (lo hi : Z) (body : Z -> St -> St) (s : St) :
  hi <= lo -> for_loop lo hi body s = s.
Proof. intros H. unfold for_loop. rewrite seqZ_nil by lia. reflexivity. Qed.

Lemma for_loop_first {St : Type} (lo hi : Z) (body : Z -> St -> St) (s : St) :
  lo < hi -> for_loop lo hi body s = for_loop (lo + 1) hi body (body lo s).
Proof.
  intros H. unfold for_loop. rewrite seqZ_cons by lia. simpl.
  do 2 f_equal; lia.
Qed.

Lemma for_loop_last {St : Type} (lo hi : Z) (body : Z -> St -> St) (s : St) :
  lo <= hi -> for_loop lo (hi + 1) body s = body hi (for_loop lo hi body s).
Proof.
  intros H. unfold for_loop.
  replace (hi + 1 - lo) with ((hi - lo) + 1) by lia.
  rewrite seqZ_app by lia. rewrite foldl_app.
  replace (lo + (hi - lo)) with hi by lia. reflexivity.
Qed.

(** Loop invariants: [P i s] holds of the state [s] before iteration [i]. *)
Lemma for_loop_invariant {St : Type} (P : Z -> St -> Prop) (lo hi : Z)
    (body : Z -> St -> St) (s : St) :
  lo <= hi -> P lo s ->
  (forall i s, lo <= i < hi -> P i s -> P (i + 1) (body i s)) ->
  P hi (for_loop lo hi body s).
Proof.
  intros Hle H0 Hstep.
  assert (G : forall n : nat, lo + Z.of_nat n <= hi ->
                P (lo + Z.of_nat n) (for_loop lo (lo + Z.of_nat n) body s)).
  { induction n as [|n IH]; intros Hn.
    - rewrite Z.add_0_r, for_loop_nil by lia. exact H0.
    - replace (lo + Z.of_nat (S n)) with (lo + Z.of_nat n + 1) by lia.
      rewrite for_loop_last by lia. apply Hstep; [lia|]. apply IH. lia. }
  specialize (G (Z.to_nat (hi - lo))).
  replace (lo + Z.of_nat (Z.to_nat (hi - lo))) with hi in G by lia.
  apply G. lia.
Qed.

Lemma length_wr {A : Type} (a : list A) (i : Z) (x : A) :
  length (wr a i x) = length a.
Proof. unfold wr. destruct (i <? 0); [reflexivity | apply length_insert]. Qed.

Lemma rd_wr_eq {A : Type} `{Inhabited A} (a : list A) (i : Z) (x : A) :
  0 <= i < Z.of_nat (length a) -> rd (wr a i x) i = x.
Proof.
  intros Hi. unfold rd, wr.
  destruct (Z.ltb_spec i 0); [lia|].
  apply list_lookup_total_insert_eq. lia.
Qed.

Lemma rd_nonneg {A : Type} `{Inhabited A} (a : list A) (i : Z) :
  0 <= i -> rd a i = a !!! Z.to_nat i.
Proof. intros Hi. unfold rd. destruct (Z.ltb_spec i 0); [lia | reflexivity]. Qed.

Lemma rd_wr_ne {A : Type} `{Inhabited A} (a : list A) (i k : Z) (x : A) :
  0 <= k -> i <> k -> rd (wr a i x) k = rd a k.
Proof.
  intros Hk Hne. unfold rd, wr.
  destruct (Z.ltb_spec k 0); [reflexivity|].
  destruct (Z.ltb_spec i 0); [reflexivity|].
  apply list_lookup_total_insert_ne. lia.
Qed.

Lemma length_store4 (a : list R) (i : Z) (v : fvec4) :
  length (store4 a i v) = length a.
Proof. unfold store4. rewrite !length_wr. reflexivity. Qed.

Lemma rd_store4_other (a : list R) (i k : Z) (v : fvec4) :
  0 <= k -> (k < i \/ i + 4 <= k) -> rd (store4 a i v) k = rd a k.
Proof.
  intros Hk Hout. unfold store4. rewrite !rd_wr_ne by lia. reflexivity.
Qed.

Lemma rd_store4_lane (a : list R) (i m : Z) (v : fvec4) :
  0 <= i -> i + 3 < Z.of_nat (length a) -> 0 <= m < 4 ->
  rd (store4 a i v) (i + m) = V.get v m.
Proof.
  intros Hi Hlen Hm. unfold store4, V.get.
  assert (m = 0 \/ m = 1 \/ m = 2 \/ m = 3) as [-> | [-> | [-> | ->]]] by lia; simpl.
  - rewrite Z.add_0_r. rewrite !rd_wr_ne by lia. apply rd_wr_eq. lia.
  - rewrite !rd_wr_ne by lia. apply rd_wr_eq. rewrite length_wr. lia.
  - rewrite !rd_wr_ne by lia. apply rd_wr_eq. rewrite !length_wr. lia.
  - apply rd_wr_eq. rewrite !length_wr. lia.
Qed.

Lemma load4_lane (a : list R) (i m : Z) :
  0 <= m < 4 -> V.get (load4 a i) m = rd a (i + m).
Proof.
  intros Hm. unfold load4, V.get.
  assert (m = 0 \/ m = 1 \/ m = 2 \/ m = 3) as [-> | [-> | [-> | ->]]] by lia; simpl;
    try reflexivity.
  rewrite Z.add_0_r. reflexivity.
Qed.

End Loops.

(** ** Combining the threads *)

Section Reduction.
Context {ext : Externals}.
#[local] Open Scope Z_scope.

Lemma foldl_add_sumR {A : Type} (h : A -> R) (l : list A) (a : R) :
  foldl (fun acc j => acc + h j)%R a l = (a + sumR (h <$> l))%R.
Proof.
  unfold sumR. revert a. induction l as [|x l IH]; intros a.
  - simpl. lra.
  - rewrite fmap_cons. cbn [foldl foldr]. rewrite IH. lra.
Qed.

Lemma get_add (a b : fvec4) (m : Z) :
  V.get (V.add a b) m = (V.get a m + V.get b m)%R.
Proof.
  unfold V.get, V.add, V.map2; simpl.
  destruct (m =? 0); [reflexivity|].
  destruct (m =? 1); [reflexivity|].
  destruct (m =? 2); reflexivity.
Qed.

Lemma foldl_vadd_get {A : Type} (g : A -> fvec4) (l : list A) (fv : fvec4) (m : Z) :
  V.get (foldl (fun fv j => V.add fv (g j)) fv l) m
  = (V.get fv m + sumR ((fun j => V.get (g j) m) <$> l))%R.
Proof.
  unfold sumR. revert fv. induction l as [|x l IH]; intros fv.
  - simpl. lra.
  - rewrite fmap_cons. cbn [foldl foldr]. rewrite IH, get_add. lra.
Qed.

Lemma rd_fmap_seqZ {B : Type} `{Inhabited B} (F : Z -> B) (n t : Z) :
  0 <= t < n -> rd (F <$> seqZ 0 n) t = F t.
Proof.
  intros Ht. rewrite rd_nonneg by lia. apply list_lookup_total_correct.
  rewrite list_lookup_fmap, lookup_seqZ_lt by lia. simpl.
  f_equal. f_equal. lia.
Qed.

(** The reduction of lines 315-327 on arbitrary per-thread results. *)
Lemma combineThreads_spec (n numThreads : Z) (threadEnergy : list R)
    (threadForce : list (list R)) (forces : list R) (totalEnergy : option R) :
  4 * n <= Z.of_nat (length forces) ->
  let out := combineThreads n numThreads threadEnergy threadForce forces totalEnergy in
  length out.1 = length forces /\
  (forall k, 0 <= k < 4 * n ->
     rd out.1 k
     = (rd forces k
        + sumR ((fun t => rd (rd threadForce t) k) <$> seqZ 0 numThreads))%R) /\
  (forall k, 4 * n <= k -> 0 <= k -> rd out.1 k = rd forces k) /\
  out.2 = match totalEnergy with
          | Some e =>
              Some (e + sumR ((fun t => rd threadEnergy t) <$> seqZ 0 numThreads))%R
          | None => None
          end.
Proof.
  intros Hlen out. subst out. unfold combineThreads. simpl.
  set (F := fun k => sumR ((fun t => rd (rd threadForce t) k) <$> seqZ 0 numThreads)).
  set (body := fun (i : Z) (fs : list R) =>
     store4 fs (4 * i)
       (for_loop 0 numThreads
          (fun j fv => V.add fv (load4 (rd threadForce j) (4 * i)))
          (load4 fs (4 * i)))).
  assert (Inv : forall hi, 0 <= hi <= n ->
    length (for_loop 0 hi body forces) = length forces /\
    forall k, 0 <= k ->
      rd (for_loop 0 hi body forces) k
      = if k <? 4 * hi then (rd forces k + F k)%R else rd forces k).
  { intros hi Hhi.
    apply (for_loop_invariant
      (fun i fs => length fs = length forces /\
         forall k, 0 <= k ->
           rd fs k = if k <? 4 * i then (rd forces k + F k)%R else rd forces k));
      [lia | | ].
    - split; [reflexivity|]. intros k Hk.
      destruct (Z.ltb_spec k (4 * 0)); [lia | reflexivity].
    - intros i fs Hi [Hl Hrd]. unfold body. split.
      + rewrite length_store4. exact Hl.
      + intros k Hk.
        destruct (Z_lt_dec k (4 * i)) as [Hlo|Hlo].
        * rewrite rd_store4_other by lia. rewrite Hrd by lia.
          destruct (Z.ltb_spec k (4 * i)); [|lia].
          destruct (Z.ltb_spec k (4 * (i + 1))); [reflexivity | lia].
        * destruct (Z_lt_dec k (4 * i + 4)) as [Hhi'|Hhi'].
          -- replace k with (4 * i + (k - 4 * i)) at 1 by lia.
             rewrite rd_store4_lane by lia.
             unfold for_loop. rewrite foldl_vadd_get.
             rewrite load4_lane by lia.
             replace (4 * i + (k - 4 * i)) with k by lia.
             rewrite Hrd by lia.
             destruct (Z.ltb_spec k (4 * i)); [lia|].
             destruct (Z.ltb_spec k (4 * (i + 1))); [|lia].
             f_equal. unfold F. rewrite Z.sub_0_r. f_equal.
             apply list_fmap_ext. intros _ t _.
             rewrite load4_lane by lia. f_equal. lia.
          -- rewrite rd_store4_other by lia. rewrite Hrd by lia.
             destruct (Z.ltb_spec k (4 * i)); [lia|].
             destruct (Z.ltb_spec k (4 * (i + 1))); [lia | reflexivity]. }
  assert (Hout : length (for_loop 0 n body forces) = length forces /\
    forall k, 0 <= k ->
      rd (for_loop 0 n body forces) k
      = if k <? 4 * n then (rd forces k + F k)%R else rd forces k).
  { destruct (Z_le_dec 0 n) as [Hn|Hn].
    - apply Inv. lia.
    - rewrite for_loop_nil by lia. split; [reflexivity|]. intros k Hk.
      destruct (Z.ltb_spec k (4 * n)); [lia | reflexivity]. }
  destruct Hout as [Hl Hrd].
  split; [exact Hl|]. split; [|split].
  - intros k Hk. rewrite Hrd by lia.
    destruct (Z.ltb_spec k (4 * n)); [reflexivity | lia].
  - intros k Hk Hk0. rewrite Hrd by lia.
    destruct (Z.ltb_spec k (4 * n)); [lia | reflexivity].
  - destruct totalEnergy as [e|]; [|reflexivity].
    unfold for_loop. rewrite foldl_add_sumR, Z.sub_0_r, Rplus_0_l.
    reflexivity.
Qed.

(** C8: calculateDirectIxn adds to the caller's buffers.  After the call
    every force slot of an atom holds its value before the call plus the
    sum over the threads of the thread's partial force in that slot, the
    slots behind the atoms and the length of the buffer are unchanged, and
    the energy cell, when there is one, holds its previous value plus the
    sum of the threads' energies; with a null energy pointer there is no
    energy result. *)
Theorem calculateDirectIxn_accumulates (f : CpuNonbondedForce) (a : DirectArgs)
    (y : Z -> Z -> Z -> fvec4) (forces : list R) (totalEnergy : option R)
    (numThreads : Z) :
  4 * numberOfAtoms a <= Z.of_nat (length forces) ->
  let part t :=
    threadComputeDirect f a (bool_decide (is_Some totalEnergy)) (y t) numThreads t in
  let out := calculateDirectIxn f a y forces totalEnergy numThreads in
  length out.1 = length forces /\
  (forall k, 0 <= k < 4 * numberOfAtoms a ->
     rd out.1 k
     = (rd forces k + sumR ((fun t => rd (part t).1 k) <$> seqZ 0 numThreads))%R) /\
  (forall k, 4 * numberOfAtoms a <= k -> 0 <= k -> rd out.1 k = rd forces k) /\
  out.2 = match totalEnergy with
          | Some e => Some (e + sumR ((fun t => (part t).2) <$> seqZ 0 numThreads))%R
          | None => None
          end.
Proof.
  intros Hlen part out. subst out. unfold calculateDirectIxn.
  set (results := (fun t => threadComputeDirect f a _ (y t) numThreads t)
                    <$> seqZ 0 numThreads).
  assert (H1 : forall t, t ∈ seqZ 0 numThreads -> rd (results.*1) t = (part t).1).
  { intros t Ht. apply elem_of_seqZ in Ht. unfold results.
    rewrite <- list_fmap_compose. rewrite rd_fmap_seqZ by lia. reflexivity. }
  assert (H2 : forall t, t ∈ seqZ 0 numThreads -> rd (results.*2) t = (part t).2).
  { intros t Ht. apply elem_of_seqZ in Ht. unfold results.
    rewrite <- list_fmap_compose. rewrite rd_fmap_seqZ by lia. reflexivity. }
  destruct (combineThreads_spec (numberOfAtoms a) numThreads (results.*2)
              (results.*1) forces totalEnergy Hlen) as [Hl [Hin [Hout He]]].
  split; [exact Hl|]. split; [|split; [exact Hout|]].
  - intros k Hk. rewrite Hin by exact Hk. do 2 f_equal.
    apply list_fmap_ext. intros i t Ht.
    rewrite H1; [reflexivity|]. eapply list_elem_of_lookup_2. exact Ht.
  - rewrite He. destruct totalEnergy; [|reflexivity]. do 3 f_equal.
    apply list_fmap_ext. intros i t Ht.
    apply H2. eapply list_elem_of_lookup_2. exact Ht.
Qed.

End Reduction.

Lemma calculateDirectIxn_accumulates_witness :
  let a := {| numberOfAtoms := 2;
              posq := [0; 0; 0; 1; 1; 0; 0; -1];
              atomCoordinates := [(0, 0, 0); (1, 0, 0)];
              atomParameters := [(0.3, 0.5); (0.3, 0.5)];
              exclusions := [∅; ∅] |} in
  let forces := [1; 2; 3; 0; 4; 5; 6; 0] in
  (4 * numberOfAtoms a <= Z.of_nat (length forces))%Z /\
  length (@calculateDirectIxn sampleExternals CpuNonbondedForce_new a
            (fun _ _ _ => V.splat 0) forces (Some 7) 2).1 = length forces.
Proof.
  intros a forces.
  assert (H : (4 * numberOfAtoms a <= Z.of_nat (length forces))%Z) by (simpl; lia).
  split; [exact H|].
  apply (@calculateDirectIxn_accumulates sampleExternals CpuNonbondedForce_new a
           (fun _ _ _ => V.splat 0) forces (Some 7) 2 H).
Defined.

(** ** The Ewald scale table *)

Section Tabulation.
Context {ext : Externals}.
#[local] Open Scope Z_scope.

(** The value the source stores in [y[i]] for the abscissa [r]. *)
Lemma tabulate_xy_spec (c alpha : R) :
  let x := (tabulate_xy c alpha).1 in
  let y := (tabulate_xy c alpha).2 in
  length x = Z.to_nat (NUM_TABLE_POINTS + 1) /\
  length y = Z.to_nat (NUM_TABLE_POINTS + 1) /\
  forall i, 0 <= i <= NUM_TABLE_POINTS ->
    rd x i = (IZR i * c / IZR (NUM_TABLE_POINTS - 2))%R /\
    rd y i = (erfc (alpha * rd x i)
              + TWO_OVER_SQRT_PI * (alpha * rd x i)
                * exp (- (alpha * rd x i) * (alpha * rd x i)))%R.
Proof.
  intros x y. subst x y. unfold tabulate_xy.
  set (n := NUM_TABLE_POINTS + 1).
  set (body := fun (i : Z) '(x, y) => _).
  set (s0 := (replicate (Z.to_nat n) 0%R, replicate (Z.to_nat n) 0%R)).
  assert (Inv : length (for_loop 0 n body s0).1 = Z.to_nat n /\
                length (for_loop 0 n body s0).2 = Z.to_nat n /\
                forall k, 0 <= k < n ->
                  rd (for_loop 0 n body s0).1 k
                  = (IZR k * c / IZR (NUM_TABLE_POINTS - 2))%R /\
                  rd (for_loop 0 n body s0).2 k
                  = (erfc (alpha * (IZR k * c / IZR (NUM_TABLE_POINTS - 2)))
                     + TWO_OVER_SQRT_PI * (alpha * (IZR k * c / IZR (NUM_TABLE_POINTS - 2)))
                       * exp (- (alpha * (IZR k * c / IZR (NUM_TABLE_POINTS - 2)))
                              * (alpha * (IZR k * c / IZR (NUM_TABLE_POINTS - 2)))))%R).
  { apply (for_loop_invariant
      (fun i s => length s.1 = Z.to_nat n /\ length s.2 = Z.to_nat n /\
         forall k, 0 <= k < i ->
           rd s.1 k = (IZR k * c / IZR (NUM_TABLE_POINTS - 2))%R /\
           rd s.2 k
           = (erfc (alpha * (IZR k * c / IZR (NUM_TABLE_POINTS - 2)))
              + TWO_OVER_SQRT_PI * (alpha * (IZR k * c / IZR (NUM_TABLE_POINTS - 2)))
                * exp (- (alpha * (IZR k * c / IZR (NUM_TABLE_POINTS - 2)))
                       * (alpha * (IZR k * c / IZR (NUM_TABLE_POINTS - 2)))))%R)).
    - subst n. unfold NUM_TABLE_POINTS. lia.
    - subst s0. cbn [fst snd]. rewrite !length_replicate.
      split; [reflexivity|]. split; [reflexivity|]. intros k Hk. lia.
    - intros i [x y] Hi [Hx [Hy Hk]]. cbn [fst snd] in *. unfold body.
      cbn [fst snd]. rewrite !length_wr.
      split; [exact Hx|]. split; [exact Hy|].
      intros k Hk'. destruct (Z.eq_dec k i) as [->|Hne].
      + rewrite !rd_wr_eq by lia. split; reflexivity.
      + rewrite !rd_wr_ne by lia. apply Hk. lia. }
  destruct Inv as [Hx [Hy Hk]].
  split; [exact Hx|]. split; [exact Hy|].
  intros i Hi. destruct (Hk i) as [E1 E2]; [subst n; lia|].
  split; [exact E1|]. rewrite E2, E1. reflexivity.
Qed.

Lemma table_loop_spec (y deriv t0 : list R) (dX : R) :
  length t0 = Z.to_nat (4 * NUM_TABLE_POINTS) ->
  let table :=
    for_loop 0 NUM_TABLE_POINTS (fun i t =>
      let t := wr t (4 * i) (rd y i) in
      let t := wr t (4 * i + 1) (rd y (i + 1)) in
      let t := wr t (4 * i + 2) (rd deriv i * dX * dX / 6)%R in
      wr t (4 * i + 3) (rd deriv (i + 1) * dX * dX / 6)%R) t0 in
  length table = Z.to_nat (4 * NUM_TABLE_POINTS) /\
  forall i, 0 <= i < NUM_TABLE_POINTS ->
    rd table (4 * i) = rd y i /\
    rd table (4 * i + 1) = rd y (i + 1) /\
    rd table (4 * i + 2) = (rd deriv i * dX * dX / 6)%R /\
    rd table (4 * i + 3) = (rd deriv (i + 1) * dX * dX / 6)%R.
Proof.
  intros Hlen table. subst table.
  apply (for_loop_invariant
    (fun n t => length t = Z.to_nat (4 * NUM_TABLE_POINTS) /\
       forall i, 0 <= i < n ->
         rd t (4 * i) = rd y i /\
         rd t (4 * i + 1) = rd y (i + 1) /\
         rd t (4 * i + 2) = (rd deriv i * dX * dX / 6)%R /\
         rd t (4 * i + 3) = (rd deriv (i + 1) * dX * dX / 6)%R)).
  - unfold NUM_TABLE_POINTS. lia.
  - split; [exact Hlen|]. intros i Hi. lia.
  - intros n t Hn [Hl Hk]. cbn zeta. rewrite !length_wr.
    split; [exact Hl|].
    assert (Hl' : Z.of_nat (length t) = 4 * NUM_TABLE_POINTS)
      by (rewrite Hl; unfold NUM_TABLE_POINTS; lia).
    intros i Hi. destruct (Z.eq_dec i n) as [->|Hne].
    + repeat split.
      * rewrite !rd_wr_ne by lia. apply rd_wr_eq. lia.
      * rewrite !rd_wr_ne by lia. apply rd_wr_eq. rewrite !length_wr. lia.
      * rewrite !rd_wr_ne by lia. apply rd_wr_eq. rewrite !length_wr. lia.
      * apply rd_wr_eq. rewrite !length_wr. lia.
    + rewrite !rd_wr_ne by lia. apply Hk. lia.
Qed.

(** C7: tabulateEwaldScaleFactor samples
    [erfc(alpha r) + (2/sqrt pi) alpha r exp(-(alpha r)^2)] at the
    [NUM_TABLE_POINTS + 1 = 1026] points [r_i = i * cutoff / (NUM_TABLE_POINTS - 2)],
    [i = 0 .. NUM_TABLE_POINTS]: a uniform grid of step
    [cutoff / (NUM_TABLE_POINTS - 2)] whose last point is two steps behind
    the cutoff; bucket [i] of the table holds [y_i], [y_(i+1)] and the
    second derivatives of the spline at [i] and [i + 1], both times
    [step^2 / 6]. *)
Theorem tabulateEwaldScaleFactor_table (f : CpuNonbondedForce) :
  let c := cutoffDistance f in
  let step := (c / IZR (NUM_TABLE_POINTS - 2))%R in
  let x := (tabulate_xy c (alphaEwald f)).1 in
  let y := (tabulate_xy c (alphaEwald f)).2 in
  let deriv := createNaturalSpline x y in
  let g := tabulateEwaldScaleFactor f in
  NUM_TABLE_POINTS + 1 = 1026 /\
  length x = 1026%nat /\ length y = 1026%nat /\
  (forall i, 0 <= i <= NUM_TABLE_POINTS ->
     rd x i = (IZR i * c / IZR (NUM_TABLE_POINTS - 2))%R /\
     rd y i = (erfc (alphaEwald f * rd x i)
               + 2 / sqrt PI * (alphaEwald f * rd x i)
                 * exp (- (alphaEwald f * rd x i) * (alphaEwald f * rd x i)))%R) /\
  (forall i, 0 <= i < NUM_TABLE_POINTS -> (rd x (i + 1) - rd x i)%R = step) /\
  rd x NUM_TABLE_POINTS = (c + 2 * step)%R /\
  ewaldDX g = step /\ ewaldDXInv g = (1 / step)%R /\
  Z.of_nat (length (ewaldScaleTable g)) = 4 * NUM_TABLE_POINTS /\
  (forall i, 0 <= i < NUM_TABLE_POINTS ->
     rd (ewaldScaleTable g) (4 * i) = rd y i /\
     rd (ewaldScaleTable g) (4 * i + 1) = rd y (i + 1) /\
     rd (ewaldScaleTable g) (4 * i + 2) = (rd deriv i * step * step / 6)%R /\
     rd (ewaldScaleTable g) (4 * i + 3) = (rd deriv (i + 1) * step * step / 6)%R).
Proof.
  intros c step x y deriv g.
  destruct (tabulate_xy_spec c (alphaEwald f)) as [Hx [Hy Hxy]].
  fold x y in Hx, Hy, Hxy.
  assert (Hg : ewaldDX g = step /\ ewaldDXInv g = (1 / step)%R /\
               ewaldScaleTable g =
               for_loop 0 NUM_TABLE_POINTS (fun i t =>
                 let t := wr t (4 * i) (rd y i) in
                 let t := wr t (4 * i + 1) (rd y (i + 1)) in
                 let t := wr t (4 * i + 2) (rd deriv i * step * step / 6)%R in
                 wr t (4 * i + 3) (rd deriv (i + 1) * step * step / 6)%R)
                 (resize (Z.to_nat (4 * NUM_TABLE_POINTS)) 0%R (ewaldScaleTable f))).
  { subst g. unfold tabulateEwaldScaleFactor.
    fold c. destruct (tabulate_xy c (alphaEwald f)) as [x' y'] eqn:E.
    subst x y deriv. cbn [fst snd]. cbn [ewaldDX ewaldDXInv ewaldScaleTable].
    repeat split. }
  destruct Hg as [G1 [G2 G3]].
  destruct (table_loop_spec y deriv
              (resize (Z.to_nat (4 * NUM_TABLE_POINTS)) 0%R (ewaldScaleTable f)) step)
    as [Tl Tk]; [apply length_resize|].
  rewrite <- G3 in Tl, Tk.
  split; [reflexivity|].
  split; [rewrite Hx; reflexivity|]. split; [rewrite Hy; reflexivity|].
  split; [exact Hxy|].
  split.
  { intros i Hi. destruct (Hxy i) as [-> _]; [lia|].
    destruct (Hxy (i + 1)) as [-> _]; [lia|].
    subst step. rewrite plus_IZR.
    change (NUM_TABLE_POINTS - 2) with 1023. field; lra. }
  split.
  { destruct (Hxy NUM_TABLE_POINTS) as [-> _]; [unfold NUM_TABLE_POINTS; lia|].
    subst step. change (NUM_TABLE_POINTS - 2) with 1023.
    change NUM_TABLE_POINTS with 1025. field; lra. }
  split; [exact G1|]. split; [exact G2|].
  split; [rewrite Tl; unfold NUM_TABLE_POINTS; lia|].
  exact Tk.
Qed.

End Tabulation.

(** ** Strided loops *)

Section Strides.
#[local] Open Scope Z_scope.

Lemma elem_of_strided_from (fuel : nat) (i n step x : Z) :
  0 < step ->
  x ∈ strided_from fuel i n step <->
  exists k, 0 <= k < Z.of_nat fuel /\ x = i + k * step /\ x < n.
Proof.
  intros Hstep. revert i. induction fuel as [|fuel IH]; intros i; simpl.
  - split; [intros H; inversion H | intros [k [Hk _]]; lia].
  - destruct (Z_lt_dec i n) as [Hi|Hi].
    + rewrite elem_of_cons, IH. split.
      * intros [->|[k [Hk [-> Hx]]]].
        -- exists 0. lia.
        -- exists (k + 1). split; [lia|]. split; [lia | exact Hx].
      * intros [k [Hk [-> Hx]]].
        destruct (Z.eq_dec k 0) as [->|Hk0]; [left; lia|].
        right. exists (k - 1). split; [lia|]. split; [lia | exact Hx].
    + split; [intros H; inversion H|].
      intros [k [Hk [-> Hx]]]. nia.
Qed.

Lemma NoDup_strided_from (fuel : nat) (i n step : Z) :
  0 < step -> NoDup (strided_from fuel i n step).
Proof.
  intros Hstep. revert i. induction fuel as [|fuel IH]; intros i; simpl.
  - constructor.
  - destruct (Z_lt_dec i n); [|constructor].
    constructor; [|apply IH].
    rewrite elem_of_strided_from by exact Hstep.
    intros [k [Hk [E _]]]. nia.
Qed.

(** The atoms of a thread: those at or behind its index, below [n], and
    congruent to the index modulo the number of threads. *)
Lemma elem_of_strided (start n step x : Z) :
  0 < step ->
  x ∈ strided start n step <->
  start <= x < n /\ (x - start) mod step = 0.
Proof.
  intros Hstep. unfold strided. rewrite elem_of_strided_from by exact Hstep.
  split.
  - intros [k [Hk [-> Hx]]]. split; [nia|].
    replace (start + k * step - start) with (k * step) by lia.
    apply Z.mod_mul. lia.
  - intros [Hx Hmod].
    exists ((x - start) / step).
    assert (E : x - start = step * ((x - start) / step))
      by (apply Z.div_exact; lia).
    assert (0 <= (x - start) / step) by (apply Z.div_pos; lia).
    split; [nia|]. split; [lia|lia].
Qed.

Lemma NoDup_strided (start n step : Z) : 0 < step -> NoDup (strided start n step).
Proof. apply NoDup_strided_from. Qed.

(** Every index below [n] belongs to exactly one of the threads
    [0 .. numThreads - 1]. *)
Lemma strided_owner (numThreads n t x : Z) :
  0 < numThreads -> 0 <= t < numThreads ->
  x ∈ strided t n numThreads <-> (0 <= x < n /\ t = x mod numThreads).
Proof.
  intros HT Ht. rewrite elem_of_strided by exact HT. split.
  - intros [Hx Hmod]. split; [lia|].
    assert (E : x - t = numThreads * ((x - t) / numThreads))
      by (apply Z.div_exact; lia).
    apply (Z.mod_unique_pos _ _ ((x - t) / numThreads)); lia.
  - intros [Hx ->].
    pose proof (Z.mod_pos_bound x numThreads HT).
    pose proof (Z.div_mod x numThreads ltac:(lia)) as E.
    pose proof (Z.mod_le x numThreads ltac:(lia) HT).
    split; [lia|].
    replace (x - x mod numThreads) with (x / numThreads * numThreads) by lia.
    apply Z.mod_mul. lia.
Qed.

Lemma foldl_bind {A B C : Type} (g : C -> B -> C) (h : A -> list B)
    (l : list A) (c : C) :
  foldl g c (l ≫= h) = foldl (fun c x => foldl g c (h x)) c l.
Proof.
  revert c. induction l as [|x l IH]; intros c; [reflexivity|].
  rewrite bind_cons, foldl_app. apply IH.
Qed.

End Strides.

(** ** The all-pairs loop *)

Section AllPairs.
Context {ext : Externals}.
#[local] Open Scope Z_scope.

Lemma foldl_pointwise {A B : Type} (g h : A -> B -> A) (l : list B) (c : A) :
  (forall c x, g c x = h c x) -> foldl g c l = foldl h c l.
Proof.
  intros E. revert c. induction l as [|x l IH]; intros c; [reflexivity|].
  simpl. rewrite E. apply IH.
Qed.

Lemma elem_of_allPairs_calls (a : DirectArgs) (numThreads t i j : Z) :
  (i, j) ∈ allPairs_calls a numThreads t <->
  i ∈ strided t (numberOfAtoms a) numThreads /\ i < j < numberOfAtoms a /\
  i ∉ rd (exclusions a) j.
Proof.
  unfold allPairs_calls. rewrite list_elem_of_bind. split.
  - intros [i' [Hin Hi']]. apply list_elem_of_bind in Hin as [j' [Hin Hj']].
    apply elem_of_seqZ in Hj'.
    destruct (bool_decide_reflect (i' ∉ rd (exclusions a) j')) as [Hex|Hex];
      [|inversion Hin].
    apply list_elem_of_singleton in Hin. inversion Hin; subst i' j'.
    split; [exact Hi'|]. split; [lia | exact Hex].
  - intros [Hi [Hj Hex]]. exists i. split; [|exact Hi].
    apply list_elem_of_bind. exists j. split; [|apply elem_of_seqZ; lia].
    rewrite bool_decide_eq_true_2 by exact Hex. apply list_elem_of_singleton.
    reflexivity.
Qed.

Lemma NoDup_allPairs_calls (a : DirectArgs) (numThreads t : Z) :
  0 < numThreads -> NoDup (allPairs_calls a numThreads t).
Proof.
  intros HT. unfold allPairs_calls. apply NoDup_bind.
  - intros i1 i2 [i j] _ _ H1 H2.
    apply list_elem_of_bind in H1 as [j1 [H1 _]].
    apply list_elem_of_bind in H2 as [j2 [H2 _]].
    destruct (bool_decide _); [|inversion H1].
    destruct (bool_decide _); [|inversion H2].
    apply list_elem_of_singleton in H1, H2. congruence.
  - intros i _. apply NoDup_bind.
    + intros j1 j2 [i' j] _ _ H1 H2.
      destruct (bool_decide _); [|inversion H1].
      destruct (bool_decide _); [|inversion H2].
      apply list_elem_of_singleton in H1, H2. congruence.
    + intros j _. destruct (bool_decide _); [apply NoDup_singleton | constructor].
    + apply NoDup_seqZ.
  - apply NoDup_strided. exact HT.
Qed.

(** C9: in the loop over all pairs, taken over all threads, calculateOneIxn
    is called for the pair [i < j] exactly when [i] is not a member of
    [exclusions[j]], and then once; [exclusions[i]] plays no part, so that a
    pair excluded only through [exclusions[i]] is still computed. *)
Theorem allPairs_exclusion_lookup (f : CpuNonbondedForce) (a : DirectArgs)
    (includeEnergy : bool) (numThreads : Z) (boxSize invBoxSize : fvec4) :
  0 < numThreads ->
  let calls := seqZ 0 numThreads ≫= allPairs_calls a numThreads in
  (forall t st,
     allPairs f a includeEnergy numThreads t boxSize invBoxSize st
     = foldl (fun st p =>
         with_energyPtr includeEnergy
           (fun e => calculateOneIxn f a p.1 p.2 st.1 e boxSize invBoxSize) st.2)
         st (allPairs_calls a numThreads t)) /\
  NoDup calls /\
  (forall i j, 0 <= i < j -> j < numberOfAtoms a ->
     ((i, j) ∈ calls <-> i ∉ rd (exclusions a) j)) /\
  (forall i j, (i, j) ∈ calls -> 0 <= i < j /\ j < numberOfAtoms a) /\
  (forall i j, 0 <= i < j -> j < numberOfAtoms a ->
     j ∈ rd (exclusions a) i -> i ∉ rd (exclusions a) j -> (i, j) ∈ calls) /\
  (ewald f = false -> pme f = false -> cutoff f = false ->
   forall y t,
     threadComputeDirect f a includeEnergy y numThreads t
     = let '(bx, by_, bz) := periodicBoxSize f in
       allPairs f a includeEnergy numThreads t (Fvec4 bx by_ bz 0%R)
         (Fvec4 (1 / bx) (1 / by_) (1 / bz) 0)%R
         (replicate (Z.to_nat (4 * numberOfAtoms a)) 0%R, 0%R)).
Proof.
  intros HT calls.
  assert (Hmem : forall i j,
    (i, j) ∈ calls <->
    (0 <= i < j /\ j < numberOfAtoms a) /\ i ∉ rd (exclusions a) j).
  { intros i j. subst calls. rewrite list_elem_of_bind. split.
    - intros [t [Hin Ht]]. apply elem_of_seqZ in Ht.
      apply elem_of_allPairs_calls in Hin as [Hi [Hj Hex]].
      apply strided_owner in Hi; [|lia|lia]. split; [lia | exact Hex].
    - intros [[Hi Hj] Hex]. exists (i mod numThreads).
      pose proof (Z.mod_pos_bound i numThreads HT).
      split; [|apply elem_of_seqZ; lia].
      apply elem_of_allPairs_calls. split; [|split; [lia | exact Hex]].
      apply strided_owner; [lia|lia|]. split; [lia | reflexivity]. }
  split; [|split; [|split; [|split; [|split]]]].
  - intros t st. unfold allPairs, allPairs_calls.
    rewrite foldl_bind. apply foldl_pointwise. intros c i.
    unfold for_loop. rewrite foldl_bind. apply foldl_pointwise. intros c' j.
    destruct (bool_decide _); reflexivity.
  - subst calls. apply NoDup_bind.
    + intros t1 t2 [i j] Ht1 Ht2 H1 H2.
      apply elem_of_seqZ in Ht1, Ht2.
      apply elem_of_allPairs_calls in H1 as [H1 _], H2 as [H2 _].
      apply strided_owner in H1, H2; try lia.
    + intros t _. apply NoDup_allPairs_calls. exact HT.
    + apply NoDup_seqZ.
  - intros i j Hi Hj. rewrite Hmem. tauto.
  - intros i j Hin. apply Hmem in Hin. tauto.
  - intros i j Hi Hj _ Hex. apply Hmem. tauto.
  - intros He Hp Hc y t. unfold threadComputeDirect.
    rewrite He, Hp, Hc. destruct (periodicBoxSize f) as [[bx by_] bz].
    reflexivity.
Qed.

End AllPairs.

Lemma allPairs_exclusion_lookup_witness :
  let a := {| numberOfAtoms := 3;
              posq := [0; 0; 0; 1; 1; 0; 0; -1; 2; 0; 0; 1];
              atomCoordinates := [(0, 0, 0); (1, 0, 0); (2, 0, 0)]%R;
              atomParameters := [(0.3, 0.5); (0.3, 0.5); (0.3, 0.5)]%R;
              exclusions := [{[1%Z]}; ∅; {[1%Z]}] |} in
  (0 < 2)%Z /\
  ((0, 1)%Z ∈ seqZ 0 2 ≫= allPairs_calls a 2) /\
  ((1, 2)%Z ∉ seqZ 0 2 ≫= allPairs_calls a 2).
Proof.
  intros a.
  assert (HT : (0 < 2)%Z) by lia.
  destruct (@allPairs_exclusion_lookup sampleExternals CpuNonbondedForce_new a
              true 2 (V.splat 0) (V.splat 0) HT) as [_ [_ [Hiff _]]].
  split; [exact HT|]. split.
  - apply (Hiff 0 1)%Z; [lia | simpl; lia | vm_compute; set_solver].
  - intros Hin. apply (Hiff 1 2)%Z in Hin; [|lia | simpl; lia].
    apply Hin. vm_compute. set_solver.
Defined.

(** ** The exclusion correction of the Ewald kernels *)

Section ExclusionCorrection.
Context {ext : Externals}.
#[local] Open Scope Z_scope.

Lemma elem_of_excludedPairs (a : DirectArgs) (numThreads t i j : Z) :
  (i, j) ∈ excludedPairs a numThreads t <->
  i ∈ strided t (numberOfAtoms a) numThreads /\ i < j /\
  j ∈ rd (exclusions a) i.
Proof.
  unfold excludedPairs. rewrite list_elem_of_bind. split.
  - intros [i' [Hin Hi']]. apply list_elem_of_bind in Hin as [j' [Hin Hj']].
    apply elem_of_elements in Hj'.
    destruct (Z.ltb_spec i' j') as [Hlt|Hlt]; [|inversion Hin].
    apply list_elem_of_singleton in Hin. inversion Hin; subst i' j'.
    split; [exact Hi'|]. split; [exact Hlt | exact Hj'].
  - intros [Hi [Hlt Hj]]. exists i. split; [|exact Hi].
    apply list_elem_of_bind. exists j. split; [|apply elem_of_elements; exact Hj].
    destruct (Z.ltb_spec i j); [|lia]. apply list_elem_of_singleton. reflexivity.
Qed.

Lemma NoDup_excludedPairs (a : DirectArgs) (numThreads t : Z) :
  0 < numThreads -> NoDup (excludedPairs a numThreads t).
Proof.
  intros HT. unfold excludedPairs. apply NoDup_bind.
  - intros i1 i2 [i j] _ _ H1 H2.
    apply list_elem_of_bind in H1 as [j1 [H1 _]].
    apply list_elem_of_bind in H2 as [j2 [H2 _]].
    destruct (i1 <? j1); [|inversion H1].
    destruct (i2 <? j2); [|inversion H2].
    apply list_elem_of_singleton in H1, H2. congruence.
  - intros i _. apply NoDup_bind.
    + intros j1 j2 [i' j] _ _ H1 H2.
      destruct (i <? j1); [|inversion H1].
      destruct (i <? j2); [|inversion H2].
      apply list_elem_of_singleton in H1, H2. congruence.
    + intros j _. destruct (i <? j); [apply NoDup_singleton | constructor].
    + apply NoDup_elements.
  - apply NoDup_strided. exact HT.
Qed.


End ExclusionCorrection.


(** ** Lanes *)

Section Lanes.

Lemma get_map (g : R -> R) (a : fvec4) (j : Z) :
  V.get (V.map g a) j = g (V.get a j).
Proof.
  unfold V.get, V.map; simpl.
  destruct (j =? 0)%Z; [reflexivity|].
  destruct (j =? 1)%Z; [reflexivity|].
  destruct (j =? 2)%Z; reflexivity.
Qed.

Lemma get_map2 (g : R -> R -> R) (a b : fvec4) (j : Z) :
  V.get (V.map2 g a b) j = g (V.get a j) (V.get b j).
Proof.
  unfold V.get, V.map2; simpl.
  destruct (j =? 0)%Z; [reflexivity|].
  destruct (j =? 1)%Z; [reflexivity|].
  destruct (j =? 2)%Z; reflexivity.
Qed.

Lemma get_sub (a b : fvec4) (j : Z) : V.get (V.sub a b) j = V.get a j - V.get b j.
Proof. apply get_map2. Qed.

Lemma get_mul (a b : fvec4) (j : Z) : V.get (V.mul a b) j = V.get a j * V.get b j.
Proof. apply get_map2. Qed.

Lemma get_div (a b : fvec4) (j : Z) : V.get (V.div a b) j = V.get a j / V.get b j.
Proof. apply get_map2. Qed.

Lemma get_scale (a : fvec4) (k : R) (j : Z) : V.get (V.scale a k) j = V.get a j * k.
Proof. unfold V.scale. apply get_map. Qed.

Lemma get_splat (k : R) (j : Z) : V.get (V.splat k) j = k.
Proof.
  unfold V.get, V.splat; simpl.
  destruct (j =? 0)%Z; [reflexivity|].
  destruct (j =? 1)%Z; [reflexivity|].
  destruct (j =? 2)%Z; reflexivity.
Qed.

Lemma get_tab (g : Z -> R) (j : Z) :
  (0 <= j < 4)%Z -> V.get (V.tab g) j = g j.
Proof.
  intros Hj.
  assert (j = 0 \/ j = 1 \/ j = 2 \/ j = 3)%Z as [-> | [-> | [-> | ->]]] by lia;
    reflexivity.
Qed.

Lemma for_loop_0_4 {St : Type} (body : Z -> St -> St) (s : St) :
  for_loop 0 4 body s = body 3%Z (body 2%Z (body 1%Z (body 0%Z s))).
Proof. reflexivity. Qed.

(** The forces accumulated for a neighbour use [dEdR] in the included lanes
    only. *)
Lemma accumulateForces_included (include : Z -> bool) (dx dy dz dEdR dEdR' : fvec4)
    (atom : Z) (blockAtomForce : Z -> fvec4) (forces : list R) :
  (forall j, (0 <= j < 4)%Z -> include j = true -> V.get dEdR j = V.get dEdR' j) ->
  accumulateForces include dx dy dz dEdR atom blockAtomForce forces
  = accumulateForces include dx dy dz dEdR' atom blockAtomForce forces.
Proof.
  intros H.
  pose proof (H 0%Z ltac:(lia)) as H0. pose proof (H 1%Z ltac:(lia)) as H1.
  pose proof (H 2%Z ltac:(lia)) as H2. pose proof (H 3%Z ltac:(lia)) as H3.
  destruct dEdR as [a0 a1 a2 a3], dEdR' as [b0 b1 b2 b3].
  unfold V.get in H0, H1, H2, H3; simpl in H0, H1, H2, H3.
  unfold accumulateForces. cbn [V.transpose V.mul V.map2 V.splat v0 v1 v2 v3].
  rewrite !for_loop_0_4. cbn [Z.eqb Pos.eqb].
  destruct (include 0%Z); [rewrite (H0 eq_refl)|];
  (destruct (include 1%Z); [rewrite (H1 eq_refl)|]);
  (destruct (include 2%Z); [rewrite (H2 eq_refl)|]);
  (destruct (include 3%Z); [rewrite (H3 eq_refl)|]); reflexivity.
Qed.

End Lanes.

(** ** Lookups outside the Ewald scale table *)

Section ScaleFunction.
Context {ext : Externals}.

Lemma int_lane_in_range (z : Z) :
  (INT_MIN <= z < 2 ^ 31)%Z -> int_lane z = z.
Proof.
  intros [Hl Hu]. unfold int_lane.
  rewrite (proj2 (Z.leb_le _ _) Hl), (proj2 (Z.ltb_lt _ _) Hu). reflexivity.
Qed.

Lemma int_lane_overflow (z : Z) : (2 ^ 31 <= z)%Z -> int_lane z = INT_MIN.
Proof.
  intros Hz. unfold int_lane.
  rewrite (proj2 (Z.ltb_ge _ _) Hz), andb_false_r. reflexivity.
Qed.

(** The bucket of lane [j], as ewaldScaleFunction computes it. *)
Lemma ewaldScaleFunction_lane (f : CpuNonbondedForce) (y x : fvec4) (j : Z) :
  (0 <= j < 4)%Z ->
  let index := int_lane (Zfloor (V.get x j * ewaldDXInv f)) in
  V.get (ewaldScaleFunction f y x) j
  = if (index <? NUM_TABLE_POINTS)%Z
    then
      let u := V.get x j * ewaldDXInv f - IZR index in
      V.dot4 (Fvec4 (1 - u) u ((1 - u) * (1 - u) * (1 - u) - (1 - u)) (u * u * u - u))
        (load4 (ewaldScaleTable f) (4 * index))
    else V.get y j.
Proof.
  intros Hj index. subst index. unfold ewaldScaleFunction.
  cbn [V.transpose].
  rewrite get_tab by exact Hj. rewrite get_scale.
  destruct (int_lane (Zfloor (V.get x j * ewaldDXInv f)) <? NUM_TABLE_POINTS)%Z;
    [|reflexivity].
  cbn zeta.
  assert (j = 0 \/ j = 1 \/ j = 2 \/ j = 3)%Z as [-> | [-> | [-> | ->]]] by lia;
    cbn [Z.eqb Pos.eqb V.tab V.map V.sub V.mul V.map2 v0 v1 v2 v3];
    rewrite ?get_scale; reflexivity.
Qed.

Lemma tabulateEwaldScaleFactor_matches (f0 : CpuNonbondedForce) :
  cutoffDistance (tabulateEwaldScaleFactor f0) = cutoffDistance f0 /\
  table_matches_cutoff (tabulateEwaldScaleFactor f0).
Proof.
  unfold table_matches_cutoff, tabulateEwaldScaleFactor.
  destruct (tabulate_xy _ _) as [x y]. cbn [cutoffDistance ewaldDXInv].
  split; reflexivity.
Qed.

(** An included lane lies inside the table. *)
Lemma ewaldInclude_in_table (f : CpuNonbondedForce) (e : Z) (r2 : fvec4) (j : Z) :
  0 < cutoffDistance f -> table_matches_cutoff f ->
  ewaldInclude f e r2 j = true ->
  (Zfloor (sqrt (V.get r2 j) * ewaldDXInv f) < NUM_TABLE_POINTS)%Z.
Proof.
  intros Hc Hinv Hinc. rewrite Hinv.
  change (NUM_TABLE_POINTS - 2)%Z with 1023%Z.
  unfold ewaldInclude in Hinc.
  apply andb_true_iff in Hinc as [_ Hlt].
  unfold Rltb in Hlt. destruct (Rlt_dec _ _) as [Hr|]; [|discriminate].
  set (c := cutoffDistance f) in *.
  assert (Hs : sqrt (V.get r2 j) < c).
  { destruct (Rle_dec 0 (V.get r2 j)) as [Hpos|Hneg].
    - rewrite <- (sqrt_square c) by lra. apply sqrt_lt_1_alt. lra.
    - rewrite sqrt_neg_0 by lra. exact Hc. }
  pose proof (Zfloor_bound (sqrt (V.get r2 j) * (1 / (c / 1023)))) as [Hfl _].
  assert (Hx : sqrt (V.get r2 j) * (1 / (c / 1023)) < 1023).
  { replace (sqrt (V.get r2 j) * (1 / (c / 1023)))
      with (sqrt (V.get r2 j) * 1023 / c) by (field; lra).
    apply (Rmult_lt_reg_r c); [exact Hc|].
    replace (sqrt (V.get r2 j) * 1023 / c * c)
      with (sqrt (V.get r2 j) * 1023) by (field; lra).
    lra. }
  apply lt_IZR. unfold NUM_TABLE_POINTS. lra.
Qed.

(** A lane whose bucket lies past the table and fits the [int] lane comes
    back as found. *)
Lemma ewaldScaleFunction_beyond_table (f : CpuNonbondedForce) (y x : fvec4) (j : Z) :
  (0 <= j < 4)%Z ->
  (NUM_TABLE_POINTS <= Zfloor (V.get x j * ewaldDXInv f) < 2 ^ 31)%Z ->
  V.get (ewaldScaleFunction f y x) j = V.get y j.
Proof.
  intros Hj Hidx. rewrite ewaldScaleFunction_lane by exact Hj. cbn zeta.
  rewrite int_lane_in_range
    by (unfold INT_MIN; unfold NUM_TABLE_POINTS in Hidx; lia).
  destruct (Z.ltb_spec (Zfloor (V.get x j * ewaldDXInv f)) NUM_TABLE_POINTS);
    [lia | reflexivity].
Qed.

(** The bucket of an included lane fits the [int] lane. *)
Lemma ewaldInclude_int_lane (f : CpuNonbondedForce) (e : Z) (r2 : fvec4) (j : Z) :
  0 < cutoffDistance f -> table_matches_cutoff f ->
  ewaldInclude f e r2 j = true ->
  int_lane (Zfloor (sqrt (V.get r2 j) * ewaldDXInv f))
  = Zfloor (sqrt (V.get r2 j) * ewaldDXInv f)
  /\ (Zfloor (sqrt (V.get r2 j) * ewaldDXInv f) < NUM_TABLE_POINTS)%Z.
Proof.
  intros Hc Hinv Hinc.
  pose proof (ewaldInclude_in_table f e r2 j Hc Hinv Hinc) as Hlt.
  split; [| exact Hlt].
  apply int_lane_in_range. split.
  - transitivity 0%Z; [unfold INT_MIN; lia |].
    apply Zfloor_lub. rewrite Hinv. change (NUM_TABLE_POINTS - 2)%Z with 1023%Z.
    apply Rmult_le_pos; [apply sqrt_pos |].
    apply Rlt_le. apply Rdiv_lt_0_compat; [lra |].
    apply Rdiv_lt_0_compat; [exact Hc | lra].
  - unfold NUM_TABLE_POINTS in Hlt. lia.
Qed.

(** C2, as amended: a lane of ewaldScaleFunction whose bucket is
    [NUM_TABLE_POINTS] or more and fits an [int] comes back as it was found
    in the result array; when the cutoff is positive and the table step is
    the one tabulateEwaldScaleFactor computes from it, such a lane is
    excluded by the mask of calculateBlockEwaldIxn, and what the kernel
    accumulates for a neighbour does not depend on the content found in
    that array. *)
Theorem ewaldScaleFunction_out_of_table (f : CpuNonbondedForce) :
  (forall y x j, (0 <= j < 4)%Z ->
     (NUM_TABLE_POINTS <= Zfloor (V.get x j * ewaldDXInv f) < 2 ^ 31)%Z ->
     V.get (ewaldScaleFunction f y x) j = V.get y j) /\
  (0 < cutoffDistance f -> table_matches_cutoff f ->
   (forall e r2 j,
      (NUM_TABLE_POINTS <= Zfloor (sqrt (V.get r2 j) * ewaldDXInv f))%Z ->
      ewaldInclude f e r2 j = false) /\
   (forall a b needPeriodic neighbors exclusions boxSize invBoxSize y y' i st,
      calculateBlockEwaldIxn_neighbor f a b needPeriodic neighbors exclusions
        boxSize invBoxSize y i st
      = calculateBlockEwaldIxn_neighbor f a b needPeriodic neighbors exclusions
          boxSize invBoxSize y' i st)).
Proof.
  split; [|intros Hc Hinv; split].
  - intros y x j Hj Hidx. apply ewaldScaleFunction_beyond_table; assumption.
  - intros e r2 j Hidx.
    destruct (ewaldInclude f e r2 j) eqn:Hinc; [|reflexivity].
    pose proof (ewaldInclude_in_table f e r2 j Hc Hinv Hinc) as Hlt. lia.
  - intros a b needPeriodic neighbors exclusions boxSize invBoxSize y y' i
      [[blockAtomForce forces] totalEnergy].
    unfold calculateBlockEwaldIxn_neighbor.
    destruct (getDeltaR4 _ _ _ _ _ _ _) as [[[dx dy] dz] r2].
    destruct (negb _); [reflexivity|].
    destruct (blockSwitch f (V.map sqrt r2)) as [switchValue switchDeriv].
    assert (Hlane : forall j, (0 <= j < 4)%Z ->
              ewaldInclude f (rd exclusions i) r2 j = true ->
              V.get (ewaldScaleFunction f (y i) (V.map sqrt r2)) j
              = V.get (ewaldScaleFunction f (y' i) (V.map sqrt r2)) j).
    { intros j Hj Hinc.
      destruct (ewaldInclude_int_lane f _ r2 j Hc Hinv Hinc) as [Hint Hlt].
      rewrite !ewaldScaleFunction_lane by exact Hj. cbn zeta.
      rewrite get_map, Hint.
      destruct (Z.ltb_spec (Zfloor (sqrt (V.get r2 j) * ewaldDXInv f))
                  NUM_TABLE_POINTS); [reflexivity | lia]. }
    destruct (useSwitch f).
    + erewrite accumulateForces_included; [reflexivity|].
      intros j Hj Hinc.
      repeat (rewrite get_sub || rewrite get_mul || rewrite get_add).
      rewrite (Hlane j Hj Hinc). reflexivity.
    + erewrite accumulateForces_included; [reflexivity|].
      intros j Hj Hinc.
      repeat (rewrite get_sub || rewrite get_mul || rewrite get_add).
      rewrite (Hlane j Hj Hinc). reflexivity.
Qed.

End ScaleFunction.

(** ** The Lennard-Jones terms *)

Section LennardJones.
Context {ext : Externals}.

Lemma switchFunction_off (f : CpuNonbondedForce) (r : R) :
  useSwitch f = false -> switchFunction f r = (1, 0).
Proof. intros H. unfold switchFunction. rewrite H. reflexivity. Qed.

(** The scalar kernel on a pair that passes the cutoff test. *)
Lemma calculateOneIxn_included (f : CpuNonbondedForce) (a : DirectArgs)
    (ii jj : Z) (forces : list R) (totalEnergy : option R)
    (boxSize invBoxSize : fvec4) :
  let dr := getDeltaR (load4 (posq a) (4 * jj)) (load4 (posq a) (4 * ii))
              (periodic f) boxSize invBoxSize in
  let p_i := rd (atomParameters a) ii in
  let p_j := rd (atomParameters a) jj in
  let chargeProd :=
    ONE_4PI_EPS0 * rd (posq a) (4 * ii + 3) * rd (posq a) (4 * jj + 3) in
  let result :=
    V.scale dr.1 (pair_dEdR f p_i.1 p_i.2 p_j.1 p_j.2 chargeProd dr.2) in
  let forces1 := store4 forces (4 * ii) (V.add (load4 forces (4 * ii)) result) in
  cutoff f = false \/ dr.2 < cutoffDistance f * cutoffDistance f ->
  calculateOneIxn f a ii jj forces totalEnergy boxSize invBoxSize
  = (store4 forces1 (4 * jj) (V.sub (load4 forces1 (4 * jj)) result),
     match totalEnergy with
     | Some e => Some (e + pair_energy f p_i.1 p_i.2 p_j.1 p_j.2 chargeProd dr.2)
     | None => None
     end).
Proof.
  intros dr p_i p_j chargeProd result forces1 Hin.
  subst forces1 result. unfold calculateOneIxn. fold dr.
  destruct dr as [deltaR r2] eqn:Edr. cbn [fst snd] in *.
  assert (Hgate : cutoff f && Rleb (cutoffDistance f * cutoffDistance f) r2 = false).
  { destruct Hin as [-> | Hlt]; [reflexivity|].
    rewrite Rleb_false by exact Hlt. apply andb_false_r. }
  rewrite Hgate. fold p_i p_j chargeProd.
  unfold pair_dEdR, pair_energy, coulomb_dEdR, coulombEnergy,
    LJ.dEdR, LJ.energy, LJ.sig6, LJ.sig2, LJ.combinedSigma, LJ.combinedEpsilon.
  destruct (useSwitch f) eqn:Hsw.
  - destruct (switchFunction f (sqrt r2)) as [switchValue switchDeriv].
    cbn [fst snd].
    destruct (cutoff f), totalEnergy as [e|];
      repeat (f_equal; try (unfold Rdiv; ring)).
  - rewrite (switchFunction_off f _ Hsw). cbn [fst snd].
    destruct (cutoff f), totalEnergy as [e|];
      repeat (f_equal; try (unfold Rdiv; ring)).
Qed.

#[local] Ltac lanes :=
  repeat (rewrite get_sub || rewrite get_mul || rewrite get_add
          || rewrite get_div || rewrite get_map || rewrite get_scale
          || rewrite get_splat).

Lemma accumulateForces_rows (include : Z -> bool) (dx dy dz dEdR : fvec4)
    (atom : Z) (blockAtomForce : Z -> fvec4) (forces : list R) :
  let row j := Fvec4 (V.get dx j * V.get dEdR j) (V.get dy j * V.get dEdR j)
                     (V.get dz j * V.get dEdR j) 0 in
  let out := accumulateForces include dx dy dz dEdR atom blockAtomForce forces in
  (forall j, (0 <= j < 4)%Z ->
     out.1 j = if include j then V.add (blockAtomForce j) (row j)
               else blockAtomForce j) /\
  out.2 = store4 forces (4 * atom)
            (foldl (fun af j => if include j then V.sub af (row j) else af)
               (load4 forces (4 * atom)) [0; 1; 2; 3]%Z).
Proof.
  intros row out. subst out row. unfold accumulateForces.
  cbn [V.transpose]. rewrite for_loop_0_4. cbn [Z.eqb Pos.eqb foldl].
  split.
  - intros j Hj.
    assert (j = 0 \/ j = 1 \/ j = 2 \/ j = 3)%Z as [-> | [-> | [-> | ->]]] by lia;
      destruct (include 0%Z), (include 1%Z), (include 2%Z), (include 3%Z);
      reflexivity.
  - destruct (include 0%Z), (include 1%Z), (include 2%Z), (include 3%Z);
      reflexivity.
Qed.

(** The blocked kernel on one neighbour of which some lane is included. *)
Lemma calculateBlockIxn_neighbor_included (f : CpuNonbondedForce) (a : DirectArgs)
    (b : BlockData) (needPeriodic : bool) (neighbors exclusions : list Z)
    (boxSize invBoxSize : fvec4) (i : Z) (blockAtomForce : Z -> fvec4)
    (forces : list R) (e : R) :
  let atom := rd neighbors i in
  let d := getDeltaR4 (load4 (posq a) (4 * atom)) (blockAtomX b) (blockAtomY b)
             (blockAtomZ b) needPeriodic boxSize invBoxSize in
  let include := blockInclude f (rd exclusions i) d.2 in
  let p := rd (atomParameters a) atom in
  let chargeProd j := V.get (blockAtomCharge b) j * rd (posq a) (4 * atom + 3) in
  let D j := pair_dEdR f (V.get (blockAtomSigma b) j) (V.get (blockAtomEpsilon b) j)
               p.1 p.2 (chargeProd j) (V.get d.2 j) in
  let E j := pair_energy f (V.get (blockAtomSigma b) j) (V.get (blockAtomEpsilon b) j)
               p.1 p.2 (chargeProd j) (V.get d.2 j) in
  let row j := Fvec4 (V.get d.1.1.1 j * D j) (V.get d.1.1.2 j * D j)
                     (V.get d.1.2 j * D j) 0 in
  let out := calculateBlockIxn_neighbor f a b needPeriodic neighbors exclusions
               boxSize invBoxSize i (blockAtomForce, forces, Some e) in
  existsb include [0; 1; 2; 3]%Z = true ->
  (forall j, (0 <= j < 4)%Z ->
     out.1.1 j = if include j then V.add (blockAtomForce j) (row j)
                 else blockAtomForce j) /\
  out.1.2 = store4 forces (4 * atom)
              (foldl (fun af j => if include j then V.sub af (row j) else af)
                 (load4 forces (4 * atom)) [0; 1; 2; 3]%Z) /\
  out.2 = Some (foldl (fun e j => if include j then e + E j else e) e
                  [0; 1; 2; 3]%Z).
Proof.
  intros atom d include p chargeProd D E row out Hany.
  subst out. unfold calculateBlockIxn_neighbor. fold atom d.
  destruct d as [[[dx dy] dz] r2] eqn:Ed. cbn [fst snd] in *.
  fold include. rewrite Hany. cbn [negb]. fold p.
  pose proof (blockSwitch_lane f (V.map sqrt r2)) as Hsw.
  destruct (blockSwitch f (V.map sqrt r2)) as [switchValue switchDeriv].
  cbn [fst snd] in Hsw.
  assert (Hlane : forall j, (0 <= j < 4)%Z ->
    V.get switchValue j = (switchFunction f (sqrt (V.get r2 j))).1 /\
    V.get switchDeriv j = (switchFunction f (sqrt (V.get r2 j))).2).
  { intros j _. specialize (Hsw j). rewrite get_map in Hsw.
    rewrite <- Hsw. split; reflexivity. }
  subst D E row chargeProd. cbn beta.
  destruct (useSwitch f) eqn:Hu; destruct (cutoff f) eqn:Hcut;
    match goal with
    | |- context [accumulateForces ?inc ?dx' ?dy' ?dz' ?dE ?at' ?bf ?fs] =>
        destruct (accumulateForces_rows inc dx' dy' dz' dE at' bf fs) as [Hbf Hf];
        assert (HD : forall j, (0 <= j < 4)%Z ->
                  V.get dE j
                  = pair_dEdR f (V.get (blockAtomSigma b) j)
                      (V.get (blockAtomEpsilon b) j) p.1 p.2
                      (V.get (blockAtomCharge b) j * rd (posq a) (4 * atom + 3))
                      (V.get r2 j))
          by (intros j Hj; destruct (Hlane j Hj) as [Hv Hd];
              unfold pair_dEdR, coulomb_dEdR, LJ.dEdR, LJ.energy, LJ.sig6,
                LJ.sig2, LJ.combinedSigma, LJ.combinedEpsilon;
              cbn beta zeta; rewrite Hcut; lanes;
              rewrite ?Hv, ?Hd, ?(switchFunction_off f _ Hu); cbn [fst snd];
              unfold Rdiv; ring);
        destruct (accumulateForces inc dx' dy' dz' dE at' bf fs) as [bf' forces']
    end;
    match goal with
    | |- context [addIncludedEnergy _ ?en _] =>
        assert (HE : forall j, (0 <= j < 4)%Z ->
                  V.get en j
                  = pair_energy f (V.get (blockAtomSigma b) j)
                      (V.get (blockAtomEpsilon b) j) p.1 p.2
                      (V.get (blockAtomCharge b) j * rd (posq a) (4 * atom + 3))
                      (V.get r2 j))
          by (intros j Hj; destruct (Hlane j Hj) as [Hv Hd];
              unfold pair_energy, coulombEnergy, reactionFieldEnergy, LJ.energy,
                LJ.sig6, LJ.sig2, LJ.combinedSigma, LJ.combinedEpsilon;
              cbn beta zeta; rewrite Hcut; lanes; rewrite ?get_tab by exact Hj;
              lanes;
              rewrite ?Hv, ?(switchFunction_off f _ Hu); cbn [fst snd];
              unfold Rdiv; ring)
    end;
    cbn [fst snd] in *;
    (split; [|split];
     [ intros j Hj; rewrite Hbf by exact Hj; rewrite <- (HD j Hj); reflexivity
     | rewrite Hf; cbn [foldl]; rewrite <- !HD by lia; reflexivity
     | unfold addIncludedEnergy; rewrite for_loop_0_4; cbn [foldl];
       rewrite <- !HE by lia; reflexivity ]).
Qed.

(** *** The two-atom scenario *)

Lemma scenario_sig6 :
  LJ.sig6 (LJ.combinedSigma 0.3 0.3) (1 / 0.33) = 64000000 / 1771561.
Proof. unfold LJ.sig6, LJ.sig2, LJ.combinedSigma. cbn [pow]. lra. Qed.

Lemma scenario_formula_value :
  LJ.dEdR 1 (LJ.combinedEpsilon 0.5 0.5)
    (LJ.sig6 (LJ.combinedSigma 0.3 0.3) (1 / 0.33))
  = 12117930144000000 / 3138428376721.
Proof. rewrite scenario_sig6. unfold LJ.dEdR, LJ.combinedEpsilon. lra. Qed.

Lemma scenario_pair_dEdR (q r2 : R) :
  q = 0 -> r2 = 0.33 * 0.33 ->
  pair_dEdR CpuNonbondedForce_new 0.3 0.5 0.3 0.5 q r2
  = LJ.dEdR 1 (LJ.combinedEpsilon 0.5 0.5)
      (LJ.sig6 (LJ.combinedSigma 0.3 0.3) (1 / 0.33)) * (1 / 0.33) ^ 2.
Proof.
  intros -> ->. unfold pair_dEdR, coulomb_dEdR.
  rewrite sqrt_square by lra.
  rewrite switchFunction_off by reflexivity.
  cbn [fst snd cutoff CpuNonbondedForce_new].
  unfold Rdiv. ring.
Qed.

Lemma scenario_pair_energy (q r2 : R) :
  q = 0 -> r2 = 0.33 * 0.33 ->
  pair_energy CpuNonbondedForce_new 0.3 0.5 0.3 0.5 q r2
  = LJ.energy (LJ.combinedEpsilon 0.5 0.5)
      (LJ.sig6 (LJ.combinedSigma 0.3 0.3) (1 / 0.33)).
Proof.
  intros -> ->. unfold pair_energy, coulombEnergy.
  rewrite sqrt_square by lra.
  rewrite switchFunction_off by reflexivity.
  cbn [fst snd cutoff CpuNonbondedForce_new].
  unfold Rdiv. ring.
Qed.

#[local] Ltac eval_arrays :=
  unfold store4, load4, wr, rd;
  cbv [Z.mul Z.add Z.ltb Z.compare Z.to_nat Pos.to_nat Pos.iter_op Pos.mul
       Pos.add Pos.succ Pos.add_carry Pos.compare Pos.compare_cont Init.Nat.add];
  cbn [lookup_total list_lookup_total insert list_insert fst snd replicate
       V.add V.sub V.scale V.map V.map2 V.dot3 v0 v1 v2 v3].

(** What calculateOneIxn returns in the scenario. *)
Lemma scenario_result (boxSize invBoxSize : fvec4) :
  let lj := LJ.dEdR 1 (LJ.combinedEpsilon 0.5 0.5)
              (LJ.sig6 (LJ.combinedSigma 0.3 0.3) (1 / 0.33)) in
  let dEdR := lj * (1 / 0.33) ^ 2 in
  calculateOneIxn CpuNonbondedForce_new twoAtoms 0 1 (replicate 8 0) (Some 0)
    boxSize invBoxSize
  = ([- 0.33 * dEdR; 0; 0; 0; 0.33 * dEdR; 0; 0; 0],
     Some (LJ.energy (LJ.combinedEpsilon 0.5 0.5)
             (LJ.sig6 (LJ.combinedSigma 0.3 0.3) (1 / 0.33)))).
Proof.
  intros lj dEdR.
  rewrite calculateOneIxn_included by (left; reflexivity).
  cbn [periodic CpuNonbondedForce_new getDeltaR fst snd].
  unfold twoAtoms. cbn [posq atomParameters].
  eval_arrays.
  assert (H1 : ONE_4PI_EPS0 * 0 * 0 = 0) by lra.
  assert (H2 : (0 - 0.33) * (0 - 0.33) + (0 - 0) * (0 - 0) + (0 - 0) * (0 - 0)
               = 0.33 * 0.33) by nra.
  rewrite scenario_pair_energy by assumption.
  rewrite scenario_pair_dEdR by assumption.
  fold lj. fold dEdR.
  repeat (f_equal; try lra).
Qed.

(** C4, as amended: in both kernels the pair terms are built from
    [sig = sigma_i + sigma_j], [eps = eps_i * eps_j],
    [sig6 = ((sig * inverseR)^2)^3], the Lennard-Jones term
    [switchValue * eps * (12 sig6 - 6) * sig6] of [dEdR] and the
    Lennard-Jones energy [eps * (sig6 - 1) * sig6] times [switchValue];
    the scalar the displacement is multiplied with is the sum of the
    Lennard-Jones and Coulomb terms times [inverseR^2], less
    [energy * switchDeriv * inverseR].  In the scenario that scalar times
    [0.33^2] equals the Lennard-Jones term, and both are positive. *)
Theorem lennardJones_pair_terms :
  (* calculateOneIxn *)
  (forall (f : CpuNonbondedForce) (a : DirectArgs) (ii jj : Z) (forces : list R)
          (totalEnergy : option R) (boxSize invBoxSize : fvec4),
     let dr := getDeltaR (load4 (posq a) (4 * jj)) (load4 (posq a) (4 * ii))
                 (periodic f) boxSize invBoxSize in
     let p_i := rd (atomParameters a) ii in
     let p_j := rd (atomParameters a) jj in
     let chargeProd :=
       ONE_4PI_EPS0 * rd (posq a) (4 * ii + 3) * rd (posq a) (4 * jj + 3) in
     let result :=
       V.scale dr.1 (pair_dEdR f p_i.1 p_i.2 p_j.1 p_j.2 chargeProd dr.2) in
     let forces1 := store4 forces (4 * ii) (V.add (load4 forces (4 * ii)) result) in
     cutoff f = false \/ dr.2 < cutoffDistance f * cutoffDistance f ->
     calculateOneIxn f a ii jj forces totalEnergy boxSize invBoxSize
     = (store4 forces1 (4 * jj) (V.sub (load4 forces1 (4 * jj)) result),
        match totalEnergy with
        | Some e =>
            Some (e + pair_energy f p_i.1 p_i.2 p_j.1 p_j.2 chargeProd dr.2)
        | None => None
        end)) /\
  (* calculateBlockIxn, one neighbour *)
  (forall (f : CpuNonbondedForce) (a : DirectArgs) (b : BlockData)
          (needPeriodic : bool) (neighbors exclusions : list Z)
          (boxSize invBoxSize : fvec4) (i : Z) (blockAtomForce : Z -> fvec4)
          (forces : list R) (e : R),
     let atom := rd neighbors i in
     let d := getDeltaR4 (load4 (posq a) (4 * atom)) (blockAtomX b) (blockAtomY b)
                (blockAtomZ b) needPeriodic boxSize invBoxSize in
     let include := blockInclude f (rd exclusions i) d.2 in
     let p := rd (atomParameters a) atom in
     let chargeProd j := V.get (blockAtomCharge b) j * rd (posq a) (4 * atom + 3) in
     let D j := pair_dEdR f (V.get (blockAtomSigma b) j)
                  (V.get (blockAtomEpsilon b) j) p.1 p.2 (chargeProd j)
                  (V.get d.2 j) in
     let E j := pair_energy f (V.get (blockAtomSigma b) j)
                  (V.get (blockAtomEpsilon b) j) p.1 p.2 (chargeProd j)
                  (V.get d.2 j) in
     let row j := Fvec4 (V.get d.1.1.1 j * D j) (V.get d.1.1.2 j * D j)
                        (V.get d.1.2 j * D j) 0 in
     let out := calculateBlockIxn_neighbor f a b needPeriodic neighbors exclusions
                  boxSize invBoxSize i (blockAtomForce, forces, Some e) in
     existsb include [0; 1; 2; 3]%Z = true ->
     (forall j, (0 <= j < 4)%Z ->
        out.1.1 j = if include j then V.add (blockAtomForce j) (row j)
                    else blockAtomForce j) /\
     out.1.2 = store4 forces (4 * atom)
                 (foldl (fun af j => if include j then V.sub af (row j) else af)
                    (load4 forces (4 * atom)) [0; 1; 2; 3]%Z) /\
     out.2 = Some (foldl (fun e j => if include j then e + E j else e) e
                     [0; 1; 2; 3]%Z)) /\
  (* the scenario *)
  (forall boxSize invBoxSize : fvec4,
     let lj := LJ.dEdR 1 (LJ.combinedEpsilon 0.5 0.5)
                 (LJ.sig6 (LJ.combinedSigma 0.3 0.3) (1 / 0.33)) in
     exists dEdR : R,
       calculateOneIxn CpuNonbondedForce_new twoAtoms 0 1 (replicate 8 0) (Some 0)
         boxSize invBoxSize
       = ([- 0.33 * dEdR; 0; 0; 0; 0.33 * dEdR; 0; 0; 0],
          Some (LJ.energy (LJ.combinedEpsilon 0.5 0.5)
                  (LJ.sig6 (LJ.combinedSigma 0.3 0.3) (1 / 0.33)))) /\
       dEdR * 0.33 ^ 2 = lj /\ 0 < lj /\ 0 < dEdR).
Proof.
  split; [|split].
  - intros. apply calculateOneIxn_included. assumption.
  - intros. apply calculateBlockIxn_neighbor_included. assumption.
  - intros boxSize invBoxSize lj.
    exists (lj * (1 / 0.33) ^ 2).
    split; [apply scenario_result|].
    assert (Hlj : lj = 12117930144000000 / 3138428376721)
      by apply scenario_formula_value.
    split; [cbn [pow]; lra|]. split; [lra|]. rewrite Hlj. cbn [pow]. lra.
Qed.

End LennardJones.

Lemma lennardJones_pair_terms_witness :
  cutoff CpuNonbondedForce_new = false /\
  (@calculateOneIxn sampleExternals CpuNonbondedForce_new twoAtoms 0 1
     (replicate 8 0) None (V.splat 0) (V.splat 0)).2 = None.
Proof.
  split; [reflexivity|].
  destruct (@lennardJones_pair_terms sampleExternals) as [H _].
  rewrite (H CpuNonbondedForce_new twoAtoms 0%Z 1%Z (replicate 8 0) None
             (V.splat 0) (V.splat 0) (or_introl eq_refl)).
  reflexivity.
Defined.

(** C4 as stated fails in its scenario: the force on the first atom is not
    its displacement from the second times the value of
    [switchValue * eps * (12 sig6 - 6) * sig6]; the scalar computed for the
    pair is that value divided by [0.33^2]. *)
Lemma lennardJones_scenario_counterexample :
  let lj := LJ.dEdR 1 (LJ.combinedEpsilon 0.5 0.5)
              (LJ.sig6 (LJ.combinedSigma 0.3 0.3) (1 / 0.33)) in
  pair_dEdR CpuNonbondedForce_new 0.3 0.5 0.3 0.5 0 (0.33 * 0.33) <> lj /\
  rd (@calculateOneIxn sampleExternals CpuNonbondedForce_new twoAtoms 0 1
        (replicate 8 0) (Some 0) (V.splat 0) (V.splat 0)).1 0
  <> - 0.33 * lj.
Proof.
  intros lj. subst lj. split.
  - rewrite scenario_pair_dEdR by reflexivity.
    rewrite scenario_formula_value. cbn [pow]. intros H. lra.
  - rewrite (@scenario_result sampleExternals). cbn [fst].
    rewrite rd_nonneg by lia. change (Z.to_nat 0) with 0%nat.
    cbn [lookup_total list_lookup_total].
    rewrite scenario_formula_value. cbn [pow]. intros H. lra.
Qed.

(** ** The k-vectors of the reciprocal sum *)

Section ReciprocalVectors.
#[local] Open Scope Z_scope.
Import Recip.

(** A loop whose body appends [g i] to the payload and leaves the two
    bounds [a] and [b] in place. *)
Lemma for_loop_steady {T : Type} (body : Z -> nest (list T) -> nest (list T))
    (g : Z -> list T) (a b lo hi : Z) (tr : list T) :
  lo <= hi ->
  (forall i tr, lo <= i < hi -> body i (Nest a b tr) = Nest a b (tr ++ g i)) ->
  for_loop lo hi body (Nest a b tr)
  = Nest a b (tr ++ (seqZ lo (hi - lo) ≫= g)).
Proof.
  intros Hle Hbody.
  apply (for_loop_invariant
    (fun i s => s = Nest a b (tr ++ (seqZ lo (i - lo) ≫= g)))); [exact Hle | |].
  - rewrite Z.sub_diag. simpl. rewrite app_nil_r. reflexivity.
  - intros i s Hi ->. rewrite Hbody by exact Hi.
    replace (i + 1 - lo) with ((i - lo) + 1) by lia.
    rewrite seqZ_app by lia. rewrite bind_app, app_assoc.
    replace (lo + (i - lo)) with i by lia.
    change (seqZ i 1) with [i]. rewrite bind_singleton. reflexivity.
Qed.

(** The innermost loop once it runs at least one iteration. *)
Lemma inner_loop (numRz rx ry a b : Z) (tr : list (Z * Z * Z)) :
  b < numRz ->
  for_loop b numRz
    (fun rz s => Nest (lowry s) (1 - numRz) (payload s ++ [(rx, ry, rz)]))
    (Nest a b tr)
  = Nest a (1 - numRz) (tr ++ column rx ry b numRz).
Proof.
  intros Hb. rewrite for_loop_first by exact Hb. cbn [lowry payload].
  rewrite (for_loop_steady _ (fun rz => [(rx, ry, rz)])) by (intros; reflexivity || lia).
  unfold column. rewrite (seqZ_cons b) by lia.
  rewrite bind_cons, <- app_assoc.
  replace (Z.succ b) with (b + 1) by lia.
  replace (Z.pred (numRz - b)) with (numRz - (b + 1)) by lia.
  reflexivity.
Qed.

(** The two bodies that record the trace. *)
#[local] Abbreviation traceXY := (fun (_ _ : Z) (tr : list (Z * Z * Z)) => tr).
#[local] Abbreviation traceK :=
  (fun (rx ry rz : Z) (tr : list (Z * Z * Z)) => tr ++ [(rx, ry, rz)]).

Lemma middle_body_runs (numRy numRz rx ry a b : Z) (tr : list (Z * Z * Z)) :
  b < numRz ->
  middle_body numRy numRz traceXY traceK rx ry (Nest a b tr)
  = Nest (1 - numRy) (1 - numRz) (tr ++ column rx ry b numRz).
Proof.
  intros Hb. unfold middle_body. cbn [lowry lowrz payload].
  rewrite inner_loop by exact Hb. reflexivity.
Qed.

Lemma middle_loop_steady (numRy numRz rx lo : Z) (tr : list (Z * Z * Z)) :
  1 <= numRz -> lo <= numRy ->
  for_loop lo numRy (middle_body numRy numRz traceXY traceK rx)
    (Nest (1 - numRy) (1 - numRz) tr)
  = Nest (1 - numRy) (1 - numRz) (tr ++ plane numRz rx lo numRy).
Proof.
  intros Hz Hlo. unfold plane.
  apply for_loop_steady; [exact Hlo|].
  intros ry tr' _. apply middle_body_runs. lia.
Qed.

(** The closed form of the trace when [numRz >= 2]. *)
Lemma visited_closed_form (numRx numRy numRz : Z) :
  1 <= numRx -> 1 <= numRy -> 2 <= numRz ->
  visited numRx numRy numRz
  = column 0 0 1 numRz ++ plane numRz 0 1 numRy ++ slab numRy numRz 1 numRx.
Proof.
  intros Hx Hy Hz. unfold visited, loops.
  rewrite for_loop_first by lia. cbn [lowry].
  rewrite (for_loop_first 0 numRy) by lia.
  rewrite middle_body_runs by lia.
  rewrite middle_loop_steady by lia.
  rewrite (for_loop_steady _ (fun rx => plane numRz rx (1 - numRy) numRy)
             (1 - numRy) (1 - numRz)); [| lia |].
  - cbn [payload]. unfold slab. simpl. rewrite <- app_assoc. reflexivity.
  - intros rx tr _. cbn [lowry]. apply middle_loop_steady; lia.
Qed.

Lemma elem_of_column (rx ry lo hi : Z) (k : Z * Z * Z) :
  k ∈ column rx ry lo hi <-> k.1.1 = rx /\ k.1.2 = ry /\ lo <= k.2 < hi.
Proof.
  unfold column. rewrite list_elem_of_bind. destruct k as [[x y] z]. simpl. split.
  - intros [rz [Hin Hrz]]. apply elem_of_seqZ in Hrz.
    apply list_elem_of_singleton in Hin. inversion Hin; subst. lia.
  - intros [-> [-> Hz]]. exists z. split; [apply list_elem_of_singleton; reflexivity|].
    apply elem_of_seqZ. lia.
Qed.

Lemma elem_of_plane (numRz rx lo hi : Z) (k : Z * Z * Z) :
  k ∈ plane numRz rx lo hi <->
  k.1.1 = rx /\ lo <= k.1.2 < hi /\ 1 - numRz <= k.2 < numRz.
Proof.
  unfold plane. rewrite list_elem_of_bind. split.
  - intros [ry [Hin Hry]]. apply elem_of_seqZ in Hry.
    apply elem_of_column in Hin. lia.
  - intros [Hx [Hy Hz]]. exists k.1.2. split; [|apply elem_of_seqZ; lia].
    apply elem_of_column. lia.
Qed.

Lemma elem_of_slab (numRy numRz lo hi : Z) (k : Z * Z * Z) :
  k ∈ slab numRy numRz lo hi <->
  lo <= k.1.1 < hi /\ 1 - numRy <= k.1.2 < numRy /\ 1 - numRz <= k.2 < numRz.
Proof.
  unfold slab. rewrite list_elem_of_bind. split.
  - intros [rx [Hin Hrx]]. apply elem_of_seqZ in Hrx.
    apply elem_of_plane in Hin. lia.
  - intros [Hx [Hy Hz]]. exists k.1.1. split; [|apply elem_of_seqZ; lia].
    apply elem_of_plane. lia.
Qed.

Lemma NoDup_column (rx ry lo hi : Z) : NoDup (column rx ry lo hi).
Proof.
  unfold column. apply NoDup_bind; [| |apply NoDup_seqZ].
  - intros z1 z2 k _ _ H1 H2.
    apply list_elem_of_singleton in H1, H2. congruence.
  - intros z _. apply NoDup_singleton.
Qed.

Lemma NoDup_plane (numRz rx lo hi : Z) : NoDup (plane numRz rx lo hi).
Proof.
  unfold plane. apply NoDup_bind; [| |apply NoDup_seqZ].
  - intros y1 y2 k _ _ H1 H2.
    apply elem_of_column in H1, H2. lia.
  - intros y _. apply NoDup_column.
Qed.

Lemma NoDup_slab (numRy numRz lo hi : Z) : NoDup (slab numRy numRz lo hi).
Proof.
  unfold slab. apply NoDup_bind; [| |apply NoDup_seqZ].
  - intros x1 x2 k _ _ H1 H2.
    apply elem_of_plane in H1, H2. lia.
  - intros x _. apply NoDup_plane.
Qed.

Example visited_2_2_2 :
  visited 2 2 2 =
  [(0, 0, 1); (0, 1, -1); (0, 1, 0); (0, 1, 1);
   (1, -1, -1); (1, -1, 0); (1, -1, 1); (1, 0, -1); (1, 0, 0); (1, 0, 1);
   (1, 1, -1); (1, 1, 0); (1, 1, 1)].
Proof. vm_compute. reflexivity. Qed.

(** With [numRz >= 2] the loop nest visits the half space, each k-vector
    once. *)
Lemma visited_half_space (numRx numRy numRz : Z) :
  1 <= numRx -> 1 <= numRy -> 2 <= numRz ->
  NoDup (visited numRx numRy numRz) /\
  forall k, k ∈ visited numRx numRy numRz <-> half_space numRx numRy numRz k.
Proof.
  intros Hx Hy Hz. rewrite visited_closed_form by assumption. split.
  - apply NoDup_app. split; [apply NoDup_column|]. split.
    + intros k H1 H2. apply elem_of_column in H1.
      apply elem_of_app in H2 as [H2|H2].
      * apply elem_of_plane in H2. lia.
      * apply elem_of_slab in H2. lia.
    + apply NoDup_app. split; [apply NoDup_plane|]. split; [|apply NoDup_slab].
      intros k H1 H2. apply elem_of_plane in H1. apply elem_of_slab in H2. lia.
  - intros [[rx ry] rz]. rewrite !elem_of_app.
    rewrite elem_of_column, elem_of_plane, elem_of_slab.
    unfold half_space, in_range, above_origin. cbn [fst snd]. lia.
Qed.

(** *** The nest as a sequence of events *)

Lemma for_loop_related {S1 S2 : Type} (R : S1 -> S2 -> Prop) (lo hi : Z)
    (body1 : Z -> S1 -> S1) (body2 : Z -> S2 -> S2) (s1 : S1) (s2 : S2) :
  R s1 s2 ->
  (forall i s1 s2, R s1 s2 -> R (body1 i s1) (body2 i s2)) ->
  R (for_loop lo hi body1 s1) (for_loop lo hi body2 s2).
Proof.
  intros H0 Hstep. unfold for_loop.
  generalize (seqZ lo (hi - lo)) as l. intros l. revert s1 s2 H0.
  induction l as [|i l IH]; intros s1 s2 H0; [exact H0|].
  simpl. apply IH. apply Hstep. exact H0.
Qed.

Lemma for_loop_preserves {St : Type} (P : St -> Prop) (lo hi : Z)
    (body : Z -> St -> St) (s : St) :
  P s -> (forall i s, P s -> P (body i s)) -> P (for_loop lo hi body s).
Proof.
  intros H0 Hstep. unfold for_loop.
  generalize (seqZ lo (hi - lo)) as l. intros l. revert s H0.
  induction l as [|i l IH]; intros s H0; [exact H0|].
  simpl. apply IH. apply Hstep. exact H0.
Qed.

(** Whatever the bodies are, the nest executes them on the events of
    [events], in order. *)
Lemma loops_events {A : Type} (numRx numRy numRz : Z)
    (atXY : Z -> Z -> A -> A) (atK : Z -> Z -> Z -> A -> A) (a : A) :
  payload (loops numRx numRy numRz atXY atK a)
  = foldl (run_event atXY atK) a (events numRx numRy numRz).
Proof.
  set (R := fun (s1 : nest A) (s2 : nest (list event)) =>
              lowry s1 = lowry s2 /\ lowrz s1 = lowrz s2 /\
              payload s1 = foldl (run_event atXY atK) a (payload s2)).
  assert (H : R (loops numRx numRy numRz atXY atK a)
                (loops numRx numRy numRz (fun rx ry tr => tr ++ [AtXY rx ry])
                   (fun rx ry rz tr => tr ++ [AtK rx ry rz]) [])).
  { unfold loops. apply for_loop_related; [repeat split|].
    intros rx s1 s2 [Hy [Hz Hp]]. rewrite Hy.
    apply for_loop_related; [repeat split; assumption|].
    clear s1 s2 Hy Hz Hp. intros ry s1 s2 [Hy [Hz Hp]].
    unfold middle_body. cbn [lowry lowrz payload].
    assert (Hin : R
      (for_loop (lowrz s1) numRz
         (fun rz s => Nest (lowry s) (1 - numRz) (atK rx ry rz (payload s)))
         (Nest (lowry s1) (lowrz s1) (atXY rx ry (payload s1))))
      (for_loop (lowrz s2) numRz
         (fun rz s => Nest (lowry s) (1 - numRz) (payload s ++ [AtK rx ry rz]))
         (Nest (lowry s2) (lowrz s2) (payload s2 ++ [AtXY rx ry])))).
    { rewrite Hz. apply for_loop_related.
      - repeat split; [assumption|]. cbn [payload].
        rewrite foldl_app, <- Hp. reflexivity.
      - intros rz t1 t2 [Hy' [Hz' Hp']]. repeat split; [assumption|].
        cbn [payload]. rewrite foldl_app, <- Hp'. reflexivity. }
    destruct Hin as [_ [Hz2 Hp2]]. repeat split; assumption. }
  destruct H as [_ [_ H]]. exact H.
Qed.

Lemma foldl_trace (l : list event) (tr : list (Z * Z * Z)) :
  foldl (run_event traceXY traceK) tr l = tr ++ (l ≫= event_vector).
Proof.
  revert tr. induction l as [|e l IH]; intros tr.
  - simpl. rewrite app_nil_r. reflexivity.
  - rewrite bind_cons. cbn [foldl]. rewrite IH.
    destruct e as [rx ry|rx ry rz]; cbn [run_event event_vector].
    + reflexivity.
    + rewrite <- app_assoc. reflexivity.
Qed.

(** The k-vectors visited are those of the events of the innermost body. *)
Lemma visited_events (numRx numRy numRz : Z) :
  visited numRx numRy numRz = events numRx numRy numRz ≫= event_vector.
Proof. unfold visited. rewrite loops_events, foldl_trace. reflexivity. Qed.

(** *** Bounds with [numRz = 1] *)

(** With [numRz = 1] the innermost loop never runs: [lowrz] keeps its
    initial value 1, and whatever the statements before the innermost loop
    preserve is preserved by the nest. *)
Lemma loops_numRz_1 {A : Type} (P : A -> Prop) (numRx numRy : Z)
    (atXY : Z -> Z -> A -> A) (atK : Z -> Z -> Z -> A -> A) (a : A) :
  P a -> (forall rx ry a, P a -> P (atXY rx ry a)) ->
  P (payload (loops numRx numRy 1 atXY atK a)).
Proof.
  intros Ha Hxy.
  assert (H : lowrz (loops numRx numRy 1 atXY atK a) = 1 /\
              P (payload (loops numRx numRy 1 atXY atK a))).
  { unfold loops.
    apply (for_loop_preserves (fun s => lowrz s = 1 /\ P (payload s)));
      [split; [reflexivity | exact Ha]|].
    intros rx s [Hz Hp].
    apply (for_loop_preserves (fun s => lowrz s = 1 /\ P (payload s)));
      [split; assumption|].
    clear s Hz Hp. intros ry s [Hz Hp].
    unfold middle_body. cbn [lowry lowrz payload]. rewrite Hz.
    rewrite for_loop_nil by lia. cbn [lowrz payload].
    split; [reflexivity|]. apply Hxy. exact Hp. }
  destruct H as [_ H]. exact H.
Qed.

Lemma visited_nil_numRz_1 (numRx numRy : Z) : visited numRx numRy 1 = [].
Proof.
  unfold visited.
  apply (loops_numRz_1 (fun tr => tr = [])); [reflexivity|].
  intros _ _ tr Htr. exact Htr.
Qed.

End ReciprocalVectors.

Section ReciprocalSum.
Context {ext : Externals}.
#[local] Open Scope Z_scope.
Import Recip.

(** With [numRz = 1] the Ewald branch of calculateReciprocalIxn returns the
    forces and the energy it was given. *)
Lemma calculateReciprocalIxn_numRz_1 (f : CpuNonbondedForce) (numberOfAtoms : Z)
    (posq : list R) (atomCoordinates forces : list (R * R * R))
    (totalEnergy : option R) :
  pme f = false -> ewald f = true -> numRz f = 1 ->
  calculateReciprocalIxn f numberOfAtoms posq atomCoordinates forces totalEnergy
  = (forces, totalEnergy).
Proof.
  intros Hpme Hewald Hz. unfold calculateReciprocalIxn.
  rewrite Hpme, Hewald, Hz. destruct (periodicBoxSize f) as [[bx by_] bz].
  match goal with
  | |- context [loops ?nx ?ny 1 ?xy ?k ?s0] =>
      pose proof (loops_numRz_1
        (fun s => recipForces s = forces /\ recipEnergy s = totalEnergy)
        nx ny xy k s0) as H
  end.
  destruct H as [H1 H2].
  - split; reflexivity.
  - intros rx ry s Hs. exact Hs.
  - cbv zeta. rewrite H1, H2. reflexivity.
Qed.

(** C1 at [numRx = 2], [numRy = numRz = 1]: the vector [(1, 0, 0)] lies in
    the half space the loop nest is to cover, and the loop nest visits no
    vector at all, since [lowrz] keeps its initial value 1 when the
    innermost loop, in whose body it is reset, never runs; the Ewald sum
    with these bounds leaves forces and energy as they were. *)
Theorem reciprocal_sum_skipped_when_numRz_is_1 :
  half_space 2 1 1 (1, 0, 0) /\
  visited 2 1 1 = [] /\
  forall (f : CpuNonbondedForce) (numberOfAtoms : Z) (posq : list R)
         (atomCoordinates forces : list (R * R * R)) (totalEnergy : option R),
    pme f = false -> ewald f = true ->
    numRx f = 2 -> numRy f = 1 -> numRz f = 1 ->
    calculateReciprocalIxn f numberOfAtoms posq atomCoordinates forces totalEnergy
    = (forces, totalEnergy).
Proof.
  split; [unfold half_space, in_range, above_origin; lia|].
  split; [apply visited_nil_numRz_1|].
  intros f numberOfAtoms posq atomCoordinates forces totalEnergy Hpme Hewald _ _ Hz.
  apply calculateReciprocalIxn_numRz_1; assumption.
Qed.

End ReciprocalSum.

Lemma reciprocal_sum_skipped_when_numRz_is_1_witness :
  let f := @setUseEwald sampleExternals
             (setUseCutoff CpuNonbondedForce_new 1 inhabitant 78) 3 2 1 1 in
  pme f = false /\ ewald f = true /\
  numRx f = 2%Z /\ numRy f = 1%Z /\ numRz f = 1%Z /\
  @calculateReciprocalIxn sampleExternals f 2 [0; 0; 0; 1; 1; 0; 0; -1]
    [(0, 0, 0); (1, 0, 0)] [(0, 0, 0); (0, 0, 0)] (Some 0)
  = ([(0, 0, 0); (0, 0, 0)], Some 0).
Proof.
  intros f.
  assert (H : pme f = false /\ ewald f = true /\
              numRx f = 2%Z /\ numRy f = 1%Z /\ numRz f = 1%Z).
  { subst f. unfold setUseEwald, tabulateEwaldScaleFactor.
    destruct (tabulate_xy _ _) as [x y]. repeat split. }
  destruct H as [H1 [H2 [H3 [H4 H5]]]].
  repeat (split; [assumption|]).
  destruct (@reciprocal_sum_skipped_when_numRz_is_1 sampleExternals) as [_ [_ H]].
  apply H; assumption.
Defined.

Lemma ewaldScaleFunction_out_of_table_witness :
  let f := @tabulateEwaldScaleFactor sampleExternals
             (setUseCutoff CpuNonbondedForce_new 1 inhabitant 78) in
  0 < cutoffDistance f /\ table_matches_cutoff f /\
  ewaldInclude f 0 (Fvec4 4 0 0 0) 0 = false.
Proof.
  intros f.
  destruct (@tabulateEwaldScaleFactor_matches sampleExternals
              (setUseCutoff CpuNonbondedForce_new 1 inhabitant 78)) as [Ec Hm].
  fold f in Ec, Hm.
  assert (Hc : 0 < cutoffDistance f) by (rewrite Ec; simpl; lra).
  split; [exact Hc|]. split; [exact Hm|].
  destruct (@ewaldScaleFunction_out_of_table sampleExternals f) as [_ H].
  destruct (H Hc Hm) as [Hout _].
  apply Hout. rewrite Hm, Ec.
  change (V.get (Fvec4 4 0 0 0) 0) with 4.
  replace 4 with (2 * 2) by lra. rewrite sqrt_square by lra.
  apply Zfloor_lub. change (NUM_TABLE_POINTS - 2)%Z with 1023%Z.
  unfold NUM_TABLE_POINTS. simpl. lra.
Defined.

(** *** The table after a later setUseCutoff, and buckets past [int] *)

Lemma staleTableForce_fields :
  cutoffDistance staleTableForce = 2 /\ ewaldDXInv staleTableForce = 1023 /\
  useSwitch staleTableForce = false.
Proof.
  unfold staleTableForce, setUseEwald, tabulateEwaldScaleFactor.
  destruct (tabulate_xy _ _) as [x y].
  cbn [cutoffDistance ewaldDXInv useSwitch setUseCutoff CpuNonbondedForce_new].
  split; [reflexivity |]. split; [| reflexivity].
  change (NUM_TABLE_POINTS - 2)%Z with 1023%Z. field.
Qed.

Lemma sqrt_9_4 : sqrt (9 / 4) = 3 / 2.
Proof.
  replace (9 / 4) with ((3 / 2) * (3 / 2)) by lra. apply sqrt_square. lra.
Qed.

Lemma stale_bucket :
  Zfloor (sqrt (9 / 4) * ewaldDXInv staleTableForce) = 1534%Z.
Proof.
  destruct staleTableForce_fields as (_ & -> & _). rewrite sqrt_9_4.
  apply Zfloor_eq. lra.
Qed.

Lemma stale_include : ewaldInclude staleTableForce 0 (Fvec4 (9 / 4) 0 0 0) 0 = true.
Proof.
  unfold ewaldInclude. destruct staleTableForce_fields as (-> & _ & _).
  change (exclusionBit 0 0 =? 0)%Z with true. cbn [andb].
  apply Rltb_true. change (V.get (Fvec4 (9 / 4) 0 0 0) 0) with (9 / 4). lra.
Qed.

#[local] Ltac lane_values :=
  repeat (rewrite get_sub || rewrite get_mul || rewrite get_add
          || rewrite get_div || rewrite get_map || rewrite get_scale
          || rewrite get_splat).

Lemma stale_step (y : Z -> fvec4) :
  rd (@calculateBlockEwaldIxn_neighbor sampleExternals staleTableForce staleTableAtom
        staleTableBlock false [0%Z] [0%Z] (V.splat 0) (V.splat 0) y 0
        (fun _ => V.splat 0, [0; 0; 0; 0], None)).1.2 0
  = V.get (y 0%Z) 0 * (4 / 9).
Proof.
  destruct staleTableForce_fields as (Hcut & Hdx & Hsw).
  unfold calculateBlockEwaldIxn_neighbor.
  change (rd [0%Z] 0) with 0%Z.
  destruct (getDeltaR4 _ _ _ _ _ _ _) as [[[dx dy] dz] r2] eqn:Hd.
  cbn in Hd. injection Hd as Ex Ey Ez Er2.
  change (rd [3 / 2; 0; 0; 1] (4 * 0)) with (3 / 2) in Ex, Er2.
  change (rd [3 / 2; 0; 0; 1] (4 * 0 + 1)) with 0 in Ey, Er2.
  change (rd [3 / 2; 0; 0; 1] (4 * 0 + 2)) with 0 in Ez, Er2.
  assert (X0 : V.get dx 0 = - (3 / 2)).
  { rewrite <- Ex. lane_values. change (V.get (Fvec4 0 10 20 30) 0) with 0. lra. }
  assert (R0 : V.get r2 0 = 9 / 4).
  { rewrite <- Er2. lane_values. change (V.get (Fvec4 0 10 20 30) 0) with 0. lra. }
  assert (R1 : V.get r2 1 = 289 / 4).
  { rewrite <- Er2. lane_values. change (V.get (Fvec4 0 10 20 30) 1) with 10. lra. }
  assert (R2 : V.get r2 2 = 1369 / 4).
  { rewrite <- Er2. lane_values. change (V.get (Fvec4 0 10 20 30) 2) with 20. lra. }
  assert (R3 : V.get r2 3 = 3249 / 4).
  { rewrite <- Er2. lane_values. change (V.get (Fvec4 0 10 20 30) 3) with 30. lra. }
  clear Ex Ey Ez Er2.
  set (include := ewaldInclude staleTableForce 0 r2).
  assert (I0 : include 0%Z = true).
  { unfold include, ewaldInclude. rewrite Hcut, R0.
    change (exclusionBit 0 0 =? 0)%Z with true. apply Rltb_true. lra. }
  assert (I1 : include 1%Z = false).
  { unfold include, ewaldInclude. rewrite Hcut, R1.
    rewrite Rltb_false by lra. apply andb_false_r. }
  assert (I2 : include 2%Z = false).
  { unfold include, ewaldInclude. rewrite Hcut, R2.
    rewrite Rltb_false by lra. apply andb_false_r. }
  assert (I3 : include 3%Z = false).
  { unfold include, ewaldInclude. rewrite Hcut, R3.
    rewrite Rltb_false by lra. apply andb_false_r. }
  cbn [existsb]. rewrite I0. cbn [orb negb].
  unfold blockSwitch. rewrite Hsw.
  match goal with
  | |- context [accumulateForces include dx dy dz ?D ?atom ?bf ?F] =>
      pose proof (accumulateForces_rows include dx dy dz D atom bf F) as [_ Hrows];
      set (dEdR := D) in *;
      destruct (accumulateForces include dx dy dz dEdR atom bf F) as [bf' F']
  end.
  cbn [fst snd] in *. rewrite Hrows.
  cbn [foldl]. rewrite I0, I1, I2, I3.
  change (4 * 0)%Z with 0%Z.
  rewrite (rd_store4_lane [0; 0; 0; 0] 0 0) by (cbn; lia).
  rewrite get_sub. change (V.get (load4 [0; 0; 0; 0] 0) 0) with 0.
  change (V.get {| v0 := ?a; v1 := ?b; v2 := ?c; v3 := ?d |} 0) with a.
  unfold V.get at 1. cbn [Z.eqb v0]. 
  change (v0 dx) with (V.get dx 0). rewrite X0. subst dEdR. lane_values.
  rewrite R0, sqrt_9_4.
  rewrite (ewaldScaleFunction_beyond_table staleTableForce (y 0%Z) (V.map sqrt r2) 0)
    by (try lia; rewrite get_map, R0, stale_bucket; unfold NUM_TABLE_POINTS; lia).
  change (V.get (blockAtomCharge staleTableBlock) 0) with 1.
  change (V.get (blockAtomSigma staleTableBlock) 0) with 0.
  change (V.get (blockAtomEpsilon staleTableBlock) 0) with 0.
  change (rd (posq staleTableAtom) (4 * 0 + 3)) with 1.
  change (rd (atomParameters staleTableAtom) 0) with (0, 0).
  cbn [fst snd]. field.
Qed.

Lemma overflow_lane (y : fvec4) :
  let f := @setUseEwald sampleExternals
             (setUseCutoff CpuNonbondedForce_new 1 inhabitant 78) 3 2 2 2 in
  let x := Fvec4 3000000 0 0 0 in
  (2 ^ 31 <= Zfloor (V.get x 0 * ewaldDXInv f))%Z /\
  V.get (ewaldScaleFunction f y x) 0 = V.get (ewaldScaleFunction f (V.splat 0) x) 0.
Proof.
  intros f x.
  assert (Hdx : ewaldDXInv f = 1023).
  { unfold f, setUseEwald, tabulateEwaldScaleFactor.
    destruct (tabulate_xy _ _) as [tx ty].
    cbn [cutoffDistance ewaldDXInv setUseCutoff CpuNonbondedForce_new].
    change (NUM_TABLE_POINTS - 2)%Z with 1023%Z. field. }
  assert (Hbig : (2 ^ 31 <= Zfloor (V.get x 0 * ewaldDXInv f))%Z).
  { apply Zfloor_lub. rewrite Hdx. change (V.get x 0) with 3000000.
    change (2 ^ 31)%Z with 2147483648%Z. lra. }
  split; [exact Hbig |].
  rewrite !ewaldScaleFunction_lane by lia. cbv zeta.
  rewrite (int_lane_overflow _ Hbig). reflexivity.
Qed.

(** C2 as stated fails twice.  After setUseCutoff(1), setUseEwald and
    setUseCutoff(2) the table still has the step of the cutoff 1: a lane at
    distance 3/2 has bucket 1534, past the table, passes the mask of
    calculateBlockEwaldIxn, and the force the kernel accumulates for the
    neighbour changes with the content found in the local array.  And a
    lane whose bucket does not fit an [int] is converted to [INT_MIN],
    passes the test of line 706 and is overwritten, whatever the local array
    held. *)
Lemma ewaldScaleFunction_out_of_table_counterexample :
  ((NUM_TABLE_POINTS <= Zfloor (sqrt (9 / 4) * ewaldDXInv staleTableForce))%Z /\
   ewaldInclude staleTableForce 0 (Fvec4 (9 / 4) 0 0 0) 0 = true /\
   @calculateBlockEwaldIxn_neighbor sampleExternals staleTableForce staleTableAtom
     staleTableBlock false [0%Z] [0%Z] (V.splat 0) (V.splat 0)
     (fun _ => V.splat 0) 0 (fun _ => V.splat 0, [0; 0; 0; 0], None)
   <> @calculateBlockEwaldIxn_neighbor sampleExternals staleTableForce staleTableAtom
        staleTableBlock false [0%Z] [0%Z] (V.splat 0) (V.splat 0)
        (fun _ => V.splat 1) 0 (fun _ => V.splat 0, [0; 0; 0; 0], None)) /\
  (let f := @setUseEwald sampleExternals
              (setUseCutoff CpuNonbondedForce_new 1 inhabitant 78) 3 2 2 2 in
   let x := Fvec4 3000000 0 0 0 in
   (NUM_TABLE_POINTS <= Zfloor (V.get x 0 * ewaldDXInv f))%Z /\
   ~ (forall y, V.get (ewaldScaleFunction f y x) 0 = V.get y 0)).
Proof.
  split; [split; [| split] |].
  - rewrite stale_bucket. unfold NUM_TABLE_POINTS. lia.
  - exact stale_include.
  - intros E.
    apply (f_equal (fun st : (Z -> fvec4) * list R * option R => rd st.1.2 0)) in E.
    rewrite !stale_step in E.
    change (V.get (V.splat 0) 0) with 0 in E.
    change (V.get (V.splat 1) 0) with 1 in E. lra.
  - intros f x. split.
    + destruct (overflow_lane (V.splat 0)) as [Hbig _]. fold f x in Hbig.
      unfold NUM_TABLE_POINTS. change (2 ^ 31)%Z with 2147483648%Z in Hbig. lia.
    + intros H.
      destruct (overflow_lane (V.splat 1)) as [_ E]. fold f x in E.
      rewrite (H (V.splat 1)), (H (V.splat 0)) in E.
      change (V.get (V.splat 0) 0) with 0 in E.
      change (V.get (V.splat 1) 0) with 1 in E. lra.
Qed.

(** * Further properties of the kernels *)

(** ** The rational approximation of erfc *)

Section ErfcApprox.

Lemma erfcApprox1_power (x : R) : erfcApprox1 x = 1 / erfcApprox_t x ^ 16.
Proof. unfold erfcApprox1. fold (erfcApprox_t x). cbv zeta. unfold Rdiv. f_equal. f_equal. ring. Qed.

Lemma erfcApprox_t_monotone (x y : R) :
  0 <= x <= y -> 1 <= erfcApprox_t x <= erfcApprox_t y.
Proof.
  intros [Hx Hxy]. unfold erfcApprox_t.
  assert (H5 : 0 <= 0.0002765672 + 0.0000430638 * x
               <= 0.0002765672 + 0.0000430638 * y) by lra.
  assert (H4 : 0 <= 0.0001520143 + (0.0002765672 + 0.0000430638 * x) * x
               <= 0.0001520143 + (0.0002765672 + 0.0000430638 * y) * y) by nra.
  set (a4 := 0.0001520143 + (0.0002765672 + 0.0000430638 * x) * x) in *.
  set (b4 := 0.0001520143 + (0.0002765672 + 0.0000430638 * y) * y) in *.
  assert (H3 : 0 <= 0.0092705272 + a4 * x <= 0.0092705272 + b4 * y) by nra.
  set (a3 := 0.0092705272 + a4 * x) in *. set (b3 := 0.0092705272 + b4 * y) in *.
  assert (H2 : 0 <= 0.0422820123 + a3 * x <= 0.0422820123 + b3 * y) by nra.
  set (a2 := 0.0422820123 + a3 * x) in *. set (b2 := 0.0422820123 + b3 * y) in *.
  assert (H1 : 0 <= 0.0705230784 + a2 * x <= 0.0705230784 + b2 * y) by nra.
  set (a1 := 0.0705230784 + a2 * x) in *. set (b1 := 0.0705230784 + b2 * y) in *.
  nra.
Qed.

Lemma pow_monotone_from_1 (a b : R) (n : nat) :
  1 <= a <= b -> 1 <= a ^ n <= b ^ n.
Proof.
  intros [Ha Hab]. split.
  - apply pow_R1_Rle. exact Ha.
  - apply pow_incr. lra.
Qed.

(** X1: for a non-negative argument the approximation of erfc lies in
    (0, 1], it is 1 at 0, and it does not increase with the argument. *)
Theorem erfcApprox1_range :
  erfcApprox1 0 = 1 /\
  (forall x, 0 <= x -> 0 < erfcApprox1 x <= 1) /\
  (forall x y, 0 <= x <= y -> erfcApprox1 y <= erfcApprox1 x) /\
  (forall v j, V.get (erfcApprox v) j = erfcApprox1 (V.get v j)).
Proof.
  split; [|split; [|split]].
  - rewrite erfcApprox1_power. unfold erfcApprox_t.
    replace (1 + _ * 0) with 1 by ring. rewrite pow1. lra.
  - intros x Hx. rewrite erfcApprox1_power.
    destruct (erfcApprox_t_monotone x x ltac:(lra)) as [Ht _].
    destruct (pow_monotone_from_1 _ _ 16 (Logic.conj Ht (Rle_refl _))) as [Hp _].
    set (p := erfcApprox_t x ^ 16) in *.
    split.
    + apply Rdiv_lt_0_compat; lra.
    + apply (Rmult_le_reg_r p); [lra|]. unfold Rdiv.
      rewrite Rmult_assoc, Rinv_l by lra. lra.
  - intros x y Hxy. rewrite !erfcApprox1_power.
    pose proof (erfcApprox_t_monotone x y Hxy) as Ht.
    destruct (pow_monotone_from_1 _ _ 16 Ht) as [Hp Hq].
    unfold Rdiv. rewrite !Rmult_1_l.
    apply Rinv_le_contravar; lra.
  - intros v j. apply get_map.
Qed.

Lemma erfcApprox1_range_witness :
  0 <= 1 /\ 0 < erfcApprox1 1 <= 1.
Proof.
  split; [lra|]. apply erfcApprox1_range. lra.
Defined.

End ErfcApprox.

(** ** Derivatives

    The rules of differentiation for functions written pointwise, and the
    derivative of a function that is pieced together at a point. *)

Section Derivatives.

Lemma dlim_value (g : R -> R) (x l l' : R) :
  derivable_pt_lim g x l' -> l' = l -> derivable_pt_lim g x l.
Proof. intros Hg <-. exact Hg. Qed.

Lemma dlim_const (c x : R) : derivable_pt_lim (fun _ => c) x 0.
Proof. exact (derivable_pt_lim_const c x). Qed.

Lemma dlim_id (x : R) : derivable_pt_lim (fun r => r) x 1.
Proof. exact (derivable_pt_lim_id x). Qed.

Lemma dlim_plus (g h : R -> R) (x lg lh : R) :
  derivable_pt_lim g x lg -> derivable_pt_lim h x lh ->
  derivable_pt_lim (fun r => g r + h r) x (lg + lh).
Proof. exact (derivable_pt_lim_plus g h x lg lh). Qed.

Lemma dlim_minus (g h : R -> R) (x lg lh : R) :
  derivable_pt_lim g x lg -> derivable_pt_lim h x lh ->
  derivable_pt_lim (fun r => g r - h r) x (lg - lh).
Proof. exact (derivable_pt_lim_minus g h x lg lh). Qed.

Lemma dlim_mult (g h : R -> R) (x lg lh : R) :
  derivable_pt_lim g x lg -> derivable_pt_lim h x lh ->
  derivable_pt_lim (fun r => g r * h r) x (lg * h x + g x * lh).
Proof. exact (derivable_pt_lim_mult g h x lg lh). Qed.

Lemma dlim_opp (g : R -> R) (x lg : R) :
  derivable_pt_lim g x lg -> derivable_pt_lim (fun r => - g r) x (- lg).
Proof. exact (derivable_pt_lim_opp g x lg). Qed.

Lemma dlim_inv (g : R -> R) (x lg : R) :
  derivable_pt_lim g x lg -> g x <> 0 ->
  derivable_pt_lim (fun r => / g r) x (- lg / (g x * g x)).
Proof.
  intros Hg Hx.
  apply (derivable_pt_lim_ext (fun r => 1 / g r)).
  { intros z. unfold Rdiv. apply Rmult_1_l. }
  eapply dlim_value.
  { exact (derivable_pt_lim_div (fun _ => 1) g x 0 lg (dlim_const 1 x) Hg Hx). }
  unfold Rsqr. field. exact Hx.
Qed.

Lemma dlim_comp (g h : R -> R) (x lg lh : R) :
  derivable_pt_lim g x lg -> derivable_pt_lim h (g x) lh ->
  derivable_pt_lim (fun r => h (g r)) x (lh * lg).
Proof. exact (derivable_pt_lim_comp g h x lg lh). Qed.

(** A function that agrees with [h1] just left of [x] and with [h2] just
    right of it has their common derivative at [x]. *)
Lemma dlim_glue (g h1 h2 : R -> R) (x l d : R) :
  0 < d ->
  (forall y, x - d < y <= x -> g y = h1 y) ->
  (forall y, x <= y < x + d -> g y = h2 y) ->
  derivable_pt_lim h1 x l -> derivable_pt_lim h2 x l ->
  derivable_pt_lim g x l.
Proof.
  intros Hd H1 H2 D1 D2 eps Heps.
  destruct (D1 eps Heps) as [d1 Hd1], (D2 eps Heps) as [d2 Hd2].
  assert (Hm : 0 < Rmin d (Rmin d1 d2)).
  { repeat apply Rmin_pos; [exact Hd | apply cond_pos | apply cond_pos]. }
  exists (mkposreal _ Hm). intros h Hh Hlt. cbn [pos] in Hlt.
  assert (Rabs h < d) by (eapply Rlt_le_trans; [exact Hlt | apply Rmin_l]).
  assert (Rabs h < d1).
  { eapply Rlt_le_trans; [exact Hlt |].
    etransitivity; [apply Rmin_r | apply Rmin_l]. }
  assert (Rabs h < d2).
  { eapply Rlt_le_trans; [exact Hlt |].
    etransitivity; [apply Rmin_r | apply Rmin_r]. }
  assert (h < d /\ - d < h) by (apply Rabs_def2; assumption).
  destruct (Rle_dec h 0) as [Hneg | Hpos].
  - rewrite (H1 (x + h)) by lra. rewrite (H1 x) by lra. apply Hd1; assumption.
  - rewrite (H2 (x + h)) by lra. rewrite (H2 x) by lra. apply Hd2; assumption.
Qed.

Lemma dlim_local (g h : R -> R) (x l d : R) :
  0 < d -> (forall y, x - d < y < x + d -> g y = h y) ->
  derivable_pt_lim h x l -> derivable_pt_lim g x l.
Proof.
  intros Hd Heq Dh.
  apply (dlim_glue g h h x l d Hd); [| | exact Dh | exact Dh];
    intros y Hy; apply Heq; lra.
Qed.

End Derivatives.

#[local] Ltac dlim :=
  repeat first
    [ apply dlim_const | apply dlim_id
    | eapply dlim_plus | eapply dlim_minus | eapply dlim_mult | eapply dlim_opp
    | eapply dlim_inv ].

(** ** The shape of the switching function *)

Section SwitchShape.

(** The taper, factored. *)
Lemma switchValueAt_factored (t : R) :
  switchValueAt t = (1 - t) * (1 - t) * (1 - t) * (1 + 3 * t + 6 * (t * t)).
Proof. unfold switchValueAt. ring. Qed.

Lemma switchDerivAt_factored (f : CpuNonbondedForce) (t : R) :
  switchDerivAt f t
  = - (30 * (t * (1 - t)) * (t * (1 - t))) / (cutoffDistance f - switchingDistance f).
Proof. unfold switchDerivAt, Rdiv. ring. Qed.

Lemma switchArg_range (f : CpuNonbondedForce) (r : R) :
  switchingDistance f < cutoffDistance f ->
  switchingDistance f <= r <= cutoffDistance f ->
  0 <= switchArg f r <= 1.
Proof.
  intros Hsc Hr. unfold switchArg.
  assert (0 < cutoffDistance f - switchingDistance f) by lra.
  split.
  - apply Rmult_le_pos; [lra | left; apply Rinv_0_lt_compat; lra].
  - apply (Rmult_le_reg_r (cutoffDistance f - switchingDistance f)); [lra |].
    unfold Rdiv. rewrite Rmult_assoc, Rinv_l by lra. lra.
Qed.

Lemma switchValueAt_range (t : R) : 0 <= t <= 1 -> 0 <= switchValueAt t <= 1.
Proof.
  intros Ht. split.
  - rewrite switchValueAt_factored.
    repeat apply Rmult_le_pos; try lra. nra.
  - unfold switchValueAt.
    assert (0 <= t * t * t) by (repeat apply Rmult_le_pos; lra).
    assert (0 <= 10 - t * (15 - t * 6)) by nra.
    nra.
Qed.

Lemma dlim_switchValue (f : CpuNonbondedForce) (r : R) :
  switchingDistance f <> cutoffDistance f ->
  derivable_pt_lim (fun r => switchValueAt (switchArg f r)) r
    (switchDerivAt f (switchArg f r)).
Proof.
  intros Hsc. unfold switchValueAt, switchDerivAt, switchArg, Rdiv.
  eapply dlim_value; [dlim |].
  cbv beta. field. lra.
Qed.


Lemma switchDerivAt_nonpos (f : CpuNonbondedForce) (t : R) :
  switchingDistance f < cutoffDistance f -> switchDerivAt f t <= 0.
Proof.
  intros Hsc. rewrite switchDerivAt_factored.
  assert (0 < / (cutoffDistance f - switchingDistance f))
    by (apply Rinv_0_lt_compat; lra).
  pose proof (Rle_0_sqr (t * (1 - t))) as Hsq. unfold Rsqr in Hsq.
  assert (0 <= 30 * (t * (1 - t)) * (t * (1 - t))) by lra.
  unfold Rdiv. nra.
Qed.

Lemma switchFunction_below (f : CpuNonbondedForce) (r : R) :
  r <= switchingDistance f -> switchFunction f r = (1, 0).
Proof.
  intros Hr. unfold switchFunction. rewrite Rltb_false by exact Hr.
  rewrite andb_false_r. reflexivity.
Qed.

Lemma switchFunction_above (f : CpuNonbondedForce) (r : R) :
  useSwitch f = true -> switchingDistance f < r ->
  switchFunction f r
  = (switchValueAt (switchArg f r), switchDerivAt f (switchArg f r)).
Proof.
  intros Hu Hr. unfold switchFunction. rewrite Hu, Rltb_true by exact Hr.
  reflexivity.
Qed.

Lemma switchArg_at_switchingDistance (f : CpuNonbondedForce) :
  switchArg f (switchingDistance f) = 0.
Proof. unfold switchArg, Rdiv. ring. Qed.

(** [switchDeriv] is the derivative of [switchValue] in the distance, at
    every distance, the switching distance included. *)
Lemma dlim_switchFunction (f : CpuNonbondedForce) (r : R) :
  (useSwitch f = true -> switchingDistance f <> cutoffDistance f) ->
  derivable_pt_lim (fun r => (switchFunction f r).1) r (switchFunction f r).2.
Proof.
  intros Hsc. destruct (useSwitch f) eqn:Hu.
  2:{ rewrite switchFunction_off by exact Hu.
      apply (derivable_pt_lim_ext (fun _ => 1)); [| apply dlim_const].
      intros z. rewrite switchFunction_off by exact Hu. reflexivity. }
  specialize (Hsc eq_refl).
  destruct (Rtotal_order r (switchingDistance f)) as [Hlt | [-> | Hgt]].
  - rewrite switchFunction_below by lra.
    apply (dlim_local _ (fun _ => 1) r 0 (switchingDistance f - r)); [lra | |
      apply dlim_const].
    intros y Hy. rewrite switchFunction_below by lra. reflexivity.
  - rewrite switchFunction_below by lra. cbn [snd].
    apply (dlim_glue _ (fun _ => 1) (fun r => switchValueAt (switchArg f r))
             (switchingDistance f) 0 1); [lra | | | apply dlim_const |].
    + intros y Hy. rewrite switchFunction_below by lra. reflexivity.
    + intros y [[Hy | <-] _].
      * rewrite switchFunction_above by assumption. reflexivity.
      * rewrite switchFunction_below by lra.
        rewrite switchArg_at_switchingDistance. unfold switchValueAt. cbn [fst]. ring.
    + eapply dlim_value; [apply dlim_switchValue; exact Hsc |].
      rewrite switchArg_at_switchingDistance. unfold switchDerivAt, Rdiv. ring.
  - rewrite switchFunction_above by assumption. cbn [snd].
    apply (dlim_local _ (fun r => switchValueAt (switchArg f r)) r _
             (r - switchingDistance f)); [lra | | apply dlim_switchValue; exact Hsc].
    intros y Hy. rewrite switchFunction_above by (assumption || lra). reflexivity.
Qed.

(** X2: with switching on and the switching distance below the cutoff,
    the pair of [switchValue] and [switchDeriv] is (1, 0) up to the switching
    distance; between the switching distance and the cutoff the value lies
    in [0, 1] and the derivative is not positive; at every distance
    [switchDeriv] is the derivative of [switchValue] in the distance; the
    value does not increase with the distance up to the cutoff; and the
    block kernel computes the same pair in each lane. *)
Theorem switchFunction_taper (f : CpuNonbondedForce) :
  useSwitch f = true -> switchingDistance f < cutoffDistance f ->
  (forall r, r <= switchingDistance f -> switchFunction f r = (1, 0)) /\
  (forall r, switchingDistance f <= r <= cutoffDistance f ->
     0 <= (switchFunction f r).1 <= 1 /\ (switchFunction f r).2 <= 0) /\
  (forall r, derivable_pt_lim (fun r => (switchFunction f r).1) r
               (switchFunction f r).2) /\
  (forall r1 r2, r1 <= r2 <= cutoffDistance f ->
     (switchFunction f r2).1 <= (switchFunction f r1).1) /\
  (forall r j, V.get (blockSwitch f r).1 j = (switchFunction f (V.get r j)).1 /\
               V.get (blockSwitch f r).2 j = (switchFunction f (V.get r j)).2).
Proof.
  intros Hu Hsc.
  assert (Hrange : forall r, r <= cutoffDistance f ->
            0 <= (switchFunction f r).1 <= 1 /\ (switchFunction f r).2 <= 0).
  { intros r Hr. destruct (Rle_dec r (switchingDistance f)) as [Hle | Hgt].
    - rewrite switchFunction_below by exact Hle. cbn [fst snd]. lra.
    - rewrite switchFunction_above by (assumption || lra). cbn [fst snd]. split.
      + apply switchValueAt_range, switchArg_range; lra.
      + apply switchDerivAt_nonpos; exact Hsc. }
  assert (Hderiv : forall r, derivable_pt_lim (fun r => (switchFunction f r).1) r
                               (switchFunction f r).2).
  { intros r. apply dlim_switchFunction. intros _. lra. }
  split; [intros r; apply switchFunction_below |].
  split; [intros r Hr; apply Hrange; lra |].
  split; [exact Hderiv |].
  split.
  - intros r1 r2 [[Hlt | ->] Hc]; [| lra].
    destruct (MVT_cor2 (fun r => (switchFunction f r).1)
                (fun r => (switchFunction f r).2) r1 r2 Hlt) as (c & Hc1 & Hc2).
    { intros c _. apply Hderiv. }
    assert ((switchFunction f c).2 <= 0) by (apply Hrange; lra).
    cbv beta in Hc1. nra.
  - intros r j. pose proof (blockSwitch_lane f r j) as H.
    rewrite <- H. cbn [fst snd]. split; reflexivity.
Qed.

Lemma switchFunction_taper_witness :
  let f := setUseSwitchingFunction
             (setUseCutoff CpuNonbondedForce_new 2 inhabitant 78) 1 in
  useSwitch f = true /\ switchingDistance f < cutoffDistance f /\
  0 <= (switchFunction f (3 / 2)).1 <= 1.
Proof.
  intros f.
  assert (Hu : useSwitch f = true) by reflexivity.
  assert (Hsc : switchingDistance f < cutoffDistance f) by (cbn; lra).
  split; [exact Hu |]. split; [exact Hsc |].
  apply (switchFunction_taper f Hu Hsc). cbn. lra.
Defined.

End SwitchShape.

(** ** The force as the gradient of the energy *)

Section Gradient.
Context {ext : Externals}.

Lemma dlim_LJ_energy (sig eps r : R) :
  r <> 0 ->
  derivable_pt_lim (fun r => LJ.energy eps (LJ.sig6 sig (1 / r))) r
    (- (LJ.dEdR 1 eps (LJ.sig6 sig (1 / r)) * (1 / r))).
Proof.
  intros Hr. unfold LJ.energy, LJ.dEdR, LJ.sig6, LJ.sig2, Rdiv. cbn [pow].
  eapply dlim_value; [dlim; exact Hr |].
  cbv beta. field. exact Hr.
Qed.

Lemma dlim_coulombEnergy (f : CpuNonbondedForce) (q r : R) :
  r <> 0 ->
  derivable_pt_lim (fun r => coulombEnergy f q (1 / r) (r * r)) r
    (- (coulomb_dEdR f q (1 / r) (r * r) * (1 / r))).
Proof.
  intros Hr. unfold coulombEnergy, coulomb_dEdR, reactionFieldEnergy, Rdiv.
  destruct (cutoff f).
  - eapply dlim_value; [dlim; exact Hr |]. cbv beta. field. exact Hr.
  - eapply dlim_value; [dlim; exact Hr |]. cbv beta. field. exact Hr.
Qed.

(** The energy of a pair as a function of the distance, and its slope. *)
Lemma dlim_pair_energy (f : CpuNonbondedForce) (sigma_i eps_i sigma_j eps_j q r : R) :
  0 < r ->
  (useSwitch f = true -> switchingDistance f <> cutoffDistance f) ->
  derivable_pt_lim (fun r => pair_energy f sigma_i eps_i sigma_j eps_j q (r * r)) r
    (- (r * pair_dEdR f sigma_i eps_i sigma_j eps_j q (r * r))).
Proof.
  intros Hr Hsc.
  apply (dlim_local _
    (fun r => LJ.energy (LJ.combinedEpsilon eps_i eps_j)
                (LJ.sig6 (LJ.combinedSigma sigma_i sigma_j) (1 / r))
              * (switchFunction f r).1
              + coulombEnergy f q (1 / r) (r * r)) r _ r Hr).
  { intros y Hy. unfold pair_energy. cbv zeta.
    rewrite sqrt_square by lra. reflexivity. }
  eapply dlim_value.
  { apply dlim_plus; [apply dlim_mult |].
    - apply dlim_LJ_energy. lra.
    - apply dlim_switchFunction. exact Hsc.
    - apply dlim_coulombEnergy. lra. }
  unfold pair_dEdR. cbv zeta. rewrite sqrt_square by lra.
  unfold LJ.dEdR. cbn [pow]. field. lra.
Qed.


Lemma dlim_near (g : R -> R) (x l B : R) :
  derivable_pt_lim g x l -> g x < B ->
  exists d, 0 < d /\ forall y, x - d < y < x + d -> g y < B.
Proof.
  intros Dg HB.
  assert (C : continuity_pt g x).
  { apply derivable_continuous_pt. exists l. exact Dg. }
  destruct (C (B - g x)) as (alp & Halp & Hc); [lra |].
  exists alp. split; [exact Halp |]. intros y Hy.
  destruct (Req_dec x y) as [<- | Hne]; [exact HB |].
  assert (H : Rabs (g y - g x) < B - g x).
  { apply Hc. split; [split; [exact I | exact Hne] |].
    apply Rabs_def1; lra. }
  apply Rabs_def2 in H. lra.
Qed.

(** The energy of a pair as a function of one coordinate of one atom:
    [x] is the same coordinate of the other atom, [K] the squares of the two
    other coordinate differences. *)
Lemma dlim_pair_energy_coord (f : CpuNonbondedForce)
    (sigma_i eps_i sigma_j eps_j q x K p : R) :
  0 <= K -> 0 < (p - x) * (p - x) + K ->
  (useSwitch f = true -> switchingDistance f <> cutoffDistance f) ->
  derivable_pt_lim
    (fun p => pair_energy f sigma_i eps_i sigma_j eps_j q ((p - x) * (p - x) + K)) p
    (- ((p - x) * pair_dEdR f sigma_i eps_i sigma_j eps_j q ((p - x) * (p - x) + K))).
Proof.
  intros HK Hpos Hsc.
  set (r2 := fun p => (p - x) * (p - x) + K).
  assert (Hr2 : forall p, 0 <= r2 p).
  { intros z. unfold r2. pose proof (Rle_0_sqr (z - x)) as Hsq. unfold Rsqr in Hsq. lra. }
  apply (derivable_pt_lim_ext
    (fun p => (fun r => pair_energy f sigma_i eps_i sigma_j eps_j q (r * r))
                (sqrt (r2 p)))).
  { intros z. cbv beta. rewrite sqrt_sqrt by apply Hr2. reflexivity. }
  assert (Hs : 0 < sqrt (r2 p)) by (apply sqrt_lt_R0; exact Hpos).
  eapply dlim_value.
  { apply (dlim_comp (fun p => sqrt (r2 p))
             (fun r => pair_energy f sigma_i eps_i sigma_j eps_j q (r * r))).
    - apply (dlim_comp r2 sqrt).
      + unfold r2. dlim.
      + apply derivable_pt_lim_sqrt. exact Hpos.
    - apply dlim_pair_energy; [exact Hs | exact Hsc]. }
  rewrite sqrt_sqrt by apply Hr2. fold (r2 p).
  field. lra.
Qed.


Lemma rd_wr (a : list R) (k k' : Z) (p : R) :
  (0 <= k < Z.of_nat (length a))%Z -> (0 <= k')%Z ->
  rd (wr a k p) k' = if (k' =? k)%Z then p else rd a k'.
Proof.
  intros Hk Hk'. destruct (Z.eqb_spec k' k) as [-> | Hne].
  - apply rd_wr_eq. exact Hk.
  - apply rd_wr_ne; [exact Hk' | congruence].
Qed.

Lemma oneIxnEnergy_included (f : CpuNonbondedForce) (a : DirectArgs)
    (ii jj : Z) (forces : list R) (boxSize invBoxSize : fvec4) :
  let dr := getDeltaR (load4 (posq a) (4 * jj)) (load4 (posq a) (4 * ii))
              (periodic f) boxSize invBoxSize in
  let p_i := rd (atomParameters a) ii in
  let p_j := rd (atomParameters a) jj in
  let chargeProd :=
    ONE_4PI_EPS0 * rd (posq a) (4 * ii + 3) * rd (posq a) (4 * jj + 3) in
  cutoff f = false \/ dr.2 < cutoffDistance f * cutoffDistance f ->
  oneIxnEnergy f a ii jj forces boxSize invBoxSize
  = pair_energy f p_i.1 p_i.2 p_j.1 p_j.2 chargeProd dr.2.
Proof.
  intros dr p_i p_j chargeProd Hin. unfold oneIxnEnergy.
  rewrite calculateOneIxn_included by exact Hin. cbn [snd default from_option id].
  apply Rplus_0_l.
Qed.

Lemma oneIxn_force_included (f : CpuNonbondedForce) (a : DirectArgs)
    (ii jj m : Z) (forces : list R) (e : option R) (boxSize invBoxSize : fvec4) :
  let dr := getDeltaR (load4 (posq a) (4 * jj)) (load4 (posq a) (4 * ii))
              (periodic f) boxSize invBoxSize in
  let p_i := rd (atomParameters a) ii in
  let p_j := rd (atomParameters a) jj in
  let chargeProd :=
    ONE_4PI_EPS0 * rd (posq a) (4 * ii + 3) * rd (posq a) (4 * jj + 3) in
  let D := pair_dEdR f p_i.1 p_i.2 p_j.1 p_j.2 chargeProd dr.2 in
  let out := (calculateOneIxn f a ii jj forces e boxSize invBoxSize).1 in
  cutoff f = false \/ dr.2 < cutoffDistance f * cutoffDistance f ->
  (0 <= ii)%Z -> (0 <= jj)%Z -> ii <> jj ->
  (4 * ii + 3 < Z.of_nat (length forces))%Z ->
  (4 * jj + 3 < Z.of_nat (length forces))%Z ->
  (0 <= m < 4)%Z ->
  rd out (4 * ii + m) = rd forces (4 * ii + m) + V.get dr.1 m * D /\
  rd out (4 * jj + m) = rd forces (4 * jj + m) - V.get dr.1 m * D.
Proof.
  intros dr p_i p_j chargeProd D out Hin Hi Hj Hne Hli Hlj Hm. subst out.
  rewrite calculateOneIxn_included by exact Hin. cbn [fst].
  fold dr p_i p_j chargeProd D. split.
  - rewrite rd_store4_other by lia.
    rewrite rd_store4_lane by lia.
    rewrite get_add, get_scale, load4_lane by lia. reflexivity.
  - rewrite rd_store4_lane by (rewrite ?length_store4; lia).
    rewrite get_sub, get_scale, load4_lane by lia.
    rewrite rd_store4_other by lia. reflexivity.
Qed.


#[local] Ltac decide_eqb :=
  repeat match goal with
  | |- context [(?a =? ?b)%Z] =>
      first [ rewrite (proj2 (Z.eqb_eq a b)) by lia
            | rewrite (proj2 (Z.eqb_neq a b)) by lia ]
  end.

Lemma getDeltaR_free (posI posJ boxSize invBoxSize : fvec4) :
  getDeltaR posJ posI false boxSize invBoxSize
  = (V.sub posI posJ,
     (v0 posI - v0 posJ) * (v0 posI - v0 posJ)
     + (v1 posI - v1 posJ) * (v1 posI - v1 posJ)
     + (v2 posI - v2 posJ) * (v2 posI - v2 posJ)).
Proof. reflexivity. Qed.

(** The squared distance of the pair after one coordinate of one of its
    atoms has been set to [p]. *)
Lemma r2_moveAtom (posq : list R) (ii jj k m : Z) (p : R)
    (boxSize invBoxSize : fvec4) :
  (0 <= ii)%Z -> (0 <= jj)%Z -> ii <> jj ->
  (4 * ii + 3 < Z.of_nat (length posq))%Z ->
  (4 * jj + 3 < Z.of_nat (length posq))%Z ->
  (0 <= m < 3)%Z -> k = ii \/ k = jj ->
  let other := if bool_decide (k = ii) then jj else ii in
  let r2 := (getDeltaR (load4 posq (4 * jj)) (load4 posq (4 * ii))
               false boxSize invBoxSize).2 in
  let x := rd posq (4 * other + m) in
  let p0 := rd posq (4 * k + m) in
  0 <= r2 - (p0 - x) * (p0 - x) /\
  (getDeltaR (load4 (wr posq (4 * k + m) p) (4 * jj))
     (load4 (wr posq (4 * k + m) p) (4 * ii)) false boxSize invBoxSize).2
  = (p - x) * (p - x) + (r2 - (p0 - x) * (p0 - x)).
Proof.
  intros Hi Hj Hne Hpi Hpj Hm Hk other r2 x p0.
  subst r2. rewrite !getDeltaR_free. cbn [snd]. unfold load4. cbn [v0 v1 v2].
  rewrite !rd_wr by lia. subst x p0 other.
  assert (Hm' : m = 0%Z \/ m = 1%Z \/ m = 2%Z) by lia.
  destruct Hk as [-> | ->].
  - rewrite bool_decide_eq_true_2 by reflexivity.
    destruct Hm' as [-> | [-> | ->]]; rewrite ?Z.add_0_r; decide_eqb;
      (split; [| ring]);
      match goal with
      | |- 0 <= ?u * ?u + ?v * ?v + ?w * ?w - _ =>
          pose proof (Rle_0_sqr u); pose proof (Rle_0_sqr v);
          pose proof (Rle_0_sqr w); unfold Rsqr in *; lra
      end.
  - rewrite bool_decide_eq_false_2 by congruence.
    destruct Hm' as [-> | [-> | ->]]; rewrite ?Z.add_0_r; decide_eqb;
      (split; [| ring]);
      match goal with
      | |- 0 <= ?u * ?u + ?v * ?v + ?w * ?w - _ =>
          pose proof (Rle_0_sqr u); pose proof (Rle_0_sqr v);
          pose proof (Rle_0_sqr w); unfold Rsqr in *; lra
      end.
Qed.

(** X3: without periodic wrapping, for two distinct atoms that do not
    coincide and lie within the cutoff, the force calculateOneIxn adds to
    either atom along a coordinate axis is minus the derivative, in that
    coordinate of the atom, of the energy it adds. *)
Theorem oneIxn_force_is_energy_gradient (f : CpuNonbondedForce) (a : DirectArgs)
    (ii jj k m : Z) (forces : list R) (boxSize invBoxSize : fvec4) :
  periodic f = false ->
  (0 <= ii)%Z -> (0 <= jj)%Z -> ii <> jj ->
  (4 * ii + 3 < Z.of_nat (length (posq a)))%Z ->
  (4 * jj + 3 < Z.of_nat (length (posq a)))%Z ->
  (4 * ii + 3 < Z.of_nat (length forces))%Z ->
  (4 * jj + 3 < Z.of_nat (length forces))%Z ->
  (0 <= m < 3)%Z -> k = ii \/ k = jj ->
  let r2 := (getDeltaR (load4 (posq a) (4 * jj)) (load4 (posq a) (4 * ii))
               false boxSize invBoxSize).2 in
  0 < r2 ->
  (cutoff f = true -> r2 < cutoffDistance f * cutoffDistance f) ->
  (useSwitch f = true -> switchingDistance f <> cutoffDistance f) ->
  let out := (calculateOneIxn f a ii jj forces None boxSize invBoxSize).1 in
  derivable_pt_lim
    (fun p => oneIxnEnergy f (moveAtom a k m p) ii jj forces boxSize invBoxSize)
    (rd (posq a) (4 * k + m))
    (- (rd out (4 * k + m) - rd forces (4 * k + m))).
Proof.
  intros Hper Hi Hj Hne Hpi Hpj Hfi Hfj Hm Hk r2 Hpos Hcut Hsc out.
  set (other := if bool_decide (k = ii) then jj else ii).
  set (x := rd (posq a) (4 * other + m)).
  set (p0 := rd (posq a) (4 * k + m)).
  set (K := r2 - (p0 - x) * (p0 - x)).
  set (p_i := rd (atomParameters a) ii).
  set (p_j := rd (atomParameters a) jj).
  set (q := ONE_4PI_EPS0 * rd (posq a) (4 * ii + 3) * rd (posq a) (4 * jj + 3)).
  set (E := fun p => pair_energy f p_i.1 p_i.2 p_j.1 p_j.2 q ((p - x) * (p - x) + K)).
  assert (Hmove : forall p,
    0 <= K /\
    (getDeltaR (load4 (wr (posq a) (4 * k + m) p) (4 * jj))
       (load4 (wr (posq a) (4 * k + m) p) (4 * ii)) false boxSize invBoxSize).2
    = (p - x) * (p - x) + K).
  { intros p. apply r2_moveAtom; assumption. }
  assert (HK : 0 <= K) by apply (Hmove 0).
  assert (Hr20 : (p0 - x) * (p0 - x) + K = r2) by (unfold K; ring).
  assert (DE : derivable_pt_lim E p0
                 (- ((p0 - x) * pair_dEdR f p_i.1 p_i.2 p_j.1 p_j.2 q r2))).
  { rewrite <- Hr20. apply dlim_pair_energy_coord; [exact HK | lra | exact Hsc]. }
  (* near [p0] the pair stays inside the cutoff *)
  assert (Hnear : exists d, 0 < d /\ forall p, p0 - d < p < p0 + d ->
            cutoff f = false \/ (p - x) * (p - x) + K
                                < cutoffDistance f * cutoffDistance f).
  { destruct (cutoff f) eqn:Hc.
    - assert (Dq : exists l, derivable_pt_lim (fun p => (p - x) * (p - x) + K) p0 l)
        by (eexists; dlim).
      destruct Dq as [l Dq].
      destruct (dlim_near (fun p => (p - x) * (p - x) + K) p0 l
                  (cutoffDistance f * cutoffDistance f)) as (d & Hd & Hlt).
      + exact Dq.
      + cbv beta. rewrite Hr20. apply Hcut. reflexivity.
      + exists d. split; [exact Hd |]. intros p Hp. right. apply Hlt, Hp.
    - exists 1. split; [lra |]. intros p _. left. reflexivity. }
  destruct Hnear as (d & Hd & Hin).
  assert (Hq : forall p,
    rd (wr (posq a) (4 * k + m) p) (4 * ii + 3) = rd (posq a) (4 * ii + 3) /\
    rd (wr (posq a) (4 * k + m) p) (4 * jj + 3) = rd (posq a) (4 * jj + 3)).
  { intros p. rewrite !rd_wr by (destruct Hk as [-> | ->]; lia).
    destruct Hk as [-> | ->]; decide_eqb; split; reflexivity. }
  apply (dlim_local _ E p0 _ d Hd).
  { intros p Hp. rewrite oneIxnEnergy_included.
    - cbn [moveAtom posq atomParameters]. rewrite Hper.
      rewrite (proj2 (Hmove p)), (proj1 (Hq p)), (proj2 (Hq p)). reflexivity.
    - cbn [moveAtom posq]. rewrite Hper, (proj2 (Hmove p)). apply Hin, Hp. }
  eapply dlim_value; [exact DE |].
  assert (Hin0 : cutoff f = false \/ r2 < cutoffDistance f * cutoffDistance f).
  { destruct (cutoff f); [right; apply Hcut; reflexivity | left; reflexivity]. }
  destruct (oneIxn_force_included f a ii jj m forces None boxSize invBoxSize)
    as [Fi Fj]; try assumption; try lia.
  { rewrite Hper. exact Hin0. }
  rewrite Hper in Fi, Fj. fold r2 p_i p_j q out in Fi, Fj.
  rewrite getDeltaR_free in Fi, Fj. cbn [fst] in Fi, Fj.
  rewrite get_sub, !load4_lane in Fi, Fj by lia.
  subst x p0 other. destruct Hk as [-> | ->].
  - rewrite bool_decide_eq_true_2 by reflexivity. rewrite Fi. ring.
  - rewrite bool_decide_eq_false_2 by congruence. rewrite Fj. ring.
Qed.

End Gradient.

Lemma oneIxn_force_is_energy_gradient_witness :
  let forces := [0; 0; 0; 0; 0; 0; 0; 0] in
  let out := (@calculateOneIxn sampleExternals CpuNonbondedForce_new twoAtoms 0 1
                forces None (V.splat 0) (V.splat 0)).1 in
  derivable_pt_lim
    (fun p => @oneIxnEnergy sampleExternals CpuNonbondedForce_new
                (moveAtom twoAtoms 1 0 p) 0 1 forces (V.splat 0) (V.splat 0))
    (rd (posq twoAtoms) (4 * 1 + 0))
    (- (rd out (4 * 1 + 0) - rd forces (4 * 1 + 0))).
Proof.
  intros forces out.
  apply (@oneIxn_force_is_energy_gradient sampleExternals CpuNonbondedForce_new
           twoAtoms 0 1 1 0 forces (V.splat 0) (V.splat 0));
    try reflexivity; try lia; try (cbn; lia); try discriminate.

  - rewrite getDeltaR_free. cbn [snd twoAtoms posq]. unfold load4, rd.
    cbv [Z.mul Z.add Z.ltb Z.compare Z.to_nat Pos.to_nat Pos.iter_op Pos.mul
         Pos.add Pos.succ Pos.add_carry Pos.compare Pos.compare_cont Init.Nat.add].
    cbn [lookup_total list_lookup_total v0 v1 v2 v3]. nra.
Defined.

(** ** The bookkeeping of calculateOneIxn *)

Section OneIxn.
Context {ext : Externals}.

Lemma calculateOneIxn_excluded (f : CpuNonbondedForce) (a : DirectArgs)
    (ii jj : Z) (forces : list R) (e : option R) (boxSize invBoxSize : fvec4) :
  cutoff f = true ->
  cutoffDistance f * cutoffDistance f
  <= (getDeltaR (load4 (posq a) (4 * jj)) (load4 (posq a) (4 * ii))
        (periodic f) boxSize invBoxSize).2 ->
  calculateOneIxn f a ii jj forces e boxSize invBoxSize = (forces, e).
Proof.
  intros Hc Hr. unfold calculateOneIxn.
  destruct (getDeltaR _ _ _ _ _) as [deltaR r2]. cbn [snd] in Hr.
  rewrite Hc, Rleb_true by exact Hr. reflexivity.
Qed.


End OneIxn.


(** ** Displacements *)

Section Displacement.
Context {ext : Externals}.

Lemma get_cases (P : Z -> Prop) :
  P 0%Z -> P 1%Z -> P 2%Z -> P 3%Z -> forall j, (0 <= j < 4)%Z -> P j.
Proof.
  intros H0 H1 H2 H3 j Hj.
  assert (H : j = 0%Z \/ j = 1%Z \/ j = 2%Z \/ j = 3%Z) by lia.
  destruct H as [-> | [-> | [-> | ->]]]; assumption.
Qed.

(** X5: the two overloads of getDeltaR agree: lane [j] of what the
    four-atom version returns is what the one-atom version returns for the
    atom whose coordinates are lane [j] of [x], [y] and [z]. *)
Theorem getDeltaR_overloads_agree (posI x y z boxSize invBoxSize : fvec4)
    (periodic : bool) (w : R) (j : Z) :
  (0 <= j < 4)%Z ->
  let d4 := getDeltaR4 posI x y z periodic boxSize invBoxSize in
  let d := getDeltaR posI (Fvec4 (V.get x j) (V.get y j) (V.get z j) w)
             periodic boxSize invBoxSize in
  V.get d4.1.1.1 j = v0 d.1 /\ V.get d4.1.1.2 j = v1 d.1 /\
  V.get d4.1.2 j = v2 d.1 /\ V.get d4.2 j = d.2.
Proof.
  revert j. apply get_cases; destruct periodic; cbn; repeat split; ring.
Qed.

(** The wrapped component of a displacement and that of a periodic image
    of it: the same, or the two opposite halves of the box when the
    component lies midway between two images. *)
Lemma wrap_image (d box inv : R) (k : Z) :
  round_to_nearest -> round_integral -> 0 < box -> box * inv = 1 ->
  let w := d - round (d * inv) * box in
  let w' := (d + IZR k * box) - round ((d + IZR k * box) * inv) * box in
  w' = w \/ (Rabs w = box / 2 /\ w' = - w).
Proof.
  intros Hnear Hint Hbox Hinv w w'.
  assert (Hx' : (d + IZR k * box) * inv = d * inv + IZR k).
  { rewrite Rmult_plus_distr_r, Rmult_assoc, Hinv. ring. }
  assert (Hd : d = d * inv * box).
  { rewrite Rmult_assoc, (Rmult_comm inv box), Hinv. ring. }
  subst w w'. rewrite Hx'.
  set (x := d * inv) in *.
  destruct (Hint x) as [n Hn]. destruct (Hint (x + IZR k)) as [n' Hn'].
  pose proof (Hnear x) as N1. pose proof (Hnear (x + IZR k)) as N2.
  rewrite Hn in *. rewrite Hn' in *.
  assert (B1 : - (1 / 2) <= x - IZR n <= 1 / 2)
    by (unfold Rabs in N1; destruct (Rcase_abs (x - IZR n)); lra).
  assert (B2 : - (1 / 2) <= x + IZR k - IZR n' <= 1 / 2)
    by (unfold Rabs in N2; destruct (Rcase_abs (x + IZR k - IZR n')); lra).
  clear N1 N2.
  assert (Hm : (-1 <= n' - n - k <= 1)%Z).
  { split; apply le_IZR; rewrite !minus_IZR; [change (IZR (-1)) with (-1) |]; lra. }
  assert (Hcase : (n' = n + k \/ n' = n + k + 1 \/ n' = n + k - 1)%Z) by lia.
  destruct Hcase as [-> | [-> | ->]].
  - left. rewrite plus_IZR. ring.
  - right. rewrite !plus_IZR in *. change (IZR 1) with 1 in *.
    assert (Hx : x - IZR n = 1 / 2) by lra.
    assert (Hw : d - IZR n * box = box / 2).
    { rewrite Hd. replace (x * box - IZR n * box) with ((x - IZR n) * box) by ring.
      rewrite Hx. lra. }
    split.
    + rewrite Hw. apply Rabs_pos_eq. lra.
    + replace (d + IZR k * box - (IZR n + IZR k + 1) * box)
        with (d - IZR n * box - box) by ring.
      rewrite Hw. lra.
  - right. rewrite !minus_IZR, !plus_IZR in *. change (IZR 1) with 1 in *.
    assert (Hx : x - IZR n = - (1 / 2)) by lra.
    assert (Hw : d - IZR n * box = - (box / 2)).
    { rewrite Hd. replace (x * box - IZR n * box) with ((x - IZR n) * box) by ring.
      rewrite Hx. lra. }
    split.
    + rewrite Hw, Rabs_Ropp. apply Rabs_pos_eq. lra.
    + replace (d + IZR k * box - (IZR n + IZR k - 1) * box)
        with (d - IZR n * box + box) by ring.
      rewrite Hw. lra.
Qed.

(** X6: with periodic wrapping and [round] rounding to a nearest whole
    number, moving the second atom by whole box lengths leaves the squared
    distance as it was, and every component of the displacement too, unless
    the component lies half a box length from the first atom, where it may
    come out with the opposite sign; [invBoxSize] holds the inverses of the
    positive box lengths. *)
Theorem getDeltaR_periodic_image (posI posJ boxSize invBoxSize : fvec4)
    (kx ky kz : Z) (w : R) :
  round_to_nearest -> round_integral ->
  0 < v0 boxSize -> 0 < v1 boxSize -> 0 < v2 boxSize ->
  v0 boxSize * v0 invBoxSize = 1 ->
  v1 boxSize * v1 invBoxSize = 1 ->
  v2 boxSize * v2 invBoxSize = 1 ->
  let image := Fvec4 (v0 posJ + IZR kx * v0 boxSize) (v1 posJ + IZR ky * v1 boxSize)
                     (v2 posJ + IZR kz * v2 boxSize) w in
  let d := getDeltaR posI posJ true boxSize invBoxSize in
  let d' := getDeltaR posI image true boxSize invBoxSize in
  (v0 d'.1 = v0 d.1 \/ (Rabs (v0 d.1) = v0 boxSize / 2 /\ v0 d'.1 = - v0 d.1)) /\
  (v1 d'.1 = v1 d.1 \/ (Rabs (v1 d.1) = v1 boxSize / 2 /\ v1 d'.1 = - v1 d.1)) /\
  (v2 d'.1 = v2 d.1 \/ (Rabs (v2 d.1) = v2 boxSize / 2 /\ v2 d'.1 = - v2 d.1)) /\
  d'.2 = d.2.
Proof.
  intros Hnear Hint B0 B1 B2 H0 H1 H2 image d d'.
  assert (E0 : v0 d'.1 = v0 d.1
               \/ (Rabs (v0 d.1) = v0 boxSize / 2 /\ v0 d'.1 = - v0 d.1)).
  { pose proof (wrap_image (v0 posJ - v0 posI) _ _ kx Hnear Hint B0 H0) as W.
    cbv zeta in W. cbn.
    replace (v0 posJ + IZR kx * v0 boxSize - v0 posI)
      with (v0 posJ - v0 posI + IZR kx * v0 boxSize) by ring.
    exact W. }
  assert (E1 : v1 d'.1 = v1 d.1
               \/ (Rabs (v1 d.1) = v1 boxSize / 2 /\ v1 d'.1 = - v1 d.1)).
  { pose proof (wrap_image (v1 posJ - v1 posI) _ _ ky Hnear Hint B1 H1) as W.
    cbv zeta in W. cbn.
    replace (v1 posJ + IZR ky * v1 boxSize - v1 posI)
      with (v1 posJ - v1 posI + IZR ky * v1 boxSize) by ring.
    exact W. }
  assert (E2 : v2 d'.1 = v2 d.1
               \/ (Rabs (v2 d.1) = v2 boxSize / 2 /\ v2 d'.1 = - v2 d.1)).
  { pose proof (wrap_image (v2 posJ - v2 posI) _ _ kz Hnear Hint B2 H2) as W.
    cbv zeta in W. cbn.
    replace (v2 posJ + IZR kz * v2 boxSize - v2 posI)
      with (v2 posJ - v2 posI + IZR kz * v2 boxSize) by ring.
    exact W. }
  split; [exact E0 |]. split; [exact E1 |]. split; [exact E2 |].
  change (d'.2) with (V.dot3 d'.1 d'.1). change (d.2) with (V.dot3 d.1 d.1).
  unfold V.dot3.
  assert (S0 : v0 d'.1 * v0 d'.1 = v0 d.1 * v0 d.1)
    by (destruct E0 as [-> | [_ ->]]; ring).
  assert (S1 : v1 d'.1 * v1 d'.1 = v1 d.1 * v1 d.1)
    by (destruct E1 as [-> | [_ ->]]; ring).
  assert (S2 : v2 d'.1 * v2 d'.1 = v2 d.1 * v2 d.1)
    by (destruct E2 as [-> | [_ ->]]; ring).
  rewrite S0, S1, S2. reflexivity.
Qed.

End Displacement.

Lemma getDeltaR_overloads_agree_witness :
  let x := Fvec4 1 2 3 4 in
  let y := Fvec4 5 6 7 8 in
  let z := Fvec4 9 10 11 12 in
  let box := Fvec4 4 6 8 0 in
  let inv := Fvec4 (1 / 4) (1 / 6) (1 / 8) 0 in
  V.get (@getDeltaR4 sampleExternals (Fvec4 0 0 0 0) x y z true box inv).2 2
  = (@getDeltaR sampleExternals (Fvec4 0 0 0 0) (Fvec4 3 7 11 0) true box inv).2.
Proof.
  intros x y z box inv.
  apply (@getDeltaR_overloads_agree sampleExternals (Fvec4 0 0 0 0) x y z box inv
           true 0 2). lia.
Defined.


Lemma roundHalfUp_integral : @round_integral sampleExternals.
Proof. intros x. eexists. reflexivity. Qed.

Lemma getDeltaR_periodic_image_witness :
  let box := Fvec4 4 6 8 0 in
  let inv := Fvec4 (1 / 4) (1 / 6) (1 / 8) 0 in
  (@getDeltaR sampleExternals (Fvec4 1 1 1 0)
     (Fvec4 (3 + IZR 2 * 4) (2 + IZR (-1) * 6) (5 + IZR 0 * 8) 0) true box inv).2
  = (@getDeltaR sampleExternals (Fvec4 1 1 1 0) (Fvec4 3 2 5 0) true box inv).2.
Proof.
  intros box inv.
  apply (@getDeltaR_periodic_image sampleExternals (Fvec4 1 1 1 0) (Fvec4 3 2 5 0)
           box inv 2 (-1) 0 0 roundHalfUp_nearest roundHalfUp_integral);
    cbn [v0 v1 v2 box inv]; lra.
Defined.

(** ** The work of the threads *)

Section Partition.
Context {ext : Externals}.
#[local] Open Scope Z_scope.

Lemma NoDup_threads_strided (n numThreads : Z) :
  0 < numThreads ->
  NoDup (seqZ 0 numThreads ≫= fun t => strided t n numThreads).
Proof.
  intros HT. apply NoDup_bind.
  - intros t1 t2 x Ht1 Ht2 H1 H2. apply elem_of_seqZ in Ht1, Ht2.
    apply strided_owner in H1, H2; try lia.
  - intros t _. apply NoDup_strided. exact HT.
  - apply NoDup_seqZ.
Qed.

Lemma elem_of_threads_strided (n numThreads x : Z) :
  0 < numThreads ->
  x ∈ (seqZ 0 numThreads ≫= fun t => strided t n numThreads) <-> 0 <= x < n.
Proof.
  intros HT. rewrite list_elem_of_bind. split.
  - intros (t & Hx & Ht). apply elem_of_seqZ in Ht.
    apply strided_owner in Hx; lia.
  - intros Hx. exists (x mod numThreads).
    pose proof (Z.mod_pos_bound x numThreads HT).
    split; [apply strided_owner; lia | apply elem_of_seqZ; lia].
Qed.

(** X7: the strides of the threads split the blocks among them: taken
    over all threads they are a rearrangement of [0 .. numBlocks - 1],
    block [i] belongs to thread [i mod numThreads], and with a cutoff and
    without Ewald or PME a thread runs calculateBlockIxn on its blocks, in
    order, starting from cleared forces and energy. *)
Theorem threads_partition_blocks (f : CpuNonbondedForce) (a : DirectArgs)
    (includeEnergy : bool) (y : Z -> Z -> fvec4) (numThreads : Z) :
  0 < numThreads ->
  let blocks t := strided t (getNumBlocks (neighborList f)) numThreads in
  seqZ 0 numThreads ≫= blocks ≡ₚ seqZ 0 (getNumBlocks (neighborList f)) /\
  (forall t i, 0 <= t < numThreads ->
     i ∈ blocks t <-> 0 <= i < getNumBlocks (neighborList f) /\ t = i mod numThreads) /\
  (ewald f = false -> pme f = false -> cutoff f = true ->
   forall t,
     threadComputeDirect f a includeEnergy y numThreads t
     = let '(bx, by_, bz) := periodicBoxSize f in
       foldl (fun st i =>
         with_energyPtr includeEnergy
           (fun p => calculateBlockIxn f a i st.1 p (Fvec4 bx by_ bz 0%R)
                       (Fvec4 (1 / bx) (1 / by_) (1 / bz) 0)%R) st.2)
         (replicate (Z.to_nat (4 * numberOfAtoms a)) 0%R, 0%R) (blocks t)).
Proof.
  intros HT blocks. split; [| split].
  - apply NoDup_Permutation.
    + apply NoDup_threads_strided. exact HT.
    + apply NoDup_seqZ.
    + intros x. etransitivity; [apply (elem_of_threads_strided _ _ x HT) |].
      rewrite elem_of_seqZ. lia.
  - intros t i Ht. apply strided_owner; lia.
  - intros He Hp Hc t. unfold threadComputeDirect.
    destruct (periodicBoxSize f) as [[bx by_] bz].
    rewrite He, Hp, Hc. reflexivity.
Qed.

End Partition.

Lemma threads_partition_blocks_witness :
  seqZ 0 3 ≫= (fun t => strided t 7 3) ≡ₚ seqZ 0 7.
Proof.
  apply (@threads_partition_blocks sampleExternals
           {| cutoff := true; useSwitch := false; periodic := false; ewald := false;
              pme := false;
              neighborList := {| getNumBlocks := 7; getSortedAtoms := [];
                                 getBlockNeighbors := []; getBlockExclusions := [] |};
              periodicBoxSize := (0, 0, 0); cutoffDistance := 1;
              switchingDistance := 0; krf := 0; crf := 0; alphaEwald := 0;
              numRx := 0; numRy := 0; numRz := 0; meshDim := (0, 0, 0)%Z;
              ewaldDX := 0; ewaldDXInv := 0; ewaldScaleTable := [] |}
           {| numberOfAtoms := 0; posq := []; atomCoordinates := [];
              atomParameters := []; exclusions := [] |}
           false (fun _ _ => V.splat 0) 3).
  lia.
Defined.

(** ** The number of threads *)

Section ThreadCount.
Context {ext : Externals}.

Lemma sumR_app (l1 l2 : list R) : sumR (l1 ++ l2) = sumR l1 + sumR l2.
Proof.
  unfold sumR. induction l1 as [| x l1 IH]; cbn [app foldr]; [lra |].
  rewrite IH. lra.
Qed.

Lemma sumR_Permutation (l1 l2 : list R) : l1 ≡ₚ l2 -> sumR l1 = sumR l2.
Proof.
  unfold sumR. induction 1; cbn [foldr]; lra.
Qed.

Lemma sumR_bind {A B : Type} (h : B -> R) (g : A -> list B) (l : list A) :
  sumR (h <$> (l ≫= g)) = sumR ((fun x => sumR (h <$> g x)) <$> l).
Proof.
  induction l as [| x l IH]; [reflexivity |].
  rewrite bind_cons, fmap_app, sumR_app, IH, fmap_cons. reflexivity.
Qed.

Lemma rd_zeroForces (a : DirectArgs) (k : Z) : rd (zeroForces a) k = 0.
Proof.
  unfold rd, zeroForces. destruct (k <? 0)%Z; [reflexivity |].
  rewrite list_lookup_total_alt.
  destruct (replicate _ _ !! Z.to_nat k) eqn:E; [| reflexivity].
  apply lookup_replicate in E. cbn. tauto.
Qed.

Lemma length_zeroForces (a : DirectArgs) :
  (0 <= numberOfAtoms a)%Z ->
  Z.of_nat (length (zeroForces a)) = (4 * numberOfAtoms a)%Z.
Proof. intros H. unfold zeroForces. rewrite length_replicate. lia. Qed.

Lemma included_or_excluded (f : CpuNonbondedForce) (r2 : R) :
  (cutoff f = true /\ cutoffDistance f * cutoffDistance f <= r2)
  \/ (cutoff f = false \/ r2 < cutoffDistance f * cutoffDistance f).
Proof.
  destruct (cutoff f); [| right; left; reflexivity].
  destruct (Rle_dec (cutoffDistance f * cutoffDistance f) r2);
    [left; split; [reflexivity | assumption] | right; right; lra].
Qed.

Lemma calculateOneIxn_adds_force (f : CpuNonbondedForce) (a : DirectArgs)
    (p : Z * Z) (forces : list R) (e : option R) (boxSize invBoxSize : fvec4)
    (k : Z) :
  valid_pair a p ->
  (4 * numberOfAtoms a <= Z.of_nat (length forces))%Z ->
  (0 <= k < 4 * numberOfAtoms a)%Z ->
  rd (calculateOneIxn f a p.1 p.2 forces e boxSize invBoxSize).1 k
  = rd forces k + pairForce f a boxSize invBoxSize p k.
Proof.
  destruct p as [i j]. intros (Hi & Hj & Hne) Hlen Hk. cbn [fst snd] in *.
  unfold pairForce. cbn [fst snd].
  pose proof (length_zeroForces a ltac:(lia)) as Hz.
  set (r2 := (getDeltaR (load4 (posq a) (4 * j)) (load4 (posq a) (4 * i))
                (periodic f) boxSize invBoxSize).2).
  destruct (included_or_excluded f r2) as [[Hc Hfar] | Hin].
  - rewrite !calculateOneIxn_excluded by assumption. cbn [fst].
    rewrite rd_zeroForces. ring.
  - assert (Hcase : (exists m, (0 <= m < 4)%Z /\ k = (4 * i + m)%Z)
                    \/ (exists m, (0 <= m < 4)%Z /\ k = (4 * j + m)%Z)
                    \/ ((k < 4 * i \/ 4 * i + 4 <= k)
                        /\ (k < 4 * j \/ 4 * j + 4 <= k))%Z).
    { destruct (Z_lt_dec k (4 * i)), (Z_le_dec (4 * i + 4) k),
        (Z_lt_dec k (4 * j)), (Z_le_dec (4 * j + 4) k);
        try (right; right; lia);
        try (left; exists (k - 4 * i)%Z; lia);
        try (right; left; exists (k - 4 * j)%Z; lia). }
    destruct Hcase as [(m & Hm & ->) | [(m & Hm & ->) | [Hki Hkj]]].
    + destruct (oneIxn_force_included f a i j m forces e boxSize invBoxSize)
        as [Fi _]; try assumption; try lia.
      destruct (oneIxn_force_included f a i j m (zeroForces a) None
                  boxSize invBoxSize) as [Zi _]; try assumption; try lia.
      rewrite Fi, Zi, rd_zeroForces. ring.
    + destruct (oneIxn_force_included f a i j m forces e boxSize invBoxSize)
        as [_ Fj]; try assumption; try lia.
      destruct (oneIxn_force_included f a i j m (zeroForces a) None
                  boxSize invBoxSize) as [_ Zj]; try assumption; try lia.
      rewrite Fj, Zj, rd_zeroForces. ring.
    + rewrite !calculateOneIxn_included by exact Hin. cbn [fst].
      rewrite !rd_store4_other by lia. rewrite rd_zeroForces. ring.
Qed.

Lemma calculateOneIxn_length (f : CpuNonbondedForce) (a : DirectArgs)
    (i j : Z) (forces : list R) (e : option R) (boxSize invBoxSize : fvec4) :
  length (calculateOneIxn f a i j forces e boxSize invBoxSize).1 = length forces.
Proof.
  set (r2 := (getDeltaR (load4 (posq a) (4 * j)) (load4 (posq a) (4 * i))
                (periodic f) boxSize invBoxSize).2).
  destruct (included_or_excluded f r2) as [[Hc Hfar] | Hin].
  - rewrite calculateOneIxn_excluded by assumption. reflexivity.
  - rewrite calculateOneIxn_included by exact Hin. cbn [fst].
    rewrite !length_store4. reflexivity.
Qed.

Lemma calculateOneIxn_adds_energy (f : CpuNonbondedForce) (a : DirectArgs)
    (i j : Z) (forces forces' : list R) (e : option R)
    (boxSize invBoxSize : fvec4) :
  (calculateOneIxn f a i j forces e boxSize invBoxSize).2
  = match e with
    | Some e => Some (e + oneIxnEnergy f a i j forces' boxSize invBoxSize)
    | None => None
    end.
Proof.
  set (r2 := (getDeltaR (load4 (posq a) (4 * j)) (load4 (posq a) (4 * i))
                (periodic f) boxSize invBoxSize).2).
  unfold oneIxnEnergy.
  destruct (included_or_excluded f r2) as [[Hc Hfar] | Hin].
  - rewrite !calculateOneIxn_excluded by assumption. cbn.
    destruct e; [f_equal; ring | reflexivity].
  - rewrite !calculateOneIxn_included by exact Hin. cbn.
    destruct e; [f_equal; ring | reflexivity].
Qed.

(** A run of calls of calculateOneIxn, as the loop over all pairs makes
    them. *)
Lemma pair_calls_sum (f : CpuNonbondedForce) (a : DirectArgs)
    (includeEnergy : bool) (boxSize invBoxSize : fvec4) (l : list (Z * Z))
    (st : list R * R) :
  (forall p, p ∈ l -> valid_pair a p) ->
  (4 * numberOfAtoms a <= Z.of_nat (length st.1))%Z ->
  let out :=
    foldl (fun st p =>
      with_energyPtr includeEnergy
        (fun e => calculateOneIxn f a p.1 p.2 st.1 e boxSize invBoxSize) st.2)
      st l in
  length out.1 = length st.1 /\
  (forall k, (0 <= k < 4 * numberOfAtoms a)%Z ->
     rd out.1 k
     = rd st.1 k + sumR ((fun p => pairForce f a boxSize invBoxSize p k) <$> l)) /\
  out.2 = st.2 + (if includeEnergy
                  then sumR (pairEnergy f a boxSize invBoxSize <$> l) else 0).
Proof.
  revert st. induction l as [| p l IH]; intros st Hvalid Hlen out.
  - subst out. cbn [foldl fmap list_fmap]. unfold sumR. cbn [foldr].
    split; [reflexivity |]. split; [intros k _; ring |].
    destruct includeEnergy; ring.
  - subst out. cbn [foldl].
    set (st1 := with_energyPtr includeEnergy
                  (fun e => calculateOneIxn f a p.1 p.2 st.1 e boxSize invBoxSize)
                  st.2).
    assert (H1 : st1.1 = (calculateOneIxn f a p.1 p.2 st.1
                            (if includeEnergy then Some st.2 else None)
                            boxSize invBoxSize).1).
    { unfold st1, with_energyPtr. destruct (calculateOneIxn _ _ _ _ _ _ _ _).
      reflexivity. }
    assert (H2 : st1.2 = st.2 + (if includeEnergy
                                 then pairEnergy f a boxSize invBoxSize p else 0)).
    { unfold st1, with_energyPtr.
      pose proof (calculateOneIxn_adds_energy f a p.1 p.2 st.1 (zeroForces a)
                    (if includeEnergy then Some st.2 else None)
                    boxSize invBoxSize) as He.
      destruct (calculateOneIxn _ _ _ _ _ _ _ _) as [F e']. cbn [snd] in *.
      subst e'. destruct includeEnergy; cbn; [reflexivity | ring]. }
    assert (Hl1 : length st1.1 = length st.1).
    { rewrite H1. apply calculateOneIxn_length. }
    destruct (IH st1) as (Hl & Hf & He).
    { intros q Hq. apply Hvalid. right. exact Hq. }
    { rewrite Hl1. exact Hlen. }
    split; [congruence |]. split.
    + intros k Hk. rewrite Hf by exact Hk. rewrite H1.
      rewrite calculateOneIxn_adds_force;
        [| apply Hvalid; left | exact Hlen | exact Hk].
      rewrite fmap_cons. unfold sumR. cbn [foldr]. ring.
    + rewrite He, H2. rewrite fmap_cons. unfold sumR. cbn [foldr].
      destruct includeEnergy; ring.
Qed.



Lemma allPairs_as_calls (f : CpuNonbondedForce) (a : DirectArgs)
    (includeEnergy : bool) (numThreads t : Z) (boxSize invBoxSize : fvec4)
    (st : list R * R) :
  allPairs f a includeEnergy numThreads t boxSize invBoxSize st
  = foldl (fun st p =>
      with_energyPtr includeEnergy
        (fun e => calculateOneIxn f a p.1 p.2 st.1 e boxSize invBoxSize) st.2)
      st (allPairs_calls a numThreads t).
Proof.
  unfold allPairs, allPairs_calls.
  rewrite foldl_bind. apply foldl_pointwise. intros c i.
  unfold for_loop. rewrite foldl_bind. apply foldl_pointwise. intros c' j.
  destruct (bool_decide _); reflexivity.
Qed.

Lemma elem_of_all_calls (a : DirectArgs) (numThreads : Z) (p : Z * Z) :
  (0 < numThreads)%Z ->
  p ∈ seqZ 0 numThreads ≫= allPairs_calls a numThreads <->
  (0 <= p.1 < p.2)%Z /\ (p.2 < numberOfAtoms a)%Z /\ p.1 ∉ rd (exclusions a) p.2.
Proof.
  intros HT. destruct p as [i j]. cbn [fst snd].
  rewrite list_elem_of_bind. split.
  - intros [t [Hin Ht]]. apply elem_of_seqZ in Ht.
    apply elem_of_allPairs_calls in Hin as [Hi [Hj Hex]].
    apply strided_owner in Hi; [| lia | lia]. split; [lia |]. split; [lia | exact Hex].
  - intros [Hi [Hj Hex]]. exists (i mod numThreads)%Z.
    pose proof (Z.mod_pos_bound i numThreads HT).
    split; [| apply elem_of_seqZ; lia].
    apply elem_of_allPairs_calls. split; [| split; [lia | exact Hex]].
    apply strided_owner; [lia | lia |]. split; [lia | reflexivity].
Qed.

Lemma NoDup_all_calls (a : DirectArgs) (numThreads : Z) :
  (0 < numThreads)%Z ->
  NoDup (seqZ 0 numThreads ≫= allPairs_calls a numThreads).
Proof.
  intros HT. apply NoDup_bind.
  - intros t1 t2 [i j] Ht1 Ht2 H1 H2.
    apply elem_of_seqZ in Ht1, Ht2.
    apply elem_of_allPairs_calls in H1 as [H1 _], H2 as [H2 _].
    apply strided_owner in H1, H2; lia.
  - intros t _. apply NoDup_allPairs_calls. exact HT.
  - apply NoDup_seqZ.
Qed.

Lemma single_thread_calls (a : DirectArgs) :
  seqZ 0 1 ≫= allPairs_calls a 1 = allPairs_calls a 1 0.
Proof. change (seqZ 0 1) with [0%Z]. rewrite bind_cons. apply app_nil_r. Qed.

(** Whatever the number of threads, together they make the calls of a
    single thread. *)
Lemma all_calls_Permutation (a : DirectArgs) (numThreads : Z) :
  (0 < numThreads)%Z ->
  seqZ 0 numThreads ≫= allPairs_calls a numThreads ≡ₚ allPairs_calls a 1 0.
Proof.
  intros HT.
  rewrite <- (single_thread_calls a). apply NoDup_Permutation.
  - apply NoDup_all_calls. exact HT.
  - apply NoDup_all_calls. lia.
  - intros p. rewrite !elem_of_all_calls by lia. reflexivity.
Qed.

Lemma calls_valid (a : DirectArgs) (numThreads t : Z) (p : Z * Z) :
  (0 < numThreads)%Z -> (0 <= t < numThreads)%Z ->
  p ∈ allPairs_calls a numThreads t -> valid_pair a p.
Proof.
  intros HT Ht Hp. destruct p as [i j].
  apply elem_of_allPairs_calls in Hp as [Hi [Hj _]].
  apply strided_owner in Hi; [| lia | lia].
  unfold valid_pair. cbn [fst snd]. lia.
Qed.

(** The threads' results in the slots that calculateDirectIxn combines. *)
Lemma calculateDirectIxn_parts (f : CpuNonbondedForce) (a : DirectArgs)
    (y : Z -> Z -> Z -> fvec4) (forces : list R) (totalEnergy : option R)
    (numThreads : Z) :
  (4 * numberOfAtoms a <= Z.of_nat (length forces))%Z ->
  let part t :=
    threadComputeDirect f a (bool_decide (is_Some totalEnergy)) (y t) numThreads t in
  let out := calculateDirectIxn f a y forces totalEnergy numThreads in
  length out.1 = length forces /\
  (forall k, (0 <= k < 4 * numberOfAtoms a)%Z ->
     rd out.1 k
     = rd forces k + sumR ((fun t => rd (part t).1 k) <$> seqZ 0 numThreads)) /\
  (forall k, (4 * numberOfAtoms a <= k)%Z -> (0 <= k)%Z -> rd out.1 k = rd forces k) /\
  out.2 = match totalEnergy with
          | Some e => Some (e + sumR ((fun t => (part t).2) <$> seqZ 0 numThreads))
          | None => None
          end.
Proof.
  intros Hlen part out. subst out. unfold calculateDirectIxn.
  set (results := (fun t => threadComputeDirect f a _ (y t) numThreads t)
                    <$> seqZ 0 numThreads).
  assert (H1 : forall t, t ∈ seqZ 0 numThreads -> rd (results.*1) t = (part t).1).
  { intros t Ht. apply elem_of_seqZ in Ht. unfold results.
    rewrite <- list_fmap_compose. rewrite rd_fmap_seqZ by lia. reflexivity. }
  assert (H2 : forall t, t ∈ seqZ 0 numThreads -> rd (results.*2) t = (part t).2).
  { intros t Ht. apply elem_of_seqZ in Ht. unfold results.
    rewrite <- list_fmap_compose. rewrite rd_fmap_seqZ by lia. reflexivity. }
  destruct (combineThreads_spec (numberOfAtoms a) numThreads (results.*2)
              (results.*1) forces totalEnergy Hlen) as [Hl [Hin [Hout He]]].
  split; [exact Hl |]. split; [| split; [exact Hout |]].
  - intros k Hk. rewrite Hin by exact Hk. do 2 f_equal.
    apply list_fmap_ext. intros i t Ht.
    rewrite H1; [reflexivity |]. eapply list_elem_of_lookup_2. exact Ht.
  - rewrite He. destruct totalEnergy; [| reflexivity]. do 3 f_equal.
    apply list_fmap_ext. intros i t Ht.
    apply H2. eapply list_elem_of_lookup_2. exact Ht.
Qed.

Lemma sumR_fmap_ext {A : Type} (g h : A -> R) (l : list A) :
  (forall x, x ∈ l -> g x = h x) -> sumR (g <$> l) = sumR (h <$> l).
Proof.
  intros E. f_equal. apply list_fmap_ext. intros i x Hx. apply E.
  eapply list_elem_of_lookup_2. exact Hx.
Qed.

(** X8: without cutoff, Ewald or PME, what calculateDirectIxn adds does
    not depend on the number of threads: every force slot receives the sum,
    over the pairs [i < j] with [i] not in [exclusions[j]], of what
    calculateOneIxn adds to that slot for the pair, and the energy the sum of
    the pairs' energies. *)
Theorem calculateDirectIxn_thread_count (f : CpuNonbondedForce) (a : DirectArgs)
    (y : Z -> Z -> Z -> fvec4) (forces : list R) (totalEnergy : option R)
    (numThreads : Z) :
  ewald f = false -> pme f = false -> cutoff f = false ->
  (0 < numThreads)%Z ->
  (4 * numberOfAtoms a <= Z.of_nat (length forces))%Z ->
  let boxSize := Fvec4 (periodicBoxSize f).1.1 (periodicBoxSize f).1.2
                   (periodicBoxSize f).2 0 in
  let invBoxSize := Fvec4 (1 / (periodicBoxSize f).1.1) (1 / (periodicBoxSize f).1.2)
                      (1 / (periodicBoxSize f).2) 0 in
  let pairs := allPairs_calls a 1 0 in
  let out := calculateDirectIxn f a y forces totalEnergy numThreads in
  (forall i j, (i, j) ∈ pairs <->
     (0 <= i < j)%Z /\ (j < numberOfAtoms a)%Z /\ i ∉ rd (exclusions a) j) /\
  (forall k, (0 <= k < 4 * numberOfAtoms a)%Z ->
     rd out.1 k
     = rd forces k + sumR ((fun p => pairForce f a boxSize invBoxSize p k) <$> pairs)) /\
  out.2 = match totalEnergy with
          | Some e => Some (e + sumR (pairEnergy f a boxSize invBoxSize <$> pairs))
          | None => None
          end.
Proof.
  intros He Hp Hc HT Hlen boxSize invBoxSize pairs out.
  set (inc := bool_decide (is_Some totalEnergy)).
  assert (Hthread : forall t, (0 <= t < numThreads)%Z ->
    let part := threadComputeDirect f a inc (y t) numThreads t in
    (forall k, (0 <= k < 4 * numberOfAtoms a)%Z ->
       rd part.1 k
       = sumR ((fun p => pairForce f a boxSize invBoxSize p k)
                 <$> allPairs_calls a numThreads t)) /\
    part.2 = if inc
             then sumR (pairEnergy f a boxSize invBoxSize
                          <$> allPairs_calls a numThreads t)
             else 0).
  { intros t Ht part. subst part. unfold threadComputeDirect.
    subst boxSize invBoxSize.
    destruct (periodicBoxSize f) as [[bx by_] bz]. cbn [fst snd].
    rewrite He, Hp, Hc. cbn [orb]. rewrite allPairs_as_calls.
    fold (zeroForces a).
    destruct (Z_le_dec 0 (numberOfAtoms a)) as [Hn | Hn].
    - destruct (pair_calls_sum f a inc (Fvec4 bx by_ bz 0)
                  (Fvec4 (1 / bx) (1 / by_) (1 / bz) 0)
                  (allPairs_calls a numThreads t) (zeroForces a, 0))
        as (_ & Hf & Hen).
      + intros p. apply calls_valid; assumption.
      + cbn [fst]. rewrite length_zeroForces by exact Hn. lia.
      + split.
        * intros k Hk. rewrite Hf by exact Hk. cbn [fst].
          rewrite rd_zeroForces. ring.
        * rewrite Hen. cbn [snd]. ring.
    - split; [intros k Hk; lia |].
      assert (Hnil : allPairs_calls a numThreads t = []).
      { destruct (allPairs_calls a numThreads t) as [| [i j] l] eqn:E;
          [reflexivity |].
        assert (Hin : (i, j) ∈ allPairs_calls a numThreads t)
          by (rewrite E; left).
        apply elem_of_allPairs_calls in Hin as [Hi [Hj _]].
        apply strided_owner in Hi; lia. }
      rewrite Hnil. cbn. destruct inc; reflexivity. }
  destruct (calculateDirectIxn_parts f a y forces totalEnergy numThreads Hlen)
    as (_ & Hf & _ & Hen).
  fold inc in Hf, Hen. fold out in Hf, Hen.
  pose proof (all_calls_Permutation a numThreads HT) as Hperm. fold pairs in Hperm.
  split; [| split].
  - intros i j. subst pairs.
    rewrite <- (elem_of_all_calls a 1 (i, j)) by lia.
    rewrite single_thread_calls. reflexivity.
  - intros k Hk. rewrite Hf by exact Hk. f_equal.
    rewrite (sumR_fmap_ext _
               (fun t => sumR ((fun p => pairForce f a boxSize invBoxSize p k)
                                 <$> allPairs_calls a numThreads t))).
    2:{ intros t Ht. apply elem_of_seqZ in Ht. apply Hthread; [lia | exact Hk]. }
    rewrite <- sumR_bind. apply sumR_Permutation. rewrite Hperm. reflexivity.
  - rewrite Hen. destruct totalEnergy as [e |]; [| reflexivity].
    do 2 f_equal.
    rewrite (sumR_fmap_ext _
               (fun t => sumR (pairEnergy f a boxSize invBoxSize
                                 <$> allPairs_calls a numThreads t))).
    2:{ intros t Ht. apply elem_of_seqZ in Ht.
        destruct (Hthread t ltac:(lia)) as [_ H2]. rewrite H2. reflexivity. }
    rewrite <- sumR_bind. apply sumR_Permutation. rewrite Hperm. reflexivity.
Qed.

End ThreadCount.

Lemma calculateDirectIxn_thread_count_witness :
  let a := {| numberOfAtoms := 3;
              posq := [0; 0; 0; 1; 1; 0; 0; -1; 2; 0; 0; 1];
              atomCoordinates := [(0, 0, 0); (1, 0, 0); (2, 0, 0)];
              atomParameters := [(0.3, 0.5); (0.3, 0.5); (0.3, 0.5)];
              exclusions := [{[1%Z]}; ∅; {[1%Z]}] |} in
  let forces := [1; 2; 3; 0; 4; 5; 6; 0; 7; 8; 9; 0] in
  let box := Fvec4 0 0 0 0 in
  let inv := Fvec4 (1 / 0) (1 / 0) (1 / 0) 0 in
  (@calculateDirectIxn sampleExternals CpuNonbondedForce_new a
     (fun _ _ _ => V.splat 0) forces (Some 7) 2).2
  = Some (7 + sumR (@pairEnergy sampleExternals CpuNonbondedForce_new a box inv
                      <$> allPairs_calls a 1 0)).
Proof.
  intros a forces box inv.
  destruct (@calculateDirectIxn_thread_count sampleExternals CpuNonbondedForce_new a
              (fun _ _ _ => V.splat 0) forces (Some 7) 2)
    as (_ & _ & H); try reflexivity; try lia.
  exact H.
Defined.

(** ** The tabulated Ewald scale factor *)

Section Spline.
Context {ext : Externals}.

(** What tabulateEwaldScaleFactor stores. *)
Lemma tabulated (f : CpuNonbondedForce) :
  let c := cutoffDistance f in
  let step := c / IZR (NUM_TABLE_POINTS - 2) in
  let x := (tabulate_xy c (alphaEwald f)).1 in
  let y := (tabulate_xy c (alphaEwald f)).2 in
  let deriv := createNaturalSpline x y in
  let g := tabulateEwaldScaleFactor f in
  ewaldDX g = step /\ ewaldDXInv g = 1 / step /\
  length (ewaldScaleTable g) = Z.to_nat (4 * NUM_TABLE_POINTS) /\
  forall i, (0 <= i < NUM_TABLE_POINTS)%Z ->
    load4 (ewaldScaleTable g) (4 * i)
    = Fvec4 (rd y i) (rd y (i + 1)) (rd deriv i * step * step / 6)
        (rd deriv (i + 1) * step * step / 6).
Proof.
  intros c step x y deriv g.
  assert (Hg : ewaldDX g = step /\ ewaldDXInv g = 1 / step /\
               ewaldScaleTable g =
               for_loop 0 NUM_TABLE_POINTS (fun i t =>
                 let t := wr t (4 * i) (rd y i) in
                 let t := wr t (4 * i + 1) (rd y (i + 1)) in
                 let t := wr t (4 * i + 2) (rd deriv i * step * step / 6) in
                 wr t (4 * i + 3) (rd deriv (i + 1) * step * step / 6))
                 (resize (Z.to_nat (4 * NUM_TABLE_POINTS)) 0 (ewaldScaleTable f))).
  { subst g. unfold tabulateEwaldScaleFactor.
    fold c. destruct (tabulate_xy c (alphaEwald f)) as [x' y'] eqn:E.
    subst x y deriv. cbn [fst snd]. cbn [ewaldDX ewaldDXInv ewaldScaleTable].
    repeat split. }
  destruct Hg as [G1 [G2 G3]].
  destruct (table_loop_spec y deriv
              (resize (Z.to_nat (4 * NUM_TABLE_POINTS)) 0 (ewaldScaleTable f)) step)
    as [Tl Tk]; [apply length_resize |].
  rewrite <- G3 in Tl, Tk.
  split; [exact G1 |]. split; [exact G2 |]. split; [exact Tl |].
  intros i Hi. destruct (Tk i Hi) as (T0 & T1 & T2 & T3).
  unfold load4. rewrite T0, T1, T2, T3. reflexivity.
Qed.

Lemma Zfloor_unique (r : R) (i : Z) : IZR i <= r < IZR i + 1 -> Zfloor r = i.
Proof.
  intros [Hl Hu]. apply Zfloor_eq. split; assumption.
Qed.

(** X9: after tabulateEwaldScaleFactor, ewaldScaleFunction evaluates the
    cubic spline through the samples: at the fraction [u] of bucket [i] it
    returns the linear interpolation of the two samples plus the two
    second-derivative terms, and at a grid point the sampled function
    itself. *)
Theorem ewaldScaleFunction_spline (f : CpuNonbondedForce) (y0 v : fvec4)
    (j i : Z) (u : R) :
  0 < cutoffDistance f -> (0 <= j < 4)%Z ->
  (0 <= i < NUM_TABLE_POINTS)%Z -> 0 <= u < 1 ->
  let c := cutoffDistance f in
  let step := c / IZR (NUM_TABLE_POINTS - 2) in
  let x := (tabulate_xy c (alphaEwald f)).1 in
  let y := (tabulate_xy c (alphaEwald f)).2 in
  let deriv := createNaturalSpline x y in
  let g := tabulateEwaldScaleFactor f in
  V.get v j = (IZR i + u) * step ->
  V.get (ewaldScaleFunction g y0 v) j
  = (1 - u) * rd y i + u * rd y (i + 1)
    + ((1 - u) * (1 - u) * (1 - u) - (1 - u)) * (rd deriv i * step * step / 6)
    + (u * u * u - u) * (rd deriv (i + 1) * step * step / 6) /\
  (u = 0 ->
   V.get (ewaldScaleFunction g y0 v) j
   = erfc (alphaEwald f * V.get v j)
     + TWO_OVER_SQRT_PI * (alphaEwald f * V.get v j)
       * exp (- (alphaEwald f * V.get v j) * (alphaEwald f * V.get v j))).
Proof.
  intros Hc Hj Hi Hu c step x y deriv g Hv.
  destruct (tabulated f) as (_ & Hinv & _ & Htab).
  fold c step x y deriv g in Hinv, Htab.
  assert (Hstep : 0 < step).
  { unfold step. change (NUM_TABLE_POINTS - 2)%Z with 1023%Z.
    apply Rdiv_lt_0_compat; [exact Hc | lra]. }
  assert (Hx1 : V.get v j * ewaldDXInv g = IZR i + u).
  { rewrite Hinv, Hv. field. lra. }
  assert (Hidx : Zfloor (V.get v j * ewaldDXInv g) = i).
  { rewrite Hx1. apply Zfloor_unique. lra. }
  assert (Hval : V.get (ewaldScaleFunction g y0 v) j
    = (1 - u) * rd y i + u * rd y (i + 1)
      + ((1 - u) * (1 - u) * (1 - u) - (1 - u)) * (rd deriv i * step * step / 6)
      + (u * u * u - u) * (rd deriv (i + 1) * step * step / 6)).
  { rewrite ewaldScaleFunction_lane by exact Hj. cbv zeta.
    rewrite Hidx.
    rewrite int_lane_in_range
      by (unfold INT_MIN; unfold NUM_TABLE_POINTS in Hi; lia).
    rewrite (proj2 (Z.ltb_lt i NUM_TABLE_POINTS)) by lia.
    rewrite Htab by exact Hi. rewrite Hx1.
    unfold V.dot4. cbn [v0 v1 v2 v3].
    replace (IZR i + u - IZR i) with u by ring. reflexivity. }
  split; [exact Hval |].
  intros ->. rewrite Hval.
  destruct (tabulate_xy_spec c (alphaEwald f)) as (_ & _ & Hxy).
  destruct (Hxy i) as [Hxi Hyi]; [lia |].
  fold x y in Hxi, Hyi.
  assert (Hvx : V.get v j = rd x i).
  { rewrite Hv, Hxi. unfold step, Rdiv. ring. }
  rewrite Hvx, Hyi. ring.
Qed.

End Spline.

Lemma ewaldScaleFunction_spline_witness :
  let f := setUseCutoff CpuNonbondedForce_new 1023 inhabitant 78 in
  let g := @tabulateEwaldScaleFactor sampleExternals f in
  V.get (ewaldScaleFunction g (V.splat 0) (Fvec4 0 2 0 0)) 1
  = @erfc sampleExternals (alphaEwald f * 2)
    + TWO_OVER_SQRT_PI * (alphaEwald f * 2)
      * exp (- (alphaEwald f * 2) * (alphaEwald f * 2)).
Proof.
  intros f g.
  destruct (@ewaldScaleFunction_spline sampleExternals f (V.splat 0)
              (Fvec4 0 2 0 0) 1 2 0) as [_ H].
  - cbn. lra.
  - lia.
  - unfold NUM_TABLE_POINTS. lia.
  - lra.
  - cbn [cutoffDistance setUseCutoff f]. change (NUM_TABLE_POINTS - 2)%Z with 1023%Z.
    unfold V.get. change (1 =? 0)%Z with false. change (1 =? 1)%Z with true.
    cbn [v1]. field.
  - exact (H eq_refl).
Defined.

Section Retabulation.
Context {ext : Externals}.

Lemma list_eq_rd (l l' : list R) :
  length l = length l' ->
  (forall k, (0 <= k < Z.of_nat (length l))%Z -> rd l k = rd l' k) ->
  l = l'.
Proof.
  intros Hlen Hrd. apply list_eq_same_length with (length l); [congruence | congruence |].
  intros n x x' Hn Hx Hx'.
  specialize (Hrd (Z.of_nat n) ltac:(lia)).
  rewrite !rd_nonneg, Nat2Z.id in Hrd by lia.
  rewrite (list_lookup_total_correct _ _ _ Hx) in Hrd.
  rewrite (list_lookup_total_correct _ _ _ Hx') in Hrd. exact Hrd.
Qed.

(** The table loop overwrites every entry. *)
Lemma table_loop_overwrites (y deriv t0 t0' : list R) (dX : R) :
  length t0 = Z.to_nat (4 * NUM_TABLE_POINTS) ->
  length t0' = Z.to_nat (4 * NUM_TABLE_POINTS) ->
  let body := fun i t =>
      let t := wr t (4 * i) (rd y i) in
      let t := wr t (4 * i + 1) (rd y (i + 1)) in
      let t := wr t (4 * i + 2) (rd deriv i * dX * dX / 6) in
      wr t (4 * i + 3) (rd deriv (i + 1) * dX * dX / 6) in
  for_loop 0 NUM_TABLE_POINTS body t0 = for_loop 0 NUM_TABLE_POINTS body t0'.
Proof.
  intros H0 H0' body.
  destruct (table_loop_spec y deriv t0 dX H0) as [L1 T1].
  destruct (table_loop_spec y deriv t0' dX H0') as [L2 T2].
  fold body in L1, T1, L2, T2.
  apply list_eq_rd; [congruence |].
  intros k Hk. rewrite L1 in Hk.
  assert (Hi : (0 <= k / 4 < NUM_TABLE_POINTS)%Z).
  { split; [apply Z.div_pos; lia | apply Z.div_lt_upper_bound; lia]. }
  destruct (T1 _ Hi) as (A0 & A1 & A2 & A3).
  destruct (T2 _ Hi) as (B0 & B1 & B2 & B3).
  pose proof (Z.div_mod k 4 ltac:(lia)) as Hk4.
  pose proof (Z.mod_pos_bound k 4 ltac:(lia)) as Hm.
  assert (Hcase : k = (4 * (k / 4))%Z \/ k = (4 * (k / 4) + 1)%Z
                  \/ k = (4 * (k / 4) + 2)%Z \/ k = (4 * (k / 4) + 3)%Z) by lia.
  destruct Hcase as [E | [E | [E | E]]]; rewrite E; congruence.
Qed.

Lemma tabulate_same_inputs (f f' : CpuNonbondedForce) :
  cutoffDistance f = cutoffDistance f' -> alphaEwald f = alphaEwald f' ->
  ewaldDX (tabulateEwaldScaleFactor f) = ewaldDX (tabulateEwaldScaleFactor f') /\
  ewaldDXInv (tabulateEwaldScaleFactor f) = ewaldDXInv (tabulateEwaldScaleFactor f') /\
  ewaldScaleTable (tabulateEwaldScaleFactor f)
  = ewaldScaleTable (tabulateEwaldScaleFactor f').
Proof.
  intros Hc Ha. unfold tabulateEwaldScaleFactor. rewrite <- Hc, <- Ha.
  destruct (tabulate_xy (cutoffDistance f) (alphaEwald f)) as [x y].
  cbn [ewaldDX ewaldDXInv ewaldScaleTable].
  split; [reflexivity |]. split; [reflexivity |].
  apply table_loop_overwrites; apply length_resize.
Qed.

Lemma tabulate_fields (f : CpuNonbondedForce) :
  tabulateEwaldScaleFactor f
  = {| cutoff := cutoff f; useSwitch := useSwitch f; periodic := periodic f;
       ewald := ewald f; pme := pme f; neighborList := neighborList f;
       periodicBoxSize := periodicBoxSize f;
       cutoffDistance := cutoffDistance f; switchingDistance := switchingDistance f;
       krf := krf f; crf := crf f;
       alphaEwald := alphaEwald f; numRx := numRx f; numRy := numRy f;
       numRz := numRz f; meshDim := meshDim f;
       ewaldDX := ewaldDX (tabulateEwaldScaleFactor f);
       ewaldDXInv := ewaldDXInv (tabulateEwaldScaleFactor f);
       ewaldScaleTable := ewaldScaleTable (tabulateEwaldScaleFactor f) |}.
Proof.
  unfold tabulateEwaldScaleFactor. destruct (tabulate_xy _ _). reflexivity.
Qed.

(** X10: tabulateEwaldScaleFactor overwrites the whole table, so that the
    table and the step depend only on the cutoff and on alpha, and
    tabulating twice is tabulating once; setUseEwald and setUsePME leave a
    table that matches the cutoff; setUseCutoff keeps table and step, so
    that a call with another distance after the table was built leaves a
    table that does not match the new cutoff. *)
Theorem tabulateEwaldScaleFactor_idempotent (f : CpuNonbondedForce) :
  (forall f', cutoffDistance f = cutoffDistance f' -> alphaEwald f = alphaEwald f' ->
     ewaldDX (tabulateEwaldScaleFactor f) = ewaldDX (tabulateEwaldScaleFactor f') /\
     ewaldDXInv (tabulateEwaldScaleFactor f)
     = ewaldDXInv (tabulateEwaldScaleFactor f') /\
     ewaldScaleTable (tabulateEwaldScaleFactor f)
     = ewaldScaleTable (tabulateEwaldScaleFactor f')) /\
  tabulateEwaldScaleFactor (tabulateEwaldScaleFactor f) = tabulateEwaldScaleFactor f /\
  (forall alpha kx ky kz,
     table_matches_cutoff (setUseEwald f alpha kx ky kz) /\
     cutoffDistance (setUseEwald f alpha kx ky kz) = cutoffDistance f) /\
  (forall alpha mesh,
     table_matches_cutoff (setUsePME f alpha mesh) /\
     cutoffDistance (setUsePME f alpha mesh) = cutoffDistance f) /\
  (forall distance nl eps,
     ewaldScaleTable (setUseCutoff f distance nl eps) = ewaldScaleTable f /\
     ewaldDXInv (setUseCutoff f distance nl eps) = ewaldDXInv f /\
     (table_matches_cutoff f -> 0 < cutoffDistance f -> 0 < distance ->
      distance <> cutoffDistance f ->
      ~ table_matches_cutoff (setUseCutoff f distance nl eps))).
Proof.
  split; [intros f'; apply tabulate_same_inputs |].
  split.
  { set (g := tabulateEwaldScaleFactor f).
    assert (Hc : cutoffDistance g = cutoffDistance f)
      by apply tabulateEwaldScaleFactor_matches.
    assert (Ha : alphaEwald g = alphaEwald f).
    { unfold g, tabulateEwaldScaleFactor. destruct (tabulate_xy _ _). reflexivity. }
    destruct (tabulate_same_inputs g f Hc Ha) as (E1 & E2 & E3).
    fold g in E1, E2, E3.
    rewrite (tabulate_fields g), E1, E2, E3.
    destruct g. reflexivity. }
  split.
  { intros alpha kx ky kz. unfold setUseEwald.
    destruct (tabulateEwaldScaleFactor_matches
      {| cutoff := cutoff f; useSwitch := useSwitch f; periodic := periodic f;
         ewald := true; pme := pme f; neighborList := neighborList f;
         periodicBoxSize := periodicBoxSize f;
         cutoffDistance := cutoffDistance f; switchingDistance := switchingDistance f;
         krf := krf f; crf := crf f;
         alphaEwald := alpha; numRx := kx; numRy := ky;
         numRz := kz; meshDim := meshDim f; ewaldDX := ewaldDX f;
         ewaldDXInv := ewaldDXInv f; ewaldScaleTable := ewaldScaleTable f |})
      as [H1 H2].
    split; [exact H2 | exact H1]. }
  split.
  { intros alpha mesh. unfold setUsePME.
    destruct (tabulateEwaldScaleFactor_matches
      {| cutoff := cutoff f; useSwitch := useSwitch f; periodic := periodic f;
         ewald := ewald f; pme := true; neighborList := neighborList f;
         periodicBoxSize := periodicBoxSize f;
         cutoffDistance := cutoffDistance f; switchingDistance := switchingDistance f;
         krf := krf f; crf := crf f;
         alphaEwald := alpha; numRx := numRx f; numRy := numRy f;
         numRz := numRz f; meshDim := mesh; ewaldDX := ewaldDX f;
         ewaldDXInv := ewaldDXInv f; ewaldScaleTable := ewaldScaleTable f |})
      as [H1 H2].
    split; [exact H2 | exact H1]. }
  intros distance nl eps. split; [reflexivity |]. split; [reflexivity |].
  intros Hm Hc Hd Hne. unfold table_matches_cutoff in *.
  cbn [ewaldDXInv cutoffDistance setUseCutoff]. rewrite Hm.
  change (NUM_TABLE_POINTS - 2)%Z with 1023%Z. intros E. apply Hne.
  assert (E' : 1023 / cutoffDistance f = 1023 / distance).
  { transitivity (1 / (cutoffDistance f / 1023)); [field; lra |].
    rewrite E. field. lra. }
  apply (Rmult_eq_compat_r (cutoffDistance f * distance / 1023)) in E'.
  field_simplify in E'; lra.
Qed.

End Retabulation.

Lemma tabulateEwaldScaleFactor_idempotent_witness :
  let f := @setUseEwald sampleExternals
             (setUseCutoff CpuNonbondedForce_new 1 inhabitant 78) 3 2 2 2 in
  ~ table_matches_cutoff (setUseCutoff f 2 inhabitant 78).
Proof.
  intros f.
  destruct (@tabulateEwaldScaleFactor_idempotent sampleExternals f)
    as (_ & _ & _ & _ & H).
  destruct (H 2 inhabitant 78) as (_ & _ & Hstale).
  apply Hstale.
  - apply (@tabulateEwaldScaleFactor_matches sampleExternals).
  - unfold f, setUseEwald. rewrite (proj1 (@tabulateEwaldScaleFactor_matches sampleExternals _)).
    cbn. lra.
  - lra.
  - unfold f, setUseEwald. rewrite (proj1 (@tabulateEwaldScaleFactor_matches sampleExternals _)).
    cbn. lra.
Defined.

(** ** The k-vectors of the reciprocal sum, counted *)

Section Mirror.
Import Recip.
#[local] Open Scope Z_scope.

Lemma length_bind_const {A B : Type} (g : A -> list B) (l : list A) (c : nat) :
  (forall x, length (g x) = c) -> length (l ≫= g) = (length l * c)%nat.
Proof.
  intros Hg. induction l as [| x l IH]; [reflexivity |].
  rewrite bind_cons, length_app, IH, Hg. cbn [length]. lia.
Qed.

Lemma length_column (rx ry lo hi : Z) :
  length (column rx ry lo hi) = Z.to_nat (hi - lo).
Proof.
  unfold column. rewrite (length_bind_const _ _ 1%nat) by reflexivity.
  rewrite length_seqZ. lia.
Qed.

Lemma length_plane (numRz rx lo hi : Z) :
  length (plane numRz rx lo hi)
  = (Z.to_nat (hi - lo) * Z.to_nat (2 * numRz - 1))%nat.
Proof.
  unfold plane.
  rewrite (length_bind_const _ _ (Z.to_nat (2 * numRz - 1))).
  - rewrite length_seqZ. reflexivity.
  - intros ry. rewrite length_column. f_equal. lia.
Qed.

Lemma length_slab (numRy numRz lo hi : Z) :
  length (slab numRy numRz lo hi)
  = (Z.to_nat (hi - lo) * (Z.to_nat (2 * numRy - 1) * Z.to_nat (2 * numRz - 1)))%nat.
Proof.
  unfold slab.
  rewrite (length_bind_const _ _
             (Z.to_nat (2 * numRy - 1) * Z.to_nat (2 * numRz - 1))%nat).
  - rewrite length_seqZ. reflexivity.
  - intros rx. rewrite length_plane. f_equal. f_equal. lia.
Qed.

(** X11: with bounds [numRx, numRy >= 1] and [numRz >= 2] the loop nest of
    the Ewald sum visits, of every pair [k], [-k] of non-zero vectors within
    the bounds, exactly one; it never visits the zero vector, stays within
    the bounds, visits no vector twice, and so runs its innermost body
    [((2 numRx - 1)(2 numRy - 1)(2 numRz - 1) - 1) / 2] times. *)
Theorem visited_one_of_each_pair (numRx numRy numRz : Z) :
  1 <= numRx -> 1 <= numRy -> 2 <= numRz ->
  (forall kx ky kz,
     - numRx < kx < numRx -> - numRy < ky < numRy -> - numRz < kz < numRz ->
     (kx, ky, kz) <> (0, 0, 0) ->
     ((kx, ky, kz) ∈ visited numRx numRy numRz
      <-> (- kx, - ky, - kz) ∉ visited numRx numRy numRz)) /\
  ((0, 0, 0) ∉ visited numRx numRy numRz) /\
  (forall k, k ∈ visited numRx numRy numRz ->
     - numRx < k.1.1 < numRx /\ - numRy < k.1.2 < numRy /\ - numRz < k.2 < numRz) /\
  NoDup (visited numRx numRy numRz) /\
  2 * Z.of_nat (length (visited numRx numRy numRz)) + 1
  = (2 * numRx - 1) * (2 * numRy - 1) * (2 * numRz - 1).
Proof.
  intros Hx Hy Hz.
  destruct (visited_half_space numRx numRy numRz Hx Hy Hz) as [Hnd Hmem].
  split; [| split; [| split; [| split]]].
  - intros kx ky kz Hkx Hky Hkz Hne.
    rewrite !Hmem. unfold half_space, in_range, above_origin.
    assert (kx <> 0 \/ ky <> 0 \/ kz <> 0).
    { destruct (Z.eq_dec kx 0), (Z.eq_dec ky 0), (Z.eq_dec kz 0); try lia.
      subst. congruence. }
    lia.
  - rewrite Hmem. unfold half_space, in_range, above_origin. lia.
  - intros [[kx ky] kz] Hk. apply Hmem in Hk.
    unfold half_space, in_range, above_origin in Hk. cbn [fst snd]. lia.
  - exact Hnd.
  - rewrite visited_closed_form by assumption.
    rewrite !length_app, length_column, length_plane, length_slab.
    rewrite !Nat2Z.inj_add, !Nat2Z.inj_mul, !Z2Nat.id by lia. ring.
Qed.

End Mirror.

Lemma visited_one_of_each_pair_witness :
  (1, -1, 0)%Z ∈ Recip.visited 2 2 2 <-> (- 1, - -1, - 0)%Z ∉ Recip.visited 2 2 2.
Proof.
  apply (visited_one_of_each_pair 2 2 2); try lia. congruence.
Defined.

(** ** The Ewald sum *)

Section EwaldSum.
Context {ext : Externals}.
Import Recip.

Lemma calculateReciprocalIxn_ewald (f : CpuNonbondedForce) (numberOfAtoms : Z)
    (posq : list R) (atomCoordinates forces : list (R * R * R))
    (totalEnergy : option R) :
  pme f = false -> ewald f = true ->
  calculateReciprocalIxn f numberOfAtoms posq atomCoordinates forces totalEnergy
  = let E := ewaldPhases f numberOfAtoms posq in
    let s := payload (loops (numRx f) (numRy f) (numRz f)
                        (ewaldXY numberOfAtoms E) (ewaldK f numberOfAtoms posq E)
                        (ewaldStart numberOfAtoms forces totalEnergy)) in
    (recipForces s, recipEnergy s).
Proof.
  intros Hpme Hewald.
  unfold calculateReciprocalIxn, ewaldPhases, ewaldXY, ewaldK, recipBoxSize,
    recipCoeff, ewaldStart.
  rewrite Hpme, Hewald. destruct (periodicBoxSize f) as [[bx by_] bz].
  reflexivity.
Qed.



Lemma foldl_preserves {A B : Type} (P : A -> Prop) (g : A -> B -> A) (l : list B)
    (a : A) :
  P a -> (forall a x, P a -> P (g a x)) -> P (foldl g a l).
Proof.
  intros Ha Hg. revert a Ha. induction l as [| x l IH]; intros a Ha; [exact Ha |].
  cbn [foldl]. apply IH, Hg, Ha.
Qed.

Lemma foldl_related {A A' B : Type} (Rel : A -> A' -> Prop) (g : A -> B -> A)
    (g' : A' -> B -> A') (l : list B) (a : A) (a' : A') :
  Rel a a' -> (forall a a' x, Rel a a' -> Rel (g a x) (g' a' x)) ->
  Rel (foldl g a l) (foldl g' a' l).
Proof.
  intros Ha Hg. revert a a' Ha.
  induction l as [| x l IH]; intros a a' Ha; [exact Ha |].
  cbn [foldl]. apply IH, Hg, Ha.
Qed.

(** An invariant of the loop nest is one that both kinds of statements
    keep. *)
Lemma ewald_invariant (P : EwaldSum -> Prop) (f : CpuNonbondedForce)
    (numberOfAtoms : Z) (posq : list R) (E : Z -> Z -> Z -> d_complex)
    (s : EwaldSum) :
  P s ->
  (forall rx ry s, P s -> P (ewaldXY numberOfAtoms E rx ry s)) ->
  (forall rx ry rz s, P s -> P (ewaldK f numberOfAtoms posq E rx ry rz s)) ->
  P (payload (loops (numRx f) (numRy f) (numRz f) (ewaldXY numberOfAtoms E)
               (ewaldK f numberOfAtoms posq E) s)).
Proof.
  intros Hs Hxy Hk. rewrite loops_events. apply foldl_preserves; [exact Hs |].
  intros a [rx ry | rx ry rz] Ha; cbn [run_event]; [apply Hxy | apply Hk]; exact Ha.
Qed.

Lemma ewaldK_energy (f : CpuNonbondedForce) (numberOfAtoms : Z) (posq : list R)
    (E : Z -> Z -> Z -> d_complex) (rx ry rz : Z) (s : EwaldSum) :
  0 <= recipCoeff f ->
  match recipEnergy s, recipEnergy (ewaldK f numberOfAtoms posq E rx ry rz s) with
  | Some e, Some e' => e <= e'
  | None, None => True
  | _, _ => False
  end.
Proof.
  intros Hc. unfold ewaldK. cbv zeta.
  destruct (for_loop 0 numberOfAtoms _ (0, 0)) as [cs ss].
  cbn [recipEnergy]. destruct (recipEnergy s) as [e |]; [| exact I].
  set (k2 := IZR rx * recipBoxSize f 0 * (IZR rx * recipBoxSize f 0)
             + IZR ry * recipBoxSize f 1 * (IZR ry * recipBoxSize f 1)
             + IZR rz * recipBoxSize f 2 * (IZR rz * recipBoxSize f 2)).
  assert (Hk2 : 0 <= k2).
  { unfold k2.
    pose proof (Rle_0_sqr (IZR rx * recipBoxSize f 0)).
    pose proof (Rle_0_sqr (IZR ry * recipBoxSize f 1)).
    pose proof (Rle_0_sqr (IZR rz * recipBoxSize f 2)).
    unfold Rsqr in *. lra. }
  assert (Hak : 0 <= exp (k2 * (-1 / (4 * alphaEwald f * alphaEwald f))) / k2).
  { destruct Hk2 as [Hpos | <-].
    - left. apply Rdiv_lt_0_compat; [apply exp_pos | exact Hpos].
    - unfold Rdiv. rewrite Rinv_0. lra. }
  assert (Hsq : 0 <= cs * cs + ss * ss).
  { pose proof (Rle_0_sqr cs). pose proof (Rle_0_sqr ss). unfold Rsqr in *. lra. }
  assert (0 <= recipCoeff f
               * (exp (k2 * (-1 / (4 * alphaEwald f * alphaEwald f))) / k2)
               * (cs * cs + ss * ss)).
  { apply Rmult_le_pos; [apply Rmult_le_pos |]; assumption. }
  lra.
Qed.



Lemma ewaldK_length (f : CpuNonbondedForce) (numberOfAtoms : Z) (posq : list R)
    (E : Z -> Z -> Z -> d_complex) (rx ry rz : Z) (s : EwaldSum) :
  length (recipForces (ewaldK f numberOfAtoms posq E rx ry rz s))
  = length (recipForces s).
Proof.
  unfold ewaldK. cbv zeta.
  destruct (for_loop 0 numberOfAtoms _ (0, 0)) as [cs ss]. cbn [recipForces].
  apply (for_loop_preserves (fun l => length l = length (recipForces s)));
    [reflexivity |].
  intros n l Hl. destruct (rd l n) as [[fx fy] fz]. rewrite length_wr. exact Hl.
Qed.

(** The forces and tables do not depend on the energy cell. *)
Lemma ewaldK_same_forces (f : CpuNonbondedForce) (numberOfAtoms : Z)
    (posq : list R) (E : Z -> Z -> Z -> d_complex) (rx ry rz : Z)
    (s s' : EwaldSum) :
  tab_xy s = tab_xy s' -> tab_qxyz s = tab_qxyz s' ->
  recipForces s = recipForces s' ->
  let t := ewaldK f numberOfAtoms posq E rx ry rz s in
  let t' := ewaldK f numberOfAtoms posq E rx ry rz s' in
  tab_xy t = tab_xy t' /\ tab_qxyz t = tab_qxyz t' /\ recipForces t = recipForces t'.
Proof.
  intros H1 H2 H3. unfold ewaldK. cbv zeta. rewrite H1, H2, H3.
  destruct (for_loop 0 numberOfAtoms _ (0, 0)) as [cs ss].
  cbn [tab_xy tab_qxyz recipForces]. repeat split.
Qed.

(** X12: in the Ewald branch of calculateReciprocalIxn, with [kmax] at
    least 2, so that the phase table holds the entries written to it, a
    force vector with an entry for every atom and a non-negative
    [recipCoeff], the energy cell never decreases; a null energy pointer
    stays null; the forces are the same with and without an energy pointer;
    and the force vector keeps its length. *)
Theorem calculateReciprocalIxn_energy_grows (f : CpuNonbondedForce)
    (numberOfAtoms : Z) (posq : list R) (atomCoordinates forces : list (R * R * R))
    (totalEnergy : option R) :
  pme f = false -> ewald f = true ->
  (2 <= Z.max (numRx f) (Z.max (numRy f) (numRz f)))%Z ->
  (numberOfAtoms <= Z.of_nat (length forces))%Z ->
  0 <= recipCoeff f ->
  let out := calculateReciprocalIxn f numberOfAtoms posq atomCoordinates forces
               totalEnergy in
  match totalEnergy, out.2 with
  | Some e, Some e' => e <= e'
  | None, None => True
  | _, _ => False
  end /\
  out.1 = (calculateReciprocalIxn f numberOfAtoms posq atomCoordinates forces None).1 /\
  length out.1 = length forces.
Proof.
  intros Hpme Hewald _ _ Hc out. subst out.
  rewrite !calculateReciprocalIxn_ewald by assumption. cbv zeta. cbn [fst snd].
  set (E := ewaldPhases f numberOfAtoms posq).
  split; [| split].
  - apply (ewald_invariant
             (fun s => match totalEnergy, recipEnergy s with
                       | Some e, Some e' => e <= e'
                       | None, None => True
                       | _, _ => False
                       end)).
    + cbn. destruct totalEnergy; [lra | exact I].
    + intros rx ry s Hs. exact Hs.
    + intros rx ry rz s Hs.
      pose proof (ewaldK_energy f numberOfAtoms posq E rx ry rz s Hc) as Hstep.
      destruct totalEnergy as [e |], (recipEnergy s) as [e1 |],
        (recipEnergy (ewaldK f numberOfAtoms posq E rx ry rz s)) as [e2 |];
        try contradiction; try exact I. lra.
  - rewrite !loops_events.
    apply (foldl_related
             (fun s s' => tab_xy s = tab_xy s' /\ tab_qxyz s = tab_qxyz s'
                          /\ recipForces s = recipForces s')).
    + repeat split.
    + intros s s' [rx ry | rx ry rz] (H1 & H2 & H3); cbn [run_event].
      * unfold ewaldXY. cbn [tab_xy tab_qxyz recipForces]. rewrite H1.
        repeat split; assumption.
      * apply ewaldK_same_forces; assumption.
  - apply (ewald_invariant (fun s => length (recipForces s) = length forces)).
    + reflexivity.
    + intros rx ry s Hs. exact Hs.
    + intros rx ry rz s Hs. rewrite ewaldK_length. exact Hs.
Qed.



Lemma sumR_cons (x : R) (l : list R) : sumR (x :: l) = x + sumR l.
Proof. reflexivity. Qed.

Lemma sumR_insert {A : Type} `{Inhabited A} (h : A -> R) (l : list A) (n : nat)
    (v : A) :
  (n < length l)%nat ->
  sumR (h <$> <[n := v]> l) = sumR (h <$> l) - h (l !!! n) + h v.
Proof.
  revert n. induction l as [| x l IH]; intros n Hn; [cbn in Hn; lia |].
  destruct n as [| n].
  - change (<[0%nat := v]> (x :: l)) with (v :: l).
    change ((x :: l) !!! 0%nat) with x.
    rewrite !fmap_cons, !sumR_cons. lra.
  - cbn [length] in Hn.
    change (<[S n := v]> (x :: l)) with (x :: <[n := v]> l).
    change ((x :: l) !!! S n) with (l !!! n).
    rewrite !fmap_cons, !sumR_cons, IH by lia. lra.
Qed.

Lemma seqZ_single (n : Z) : seqZ n 1 = [n].
Proof. unfold seqZ. cbn. f_equal. Qed.

Lemma sumR_wr {A : Type} `{Inhabited A} (h : A -> R) (l : list A) (n : Z) (v : A) :
  (0 <= n < Z.of_nat (length l))%Z ->
  sumR (h <$> wr l n v) = sumR (h <$> l) - h (rd l n) + h v.
Proof.
  intros Hn. unfold wr, rd. rewrite (proj2 (Z.ltb_ge n 0)) by lia.
  apply sumR_insert. lia.
Qed.

(** A loop that adds [(a n, b n, c n)] to the force on atom [n]. *)
Lemma add_forces_total (numberOfAtoms : Z) (a b c : Z -> R)
    (forces : list (R * R * R)) :
  (numberOfAtoms <= Z.of_nat (length forces))%Z ->
  let out :=
    for_loop 0 numberOfAtoms (fun n forces =>
      let '(fx, fy, fz) := rd forces n in
      wr forces n (fx + a n, fy + b n, fz + c n)) forces in
  let range := seqZ 0 numberOfAtoms in
  length out = length forces /\
  totalForce out
  = ((totalForce forces).1.1 + sumR (a <$> range),
     (totalForce forces).1.2 + sumR (b <$> range),
     (totalForce forces).2 + sumR (c <$> range)).
Proof.
  intros Hlen out range. subst out range.
  destruct (Z_le_dec 0 numberOfAtoms) as [Hn | Hn].
  2:{ rewrite for_loop_nil by lia. rewrite seqZ_nil by lia.
      split; [reflexivity |]. rewrite !fmap_nil.
      change (sumR []) with 0. rewrite !Rplus_0_r.
      destruct (totalForce forces) as [[tx ty] tz]. reflexivity. }
  apply (for_loop_invariant
    (fun n out =>
       length out = length forces /\
       totalForce out
       = ((totalForce forces).1.1 + sumR (a <$> seqZ 0 n),
          (totalForce forces).1.2 + sumR (b <$> seqZ 0 n),
          (totalForce forces).2 + sumR (c <$> seqZ 0 n)))); [exact Hn | |].
  - split; [reflexivity |]. change (seqZ 0 0) with (@nil Z). rewrite !fmap_nil.
    change (sumR []) with 0. rewrite !Rplus_0_r.
    destruct (totalForce forces) as [[tx ty] tz]. reflexivity.
  - intros n l Hrange [Hl Ht].
    destruct (rd l n) as [[fx fy] fz] eqn:Erd.
    split; [rewrite length_wr; exact Hl |].
    unfold totalForce in *. cbn [fst snd] in *.
    injection Ht as H1 H2 H3.
    rewrite !sumR_wr by lia. rewrite Erd. cbn [fst snd].
    rewrite H1, H2, H3.
    rewrite seqZ_app by lia. rewrite !fmap_app, !sumR_app.
    rewrite Z.add_0_l, seqZ_single, !fmap_cons, !fmap_nil, !sumR_cons.
    change (sumR []) with 0.
    f_equal; [f_equal |]; lra.
Qed.

Lemma sumR_scale {A : Type} (h : A -> R) (k : R) (l : list A) :
  sumR ((fun x => k * h x) <$> l) = k * sumR (h <$> l).
Proof.
  induction l as [| x l IH]; [rewrite !fmap_nil; change (sumR []) with 0; lra |].
  rewrite !fmap_cons, !sumR_cons, IH. lra.
Qed.

Lemma sumR_minus {A : Type} (g h : A -> R) (l : list A) :
  sumR ((fun x => g x - h x) <$> l) = sumR (g <$> l) - sumR (h <$> l).
Proof.
  induction l as [| x l IH]; [rewrite !fmap_nil; change (sumR []) with 0; lra |].
  rewrite !fmap_cons, !sumR_cons, IH. lra.
Qed.

(** [cs] and [ss] (lines 266-272). *)
Lemma cs_ss_sums (numberOfAtoms : Z) (qxyz : list d_complex) :
  for_loop 0 numberOfAtoms (fun n '(cs, ss) =>
    (cs + (rd qxyz n).1, ss + (rd qxyz n).2)) (0, 0)
  = (sumR ((fun n => (rd qxyz n).1) <$> seqZ 0 numberOfAtoms),
     sumR ((fun n => (rd qxyz n).2) <$> seqZ 0 numberOfAtoms)).
Proof.
  destruct (Z_le_dec 0 numberOfAtoms) as [Hn | Hn].
  2:{ rewrite for_loop_nil by lia. rewrite seqZ_nil by lia. reflexivity. }
  apply (for_loop_invariant
    (fun n (st : R * R) =>
       st = (sumR ((fun n => (rd qxyz n).1) <$> seqZ 0 n),
             sumR ((fun n => (rd qxyz n).2) <$> seqZ 0 n)))); [exact Hn | |].
  - reflexivity.
  - intros n [cs ss] Hrange Hst. injection Hst as -> ->.
    rewrite seqZ_app by lia. rewrite !fmap_app, !sumR_app.
    rewrite Z.add_0_l, seqZ_single, !fmap_cons, !fmap_nil, !sumR_cons.
    change (sumR []) with 0. rewrite !Rplus_0_r. reflexivity.
Qed.



Lemma sumR_linear {A : Type} (u v : A -> R) (alpha beta : R) (l : list A) :
  sumR ((fun x => alpha * u x + beta * v x) <$> l)
  = alpha * sumR (u <$> l) + beta * sumR (v <$> l).
Proof.
  induction l as [| x l IH]; [rewrite !fmap_nil; change (sumR []) with 0; lra |].
  rewrite !fmap_cons, !sumR_cons, IH. lra.
Qed.

(** The reciprocal forces of one k-vector add up to zero. *)
Lemma ewald_forces_cancel (re im : Z -> R) (l : list Z) (k1 k2 ak : R) :
  let cs := sumR (re <$> l) in
  let ss := sumR (im <$> l) in
  sumR ((fun n => k1 * (ak * (cs * im n - ss * re n)) * k2) <$> l) = 0.
Proof.
  intros cs ss.
  rewrite (sumR_fmap_ext _
             (fun n => (k1 * ak * k2 * cs) * im n + (- (k1 * ak * k2 * ss)) * re n))
    by (intros n _; ring).
  rewrite sumR_linear. fold cs ss. ring.
Qed.

Lemma ewaldK_total_force (f : CpuNonbondedForce) (numberOfAtoms : Z)
    (posq : list R) (E : Z -> Z -> Z -> d_complex) (rx ry rz : Z) (s : EwaldSum) :
  (numberOfAtoms <= Z.of_nat (length (recipForces s)))%Z ->
  totalForce (recipForces (ewaldK f numberOfAtoms posq E rx ry rz s))
  = totalForce (recipForces s).
Proof.
  intros Hlen. unfold ewaldK. cbv zeta. rewrite cs_ss_sums. cbn [recipForces].
  match goal with
  | |- context [for_loop 0 _ ?body (tab_qxyz s)] =>
      set (qxyz := for_loop 0 numberOfAtoms body (tab_qxyz s))
  end.
  set (re := fun n => (rd qxyz n).1). set (im := fun n => (rd qxyz n).2).
  set (cs := sumR (re <$> seqZ 0 numberOfAtoms)).
  set (ss := sumR (im <$> seqZ 0 numberOfAtoms)).
  set (kx := IZR rx * recipBoxSize f 0). set (ky := IZR ry * recipBoxSize f 1).
  set (kz := IZR rz * recipBoxSize f 2).
  set (ak := exp _ / _).
  destruct (add_forces_total numberOfAtoms
              (fun n => 2 * recipCoeff f * (ak * (cs * im n - ss * re n)) * kx)
              (fun n => 2 * recipCoeff f * (ak * (cs * im n - ss * re n)) * ky)
              (fun n => 2 * recipCoeff f * (ak * (cs * im n - ss * re n)) * kz)
              (recipForces s) Hlen) as [_ Ht].
  etransitivity; [exact Ht |].
  unfold cs, ss. rewrite !ewald_forces_cancel, !Rplus_0_r.
  destruct (totalForce (recipForces s)) as [[tx ty] tz]. reflexivity.
Qed.

(** X13: the Ewald branch of calculateReciprocalIxn adds no net force:
    with [kmax] at least 2, so that the phase table holds the entries
    written to it, and a force vector with an entry for every atom, the sum
    of the forces over all atoms is after the call what it was before. *)
Theorem calculateReciprocalIxn_total_force (f : CpuNonbondedForce)
    (numberOfAtoms : Z) (posq : list R) (atomCoordinates forces : list (R * R * R))
    (totalEnergy : option R) :
  pme f = false -> ewald f = true ->
  (2 <= Z.max (numRx f) (Z.max (numRy f) (numRz f)))%Z ->
  (numberOfAtoms <= Z.of_nat (length forces))%Z ->
  totalForce (calculateReciprocalIxn f numberOfAtoms posq atomCoordinates forces
                totalEnergy).1
  = totalForce forces.
Proof.
  intros Hpme Hewald _ Hlen.
  rewrite calculateReciprocalIxn_ewald by assumption. cbv zeta. cbn [fst].
  apply (ewald_invariant
           (fun s => length (recipForces s) = length forces
                     /\ totalForce (recipForces s) = totalForce forces)).
  - split; reflexivity.
  - intros rx ry s Hs. exact Hs.
  - intros rx ry rz s [Hl Ht]. split.
    + rewrite ewaldK_length. exact Hl.
    + rewrite ewaldK_total_force by (rewrite Hl; exact Hlen). exact Ht.
Qed.

End EwaldSum.

Lemma sampleEwald_recipCoeff : 0 <= @recipCoeff sampleExternals sampleEwald.
Proof.
  unfold recipCoeff. cbn [periodicBoxSize sampleEwald ONE_4PI_EPS0 sampleExternals].
  pose proof PI_RGT_0. unfold Rdiv. rewrite Rinv_1.
  assert (0 < / (2 * 2 * 2)) by (apply Rinv_0_lt_compat; lra). nra.
Qed.

Lemma calculateReciprocalIxn_energy_grows_witness :
  length (@calculateReciprocalIxn sampleExternals sampleEwald 2
            [0; 0; 0; 1; 1; 0; 0; -1] [(0, 0, 0); (1, 0, 0)]
            [(0, 0, 0); (0, 0, 0)] (Some 0)).1
  = 2%nat.
Proof.
  apply (@calculateReciprocalIxn_energy_grows sampleExternals sampleEwald 2
           [0; 0; 0; 1; 1; 0; 0; -1] [(0, 0, 0); (1, 0, 0)]
           [(0, 0, 0); (0, 0, 0)] (Some 0) eq_refl eq_refl);
    [cbn; lia | simpl; lia | exact sampleEwald_recipCoeff].
Defined.

Lemma calculateReciprocalIxn_total_force_witness :
  totalForce (@calculateReciprocalIxn sampleExternals sampleEwald 2
                [0; 0; 0; 1; 1; 0; 0; -1] [(0, 0, 0); (1, 0, 0)]
                [(1, 2, 3); (4, 5, 6)] None).1
  = totalForce [(1, 2, 3); (4, 5, 6)].
Proof.
  apply (@calculateReciprocalIxn_total_force sampleExternals sampleEwald 2
           [0; 0; 0; 1; 1; 0; 0; -1] [(0, 0, 0); (1, 0, 0)]
           [(1, 2, 3); (4, 5, 6)] None eq_refl eq_refl);
    [cbn; lia | simpl; lia].
Defined.

(** ** Blocks away from the box faces *)

Section WrapNotNeeded.
Context {ext : Externals}.

(** One coordinate of a block atom at least the cutoff away from both faces
    and of a neighbour inside the box: wrapping the difference either does
    nothing, or both differences are at least the cutoff. *)
Lemma wrap_far (c L inv p q : R) :
  round_to_nearest -> round_integral ->
  0 < c -> c <= p -> p + c <= L -> 0 <= q <= L -> inv = 1 / L ->
  let d := p - q in
  let d' := d - round (d * inv) * L in
  d' = d \/ (c * c <= d * d /\ c * c <= d' * d').
Proof.
  intros Hnear Hint Hc Hp1 Hp2 Hq -> d d'.
  assert (HL : 0 < L) by lra.
  set (x := d * (1 / L)) in *.
  assert (Hx : - 1 < x < 1).
  { unfold x, d. split.
    - apply (Rmult_lt_reg_r L); [exact HL |]. field_simplify; lra.
    - apply (Rmult_lt_reg_r L); [exact HL |]. field_simplify; lra. }
  assert (Hd : d = x * L) by (unfold x; field; lra).
  destruct (Hint x) as [k Hk]. pose proof (Hnear x) as Hn. rewrite Hk in Hn.
  assert (Hn' : - (1 / 2) <= x - IZR k <= 1 / 2)
    by (unfold Rabs in Hn; destruct (Rcase_abs (x - IZR k)); lra).
  assert (Hk3 : (- 2 < k < 2)%Z).
  { split; apply lt_IZR; lra. }
  assert (Hcase : k = 0%Z \/ k = 1%Z \/ k = (-1)%Z) by lia.
  subst d'. rewrite Hk.
  destruct Hcase as [-> | [-> | ->]].
  - left. ring.
  - right. assert (L / 2 <= d) by (rewrite Hd; nra).
    assert (d <= L - c) by (unfold d; lra). split; nra.
  - right. assert (d <= - (L / 2)) by (rewrite Hd; nra).
    assert (c - L <= d) by (unfold d; lra). split; nra.
Qed.



Lemma Rltb_false_inv (a b : R) : Rltb a b = false -> b <= a.
Proof. unfold Rltb. destruct (Rlt_dec a b); [discriminate | lra]. Qed.

Lemma Rltb_true_inv (a b : R) : Rltb a b = true -> a < b.
Proof. unfold Rltb. destruct (Rlt_dec a b); [tauto | discriminate]. Qed.

Lemma nearBoxFace_false (f : CpuNonbondedForce) (b : BlockData) (boxSize : fvec4)
    (i j : Z) :
  nearBoxFace f b boxSize = false -> (0 <= i < 4)%Z -> (0 <= j < 3)%Z ->
  cutoffDistance f <= V.get (blockAtomPosq b i) j /\
  V.get (blockAtomPosq b i) j + cutoffDistance f <= V.get boxSize j.
Proof.
  intros Hnear Hi Hj. unfold nearBoxFace in Hnear. cbn [existsb] in Hnear.
  repeat match type of Hnear with
         | (_ || _)%bool = false => apply orb_false_iff in Hnear
         | _ /\ _ => destruct Hnear as [? Hnear]
         end.
  repeat match goal with
         | H : (_ || _)%bool = false |- _ => apply orb_false_iff in H; destruct H
         end.
  assert (Hi' : i = 0%Z \/ i = 1%Z \/ i = 2%Z \/ i = 3%Z) by lia.
  assert (Hj' : j = 0%Z \/ j = 1%Z \/ j = 2%Z) by lia.
  destruct Hi' as [-> | [-> | [-> | ->]]]; destruct Hj' as [-> | [-> | ->]];
    split;
    match goal with
    | H : Rltb (?p - _) 0 = false |- _ <= ?p => apply Rltb_false_inv in H; lra
    | H : Rltb ?L (?p + _) = false |- ?p + _ <= ?L => apply Rltb_false_inv in H; lra
    end.
Qed.



Lemma getDeltaR4_lane (posI x y z boxSize invBoxSize : fvec4) (periodic : bool)
    (j : Z) :
  let d := getDeltaR4 posI x y z periodic boxSize invBoxSize in
  let wrap (u inv box : R) := if periodic then u - round (u * inv) * box else u in
  let dx := wrap (V.get x j - v0 posI) (v0 invBoxSize) (v0 boxSize) in
  let dy := wrap (V.get y j - v1 posI) (v1 invBoxSize) (v1 boxSize) in
  let dz := wrap (V.get z j - v2 posI) (v2 invBoxSize) (v2 boxSize) in
  V.get d.1.1.1 j = dx /\ V.get d.1.1.2 j = dy /\ V.get d.1.2 j = dz /\
  V.get d.2 j = dx * dx + dy * dy + dz * dz.
Proof.
  unfold getDeltaR4. destruct periodic; cbn [fst snd];
    repeat (rewrite get_add || rewrite get_mul || rewrite get_sub
            || rewrite get_scale || rewrite get_map || rewrite get_splat);
    repeat split; reflexivity.
Qed.

(** X14: skipping the periodic wrap is safe for a block none of whose
    atoms lies within the cutoff of a box face: for a neighbour inside the
    box, the unwrapped and the wrapped displacements include the same lanes
    (in both blocked kernels), and in every lane within the cutoff they are
    the same displacement. *)
Theorem block_wrap_not_needed (f : CpuNonbondedForce) (a : DirectArgs)
    (blockIndex : Z) (atomPosq boxSize invBoxSize : fvec4) (e j : Z) :
  round_to_nearest -> round_integral ->
  cutoff f = true -> 0 < cutoffDistance f ->
  v0 invBoxSize = 1 / v0 boxSize -> v1 invBoxSize = 1 / v1 boxSize ->
  v2 invBoxSize = 1 / v2 boxSize ->
  0 <= v0 atomPosq <= v0 boxSize -> 0 <= v1 atomPosq <= v1 boxSize ->
  0 <= v2 atomPosq <= v2 boxSize ->
  (0 <= j < 4)%Z ->
  let b := loadBlock f a blockIndex in
  nearBoxFace f b boxSize = false ->
  let d := getDeltaR4 atomPosq (blockAtomX b) (blockAtomY b) (blockAtomZ b)
             false boxSize invBoxSize in
  let d' := getDeltaR4 atomPosq (blockAtomX b) (blockAtomY b) (blockAtomZ b)
              true boxSize invBoxSize in
  blockInclude f e d.2 j = blockInclude f e d'.2 j /\
  ewaldInclude f e d.2 j = ewaldInclude f e d'.2 j /\
  (V.get d'.2 j < cutoffDistance f * cutoffDistance f ->
   V.get d.1.1.1 j = V.get d'.1.1.1 j /\ V.get d.1.1.2 j = V.get d'.1.1.2 j /\
   V.get d.1.2 j = V.get d'.1.2 j /\ V.get d.2 j = V.get d'.2 j).
Proof.
  intros Hnear Hint Hcut Hc Hi0 Hi1 Hi2 Hq0 Hq1 Hq2 Hj b Hface d d'.
  destruct (getDeltaR4_lane atomPosq (blockAtomX b) (blockAtomY b) (blockAtomZ b)
              boxSize invBoxSize false j) as (Dx & Dy & Dz & D2).
  destruct (getDeltaR4_lane atomPosq (blockAtomX b) (blockAtomY b) (blockAtomZ b)
              boxSize invBoxSize true j) as (Dx' & Dy' & Dz' & D2').
  fold d in Dx, Dy, Dz, D2. fold d' in Dx', Dy', Dz', D2'. cbv zeta in *.
  assert (HX : V.get (blockAtomX b) j = V.get (blockAtomPosq b j) 0)
    by (unfold b, loadBlock; cbn [blockAtomX blockAtomPosq]; rewrite get_tab by exact Hj; reflexivity).
  assert (HY : V.get (blockAtomY b) j = V.get (blockAtomPosq b j) 1)
    by (unfold b, loadBlock; cbn [blockAtomY blockAtomPosq]; rewrite get_tab by exact Hj; reflexivity).
  assert (HZ : V.get (blockAtomZ b) j = V.get (blockAtomPosq b j) 2)
    by (unfold b, loadBlock; cbn [blockAtomZ blockAtomPosq]; rewrite get_tab by exact Hj; reflexivity).
  destruct (nearBoxFace_false f b boxSize j 0 Hface Hj ltac:(lia)) as [P0 Q0].
  destruct (nearBoxFace_false f b boxSize j 1 Hface Hj ltac:(lia)) as [P1 Q1].
  destruct (nearBoxFace_false f b boxSize j 2 Hface Hj ltac:(lia)) as [P2 Q2].
  rewrite <- HX in P0, Q0. rewrite <- HY in P1, Q1. rewrite <- HZ in P2, Q2.
  change (V.get boxSize 0) with (v0 boxSize) in Q0.
  change (V.get boxSize 1) with (v1 boxSize) in Q1.
  change (V.get boxSize 2) with (v2 boxSize) in Q2.
  pose proof (wrap_far (cutoffDistance f) (v0 boxSize) (v0 invBoxSize)
                (V.get (blockAtomX b) j) (v0 atomPosq) Hnear Hint Hc P0 Q0 Hq0 Hi0)
    as W0.
  pose proof (wrap_far (cutoffDistance f) (v1 boxSize) (v1 invBoxSize)
                (V.get (blockAtomY b) j) (v1 atomPosq) Hnear Hint Hc P1 Q1 Hq1 Hi1)
    as W1.
  pose proof (wrap_far (cutoffDistance f) (v2 boxSize) (v2 invBoxSize)
                (V.get (blockAtomZ b) j) (v2 atomPosq) Hnear Hint Hc P2 Q2 Hq2 Hi2)
    as W2.
  cbv zeta in W0, W1, W2.
  rewrite <- Dx', <- Dx in W0. rewrite <- Dy', <- Dy in W1.
  rewrite <- Dz', <- Dz in W2.
  rewrite <- Dx, <- Dy, <- Dz in D2. rewrite <- Dx', <- Dy', <- Dz' in D2'.
  set (c2 := cutoffDistance f * cutoffDistance f) in *.
  set (x := V.get d.1.1.1 j) in *. set (x' := V.get d'.1.1.1 j) in *.
  set (y := V.get d.1.1.2 j) in *. set (y' := V.get d'.1.1.2 j) in *.
  set (z := V.get d.1.2 j) in *. set (z' := V.get d'.1.2 j) in *.
  assert (Hsq : forall u : R, 0 <= u * u)
    by (intros u; pose proof (Rle_0_sqr u) as H; unfold Rsqr in H; exact H).
  pose proof (Hsq x). pose proof (Hsq y). pose proof (Hsq z).
  pose proof (Hsq x'). pose proof (Hsq y'). pose proof (Hsq z').
  assert (Hcase : (x' = x /\ y' = y /\ z' = z)
                  \/ (c2 <= V.get d.2 j /\ c2 <= V.get d'.2 j)).
  { rewrite D2, D2'.
    destruct W0 as [E0 | [F0 F0']]; [| right; split; lra].
    destruct W1 as [E1 | [F1 F1']]; [| right; split; lra].
    destruct W2 as [E2 | [F2 F2']]; [| right; split; lra].
    left. repeat split; assumption. }
  destruct Hcase as [(Ex & Ey & Ez) | [Hfar Hfar']].
  - assert (E2 : V.get d.2 j = V.get d'.2 j) by (rewrite D2, D2', Ex, Ey, Ez; reflexivity).
    unfold blockInclude, ewaldInclude. rewrite E2.
    split; [reflexivity |]. split; [reflexivity |].
    intros _. repeat split; congruence.
  - unfold blockInclude, ewaldInclude. fold c2.
    rewrite !Rltb_false by assumption. rewrite Hcut.
    split; [reflexivity |]. split; [reflexivity |]. intros Hlt. lra.
Qed.

End WrapNotNeeded.

Lemma sampleBlock_not_near_face :
  nearBoxFace sampleBlockForce (@loadBlock sampleExternals sampleBlockForce
                                  sampleBlockAtoms 0) (Fvec4 4 4 4 0) = false.
Proof.
  unfold nearBoxFace, loadBlock. cbn [existsb blockAtomPosq].
  unfold V.get, load4, rd, sampleBlockForce, sampleBlockAtoms.
  cbn [neighborList getSortedAtoms posq cutoffDistance].
  cbv [Z.mul Z.add Z.ltb Z.eqb Z.compare Z.to_nat Pos.to_nat Pos.iter_op Pos.mul
       Pos.add Pos.succ Pos.add_carry Pos.compare Pos.compare_cont Init.Nat.add
       Pos.eqb].
  cbn [lookup_total list_lookup_total v0 v1 v2 v3].
  cbv [Z.mul Z.add Z.ltb Z.eqb Z.compare Z.to_nat Pos.to_nat Pos.iter_op Pos.mul
       Pos.add Pos.succ Pos.add_carry Pos.compare Pos.compare_cont Init.Nat.add
       Pos.eqb].
  cbn [lookup_total list_lookup_total v0 v1 v2 v3].
  rewrite !Rltb_false by lra. reflexivity.
Qed.

Lemma block_wrap_not_needed_witness :
  let b := @loadBlock sampleExternals sampleBlockForce sampleBlockAtoms 0 in
  let box := Fvec4 4 4 4 0 in
  let inv := Fvec4 (1 / 4) (1 / 4) (1 / 4) 0 in
  let q := Fvec4 0 4 2 1 in
  blockInclude sampleBlockForce 0
    (@getDeltaR4 sampleExternals q (blockAtomX b) (blockAtomY b) (blockAtomZ b)
       false box inv).2 2
  = blockInclude sampleBlockForce 0
      (@getDeltaR4 sampleExternals q (blockAtomX b) (blockAtomY b) (blockAtomZ b)
         true box inv).2 2.
Proof.
  intros b box inv q.
  apply (@block_wrap_not_needed sampleExternals sampleBlockForce sampleBlockAtoms 0
           q box inv 0 2 roundHalfUp_nearest roundHalfUp_integral);
    try reflexivity; try (cbn; lra); try lia.
  exact sampleBlock_not_near_face.
Defined.

(** ** No net force *)

Section NetForce.
Context {ext : Externals}.

Lemma sumR_update (g h : Z -> R) (N k : Z) :
  (0 <= k < N)%Z -> (forall n, (0 <= n < N)%Z -> n <> k -> g n = h n) ->
  sumR (g <$> seqZ 0 N) = sumR (h <$> seqZ 0 N) - h k + g k.
Proof.
  intros Hk Hgh.
  assert (Hsplit : seqZ 0 N = seqZ 0 k ++ [k] ++ seqZ (k + 1) (N - (k + 1))).
  { replace N with (k + (1 + (N - (k + 1))))%Z at 1 by lia.
    rewrite seqZ_app by lia. rewrite seqZ_app by lia.
    rewrite !Z.add_0_l, seqZ_single. reflexivity. }
  rewrite Hsplit, !fmap_app, !sumR_app, !fmap_cons, !fmap_nil, !sumR_cons.
  change (sumR []) with 0.
  rewrite (sumR_fmap_ext g h (seqZ 0 k)).
  2:{ intros n Hn. apply elem_of_seqZ in Hn. apply Hgh; lia. }
  rewrite (sumR_fmap_ext g h (seqZ (k + 1) _)).
  2:{ intros n Hn. apply elem_of_seqZ in Hn. apply Hgh; lia. }
  lra.
Qed.

(** Storing [w] in the slots of atom [k]. *)
Lemma totalLane_store4 (N : Z) (forces : list R) (k m : Z) (w : fvec4) :
  (0 <= k < N)%Z -> (4 * N <= Z.of_nat (length forces))%Z -> (0 <= m < 4)%Z ->
  totalLane N (store4 forces (4 * k) w) m
  = totalLane N forces m - rd forces (4 * k + m) + V.get w m.
Proof.
  intros Hk Hlen Hm. unfold totalLane.
  rewrite (sumR_update (fun n => rd (store4 forces (4 * k) w) (4 * n + m))
             (fun n => rd forces (4 * n + m)) N k Hk).
  - rewrite rd_store4_lane by lia. reflexivity.
  - intros n Hn Hne. apply rd_store4_other; lia.
Qed.

Lemma totalLane_add (N : Z) (forces : list R) (k m : Z) (v : fvec4) :
  (0 <= k < N)%Z -> (4 * N <= Z.of_nat (length forces))%Z -> (0 <= m < 4)%Z ->
  totalLane N (store4 forces (4 * k) (V.add (load4 forces (4 * k)) v)) m
  = totalLane N forces m + V.get v m.
Proof.
  intros Hk Hlen Hm. rewrite totalLane_store4 by assumption.
  rewrite get_add, load4_lane by exact Hm. ring.
Qed.

Lemma totalLane_sub (N : Z) (forces : list R) (k m : Z) (v : fvec4) :
  (0 <= k < N)%Z -> (4 * N <= Z.of_nat (length forces))%Z -> (0 <= m < 4)%Z ->
  totalLane N (store4 forces (4 * k) (V.sub (load4 forces (4 * k)) v)) m
  = totalLane N forces m - V.get v m.
Proof.
  intros Hk Hlen Hm. rewrite totalLane_store4 by assumption.
  rewrite get_sub, load4_lane by exact Hm. ring.
Qed.

(** calculateOneIxn adds no net force. *)
Lemma calculateOneIxn_net (f : CpuNonbondedForce) (a : DirectArgs) (N i j m : Z)
    (forces : list R) (e : option R) (boxSize invBoxSize : fvec4) :
  (0 <= i < N)%Z -> (0 <= j < N)%Z ->
  (4 * N <= Z.of_nat (length forces))%Z -> (0 <= m < 4)%Z ->
  totalLane N (calculateOneIxn f a i j forces e boxSize invBoxSize).1 m
  = totalLane N forces m.
Proof.
  intros Hi Hj Hlen Hm.
  set (r2 := (getDeltaR (load4 (posq a) (4 * j)) (load4 (posq a) (4 * i))
                (periodic f) boxSize invBoxSize).2).
  destruct (included_or_excluded f r2) as [[Hc Hfar] | Hin].
  - rewrite calculateOneIxn_excluded by assumption. reflexivity.
  - rewrite calculateOneIxn_included by exact Hin. cbn [fst].
    rewrite totalLane_sub; [| exact Hj | rewrite length_store4; exact Hlen | exact Hm].
    rewrite totalLane_add by assumption. ring.
Qed.



Lemma accumulateForces_net (include : Z -> bool) (dx dy dz dEdR : fvec4)
    (N atom m : Z) (blockAtomForce : Z -> fvec4) (forces : list R) :
  (0 <= atom < N)%Z -> (4 * N <= Z.of_nat (length forces))%Z -> (0 <= m < 4)%Z ->
  let out := accumulateForces include dx dy dz dEdR atom blockAtomForce forces in
  length out.2 = length forces /\
  blockLane out.1 m + totalLane N out.2 m
  = blockLane blockAtomForce m + totalLane N forces m.
Proof.
  intros Hatom Hlen Hm out.
  destruct (accumulateForces_rows include dx dy dz dEdR atom blockAtomForce forces)
    as [Hbf Hf].
  fold out in Hbf, Hf. cbv zeta in Hbf, Hf.
  split; [rewrite Hf, length_store4; reflexivity |].
  unfold blockLane. rewrite !Hbf by lia. rewrite Hf.
  rewrite totalLane_store4 by assumption. cbn [foldl].
  rewrite <- (load4_lane forces (4 * atom) m Hm).
  destruct (include 0%Z), (include 1%Z), (include 2%Z), (include 3%Z);
    repeat (rewrite get_sub || rewrite get_add); ring.
Qed.

Lemma calculateBlockIxn_neighbor_net (f : CpuNonbondedForce) (a : DirectArgs)
    (b : BlockData) (needPeriodic : bool) (neighbors exclusions : list Z)
    (boxSize invBoxSize : fvec4) (N i m : Z) (st : (Z -> fvec4) * list R * option R) :
  (0 <= rd neighbors i < N)%Z -> (4 * N <= Z.of_nat (length st.1.2))%Z ->
  (0 <= m < 4)%Z ->
  let out := calculateBlockIxn_neighbor f a b needPeriodic neighbors exclusions
               boxSize invBoxSize i st in
  length out.1.2 = length st.1.2 /\
  blockLane out.1.1 m + totalLane N out.1.2 m
  = blockLane st.1.1 m + totalLane N st.1.2 m.
Proof.
  destruct st as [[bf forces] e]. cbn [fst snd]. intros Hatom Hlen Hm. cbv zeta.
  unfold calculateBlockIxn_neighbor.
  destruct (getDeltaR4 _ _ _ _ _ _ _) as [[[dx dy] dz] r2].
  destruct (negb _); [split; reflexivity |].
  destruct (blockSwitch _ _) as [switchValue switchDeriv].
  destruct (useSwitch f);
    match goal with
    | |- context [accumulateForces ?inc ?x ?y ?z ?D ?at_ ?bf0 ?fs] =>
        pose proof (accumulateForces_net inc x y z D N at_ m bf0 fs Hatom Hlen Hm)
          as Hnet;
        destruct (accumulateForces inc x y z D at_ bf0 fs) as [bf' forces']
    end; exact Hnet.
Qed.

Lemma calculateBlockEwaldIxn_neighbor_net (f : CpuNonbondedForce) (a : DirectArgs)
    (b : BlockData) (needPeriodic : bool) (neighbors exclusions : list Z)
    (boxSize invBoxSize : fvec4) (y : Z -> fvec4) (N i m : Z)
    (st : (Z -> fvec4) * list R * option R) :
  (0 <= rd neighbors i < N)%Z -> (4 * N <= Z.of_nat (length st.1.2))%Z ->
  (0 <= m < 4)%Z ->
  let out := calculateBlockEwaldIxn_neighbor f a b needPeriodic neighbors exclusions
               boxSize invBoxSize y i st in
  length out.1.2 = length st.1.2 /\
  blockLane out.1.1 m + totalLane N out.1.2 m
  = blockLane st.1.1 m + totalLane N st.1.2 m.
Proof.
  destruct st as [[bf forces] e]. cbn [fst snd]. intros Hatom Hlen Hm. cbv zeta.
  unfold calculateBlockEwaldIxn_neighbor.
  destruct (getDeltaR4 _ _ _ _ _ _ _) as [[[dx dy] dz] r2].
  destruct (negb _); [split; reflexivity |].
  destruct (blockSwitch _ _) as [switchValue switchDeriv].
  destruct (useSwitch f);
    match goal with
    | |- context [accumulateForces ?inc ?x ?y ?z ?D ?at_ ?bf0 ?fs] =>
        pose proof (accumulateForces_net inc x y z D N at_ m bf0 fs Hatom Hlen Hm)
          as Hnet;
        destruct (accumulateForces inc x y z D at_ bf0 fs) as [bf' forces']
    end; exact Hnet.
Qed.

Lemma recordBlockForces_net (b : BlockData) (blockAtomForce : Z -> fvec4)
    (N m : Z) (forces : list R) :
  (forall j, (0 <= j < 4)%Z -> (0 <= blockAtom b j < N)%Z) ->
  (4 * N <= Z.of_nat (length forces))%Z -> (0 <= m < 4)%Z ->
  length (recordBlockForces b blockAtomForce forces) = length forces /\
  totalLane N (recordBlockForces b blockAtomForce forces) m
  = blockLane blockAtomForce m + totalLane N forces m.
Proof.
  intros Hb Hlen Hm. unfold recordBlockForces. rewrite for_loop_0_4.
  split; [rewrite !length_store4; reflexivity |].
  rewrite !totalLane_add;
    rewrite ?length_store4; try assumption; try (apply Hb; lia).
  unfold blockLane. ring.
Qed.



Lemma blockLane_zero (m : Z) : blockLane (fun _ => V.splat 0) m = 0.
Proof. unfold blockLane. rewrite get_splat. ring. Qed.

Lemma calculateBlockIxn_net (f : CpuNonbondedForce) (a : DirectArgs)
    (N blockIndex m : Z) (forces : list R) (e : option R)
    (boxSize invBoxSize : fvec4) :
  valid_block f N blockIndex ->
  (4 * N <= Z.of_nat (length forces))%Z -> (0 <= m < 4)%Z ->
  let out := calculateBlockIxn f a blockIndex forces e boxSize invBoxSize in
  length out.1 = length forces /\ totalLane N out.1 m = totalLane N forces m.
Proof.
  intros [Hb Hn] Hlen Hm. cbv zeta. unfold calculateBlockIxn.
  set (b := loadBlock f a blockIndex).
  set (neighbors := rd (getBlockNeighbors (neighborList f)) blockIndex) in *.
  match goal with
  | |- context [for_loop 0 ?hi ?body ?s0] =>
      pose proof (for_loop_invariant
        (fun (_ : Z) (st : (Z -> fvec4) * list R * option R) =>
           length st.1.2 = length forces
           /\ blockLane st.1.1 m + totalLane N st.1.2 m = totalLane N forces m)
        0 hi body s0 ltac:(lia)) as Hinv
  end.
  destruct Hinv as [Hl Ht].
  - cbn [fst snd]. split; [reflexivity |]. rewrite blockLane_zero. ring.
  - intros i st Hi [Hl Ht].
    destruct (calculateBlockIxn_neighbor_net f a b
                (periodic f && nearBoxFace f b boxSize) neighbors
                (rd (getBlockExclusions (neighborList f)) blockIndex)
                boxSize invBoxSize N i m st) as [Hl' Ht'];
      [apply Hn; exact Hi | rewrite Hl; exact Hlen | exact Hm |].
    split; [congruence | rewrite Ht'; exact Ht].
  - destruct (for_loop _ _ _ _) as [[bf forces'] e']. cbn [fst snd] in *.
    destruct (recordBlockForces_net b bf N m forces') as [Hl' Ht'];
      [exact Hb | rewrite Hl; exact Hlen | exact Hm |].
    split; [congruence | rewrite Ht'; exact Ht].
Qed.

Lemma calculateBlockEwaldIxn_net (f : CpuNonbondedForce) (a : DirectArgs)
    (y : Z -> fvec4) (N blockIndex m : Z) (forces : list R) (e : option R)
    (boxSize invBoxSize : fvec4) :
  valid_block f N blockIndex ->
  (4 * N <= Z.of_nat (length forces))%Z -> (0 <= m < 4)%Z ->
  let out := calculateBlockEwaldIxn f a y blockIndex forces e boxSize invBoxSize in
  length out.1 = length forces /\ totalLane N out.1 m = totalLane N forces m.
Proof.
  intros [Hb Hn] Hlen Hm. cbv zeta. unfold calculateBlockEwaldIxn.
  set (b := loadBlock f a blockIndex).
  set (neighbors := rd (getBlockNeighbors (neighborList f)) blockIndex) in *.
  match goal with
  | |- context [for_loop 0 ?hi ?body ?s0] =>
      pose proof (for_loop_invariant
        (fun (_ : Z) (st : (Z -> fvec4) * list R * option R) =>
           length st.1.2 = length forces
           /\ blockLane st.1.1 m + totalLane N st.1.2 m = totalLane N forces m)
        0 hi body s0 ltac:(lia)) as Hinv
  end.
  destruct Hinv as [Hl Ht].
  - cbn [fst snd]. split; [reflexivity |]. rewrite blockLane_zero. ring.
  - intros i st Hi [Hl Ht].
    destruct (calculateBlockEwaldIxn_neighbor_net f a b
                (nearBoxFace f b boxSize) neighbors
                (rd (getBlockExclusions (neighborList f)) blockIndex)
                boxSize invBoxSize y N i m st) as [Hl' Ht'];
      [apply Hn; exact Hi | rewrite Hl; exact Hlen | exact Hm |].
    split; [congruence | rewrite Ht'; exact Ht].
  - destruct (for_loop _ _ _ _) as [[bf forces'] e']. cbn [fst snd] in *.
    destruct (recordBlockForces_net b bf N m forces') as [Hl' Ht'];
      [exact Hb | rewrite Hl; exact Hlen | exact Hm |].
    split; [congruence | rewrite Ht'; exact Ht].
Qed.

Lemma exclusionCorrection_net (f : CpuNonbondedForce) (a : DirectArgs)
    (includeEnergy : bool) (boxSize invBoxSize : fvec4) (N i j m : Z)
    (st : list R * R) :
  (0 <= i < N)%Z -> (0 <= j < N)%Z ->
  (4 * N <= Z.of_nat (length st.1))%Z -> (0 <= m < 4)%Z ->
  let out := exclusionCorrection f a includeEnergy boxSize invBoxSize i j st in
  length out.1 = length st.1 /\ totalLane N out.1 m = totalLane N st.1 m.
Proof.
  destruct st as [forces e]. cbn [fst snd]. intros Hi Hj Hlen Hm. cbv zeta.
  unfold exclusionCorrection.
  destruct (getDeltaR _ _ _ _ _) as [deltaR r2]. cbn [fst].
  split; [rewrite !length_store4; reflexivity |].
  rewrite totalLane_add; [| exact Hj | rewrite length_store4; exact Hlen | exact Hm].
  rewrite totalLane_sub by assumption. ring.
Qed.



Lemma foldl_preserves_in {A B : Type} (P : A -> Prop) (g : A -> B -> A)
    (l : list B) (a : A) :
  P a -> (forall a x, x ∈ l -> P a -> P (g a x)) -> P (foldl g a l).
Proof.
  revert a. induction l as [| x l IH]; intros a Ha Hg; [exact Ha |].
  cbn [foldl]. apply IH.
  - apply Hg; [left | exact Ha].
  - intros a' x' Hx'. apply Hg. right. exact Hx'.
Qed.

Lemma with_energyPtr_fst (includeEnergy : bool)
    (kernel : option R -> list R * option R) (e : R) :
  (with_energyPtr includeEnergy kernel e).1
  = (kernel (if includeEnergy then Some e else None)).1.
Proof. unfold with_energyPtr. destruct (kernel _). reflexivity. Qed.

Lemma allPairs_net (f : CpuNonbondedForce) (a : DirectArgs) (includeEnergy : bool)
    (numThreads t m : Z) (boxSize invBoxSize : fvec4) (st : list R * R) :
  (0 < numThreads)%Z -> (0 <= t < numThreads)%Z ->
  (4 * numberOfAtoms a <= Z.of_nat (length st.1))%Z -> (0 <= m < 4)%Z ->
  keeps (numberOfAtoms a) m st.1
    (allPairs f a includeEnergy numThreads t boxSize invBoxSize st).
Proof.
  intros HT Ht Hlen Hm. unfold allPairs.
  apply (foldl_preserves_in (keeps (numberOfAtoms a) m st.1)).
  - split; reflexivity.
  - intros s i Hi Hs. apply strided_owner in Hi; [| lia | lia].
    destruct (Z_le_dec (i + 1) (numberOfAtoms a)) as [Hle | Hgt];
      [| rewrite for_loop_nil by lia; exact Hs].
    apply (for_loop_invariant (fun _ s' => keeps (numberOfAtoms a) m st.1 s'));
      [exact Hle | exact Hs |].
    intros j s' Hj [Hl' Ht'].
    destruct (bool_decide _); [| split; assumption].
    unfold keeps. rewrite with_energyPtr_fst.
    split.
    + rewrite calculateOneIxn_length. exact Hl'.
    + rewrite calculateOneIxn_net; [exact Ht' | lia | lia | | exact Hm].
      rewrite Hl'. exact Hlen.
Qed.

Lemma subtractExclusions_net (f : CpuNonbondedForce) (a : DirectArgs)
    (includeEnergy : bool) (numThreads t m : Z) (boxSize invBoxSize : fvec4)
    (forces : list R) (st : list R * R) :
  (0 < numThreads)%Z -> (0 <= t < numThreads)%Z -> valid_exclusions a ->
  (4 * numberOfAtoms a <= Z.of_nat (length forces))%Z -> (0 <= m < 4)%Z ->
  keeps (numberOfAtoms a) m forces st ->
  keeps (numberOfAtoms a) m forces
    (subtractExclusions f a includeEnergy numThreads t boxSize invBoxSize st).
Proof.
  intros HT Ht Hex Hlen Hm Hst. unfold subtractExclusions.
  apply (foldl_preserves_in (keeps (numberOfAtoms a) m forces)); [exact Hst |].
  intros s i Hi Hs. apply strided_owner in Hi; [| lia | lia].
  apply (foldl_preserves_in (keeps (numberOfAtoms a) m forces)); [exact Hs |].
  intros s' j Hj [Hl' Ht']. apply elem_of_elements in Hj.
  destruct (i <? j)%Z; [| split; assumption].
  destruct (exclusionCorrection_net f a includeEnergy boxSize invBoxSize
              (numberOfAtoms a) i j m s') as [Hl2 Ht2];
    [lia | apply (Hex i j); [lia | exact Hj] | rewrite Hl'; exact Hlen | exact Hm |].
  split; congruence.
Qed.

Lemma threadComputeDirect_net (f : CpuNonbondedForce) (a : DirectArgs)
    (includeEnergy : bool) (y : Z -> Z -> fvec4) (numThreads t m : Z) :
  (0 < numThreads)%Z -> (0 <= t < numThreads)%Z -> (0 <= numberOfAtoms a)%Z ->
  (ewald f || pme f || cutoff f = true -> valid_neighborList f (numberOfAtoms a)) ->
  (ewald f || pme f = true -> valid_exclusions a) ->
  (0 <= m < 4)%Z ->
  totalLane (numberOfAtoms a) (threadComputeDirect f a includeEnergy y numThreads t).1 m
  = 0.
Proof.
  intros HT Ht HN Hnl Hex Hm.
  assert (Hz : totalLane (numberOfAtoms a) (zeroForces a) m = 0).
  { unfold totalLane.
    rewrite (sumR_fmap_ext _ (fun _ => 0)) by (intros n _; apply rd_zeroForces).
    generalize (seqZ 0 (numberOfAtoms a)). intros l.
    induction l as [| x l IH]; [reflexivity |].
    rewrite fmap_cons, sumR_cons, IH. ring. }
  pose proof (length_zeroForces a HN) as Hlz.
  enough (Hk : keeps (numberOfAtoms a) m (zeroForces a)
                 (threadComputeDirect f a includeEnergy y numThreads t))
    by (destruct Hk as [_ Hk]; rewrite Hk; exact Hz).
  unfold threadComputeDirect. fold (zeroForces a).
  destruct (periodicBoxSize f) as [[bx by_] bz].
  destruct (ewald f || pme f) eqn:Hew.
  - apply subtractExclusions_net; try assumption; [apply Hex; reflexivity | lia |].
    apply (foldl_preserves_in (keeps (numberOfAtoms a) m (zeroForces a)));
      [split; reflexivity |].
    intros s i Hi [Hl' Ht']. apply strided_owner in Hi; [| lia | lia].
    unfold keeps. rewrite with_energyPtr_fst.
    destruct (calculateBlockEwaldIxn_net f a (y i) (numberOfAtoms a) i m s.1
                (if includeEnergy then Some s.2 else None)
                (Fvec4 bx by_ bz 0) (Fvec4 (1 / bx) (1 / by_) (1 / bz) 0))
      as [Hl2 Ht2]; [apply Hnl; [reflexivity | lia] | lia | exact Hm |].
    split; congruence.
  - destruct (cutoff f) eqn:Hc.
    + apply (foldl_preserves_in (keeps (numberOfAtoms a) m (zeroForces a)));
        [split; reflexivity |].
      intros s i Hi [Hl' Ht']. apply strided_owner in Hi; [| lia | lia].
      unfold keeps. rewrite with_energyPtr_fst.
      destruct (calculateBlockIxn_net f a (numberOfAtoms a) i m s.1
                  (if includeEnergy then Some s.2 else None)
                  (Fvec4 bx by_ bz 0) (Fvec4 (1 / bx) (1 / by_) (1 / bz) 0))
        as [Hl2 Ht2]; [apply Hnl; [reflexivity | lia] | lia | exact Hm |].
      split; congruence.
    + apply (allPairs_net f a includeEnergy numThreads t m _ _ (zeroForces a, 0));
        try assumption. cbn [fst]. lia.
Qed.

Lemma sumR_plus {A : Type} (g h : A -> R) (l : list A) :
  sumR ((fun x => g x + h x) <$> l) = sumR (g <$> l) + sumR (h <$> l).
Proof.
  induction l as [| x l IH]; [rewrite !fmap_nil; change (sumR []) with 0; lra |].
  rewrite !fmap_cons, !sumR_cons, IH. lra.
Qed.

Lemma sumR_swap {A B : Type} (g : A -> B -> R) (la : list A) (lb : list B) :
  sumR ((fun x => sumR (g x <$> lb)) <$> la)
  = sumR ((fun y => sumR ((fun x => g x y) <$> la)) <$> lb).
Proof.
  induction la as [| x la IH].
  - rewrite fmap_nil. change (sumR []) with 0.
    induction lb as [| y lb IHb]; [reflexivity |].
    rewrite fmap_cons, sumR_cons, <- IHb, fmap_nil. change (sumR []) with 0. ring.
  - rewrite fmap_cons, sumR_cons, IH.
    rewrite <- sumR_plus. apply sumR_fmap_ext. intros y _.
    rewrite fmap_cons, sumR_cons. reflexivity.
Qed.


End NetForce.

Lemma sampleBlock_valid : valid_neighborList sampleBlockForce 5.
Proof.
  intros blk Hblk. cbn [getNumBlocks neighborList sampleBlockForce] in Hblk.
  assert (blk = 0%Z) as -> by lia.
  split.
  - intros j Hj. cbn [getSortedAtoms neighborList sampleBlockForce].
    assert (Hj' : j = 0%Z \/ j = 1%Z \/ j = 2%Z \/ j = 3%Z) by lia.
    destruct Hj' as [-> | [-> | [-> | ->]]]; vm_compute; split; congruence.
  - cbn [getBlockNeighbors neighborList sampleBlockForce].
    intros i Hi.
    change (rd [[4%Z]] 0) with [4%Z] in *. cbn [length] in Hi.
    assert (i = 0%Z) as -> by lia. vm_compute. split; congruence.
Qed.


(** ** The phase factors of the Ewald sum *)

Section Phases.
Context {ext : Externals}.
#[local] Open Scope Z_scope.

(** The position of [EIR(x, y, z)] in the table. *)
Lemma EIR_index_range (N kmax x y z : Z) :
  0 <= x < kmax -> 0 <= y < N -> 0 <= z < 3 ->
  0 <= x * N * 3 + y * 3 + z < kmax * N * 3.
Proof. intros Hx Hy Hz. nia. Qed.

Lemma EIR_index_inj (N x y z x' y' z' : Z) :
  0 <= y < N -> 0 <= z < 3 -> 0 <= y' < N -> 0 <= z' < 3 ->
  x * N * 3 + y * 3 + z = x' * N * 3 + y' * 3 + z' ->
  x = x' /\ y = y' /\ z = z'.
Proof.
  intros Hy Hz Hy' Hz' E.
  assert (Hx : x = x').
  { destruct (Z_lt_dec x x') as [Hlt | Hge]; [nia |].
    destruct (Z_lt_dec x' x) as [Hlt' | Hge']; [nia | lia]. }
  subst x'. lia.
Qed.



Lemma for_loop_0_3 {St : Type} (body : Z -> St -> St) (s : St) :
  for_loop 0 3 body s = body 2 (body 1 (body 0 s)).
Proof. reflexivity. Qed.

Lemma EIR_wr_eq (N kmax : Z) (T : list d_complex) (j n m : Z) (v : d_complex) :
  0 <= j < kmax -> 0 <= n < N -> 0 <= m < 3 ->
  Z.of_nat (length T) = kmax * N * 3 ->
  EIR N (wr T (j * N * 3 + n * 3 + m) v) j n m = v.
Proof.
  intros Hj Hn Hm Hlen. unfold EIR. apply rd_wr_eq.
  rewrite Hlen. apply EIR_index_range; assumption.
Qed.

Lemma EIR_wr_ne (N : Z) (T : list d_complex) (j n m j' n' m' : Z) (v : d_complex) :
  0 <= n < N -> 0 <= m < 3 -> 0 <= j' -> 0 <= n' < N -> 0 <= m' < 3 ->
  (j, n, m) <> (j', n', m') ->
  EIR N (wr T (j * N * 3 + n * 3 + m) v) j' n' m' = EIR N T j' n' m'.
Proof.
  intros Hn Hm Hj' Hn' Hm' Hne. unfold EIR. apply rd_wr_ne; [nia |].
  intros E. apply EIR_index_inj in E; [| assumption ..].
  destruct E as (-> & -> & ->). congruence.
Qed.

(** Writing the three entries of row [j] of atom [i]. *)
Lemma write_row (N kmax : Z) (T : list d_complex) (j i : Z) (v : Z -> d_complex) :
  0 <= j < kmax -> 0 <= i < N -> Z.of_nat (length T) = kmax * N * 3 ->
  let T' := for_loop 0 3 (fun m T => wr T (j * N * 3 + i * 3 + m) (v m)) T in
  Z.of_nat (length T') = kmax * N * 3 /\
  (forall m, 0 <= m < 3 -> EIR N T' j i m = v m) /\
  (forall j' n' m', 0 <= j' -> 0 <= n' < N -> 0 <= m' < 3 -> (j', n') <> (j, i) ->
     EIR N T' j' n' m' = EIR N T j' n' m').
Proof.
  intros Hj Hi Hlen T'. subst T'. rewrite for_loop_0_3.
  split; [rewrite !length_wr; exact Hlen |]. split.
  - intros m Hm.
    assert (Hm' : m = 0 \/ m = 1 \/ m = 2) by lia.
    destruct Hm' as [-> | [-> | ->]].
    + rewrite !EIR_wr_ne by (lia || congruence).
      apply (EIR_wr_eq N kmax); assumption || lia.
    + rewrite EIR_wr_ne by (lia || congruence).
      apply (EIR_wr_eq N kmax); rewrite ?length_wr; assumption || lia.
    + apply (EIR_wr_eq N kmax); rewrite ?length_wr; assumption || lia.
  - intros j' n' m' Hj' Hn' Hm' Hne.
    rewrite !EIR_wr_ne; try lia; try reflexivity; intros E; inversion E; congruence.
Qed.


#[local] Open Scope R_scope.

Lemma phase_0 (posq : list R) (recipBoxSize : Z -> R) (n m : Z) :
  phase posq recipBoxSize 0 n m = (1, 0).
Proof. unfold phase. rewrite Rmult_0_l, cos_0, sin_0. reflexivity. Qed.

Lemma phase_1 (posq : list R) (recipBoxSize : Z -> R) (n m : Z) :
  phase posq recipBoxSize 1 n m
  = (cos (rd posq (4 * n + m) * recipBoxSize m),
     sin (rd posq (4 * n + m) * recipBoxSize m)).
Proof. unfold phase. rewrite Rmult_1_l. reflexivity. Qed.

Lemma phase_step (posq : list R) (recipBoxSize : Z -> R) (j n m : Z) :
  cmul (phase posq recipBoxSize (j - 1) n m) (phase posq recipBoxSize 1 n m)
  = phase posq recipBoxSize j n m.
Proof.
  unfold phase, cmul. cbn [fst snd].
  set (theta := rd posq (4 * n + m) * recipBoxSize m).
  replace (IZR j * theta) with (IZR (j - 1) * theta + 1 * theta)
    by (rewrite minus_IZR; ring).
  rewrite cos_plus, sin_plus. f_equal; ring.
Qed.

(** The complex conjugate of a phase is the phase of the opposite index. *)
Lemma phase_conj (posq : list R) (recipBoxSize : Z -> R) (j n m : Z) :
  conj (phase posq recipBoxSize j n m) = phase posq recipBoxSize (- j) n m.
Proof.
  unfold phase, conj. cbn [fst snd]. rewrite opp_IZR.
  rewrite <- Ropp_mult_distr_l, cos_neg, sin_neg. reflexivity.
Qed.

#[local] Open Scope Z_scope.

Lemma recurrence_row (N : Z) (T : list d_complex) (j i : Z) :
  2 <= j -> 0 <= i < N ->
  for_loop 0 3 (fun m eir =>
    wr eir (j * N * 3 + i * 3 + m)
      (cmul (EIR N eir (j - 1) i m) (EIR N eir 1 i m))) T
  = for_loop 0 3 (fun m eir =>
      wr eir (j * N * 3 + i * 3 + m)
        (cmul (EIR N T (j - 1) i m) (EIR N T 1 i m))) T.
Proof.
  intros Hj Hi. rewrite !for_loop_0_3.
  rewrite !EIR_wr_ne; try lia; try reflexivity; intros E; inversion E; lia.
Qed.

(** The table of phase factors, row by row. *)
Lemma phaseFactors_spec (N kmax : Z) (posq : list R) (recipBoxSize : Z -> R) :
  2 <= kmax -> 0 <= N ->
  let T := phaseFactors N kmax posq recipBoxSize in
  Z.of_nat (length T) = kmax * N * 3 /\
  forall j n m, 0 <= j < kmax -> 0 <= n < N -> 0 <= m < 3 ->
    EIR N T j n m = phase posq recipBoxSize j n m.
Proof.
  intros Hk HN T. subst T. unfold phaseFactors.
  apply (for_loop_invariant
    (fun i T =>
       Z.of_nat (length T) = kmax * N * 3 /\
       forall j n m, 0 <= j < kmax -> 0 <= n < i -> 0 <= m < 3 ->
         EIR N T j n m = phase posq recipBoxSize j n m)); [exact HN | |].
  - split; [rewrite length_replicate; nia | intros; lia].
  - intros i T Hi [Hlen Hdone]. cbv zeta.
    (* row 0 *)
    destruct (write_row N kmax T 0 i (fun _ => (1, 0)%R)) as (L1 & R1 & O1);
      [lia | lia | exact Hlen |].
    set (T1 := for_loop 0 3 _ T) in *.
    (* row 1 *)
    destruct (write_row N kmax T1 1 i
                (fun m => (cos (rd posq (4 * i + m) * recipBoxSize m),
                           sin (rd posq (4 * i + m) * recipBoxSize m))%R))
      as (L2 & R2 & O2); [lia | lia | exact L1 |].
    set (T2 := for_loop 0 3 _ T1) in *.
    (* rows 2 .. kmax - 1 *)
    assert (Hrows :
      let T3 := for_loop 2 kmax (fun j eir =>
          for_loop 0 3 (fun m eir =>
            wr eir (j * N * 3 + i * 3 + m)
              (cmul (EIR N eir (j - 1) i m) (EIR N eir 1 i m))) eir) T2 in
      Z.of_nat (length T3) = kmax * N * 3 /\
      (forall j m, 0 <= j < kmax -> 0 <= m < 3 ->
         EIR N T3 j i m = phase posq recipBoxSize j i m) /\
      (forall j n m, 0 <= j -> 0 <= n < N -> 0 <= m < 3 -> n <> i ->
         EIR N T3 j n m = EIR N T2 j n m)).
    { apply (for_loop_invariant
        (fun j T3 =>
           Z.of_nat (length T3) = kmax * N * 3 /\
           (forall j' m, 0 <= j' < j -> 0 <= m < 3 ->
              EIR N T3 j' i m = phase posq recipBoxSize j' i m) /\
           (forall j' n m, 0 <= j' -> 0 <= n < N -> 0 <= m < 3 -> n <> i ->
              EIR N T3 j' n m = EIR N T2 j' n m))); [exact Hk | |].
      - split; [exact L2 |]. split; [| reflexivity].
        intros j' m Hj' Hm.
        assert (Hc : j' = 0 \/ j' = 1) by lia. destruct Hc as [-> | ->].
        + rewrite O2 by (lia || congruence). rewrite R1 by exact Hm.
          symmetry. apply phase_0.
        + rewrite R2 by exact Hm. symmetry. apply phase_1.
      - intros j T3 Hj (L3 & R3 & O3).
        rewrite recurrence_row by lia.
        destruct (write_row N kmax T3 j i
                    (fun m => cmul (EIR N T3 (j - 1) i m) (EIR N T3 1 i m)))
          as (L4 & R4 & O4); [lia | lia | exact L3 |].
        split; [exact L4 |]. split.
        + intros j' m Hj' Hm.
          destruct (Z.eq_dec j' j) as [-> | Hne].
          * rewrite R4 by exact Hm. rewrite !R3 by lia. apply phase_step.
          * rewrite O4 by (lia || congruence). apply R3; lia.
        + intros j' n m Hj' Hn Hm Hne.
          rewrite O4 by (lia || congruence). apply O3; assumption. }
    cbv zeta in Hrows. destruct Hrows as (L3 & R3 & O3).
    split; [exact L3 |].
    intros j n m Hj Hn Hm.
    destruct (Z.eq_dec n i) as [-> | Hne].
    + apply R3; assumption.
    + rewrite O3 by lia. rewrite O2 by (lia || congruence).
      rewrite O1 by (lia || congruence). apply Hdone; lia.
Qed.

(** X16: for [kmax >= 2] the table of phase factors holds, for every atom
    [n], coordinate [m] and index [0 <= j < kmax], the complex number
    [exp(i j theta)] with [theta = pos[m] * recipBoxSize[m]]; the conjugate
    of the entry for [-j] is the phase for a negative index [j], as the sum
    uses it; the entries for index 0 are 1. *)
Theorem phaseFactors_table (f : CpuNonbondedForce) (N : Z) (posq : list R) :
  2 <= Z.max (numRx f) (Z.max (numRy f) (numRz f)) -> 0 <= N ->
  let kmax := Z.max (numRx f) (Z.max (numRy f) (numRz f)) in
  let T := phaseFactors N kmax posq (recipBoxSize f) in
  let theta n m := (rd posq (4 * n + m) * recipBoxSize f m)%R in
  Z.of_nat (length T) = kmax * N * 3 /\
  (forall j n m, 0 <= j < kmax -> 0 <= n < N -> 0 <= m < 3 ->
     EIR N T j n m = (cos (IZR j * theta n m), sin (IZR j * theta n m))) /\
  (forall j n m, - kmax < j <= 0 -> 0 <= n < N -> 0 <= m < 3 ->
     conj (EIR N T (- j) n m) = (cos (IZR j * theta n m), sin (IZR j * theta n m))) /\
  (forall n m, 0 <= n < N -> 0 <= m < 3 -> EIR N T 0 n m = (1, 0)%R) /\
  ewaldPhases f N posq = EIR N T.
Proof.
  intros Hk HN kmax T theta.
  destruct (phaseFactors_spec N kmax posq (recipBoxSize f) Hk HN) as [Hlen Hph].
  fold T in Hlen, Hph.
  split; [exact Hlen |]. split; [| split; [| split]].
  - intros j n m Hj Hn Hm. rewrite Hph by assumption. reflexivity.
  - intros j n m Hj Hn Hm. rewrite Hph by lia. rewrite phase_conj.
    rewrite Z.opp_involutive. reflexivity.
  - intros n m Hn Hm. rewrite Hph by lia. apply phase_0.
  - reflexivity.
Qed.

End Phases.

Lemma phaseFactors_table_witness :
  EIR 2 (phaseFactors 2 2 [0; 0; 0; 1; 1; 0; 0; -1] (recipBoxSize sampleEwald))
    1 1 0
  = (cos (1 * (rd [0; 0; 0; 1; 1; 0; 0; -1] (4 * 1 + 0)
               * recipBoxSize sampleEwald 0)),
     sin (1 * (rd [0; 0; 0; 1; 1; 0; 0; -1] (4 * 1 + 0)
               * recipBoxSize sampleEwald 0))).
Proof.
  destruct (phaseFactors_table sampleEwald 2 [0; 0; 0; 1; 1; 0; 0; -1])
    as (_ & H & _); [cbn; lia | lia |].
  apply (H 1%Z 1%Z 0%Z); cbn; lia.
Defined.

(** ** The reciprocal energy in closed form *)

Section EwaldFormula.
Context {ext : Externals}.

Lemma for_loop_related_range {S1 S2 : Type} (Rel : S1 -> S2 -> Prop) (lo hi : Z)
    (body1 : Z -> S1 -> S1) (body2 : Z -> S2 -> S2) (s1 : S1) (s2 : S2) :
  Rel s1 s2 ->
  (forall i s1 s2, (lo <= i < hi)%Z -> Rel s1 s2 -> Rel (body1 i s1) (body2 i s2)) ->
  Rel (for_loop lo hi body1 s1) (for_loop lo hi body2 s2).
Proof.
  intros H0 Hstep. unfold for_loop.
  assert (Hin : forall i, i ∈ seqZ lo (hi - lo) -> (lo <= i < hi)%Z)
    by (intros i Hi; apply elem_of_seqZ in Hi; lia).
  revert Hin. generalize (seqZ lo (hi - lo)) as l. intros l. revert s1 s2 H0.
  induction l as [| i l IH]; intros s1 s2 H0 Hin; [exact H0 |].
  cbn [foldl]. apply IH.
  - apply Hstep; [apply Hin; left | exact H0].
  - intros i' Hi'. apply Hin. right. exact Hi'.
Qed.

(** A loop that fills entry [n] with [v n]. *)
Lemma fill_loop {A : Type} `{Inhabited A} (N : Z) (v : Z -> A) (t0 : list A) :
  Z.of_nat (length t0) = N ->
  let t := for_loop 0 N (fun n t => wr t n (v n)) t0 in
  length t = length t0 /\ forall n, (0 <= n < N)%Z -> rd t n = v n.
Proof.
  intros Hlen t. subst t.
  apply (for_loop_invariant
    (fun i t => length t = length t0
                /\ forall n, (0 <= n < i)%Z -> rd t n = v n)); [lia | |].
  - split; [reflexivity | intros; lia].
  - intros i t Hi [Hl Hv]. split; [rewrite length_wr; exact Hl |].
    intros n Hn. destruct (Z.eq_dec n i) as [-> | Hne].
    + apply rd_wr_eq. lia.
    + rewrite rd_wr_ne by lia. apply Hv. lia.
Qed.

(** The product of two phases. *)
Lemma cmul_phases (a b : R) :
  cmul (cos a, sin a) (cos b, sin b) = (cos (a + b), sin (a + b)).
Proof. unfold cmul. cbn [fst snd]. rewrite cos_plus, sin_plus. f_equal; ring. Qed.



Lemma signed_phase (f : CpuNonbondedForce) (N kmax : Z) (posq : list R)
    (E : Z -> Z -> Z -> d_complex) (j n m : Z) :
  phases_upto f N kmax posq E ->
  (- kmax < j < kmax)%Z -> (0 <= n < N)%Z -> (0 <= m < 3)%Z ->
  (if (0 <=? j)%Z then E j n m else conj (E (- j)%Z n m))
  = phase posq (recipBoxSize f) j n m.
Proof.
  intros HE Hj Hn Hm. destruct (Z.leb_spec 0 j).
  - apply HE; lia.
  - rewrite HE by lia. rewrite phase_conj. rewrite Z.opp_involutive. reflexivity.
Qed.

Lemma ewaldXY_tab (f : CpuNonbondedForce) (N kmax : Z) (posq : list R)
    (E : Z -> Z -> Z -> d_complex) (rx ry : Z) (s : EwaldSum) :
  phases_upto f N kmax posq E ->
  Z.of_nat (length (tab_xy s)) = N ->
  (0 <= rx < kmax)%Z -> (- kmax < ry < kmax)%Z ->
  let s' := ewaldXY N E rx ry s in
  length (tab_xy s') = length (tab_xy s) /\
  tab_qxyz s' = tab_qxyz s /\ recipForces s' = recipForces s /\
  recipEnergy s' = recipEnergy s /\
  forall n, (0 <= n < N)%Z ->
    rd (tab_xy s') n
    = (cos (IZR rx * (rd posq (4 * n) * recipBoxSize f 0)
            + IZR ry * (rd posq (4 * n + 1) * recipBoxSize f 1)),
       sin (IZR rx * (rd posq (4 * n) * recipBoxSize f 0)
            + IZR ry * (rd posq (4 * n + 1) * recipBoxSize f 1))).
Proof.
  intros HE Hlen Hrx Hry s'. subst s'. unfold ewaldXY.
  cbn [tab_xy tab_qxyz recipForces recipEnergy].
  destruct (fill_loop N
              (fun n => if (0 <=? ry)%Z
                        then cmul (E rx n 0%Z) (E ry n 1%Z)
                        else cmul (E rx n 0%Z) (conj (E (- ry)%Z n 1%Z)))
              (tab_xy s) Hlen) as [Hl Hv].
  split; [exact Hl |]. repeat (split; [reflexivity |]).
  intros n Hn. rewrite Hv by exact Hn.
  assert (E1 : (if (0 <=? ry)%Z
                then cmul (E rx n 0%Z) (E ry n 1%Z)
                else cmul (E rx n 0%Z) (conj (E (- ry)%Z n 1%Z)))
               = cmul (E rx n 0%Z)
                   (if (0 <=? ry)%Z then E ry n 1%Z else conj (E (- ry)%Z n 1%Z)))
    by (destruct (0 <=? ry)%Z; reflexivity).
  rewrite E1, (signed_phase f N kmax posq E ry n 1) by (assumption || lia).
  rewrite HE by lia. unfold phase. rewrite Z.add_0_r. apply cmul_phases.
Qed.

Lemma ewaldK_term (f : CpuNonbondedForce) (N kmax : Z) (posq : list R)
    (E : Z -> Z -> Z -> d_complex) (rx ry rz : Z) (s : EwaldSum) :
  phases_upto f N kmax posq E ->
  Z.of_nat (length (tab_qxyz s)) = N ->
  (- kmax < rz < kmax)%Z ->
  (forall n, (0 <= n < N)%Z ->
     rd (tab_xy s) n
     = (cos (IZR rx * (rd posq (4 * n) * recipBoxSize f 0)
             + IZR ry * (rd posq (4 * n + 1) * recipBoxSize f 1)),
        sin (IZR rx * (rd posq (4 * n) * recipBoxSize f 0)
             + IZR ry * (rd posq (4 * n + 1) * recipBoxSize f 1)))) ->
  let s' := ewaldK f N posq E rx ry rz s in
  tab_xy s' = tab_xy s /\
  length (tab_qxyz s') = length (tab_qxyz s) /\
  recipEnergy s' = match recipEnergy s with
                   | Some e => Some (e + ewaldTerm f N posq (rx, ry, rz))
                   | None => None
                   end.
Proof.
  intros HE Hlen Hrz Hxy s'. subst s'. unfold ewaldK. cbv zeta.
  rewrite cs_ss_sums.
  destruct (fill_loop N
              (fun n =>
                 (rd posq (4 * n + 3)
                  * (cmul (rd (tab_xy s) n)
                       (if (0 <=? rz)%Z then E rz n 2%Z
                        else conj (E (- rz)%Z n 2%Z))).1,
                  rd posq (4 * n + 3)
                  * (cmul (rd (tab_xy s) n)
                       (if (0 <=? rz)%Z then E rz n 2%Z
                        else conj (E (- rz)%Z n 2%Z))).2))
              (tab_qxyz s) Hlen) as [Hl Hv].
  cbv zeta in Hl, Hv.
  match type of Hl with
  | length ?q = _ => set (qxyz := q) in *
  end.
  cbn [tab_xy tab_qxyz recipEnergy].
  split; [reflexivity |]. split; [exact Hl |].
  assert (Hq : forall n, (0 <= n < N)%Z ->
            rd qxyz n = (rd posq (4 * n + 3) * cos (kDotR f posq (rx, ry, rz) n),
                         rd posq (4 * n + 3) * sin (kDotR f posq (rx, ry, rz) n))).
  { intros n Hn. rewrite Hv by exact Hn.
    rewrite (signed_phase f N kmax posq E rz n 2) by (assumption || lia).
    rewrite Hxy by exact Hn. unfold phase. rewrite cmul_phases.
    unfold kDotR. cbn [fst snd]. reflexivity. }
  assert (Hcs : sumR ((fun n => (rd qxyz n).1) <$> seqZ 0 N)
                = sumR ((fun n => rd posq (4 * n + 3)
                                  * cos (kDotR f posq (rx, ry, rz) n))
                          <$> seqZ 0 N)).
  { apply sumR_fmap_ext. intros n Hn. apply elem_of_seqZ in Hn.
    rewrite Hq by lia. reflexivity. }
  assert (Hss : sumR ((fun n => (rd qxyz n).2) <$> seqZ 0 N)
                = sumR ((fun n => rd posq (4 * n + 3)
                                  * sin (kDotR f posq (rx, ry, rz) n))
                          <$> seqZ 0 N)).
  { apply sumR_fmap_ext. intros n Hn. apply elem_of_seqZ in Hn.
    rewrite Hq by lia. reflexivity. }
  destruct (recipEnergy s); [| reflexivity].
  unfold ewaldTerm. cbv zeta. cbn [fst snd]. rewrite <- Hcs, <- Hss. reflexivity.
Qed.


Import Recip.

Section Nest.
Variables (f : CpuNonbondedForce) (N kmax : Z) (posq : list R)
          (E : Z -> Z -> Z -> d_complex) (e0 : R).
Hypothesis HE : phases_upto f N kmax posq E.
Hypothesis Hkx : (numRx f <= kmax)%Z.
Hypothesis Hky : (numRy f <= kmax)%Z.
Hypothesis Hkz : (numRz f <= kmax)%Z.

#[local] Abbreviation good := (ewald_good f N posq e0).
#[local] Abbreviation related := (ewald_related f N posq e0).

Lemma middle_body_related (rx ry : Z) (st : nest EwaldSum)
    (tr : nest (list (Z * Z * Z))) :
  (0 <= rx < numRx f)%Z -> (- numRy f < ry < numRy f)%Z ->
  related st tr ->
  related
    (middle_body (numRy f) (numRz f) (ewaldXY N E) (ewaldK f N posq E) rx ry st)
    (middle_body (numRy f) (numRz f) (fun _ _ tr => tr)
       (fun rx ry rz tr => tr ++ [(rx, ry, rz)]) rx ry tr).
Proof.
  intros Hrx Hry (Hly & Hlz & Hby & Hbz & Hen & Hxy & Hq).
  unfold middle_body. cbn [lowry lowrz payload]. rewrite <- Hlz.
  destruct (ewaldXY_tab f N kmax posq E rx ry (payload st) HE Hxy)
    as (Tl & Tq & Tf & Te & Tv); [lia | lia |].
  match goal with
  | |- related (Nest _ (lowrz (for_loop ?lo ?hi ?b1 ?s1)) _)
               (Nest _ (lowrz (for_loop ?lo ?hi ?b2 ?s2)) _) =>
      pose proof (for_loop_related_range
        (fun st tr => related st tr /\ xy_ready f N posq rx ry (payload st))
        lo hi b1 b2 s1 s2) as Hinner
  end.
  destruct Hinner as [(Il & Iz & _ & Ibz & Ig) _].
  - split; [| exact Tv].
    unfold ewald_related, ewald_good. cbn [lowry lowrz payload].
    rewrite Te, Tq. repeat split; try assumption; lia.
  - intros rz s t Hrz [(Sl & Sz & Sby & Sbz & Sen & Sxy & Sq) Sv].
    destruct (ewaldK_term f N kmax posq E rx ry rz (payload s) HE Sq)
      as (Kxy & Kl & Ke); [lia | exact Sv |].
    split.
    + unfold ewald_related, ewald_good. cbn [lowry lowrz payload].
      rewrite Ke, Sen, Kxy. rewrite fmap_app, sumR_app.
      repeat split; try assumption; try lia.
      f_equal. rewrite fmap_cons, fmap_nil, sumR_cons.
      change (sumR []) with 0. ring.
    + unfold xy_ready. cbn [payload]. rewrite Kxy. exact Sv.
  - unfold ewald_related. cbn [lowry lowrz payload].
    repeat split; try assumption; try lia; apply Ig.
Qed.

Lemma loops_related (forces : list (R * R * R)) :
  (1 <= numRy f)%Z -> (0 <= numRz f)%Z -> (0 <= N)%Z ->
  related
    (loops (numRx f) (numRy f) (numRz f) (ewaldXY N E) (ewaldK f N posq E)
       (ewaldStart N forces (Some e0)))
    (loops (numRx f) (numRy f) (numRz f) (fun _ _ tr => tr)
       (fun rx ry rz tr => tr ++ [(rx, ry, rz)]) []).
Proof.
  intros Hy Hz HN. unfold loops.
  apply for_loop_related_range.
  - unfold ewald_related, ewald_good, ewaldStart. cbn [lowry lowrz payload recipEnergy tab_xy tab_qxyz].
    rewrite length_replicate.
    repeat split; try lia. f_equal. change (sumR _) with 0. ring.
  - intros rx st tr Hrx Hrel.
    destruct Hrel as (Hly & Hrest). rewrite <- Hly.
    apply for_loop_related_range.
    + split; assumption.
    + intros ry s t Hry Hs. apply middle_body_related; [lia | | exact Hs].
      destruct Hrest as (_ & Hby & _). lia.
Qed.

End Nest.


End EwaldFormula.


(** ** The minimum image under setPeriodic *)

Section MinimumImageUnique.
Context {ext : Externals}.

Lemma setPeriodic_Some (f g : CpuNonbondedForce) (boxSize : R * R * R) :
  setPeriodic f boxSize = Some g ->
  cutoff f = true /\
  2 * cutoffDistance f <= boxSize.1.1 /\ 2 * cutoffDistance f <= boxSize.1.2 /\
  2 * cutoffDistance f <= boxSize.2 /\
  periodic g = true /\ periodicBoxSize g = boxSize /\
  cutoff g = true /\ cutoffDistance g = cutoffDistance f.
Proof.
  destruct boxSize as [[bx by_] bz]. unfold setPeriodic. cbn [fst snd].
  destruct (cutoff f) eqn:Hc; [| discriminate]. cbn [andb].
  unfold Rleb.
  destruct (Rle_dec (2 * cutoffDistance f) bx); [| discriminate].
  destruct (Rle_dec (2 * cutoffDistance f) by_); [| discriminate].
  destruct (Rle_dec (2 * cutoffDistance f) bz); [| discriminate].
  cbn [andb]. intros [= <-]. cbn. repeat split; assumption.
Qed.

(** Any other image of a wrapped difference is at least the cutoff away. *)
Lemma other_image_far (c L inv d : R) (k : Z) :
  round_to_nearest -> 0 <= c -> 0 < L -> 2 * c <= L -> inv = 1 / L ->
  k <> 0%Z ->
  let d' := d - round (d * inv) * L in
  c * c <= (d' + IZR k * L) * (d' + IZR k * L).
Proof.
  intros Hnear Hc HL H2c Hinv Hk d'.
  pose proof (wrap_bound d L inv Hnear HL Hinv) as Hb. fold d' in Hb.
  assert (Hd : - (L / 2) <= d' <= L / 2)
    by (unfold Rabs in Hb; destruct (Rcase_abs d'); lra).
  assert (Hk1 : (k <= -1 \/ 1 <= k)%Z) by lia.
  destruct Hk1 as [Hneg | Hpos].
  - apply IZR_le in Hneg. assert (d' + IZR k * L <= - (L / 2)) by nra. nra.
  - apply IZR_le in Hpos. assert (L / 2 <= d' + IZR k * L) by nra. nra.
Qed.

(** X18: setPeriodic accepts a box only if no side is shorter than twice the
    cutoff, and then the minimum image is the only image that can interact:
    with [round] rounding to the nearest whole number, every component of the
    displacement that getDeltaR returns for the periodic object is at most
    half the box side, and every other periodic image of the pair, which
    differs from it by whole box sides not all zero, lies at the cutoff or
    beyond. *)
Theorem setPeriodic_single_image (f g : CpuNonbondedForce) (boxSize : R * R * R)
    (posI posJ : fvec4) (kx ky kz : Z) :
  setPeriodic f boxSize = Some g ->
  round_to_nearest -> 0 < cutoffDistance f ->
  (kx, ky, kz) <> (0, 0, 0)%Z ->
  let box := Fvec4 boxSize.1.1 boxSize.1.2 boxSize.2 0 in
  let inv := Fvec4 (1 / boxSize.1.1) (1 / boxSize.1.2) (1 / boxSize.2) 0 in
  let d := (getDeltaR posI posJ (periodic g) box inv).1 in
  let image := Fvec4 (v0 d + IZR kx * v0 box) (v1 d + IZR ky * v1 box)
                     (v2 d + IZR kz * v2 box) 0 in
  Rabs (v0 d) <= v0 box / 2 /\ Rabs (v1 d) <= v1 box / 2 /\
  Rabs (v2 d) <= v2 box / 2 /\
  cutoffDistance g * cutoffDistance g <= V.dot3 image image.
Proof.
  intros Hset Hnear Hc Hk box inv d image.
  destruct (setPeriodic_Some f g boxSize Hset)
    as (_ & Hx & Hy & Hz & Hper & _ & _ & Hcg).
  subst image d. rewrite Hper, Hcg. unfold getDeltaR, V.dot3. cbn [fst].
  cbn [V.sub V.mul V.map V.map2 v0 v1 v2 v3 box inv].
  set (c := cutoffDistance f) in *.
  set (Lx := boxSize.1.1) in *. set (Ly := boxSize.1.2) in *.
  set (Lz := boxSize.2) in *.
  split; [apply wrap_bound; [exact Hnear | lra | reflexivity] |].
  split; [apply wrap_bound; [exact Hnear | lra | reflexivity] |].
  split; [apply wrap_bound; [exact Hnear | lra | reflexivity] |].
  set (dx := v0 posJ - v0 posI - round ((v0 posJ - v0 posI) * (1 / Lx)) * Lx).
  set (dy := v1 posJ - v1 posI - round ((v1 posJ - v1 posI) * (1 / Ly)) * Ly).
  set (dz := v2 posJ - v2 posI - round ((v2 posJ - v2 posI) * (1 / Lz)) * Lz).
  assert (Hsq : forall u : R, 0 <= u * u)
    by (intros u; pose proof (Rle_0_sqr u) as H; unfold Rsqr in H; exact H).
  pose proof (Hsq (dx + IZR kx * Lx)). pose proof (Hsq (dy + IZR ky * Ly)).
  pose proof (Hsq (dz + IZR kz * Lz)).
  assert (Hcase : kx <> 0%Z \/ ky <> 0%Z \/ kz <> 0%Z).
  { destruct (Z.eq_dec kx 0%Z), (Z.eq_dec ky 0%Z), (Z.eq_dec kz 0%Z); try tauto.
    subst. congruence. }
  destruct Hcase as [K0 | [K1 | K2]].
  - pose proof (other_image_far c Lx (1 / Lx) (v0 posJ - v0 posI) kx Hnear
                  ltac:(lra) ltac:(lra) Hx eq_refl K0) as Hfar.
    cbv zeta in Hfar. fold dx in Hfar. lra.
  - pose proof (other_image_far c Ly (1 / Ly) (v1 posJ - v1 posI) ky Hnear
                  ltac:(lra) ltac:(lra) Hy eq_refl K1) as Hfar.
    cbv zeta in Hfar. fold dy in Hfar. lra.
  - pose proof (other_image_far c Lz (1 / Lz) (v2 posJ - v2 posI) kz Hnear
                  ltac:(lra) ltac:(lra) Hz eq_refl K2) as Hfar.
    cbv zeta in Hfar. fold dz in Hfar. lra.
Qed.

End MinimumImageUnique.

Lemma setPeriodic_single_image_witness :
  let f := setUseCutoff CpuNonbondedForce_new 1 inhabitant 78 in
  let g := {| cutoff := true; useSwitch := false; periodic := true; ewald := false;
              pme := false; neighborList := inhabitant;
              periodicBoxSize := (4, 6, 8);
              cutoffDistance := cutoffDistance f; switchingDistance := 0;
              krf := krf f; crf := crf f; alphaEwald := 0;
              numRx := 0; numRy := 0; numRz := 0; meshDim := (0, 0, 0)%Z;
              ewaldDX := 0; ewaldDXInv := 0; ewaldScaleTable := [] |} in
  let box := Fvec4 4 6 8 0 in
  let inv := Fvec4 (1 / 4) (1 / 6) (1 / 8) 0 in
  let d := (@getDeltaR sampleExternals (Fvec4 1 1 1 0) (Fvec4 4 (-4) 2 0)
              (periodic g) box inv).1 in
  Rabs (v0 d) <= v0 box / 2.
Proof.
  intros f g box inv d.
  assert (Hset : setPeriodic f (4, 6, 8) = Some g).
  { unfold setPeriodic. cbn [cutoff setUseCutoff f cutoffDistance andb].
    rewrite !Rleb_true by lra. reflexivity. }
  apply (@setPeriodic_single_image sampleExternals f g (4, 6, 8)
           (Fvec4 1 1 1 0) (Fvec4 4 (-4) 2 0) 1 0 0 Hset roundHalfUp_nearest).
  - cbn. lra.
  - congruence.
Defined.

(** ** The kernels add to what they find *)

Section BlockAdditive.
Context {ext : Externals}.

(** The shape of the neighbour step of calculateBlockIxn: what it does to
    the state it is given is fixed by lane masks, displacements, [dEdR] and
    energies that do not depend on that state. *)
Lemma calculateBlockIxn_neighbor_shape (f : CpuNonbondedForce) (a : DirectArgs)
    (b : BlockData) (needPeriodic : bool) (neighbors exclusions : list Z)
    (boxSize invBoxSize : fvec4) (i : Z) :
  exists (inc : Z -> bool) (dx dy dz dEdR energy : fvec4),
  forall (bf : Z -> fvec4) (forces : list R) (e : option R),
    calculateBlockIxn_neighbor f a b needPeriodic neighbors exclusions
      boxSize invBoxSize i (bf, forces, e)
    = if negb (existsb inc [0; 1; 2; 3]%Z) then (bf, forces, e)
      else
        let '(bf', forces') :=
          accumulateForces inc dx dy dz dEdR (rd neighbors i) bf forces in
        (bf', forces',
         match e with
         | Some e => Some (addIncludedEnergy inc energy e)
         | None => None
         end).
Proof.
  unfold calculateBlockIxn_neighbor.
  destruct (getDeltaR4 _ _ _ _ _ _ _) as [[[dx dy] dz] r2].
  destruct (blockSwitch _ _) as [switchValue switchDeriv].
  destruct (useSwitch f), (cutoff f);
    do 6 eexists; intros bf forces e; reflexivity.
Qed.

Lemma calculateBlockEwaldIxn_neighbor_shape (f : CpuNonbondedForce)
    (a : DirectArgs) (b : BlockData) (needPeriodic : bool)
    (neighbors exclusions : list Z) (boxSize invBoxSize : fvec4)
    (y : Z -> fvec4) (i : Z) :
  exists (inc : Z -> bool) (dx dy dz dEdR energy : fvec4),
  forall (bf : Z -> fvec4) (forces : list R) (e : option R),
    calculateBlockEwaldIxn_neighbor f a b needPeriodic neighbors exclusions
      boxSize invBoxSize y i (bf, forces, e)
    = if negb (existsb inc [0; 1; 2; 3]%Z) then (bf, forces, e)
      else
        let '(bf', forces') :=
          accumulateForces inc dx dy dz dEdR (rd neighbors i) bf forces in
        (bf', forces',
         match e with
         | Some e => Some (addIncludedEnergy inc energy e)
         | None => None
         end).
Proof.
  unfold calculateBlockEwaldIxn_neighbor.
  destruct (getDeltaR4 _ _ _ _ _ _ _) as [[[dx dy] dz] r2].
  destruct (blockSwitch _ _) as [switchValue switchDeriv].
  destruct (useSwitch f);
    do 6 eexists; intros bf forces e; reflexivity.
Qed.

Lemma offset_store4 (N : Z) (G : Z -> R) (F1 F0 : list R) (a : Z) (w1 w0 : fvec4) :
  offset N G F1 F0 -> (0 <= a < N)%Z ->
  (forall m, (0 <= m < 4)%Z -> V.get w1 m = G (4 * a + m)%Z + V.get w0 m) ->
  offset N G (store4 F1 (4 * a) w1) (store4 F0 (4 * a) w0).
Proof.
  intros (L1 & L0 & Hk) Ha Hw. unfold offset. rewrite !length_store4.
  split; [exact L1 |]. split; [exact L0 |].
  intros k Hkr.
  destruct (Z_lt_dec k (4 * a)) as [Hlt | Hge].
  - rewrite !rd_store4_other by lia. apply Hk. exact Hkr.
  - destruct (Z_le_dec (4 * a + 4) k) as [Hle | Hin].
    + rewrite !rd_store4_other by lia. apply Hk. exact Hkr.
    + replace k with (4 * a + (k - 4 * a))%Z by lia.
      rewrite !rd_store4_lane by lia. apply Hw. lia.
Qed.

Lemma get_sub_rows (inc : Z -> bool) (row : Z -> fvec4) (v v' : fvec4) (m : Z) :
  V.get (foldl (fun af j => if inc j then V.sub af (row j) else af) v
           [0; 1; 2; 3]%Z) m
  - V.get (foldl (fun af j => if inc j then V.sub af (row j) else af) v'
             [0; 1; 2; 3]%Z) m
  = V.get v m - V.get v' m.
Proof.
  cbn [foldl].
  destruct (inc 0%Z), (inc 1%Z), (inc 2%Z), (inc 3%Z);
    repeat rewrite get_sub; ring.
Qed.

Lemma addIncludedEnergy_shift (inc : Z -> bool) (energy : fvec4) (e x : R) :
  addIncludedEnergy inc energy (e + x) = e + addIncludedEnergy inc energy x.
Proof.
  unfold addIncludedEnergy. rewrite !for_loop_0_4.
  destruct (inc 0%Z), (inc 1%Z), (inc 2%Z), (inc 3%Z); ring.
Qed.


Lemma accumulate_offset (N : Z) (G : Z -> R) (e : option R) (inc : Z -> bool)
    (dx dy dz dEdR energy : fvec4) (atom : Z)
    (st1 st0 : (Z -> fvec4) * list R * option R) :
  (0 <= atom < N)%Z -> block_offset N G e st1 st0 ->
  let step (st : (Z -> fvec4) * list R * option R) :=
    if negb (existsb inc [0; 1; 2; 3]%Z) then st
    else
      let '(bf', forces') :=
        accumulateForces inc dx dy dz dEdR atom st.1.1 st.1.2 in
      (bf', forces',
       match st.2 with
       | Some e => Some (addIncludedEnergy inc energy e)
       | None => None
       end) in
  block_offset N G e (step st1) (step st0).
Proof.
  intros Hatom (Hbf & Hoff & (x & Hx0 & Hx1)) step. subst step. cbv beta.
  destruct (negb _);
    [split; [exact Hbf | split; [exact Hoff | exists x; split; assumption]] |].
  destruct (accumulateForces_rows inc dx dy dz dEdR atom st1.1.1 st1.1.2)
    as [B1 F1].
  destruct (accumulateForces_rows inc dx dy dz dEdR atom st0.1.1 st0.1.2)
    as [B0 F0].
  cbv zeta in B1, F1, B0, F0.
  destruct (accumulateForces inc dx dy dz dEdR atom st1.1.1 st1.1.2) as [bf1 f1].
  destruct (accumulateForces inc dx dy dz dEdR atom st0.1.1 st0.1.2) as [bf0 f0].
  cbn [fst snd] in *.
  split; [| split].
  - intros j Hj. rewrite B1, B0 by exact Hj. rewrite Hbf by exact Hj. reflexivity.
  - subst f1 f0. apply offset_store4; [exact Hoff | exact Hatom |].
    intros m Hm.
    pose proof (get_sub_rows inc
                  (fun j => Fvec4 (V.get dx j * V.get dEdR j)
                              (V.get dy j * V.get dEdR j)
                              (V.get dz j * V.get dEdR j) 0)
                  (load4 st1.1.2 (4 * atom)) (load4 st0.1.2 (4 * atom)) m) as Hd.
    rewrite !load4_lane in Hd by exact Hm.
    destruct Hoff as (_ & _ & Hk). rewrite (Hk (4 * atom + m)%Z) in Hd by lia.
    lra.
  - rewrite Hx0, Hx1. exists (addIncludedEnergy inc energy x).
    split; [reflexivity |]. destruct e as [e |]; [| reflexivity].
    rewrite addIncludedEnergy_shift. reflexivity.
Qed.

Lemma offset_add (N : Z) (G : Z -> R) (F1 F0 : list R) (a : Z) (v1 v0 : fvec4) :
  offset N G F1 F0 -> (0 <= a < N)%Z -> v1 = v0 ->
  offset N G (store4 F1 (4 * a) (V.add (load4 F1 (4 * a)) v1))
    (store4 F0 (4 * a) (V.add (load4 F0 (4 * a)) v0)).
Proof.
  intros Hoff Ha ->. apply offset_store4; [exact Hoff | exact Ha |].
  intros m Hm. rewrite !get_add, !load4_lane by exact Hm.
  destruct Hoff as (_ & _ & Hk). rewrite (Hk (4 * a + m)%Z) by lia. ring.
Qed.

Lemma recordBlockForces_offset (N : Z) (G : Z -> R) (b : BlockData)
    (bf1 bf0 : Z -> fvec4) (F1 F0 : list R) :
  (forall j, (0 <= j < 4)%Z -> (0 <= blockAtom b j < N)%Z) ->
  (forall j, (0 <= j < 4)%Z -> bf1 j = bf0 j) ->
  offset N G F1 F0 ->
  offset N G (recordBlockForces b bf1 F1) (recordBlockForces b bf0 F0).
Proof.
  intros Hb Hbf Hoff. unfold recordBlockForces. rewrite !for_loop_0_4.
  repeat (apply offset_add; [| apply Hb; lia | apply Hbf; lia]).
  exact Hoff.
Qed.

Lemma calculateBlockIxn_offset (f : CpuNonbondedForce) (a : DirectArgs)
    (N blockIndex : Z) (G : Z -> R) (e : option R) (F1 F0 : list R)
    (e1 e0 : option R) (boxSize invBoxSize : fvec4) :
  valid_block f N blockIndex -> offset N G F1 F0 -> energy_offset e e1 e0 ->
  let o1 := calculateBlockIxn f a blockIndex F1 e1 boxSize invBoxSize in
  let o0 := calculateBlockIxn f a blockIndex F0 e0 boxSize invBoxSize in
  offset N G o1.1 o0.1 /\ energy_offset e o1.2 o0.2.
Proof.
  intros [Hb Hn] Hoff He. cbv zeta. unfold calculateBlockIxn.
  set (b := loadBlock f a blockIndex).
  set (neighbors := rd (getBlockNeighbors (neighborList f)) blockIndex) in *.
  match goal with
  | |- context [for_loop 0 ?hi ?body (?bf, F1, e1)] =>
      pose proof (for_loop_related_range (block_offset N G e) 0 hi body body
                    (bf, F1, e1) (bf, F0, e0)) as Hrel
  end.
  destruct Hrel as (Rbf & Roff & Ren).
  - split; [reflexivity |]. split; assumption.
  - intros i st1 st0 Hi Hst.
    destruct (calculateBlockIxn_neighbor_shape f a b
                (periodic f && nearBoxFace f b boxSize) neighbors
                (rd (getBlockExclusions (neighborList f)) blockIndex)
                boxSize invBoxSize i)
      as (inc & dx & dy & dz & dEdR & energy & Hshape).
    destruct st1 as [[bf1 f1] x1], st0 as [[bf0 f0] x0].
    rewrite !Hshape.
    apply (accumulate_offset N G e inc dx dy dz dEdR energy (rd neighbors i)
             (bf1, f1, x1) (bf0, f0, x0)); [apply Hn; exact Hi | exact Hst].
  - destruct (for_loop _ _ _ (_, F1, e1)) as [[bf1 f1] x1].
    destruct (for_loop _ _ _ (_, F0, e0)) as [[bf0 f0] x0].
    cbn [fst snd] in *. split; [| exact Ren].
    apply recordBlockForces_offset; assumption.
Qed.

Lemma calculateBlockEwaldIxn_offset (f : CpuNonbondedForce) (a : DirectArgs)
    (y : Z -> fvec4) (N blockIndex : Z) (G : Z -> R) (e : option R)
    (F1 F0 : list R) (e1 e0 : option R) (boxSize invBoxSize : fvec4) :
  valid_block f N blockIndex -> offset N G F1 F0 -> energy_offset e e1 e0 ->
  let o1 := calculateBlockEwaldIxn f a y blockIndex F1 e1 boxSize invBoxSize in
  let o0 := calculateBlockEwaldIxn f a y blockIndex F0 e0 boxSize invBoxSize in
  offset N G o1.1 o0.1 /\ energy_offset e o1.2 o0.2.
Proof.
  intros [Hb Hn] Hoff He. cbv zeta. unfold calculateBlockEwaldIxn.
  set (b := loadBlock f a blockIndex).
  set (neighbors := rd (getBlockNeighbors (neighborList f)) blockIndex) in *.
  match goal with
  | |- context [for_loop 0 ?hi ?body (?bf, F1, e1)] =>
      pose proof (for_loop_related_range (block_offset N G e) 0 hi body body
                    (bf, F1, e1) (bf, F0, e0)) as Hrel
  end.
  destruct Hrel as (Rbf & Roff & Ren).
  - split; [reflexivity |]. split; assumption.
  - intros i st1 st0 Hi Hst.
    destruct (calculateBlockEwaldIxn_neighbor_shape f a b
                (nearBoxFace f b boxSize) neighbors
                (rd (getBlockExclusions (neighborList f)) blockIndex)
                boxSize invBoxSize y i)
      as (inc & dx & dy & dz & dEdR & energy & Hshape).
    destruct st1 as [[bf1 f1] x1], st0 as [[bf0 f0] x0].
    rewrite !Hshape.
    apply (accumulate_offset N G e inc dx dy dz dEdR energy (rd neighbors i)
             (bf1, f1, x1) (bf0, f0, x0)); [apply Hn; exact Hi | exact Hst].
  - destruct (for_loop _ _ _ (_, F1, e1)) as [[bf1 f1] x1].
    destruct (for_loop _ _ _ (_, F0, e0)) as [[bf0 f0] x0].
    cbn [fst snd] in *. split; [| exact Ren].
    apply recordBlockForces_offset; assumption.
Qed.

End BlockAdditive.

(** ** The blocks over the threads *)

Section ThreadCountBlocks.
Context {ext : Externals}.

Lemma zeroForces_long (a : DirectArgs) :
  (4 * numberOfAtoms a <= Z.of_nat (length (zeroForces a)))%Z.
Proof. unfold zeroForces. rewrite length_replicate. lia. Qed.

(** A run of steps each of which adds its own term to the force slots and
    to the energy. *)
Lemma calls_sum {A : Type} (N : Z) (step : A -> list R * R -> list R * R)
    (termF : A -> Z -> R) (termE : A -> R) (l : list A) (st : list R * R) :
  (forall x s, x ∈ l -> (4 * N <= Z.of_nat (length s.1))%Z ->
     (4 * N <= Z.of_nat (length (step x s).1))%Z /\
     (forall k, (0 <= k < 4 * N)%Z -> rd (step x s).1 k = rd s.1 k + termF x k) /\
     (step x s).2 = s.2 + termE x) ->
  (4 * N <= Z.of_nat (length st.1))%Z ->
  let out := foldl (fun s x => step x s) st l in
  (4 * N <= Z.of_nat (length out.1))%Z /\
  (forall k, (0 <= k < 4 * N)%Z ->
     rd out.1 k = rd st.1 k + sumR ((fun x => termF x k) <$> l)) /\
  out.2 = st.2 + sumR (termE <$> l).
Proof.
  revert st. induction l as [| x l IH]; intros st Hstep Hlen out; subst out.
  - cbn [foldl]. change (sumR []) with 0.
    assert (Hnil : forall k, sumR ((fun x => termF x k) <$> []) = 0) by reflexivity.
    split; [exact Hlen |]. split; [intros k _; rewrite Hnil; ring | rewrite fmap_nil; change (sumR []) with 0; ring].
  - cbn [foldl].
    destruct (Hstep x st) as (L1 & F1 & E1); [left | exact Hlen |].
    destruct (IH (step x st)) as (L & F & E).
    { intros x' s Hx'. apply Hstep. right. exact Hx'. }
    { exact L1. }
    split; [exact L |]. split.
    + intros k Hk. rewrite F, F1 by exact Hk. rewrite fmap_cons, sumR_cons. ring.
    + rewrite E, E1, fmap_cons, sumR_cons. ring.
Qed.

Lemma sumR_if (inc : bool) {A : Type} (h : A -> R) (l : list A) :
  sumR ((fun x => if inc then h x else 0) <$> l)
  = if inc then sumR (h <$> l) else 0.
Proof.
  destruct inc; [reflexivity |].
  induction l as [| x l IH]; [reflexivity |].
  rewrite fmap_cons, sumR_cons, IH. ring.
Qed.

(** What a kernel that is additive in the above sense does under
    [with_energyPtr]. *)
Lemma with_energyPtr_term (N : Z) (includeEnergy : bool)
    (kernel : list R -> option R -> list R * option R) (F0 : list R) (x0 : R)
    (s : list R * R) :
  (forall G e F1 e1, offset N G F1 F0 -> energy_offset e e1 (Some 0) ->
     offset N G (kernel F1 e1).1 (kernel F0 (Some 0)).1 /\
     energy_offset e (kernel F1 e1).2 (kernel F0 (Some 0)).2) ->
  (4 * N <= Z.of_nat (length F0))%Z ->
  (forall k, (0 <= k < 4 * N)%Z -> rd F0 k = 0) ->
  (4 * N <= Z.of_nat (length s.1))%Z ->
  let out := with_energyPtr includeEnergy (fun p => kernel s.1 p) s.2 in
  let term := kernel F0 (Some 0) in
  (4 * N <= Z.of_nat (length out.1))%Z /\
  (forall k, (0 <= k < 4 * N)%Z -> rd out.1 k = rd s.1 k + rd term.1 k) /\
  out.2 = s.2 + (if includeEnergy then default 0 term.2 else 0).
Proof.
  intros Hk L0 Z0 Ls out term. subst out term.
  destruct (Hk (rd s.1) (if includeEnergy then Some s.2 else None) s.1
              (if includeEnergy then Some s.2 else None))
    as ((L1 & _ & HF) & (x & Hx & HE)).
  { split; [exact Ls |]. split; [exact L0 |].
    intros k Hkr. rewrite Z0 by exact Hkr. ring. }
  { exists 0. split; [reflexivity |].
    destruct includeEnergy; [f_equal; ring | reflexivity]. }
  unfold with_energyPtr.
  destruct (kernel s.1 _) as [F1 e1]. cbn [fst snd] in *.
  split; [exact L1 |]. split; [exact HF |].
  rewrite Hx, HE. destruct includeEnergy; cbn; ring.
Qed.

Lemma threads_blocks_Permutation (n numThreads : Z) :
  (0 < numThreads)%Z ->
  seqZ 0 numThreads ≫= (fun t => strided t n numThreads) ≡ₚ seqZ 0 n.
Proof.
  intros HT. apply NoDup_Permutation.
  - apply NoDup_threads_strided. exact HT.
  - apply NoDup_seqZ.
  - intros x. etransitivity; [apply (elem_of_threads_strided _ _ x HT) |].
    rewrite elem_of_seqZ. lia.
Qed.

(** X19: with a cutoff and without Ewald or PME, what calculateDirectIxn
    adds does not depend on the number of threads: when the neighbour list
    names atoms of the system, every force slot receives the sum, over the
    blocks [0 .. numBlocks - 1], of what calculateBlockIxn leaves in that
    slot for the block when started from cleared forces, and the energy
    receives the sum of the blocks' energies. *)
Theorem calculateDirectIxn_blocks_thread_count (f : CpuNonbondedForce)
    (a : DirectArgs) (y : Z -> Z -> Z -> fvec4) (forces : list R)
    (totalEnergy : option R) (numThreads : Z) :
  ewald f = false -> pme f = false -> cutoff f = true ->
  (0 < numThreads)%Z ->
  valid_neighborList f (numberOfAtoms a) ->
  (4 * numberOfAtoms a <= Z.of_nat (length forces))%Z ->
  let boxSize := Fvec4 (periodicBoxSize f).1.1 (periodicBoxSize f).1.2
                   (periodicBoxSize f).2 0 in
  let invBoxSize := Fvec4 (1 / (periodicBoxSize f).1.1) (1 / (periodicBoxSize f).1.2)
                      (1 / (periodicBoxSize f).2) 0 in
  let blocks := seqZ 0 (getNumBlocks (neighborList f)) in
  let out := calculateDirectIxn f a y forces totalEnergy numThreads in
  (forall k, (0 <= k < 4 * numberOfAtoms a)%Z ->
     rd out.1 k
     = rd forces k
       + sumR ((fun b => rd (blockTerm f a boxSize invBoxSize b).1 k) <$> blocks)) /\
  out.2 = match totalEnergy with
          | Some e =>
              Some (e + sumR ((fun b => (blockTerm f a boxSize invBoxSize b).2)
                                <$> blocks))
          | None => None
          end.
Proof.
  intros He Hp Hc HT Hnl Hlen boxSize invBoxSize blocks out.
  set (inc := bool_decide (is_Some totalEnergy)).
  set (mine := fun t => strided t (getNumBlocks (neighborList f)) numThreads).
  assert (Hthread : forall t, (0 <= t < numThreads)%Z ->
    let part := threadComputeDirect f a inc (y t) numThreads t in
    (forall k, (0 <= k < 4 * numberOfAtoms a)%Z ->
       rd part.1 k
       = sumR ((fun b => rd (blockTerm f a boxSize invBoxSize b).1 k) <$> mine t)) /\
    part.2 = if inc
             then sumR ((fun b => (blockTerm f a boxSize invBoxSize b).2) <$> mine t)
             else 0).
  { intros t Ht part. subst part. unfold threadComputeDirect.
    subst boxSize invBoxSize.
    destruct (periodicBoxSize f) as [[bx by_] bz]. cbn [fst snd].
    rewrite He, Hp, Hc. cbn [orb]. fold (zeroForces a). fold (mine t).
    set (box := Fvec4 bx by_ bz 0).
    set (inv := Fvec4 (1 / bx) (1 / by_) (1 / bz) 0).
    destruct (calls_sum (numberOfAtoms a)
                (fun b s => with_energyPtr inc
                   (fun p => calculateBlockIxn f a b s.1 p box inv) s.2)
                (fun b k => rd (blockTerm f a box inv b).1 k)
                (fun b => if inc then (blockTerm f a box inv b).2 else 0)
                (mine t) (zeroForces a, 0))
      as (_ & HF & HE).
    - intros b s Hb Ls. apply strided_owner in Hb; [| lia | lia].
      apply (with_energyPtr_term (numberOfAtoms a) inc
               (fun F p => calculateBlockIxn f a b F p box inv) (zeroForces a) 0 s);
        [| apply zeroForces_long | intros k _; apply rd_zeroForces | exact Ls].
      intros G e F1 e1 Hoff Hen.
      apply (calculateBlockIxn_offset f a (numberOfAtoms a) b G e F1 (zeroForces a)
               e1 (Some 0) box inv); [apply Hnl; lia | exact Hoff | exact Hen].
    - apply zeroForces_long.
    - split.
      + intros k Hk. rewrite HF by exact Hk. cbn [fst]. rewrite rd_zeroForces. ring.
      + rewrite HE. cbn [snd]. rewrite sumR_if. ring. }
  destruct (calculateDirectIxn_parts f a y forces totalEnergy numThreads Hlen)
    as (_ & Hf & _ & Hen).
  fold inc in Hf, Hen. fold out in Hf, Hen.
  assert (Hperm : seqZ 0 numThreads ≫= mine ≡ₚ blocks)
    by (apply threads_blocks_Permutation; exact HT).
  split.
  - intros k Hk. rewrite Hf by exact Hk. f_equal.
    rewrite (sumR_fmap_ext _
               (fun t => sumR ((fun b => rd (blockTerm f a boxSize invBoxSize b).1 k)
                                 <$> mine t))).
    2:{ intros t Ht. apply elem_of_seqZ in Ht. apply Hthread; [lia | exact Hk]. }
    rewrite <- sumR_bind. apply sumR_Permutation. rewrite Hperm. reflexivity.
  - rewrite Hen. destruct totalEnergy as [e |]; [| reflexivity].
    do 2 f_equal.
    rewrite (sumR_fmap_ext _
               (fun t => sumR ((fun b => (blockTerm f a boxSize invBoxSize b).2)
                                 <$> mine t))).
    2:{ intros t Ht. apply elem_of_seqZ in Ht.
        destruct (Hthread t ltac:(lia)) as [_ H2]. rewrite H2. reflexivity. }
    rewrite <- sumR_bind. apply sumR_Permutation. rewrite Hperm. reflexivity.
Qed.

End ThreadCountBlocks.

Lemma calculateDirectIxn_blocks_thread_count_witness :
  let forces := [1; 2; 3; 0; 4; 5; 6; 0; 7; 8; 9; 0; 1; 1; 1; 0; 2; 2; 2; 0] in
  let box := Fvec4 4 4 4 0 in
  let inv := Fvec4 (1 / 4) (1 / 4) (1 / 4) 0 in
  (@calculateDirectIxn sampleExternals sampleBlockForce sampleBlockAtoms
     (fun _ _ _ => V.splat 0) forces (Some 7) 2).2
  = Some (7 + sumR ((fun b => (@blockTerm sampleExternals sampleBlockForce
                                 sampleBlockAtoms box inv b).2) <$> seqZ 0 1)).
Proof.
  intros forces box inv.
  destruct (@calculateDirectIxn_blocks_thread_count sampleExternals sampleBlockForce
              sampleBlockAtoms (fun _ _ _ => V.splat 0) forces (Some 7) 2)
    as (_ & H); try reflexivity; try lia.
  - exact sampleBlock_valid.
  - exact H.
Defined.

(** ** The Ewald blocks and corrections over the threads *)

Section ThreadCountEwald.
Context {ext : Externals}.

Lemma offset_sub (N : Z) (G : Z -> R) (F1 F0 : list R) (a : Z) (v : fvec4) :
  offset N G F1 F0 -> (0 <= a < N)%Z ->
  offset N G (store4 F1 (4 * a) (V.sub (load4 F1 (4 * a)) v))
    (store4 F0 (4 * a) (V.sub (load4 F0 (4 * a)) v)).
Proof.
  intros Hoff Ha. apply offset_store4; [exact Hoff | exact Ha |].
  intros m Hm. rewrite !get_sub, !load4_lane by exact Hm.
  destruct Hoff as (_ & _ & Hk). rewrite (Hk (4 * a + m)%Z) by lia. ring.
Qed.

Lemma exclusionCorrection_term (f : CpuNonbondedForce) (a : DirectArgs)
    (includeEnergy : bool) (boxSize invBoxSize : fvec4) (p : Z * Z)
    (s : list R * R) :
  (0 <= p.1 < numberOfAtoms a)%Z -> (0 <= p.2 < numberOfAtoms a)%Z ->
  (4 * numberOfAtoms a <= Z.of_nat (length s.1))%Z ->
  let out := exclusionCorrection f a includeEnergy boxSize invBoxSize p.1 p.2 s in
  let term := correctionTerm f a boxSize invBoxSize p in
  (4 * numberOfAtoms a <= Z.of_nat (length out.1))%Z /\
  (forall k, (0 <= k < 4 * numberOfAtoms a)%Z ->
     rd out.1 k = rd s.1 k + rd term.1 k) /\
  out.2 = s.2 + (if includeEnergy then term.2 else 0).
Proof.
  destruct s as [F e], p as [i j]. cbn [fst snd]. intros Hi Hj Hlen. cbv zeta.
  unfold correctionTerm, exclusionCorrection. cbn [fst snd].
  destruct (getDeltaR _ _ _ _ _) as [deltaR r2]. cbn [fst snd].
  match goal with
  | |- context [V.add _ ?res] => set (result := res)
  end.
  assert (Hoff : offset (numberOfAtoms a) (rd F)
                   (store4 (store4 F (4 * i) (V.sub (load4 F (4 * i)) result)) (4 * j)
                      (V.add (load4 (store4 F (4 * i) (V.sub (load4 F (4 * i)) result))
                                (4 * j)) result))
                   (store4 (store4 (zeroForces a) (4 * i)
                              (V.sub (load4 (zeroForces a) (4 * i)) result)) (4 * j)
                      (V.add (load4 (store4 (zeroForces a) (4 * i)
                                       (V.sub (load4 (zeroForces a) (4 * i)) result))
                                (4 * j)) result))).
  { apply offset_add; [| exact Hj | reflexivity].
    apply offset_sub; [| exact Hi].
    split; [exact Hlen |]. split; [apply zeroForces_long |].
    intros k _. rewrite rd_zeroForces. ring. }
  destruct Hoff as (L1 & _ & HF).
  split; [exact L1 |]. split; [exact HF |].
  destruct includeEnergy; ring.
Qed.

Lemma subtractExclusions_as_calls (f : CpuNonbondedForce) (a : DirectArgs)
    (includeEnergy : bool) (numThreads t : Z) (boxSize invBoxSize : fvec4)
    (st : list R * R) :
  subtractExclusions f a includeEnergy numThreads t boxSize invBoxSize st
  = foldl (fun st p =>
      exclusionCorrection f a includeEnergy boxSize invBoxSize p.1 p.2 st)
      st (excludedPairs a numThreads t).
Proof.
  unfold subtractExclusions, excludedPairs.
  rewrite foldl_bind. apply foldl_pointwise. intros c i.
  rewrite foldl_bind. apply foldl_pointwise. intros c' j.
  destruct (i <? j)%Z; reflexivity.
Qed.

Lemma elem_of_all_excluded (a : DirectArgs) (numThreads : Z) (p : Z * Z) :
  (0 < numThreads)%Z ->
  p ∈ seqZ 0 numThreads ≫= excludedPairs a numThreads <->
  (0 <= p.1 < numberOfAtoms a)%Z /\ (p.1 < p.2)%Z /\ p.2 ∈ rd (exclusions a) p.1.
Proof.
  intros HT. destruct p as [i j]. cbn [fst snd].
  rewrite list_elem_of_bind. split.
  - intros [t [Hin Ht]]. apply elem_of_seqZ in Ht.
    apply elem_of_excludedPairs in Hin as [Hi [Hj Hex]].
    apply strided_owner in Hi; [| lia | lia]. split; [lia |]. split; assumption.
  - intros [Hi [Hj Hex]]. exists (i mod numThreads)%Z.
    pose proof (Z.mod_pos_bound i numThreads HT).
    split; [| apply elem_of_seqZ; lia].
    apply elem_of_excludedPairs. split; [| split; assumption].
    apply strided_owner; [lia | lia |]. split; [lia | reflexivity].
Qed.

Lemma NoDup_all_excluded (a : DirectArgs) (numThreads : Z) :
  (0 < numThreads)%Z ->
  NoDup (seqZ 0 numThreads ≫= excludedPairs a numThreads).
Proof.
  intros HT. apply NoDup_bind.
  - intros t1 t2 [i j] Ht1 Ht2 H1 H2.
    apply elem_of_seqZ in Ht1, Ht2.
    apply elem_of_excludedPairs in H1 as [H1 _], H2 as [H2 _].
    apply strided_owner in H1, H2; lia.
  - intros t _. apply NoDup_excludedPairs. exact HT.
  - apply NoDup_seqZ.
Qed.

Lemma all_excluded_Permutation (a : DirectArgs) (numThreads : Z) :
  (0 < numThreads)%Z ->
  seqZ 0 numThreads ≫= excludedPairs a numThreads ≡ₚ excludedPairs a 1 0.
Proof.
  intros HT.
  assert (E : seqZ 0 1 ≫= excludedPairs a 1 = excludedPairs a 1 0).
  { change (seqZ 0 1) with [0%Z]. rewrite bind_cons. apply app_nil_r. }
  rewrite <- E. apply NoDup_Permutation.
  - apply NoDup_all_excluded. exact HT.
  - apply NoDup_all_excluded. lia.
  - intros p. rewrite !elem_of_all_excluded by lia. reflexivity.
Qed.

(** With a table made for the cutoff, the kernel does not depend on what
    ewaldScaleFunction finds in its local array. *)
Lemma calculateBlockEwaldIxn_any_y (f : CpuNonbondedForce) (a : DirectArgs)
    (y y' : Z -> fvec4) (blockIndex : Z) (forces : list R) (e : option R)
    (boxSize invBoxSize : fvec4) :
  0 < cutoffDistance f -> table_matches_cutoff f ->
  calculateBlockEwaldIxn f a y blockIndex forces e boxSize invBoxSize
  = calculateBlockEwaldIxn f a y' blockIndex forces e boxSize invBoxSize.
Proof.
  intros Hc Hinv. unfold calculateBlockEwaldIxn.
  set (b := loadBlock f a blockIndex).
  set (neighbors := rd (getBlockNeighbors (neighborList f)) blockIndex).
  set (excl := rd (getBlockExclusions (neighborList f)) blockIndex).
  assert (E : for_loop 0 (Z.of_nat (length neighbors))
                (calculateBlockEwaldIxn_neighbor f a b (nearBoxFace f b boxSize)
                   neighbors excl boxSize invBoxSize y)
                (fun _ => V.splat 0, forces, e)
              = for_loop 0 (Z.of_nat (length neighbors))
                  (calculateBlockEwaldIxn_neighbor f a b (nearBoxFace f b boxSize)
                     neighbors excl boxSize invBoxSize y')
                  (fun _ => V.splat 0, forces, e)).
  { apply (for_loop_related eq); [reflexivity |].
    intros i s1 s2 <-. destruct s1 as [[blockAtomForce F] totalEnergy].
    unfold calculateBlockEwaldIxn_neighbor.
    destruct (getDeltaR4 _ _ _ _ _ _ _) as [[[dx dy] dz] r2].
    destruct (negb _); [reflexivity |].
    destruct (blockSwitch f (V.map sqrt r2)) as [switchValue switchDeriv].
    assert (Hlane : forall j, (0 <= j < 4)%Z ->
              ewaldInclude f (rd excl i) r2 j = true ->
              V.get (ewaldScaleFunction f (y i) (V.map sqrt r2)) j
              = V.get (ewaldScaleFunction f (y' i) (V.map sqrt r2)) j).
    { intros j Hj Hinc.
      destruct (ewaldInclude_int_lane f _ r2 j Hc Hinv Hinc) as [Hint Hlt].
      rewrite !ewaldScaleFunction_lane by exact Hj. cbn zeta.
      rewrite get_map, Hint.
      destruct (Z.ltb_spec (Zfloor (sqrt (V.get r2 j) * ewaldDXInv f))
                  NUM_TABLE_POINTS); [reflexivity | lia]. }
    destruct (useSwitch f).
    - erewrite accumulateForces_included; [reflexivity |].
      intros j Hj Hinc.
      repeat (rewrite get_sub || rewrite get_mul || rewrite get_add).
      rewrite (Hlane j Hj Hinc). reflexivity.
    - erewrite accumulateForces_included; [reflexivity |].
      intros j Hj Hinc.
      repeat (rewrite get_sub || rewrite get_mul || rewrite get_add).
      rewrite (Hlane j Hj Hinc). reflexivity. }
  rewrite E. reflexivity.
Qed.

(** X20: with Ewald or PME, a positive cutoff and a table made for it, what
    calculateDirectIxn adds depends neither on the number of threads nor on
    what ewaldScaleFunction finds in its local array: every force slot
    receives the sum over the blocks of what calculateBlockEwaldIxn adds for
    the block, plus the sum over the excluded pairs [i < j], [j] in
    [exclusions[i]], of what the exclusion correction adds for the pair, and
    the energy likewise. *)
Theorem calculateDirectIxn_ewald_thread_count (f : CpuNonbondedForce)
    (a : DirectArgs) (y : Z -> Z -> Z -> fvec4) (forces : list R)
    (totalEnergy : option R) (numThreads : Z) :
  ewald f || pme f = true ->
  0 < cutoffDistance f -> table_matches_cutoff f ->
  (0 < numThreads)%Z ->
  valid_neighborList f (numberOfAtoms a) -> valid_exclusions a ->
  (4 * numberOfAtoms a <= Z.of_nat (length forces))%Z ->
  let boxSize := Fvec4 (periodicBoxSize f).1.1 (periodicBoxSize f).1.2
                   (periodicBoxSize f).2 0 in
  let invBoxSize := Fvec4 (1 / (periodicBoxSize f).1.1) (1 / (periodicBoxSize f).1.2)
                      (1 / (periodicBoxSize f).2) 0 in
  let blocks := seqZ 0 (getNumBlocks (neighborList f)) in
  let pairs := excludedPairs a 1 0 in
  let out := calculateDirectIxn f a y forces totalEnergy numThreads in
  (forall i j, (i, j) ∈ pairs <->
     (0 <= i < numberOfAtoms a)%Z /\ (i < j)%Z /\ j ∈ rd (exclusions a) i) /\
  (forall k, (0 <= k < 4 * numberOfAtoms a)%Z ->
     rd out.1 k
     = rd forces k
       + sumR ((fun b => rd (ewaldBlockTerm f a boxSize invBoxSize b).1 k) <$> blocks)
       + sumR ((fun p => rd (correctionTerm f a boxSize invBoxSize p).1 k) <$> pairs)) /\
  out.2 = match totalEnergy with
          | Some e =>
              Some (e
                    + sumR ((fun b => (ewaldBlockTerm f a boxSize invBoxSize b).2)
                              <$> blocks)
                    + sumR ((fun p => (correctionTerm f a boxSize invBoxSize p).2)
                              <$> pairs))
          | None => None
          end.
Proof.
  intros Hmode Hc Htab HT Hnl Hex Hlen boxSize invBoxSize blocks pairs out.
  set (inc := bool_decide (is_Some totalEnergy)).
  set (mine := fun t => strided t (getNumBlocks (neighborList f)) numThreads).
  set (bF := fun k b => rd (ewaldBlockTerm f a boxSize invBoxSize b).1 k).
  set (bE := fun b => (ewaldBlockTerm f a boxSize invBoxSize b).2).
  set (cF := fun k p => rd (correctionTerm f a boxSize invBoxSize p).1 k).
  set (cE := fun p => (correctionTerm f a boxSize invBoxSize p).2).
  assert (Hthread : forall t, (0 <= t < numThreads)%Z ->
    let part := threadComputeDirect f a inc (y t) numThreads t in
    (forall k, (0 <= k < 4 * numberOfAtoms a)%Z ->
       rd part.1 k
       = sumR (bF k <$> mine t) + sumR (cF k <$> excludedPairs a numThreads t)) /\
    part.2 = if inc
             then sumR (bE <$> mine t) + sumR (cE <$> excludedPairs a numThreads t)
             else 0).
  { intros t Ht part. subst part bF bE cF cE. unfold threadComputeDirect.
    subst boxSize invBoxSize.
    destruct (periodicBoxSize f) as [[bx by_] bz]. cbn [fst snd].
    rewrite Hmode. fold (zeroForces a). fold (mine t).
    set (box := Fvec4 bx by_ bz 0).
    set (inv := Fvec4 (1 / bx) (1 / by_) (1 / bz) 0).
    rewrite subtractExclusions_as_calls.
    destruct (calls_sum (numberOfAtoms a)
                (fun b s => with_energyPtr inc
                   (fun p => calculateBlockEwaldIxn f a (y t b) b s.1 p box inv) s.2)
                (fun b k => rd (ewaldBlockTerm f a box inv b).1 k)
                (fun b => if inc then (ewaldBlockTerm f a box inv b).2 else 0)
                (mine t) (zeroForces a, 0))
      as (L1 & HF1 & HE1).
    { intros b s Hb Ls. apply strided_owner in Hb; [| lia | lia].
      unfold ewaldBlockTerm. cbn [fst snd].
      rewrite (calculateBlockEwaldIxn_any_y f a (fun _ => V.splat 0) (y t b) b
                 (zeroForces a) (Some 0) box inv Hc Htab).
      apply (with_energyPtr_term (numberOfAtoms a) inc
               (fun F p => calculateBlockEwaldIxn f a (y t b) b F p box inv)
               (zeroForces a) 0 s);
        [| apply zeroForces_long | intros k _; apply rd_zeroForces | exact Ls].
      intros G e F1 e1 Hoff Hen.
      apply (calculateBlockEwaldIxn_offset f a (y t b) (numberOfAtoms a) b G e F1
               (zeroForces a) e1 (Some 0) box inv);
        [apply Hnl; lia | exact Hoff | exact Hen]. }
    { apply zeroForces_long. }
    match goal with
    | |- context [foldl _ ?s (excludedPairs a numThreads t)] => set (st1 := s) in *
    end.
    destruct (calls_sum (numberOfAtoms a)
                (fun p s => exclusionCorrection f a inc box inv p.1 p.2 s)
                (fun p k => rd (correctionTerm f a box inv p).1 k)
                (fun p => if inc then (correctionTerm f a box inv p).2 else 0)
                (excludedPairs a numThreads t) st1)
      as (_ & HF2 & HE2).
    { intros [i j] s Hp Ls.
      apply elem_of_excludedPairs in Hp as (Hi & Hlt & Hj).
      apply strided_owner in Hi; [| lia | lia].
      apply (exclusionCorrection_term f a inc box inv (i, j) s);
        [cbn; lia | cbn; apply (Hex i j); [lia | exact Hj] | exact Ls]. }
    { exact L1. }
    split.
    - intros k Hk. rewrite HF2, HF1 by exact Hk. cbn [fst].
      rewrite rd_zeroForces. ring.
    - rewrite HE2, HE1. cbn [snd]. rewrite !sumR_if. destruct inc; ring. }
  destruct (calculateDirectIxn_parts f a y forces totalEnergy numThreads Hlen)
    as (_ & Hf & _ & Hen).
  fold inc in Hf, Hen. fold out in Hf, Hen.
  assert (Hperm : seqZ 0 numThreads ≫= mine ≡ₚ blocks)
    by (apply threads_blocks_Permutation; exact HT).
  pose proof (all_excluded_Permutation a numThreads HT) as Hperm2.
  fold pairs in Hperm2.
  split; [| split].
  - intros i j. subst pairs.
    assert (E : seqZ 0 1 ≫= excludedPairs a 1 = excludedPairs a 1 0).
    { change (seqZ 0 1) with [0%Z]. rewrite bind_cons. apply app_nil_r. }
    rewrite <- E. apply (elem_of_all_excluded a 1 (i, j)). lia.
  - intros k Hk. rewrite Hf by exact Hk. rewrite Rplus_assoc. f_equal.
    rewrite (sumR_fmap_ext _
               (fun t => sumR (bF k <$> mine t)
                         + sumR (cF k <$> excludedPairs a numThreads t))).
    2:{ intros t Ht. apply elem_of_seqZ in Ht. apply Hthread; [lia | exact Hk]. }
    rewrite sumR_plus, <- !sumR_bind. f_equal.
    + apply sumR_Permutation. rewrite Hperm. reflexivity.
    + apply sumR_Permutation. rewrite Hperm2. reflexivity.
  - rewrite Hen. destruct totalEnergy as [e |]; [| reflexivity].
    f_equal. rewrite Rplus_assoc. f_equal.
    rewrite (sumR_fmap_ext _
               (fun t => sumR (bE <$> mine t)
                         + sumR (cE <$> excludedPairs a numThreads t))).
    2:{ intros t Ht. apply elem_of_seqZ in Ht.
        destruct (Hthread t ltac:(lia)) as [_ H2]. rewrite H2. reflexivity. }
    rewrite sumR_plus, <- !sumR_bind. f_equal.
    + apply sumR_Permutation. rewrite Hperm. reflexivity.
    + apply sumR_Permutation. rewrite Hperm2. reflexivity.
Qed.

End ThreadCountEwald.

Lemma sampleExcluded_valid : valid_exclusions sampleExcludedAtoms.
Proof.
  intros i j Hi. cbn [numberOfAtoms sampleExcludedAtoms] in Hi.
  cbn [exclusions sampleExcludedAtoms].
  assert (Hc : i = 0%Z \/ i = 1%Z \/ i = 2%Z \/ i = 3%Z \/ i = 4%Z) by lia.
  destruct Hc as [-> | [-> | [-> | [-> | ->]]]].
  - change (rd _ 0) with ({[1%Z]} : gset Z). intros Hj.
    apply elem_of_singleton in Hj. subst j. cbn. lia.
  - change (rd _ 1) with ({[0%Z]} : gset Z). intros Hj.
    apply elem_of_singleton in Hj. subst j. cbn. lia.
  - change (rd _ 2) with (∅ : gset Z). intros Hj. apply elem_of_empty in Hj. tauto.
  - change (rd _ 3) with (∅ : gset Z). intros Hj. apply elem_of_empty in Hj. tauto.
  - change (rd _ 4) with (∅ : gset Z). intros Hj. apply elem_of_empty in Hj. tauto.
Qed.

Lemma calculateDirectIxn_ewald_thread_count_witness :
  let forces := [1; 2; 3; 0; 4; 5; 6; 0; 7; 8; 9; 0; 1; 1; 1; 0; 2; 2; 2; 0] in
  let box := Fvec4 4 4 4 0 in
  let inv := Fvec4 (1 / 4) (1 / 4) (1 / 4) 0 in
  (@calculateDirectIxn sampleExternals sampleEwaldBlockForce sampleExcludedAtoms
     (fun _ _ _ => V.splat 5) forces (Some 7) 3).2
  = Some (7
          + sumR ((fun b => (@ewaldBlockTerm sampleExternals sampleEwaldBlockForce
                               sampleExcludedAtoms box inv b).2) <$> seqZ 0 1)
          + sumR ((fun p => (@correctionTerm sampleExternals sampleEwaldBlockForce
                               sampleExcludedAtoms box inv p).2)
                    <$> excludedPairs sampleExcludedAtoms 1 0)).
Proof.
  intros forces box inv.
  destruct (@calculateDirectIxn_ewald_thread_count sampleExternals
              sampleEwaldBlockForce sampleExcludedAtoms (fun _ _ _ => V.splat 5)
              forces (Some 7) 3)
    as (_ & _ & H); try reflexivity; try lia.
  - cbn. lra.
  - unfold table_matches_cutoff.
    cbn [ewaldDXInv cutoffDistance sampleEwaldBlockForce].
    change (NUM_TABLE_POINTS - 2)%Z with 1023%Z. lra.
  - exact sampleBlock_valid.
  - exact sampleExcluded_valid.
  - exact H.
Defined.
